(** * StegaVault container codec: a shallow embedding of [server.js]

    The development follows the server source: the helpers ([u32],
    [bitsNeeded], [readU32BE]), [packPayload], [encryptIfNeeded],
    [embedLSB_RGBA], [parseWavHeader], [embedLSB_WavPCM], the two carrier
    readers of the extract handler, [extractData] and [parseContainer].
    It goes on with the rest of the two servers (the upload filter, the
    download name, the allowed origins, the responses of the two handlers,
    the last error handler, the extract route of the older server), with
    the client's decoding of a file item ([Extract.jsx]) and with the bit
    planes and the signature scan of the analyzer ([Analyze.jsx]).

    Numbers are [Z] (every number the code handles is an integer below
    2^53, where JavaScript arithmetic is exact).  A [Buffer] is a
    [list Z] of bytes; a JavaScript string is a [list Z] of UTF-16 code
    units.  A call that can throw returns an [outcome]; a function that
    mutates its buffer argument in place returns the buffer next to its
    result. *)

From Stdlib Require Import ZArith List Lia Bool String Ascii.
From stdpp Require Import base list.

Local Open Scope Z_scope.

Ltac Zify.zify_post_hook ::= Z.div_mod_to_equations.

(** ** Errors and outcomes *)

(** One constructor per [throw new Error(...)] or [{ error: ... }] of the
    source, plus the two exception classes the runtime raises on its own
    ([RangeError] of the [Buffer] readers and of [Buffer.alloc],
    [TypeError] of a property access on [null] or of iterating a value that
    is not iterable) and the failure of [decipher.final()]. *)
Inductive error : Type :=
| NoSecretData
| SecretRequired
| NotEnoughCapacity (needKB haveKB : Z)
| NotEnoughWavCapacity (needKB haveKB : Z)
| NotRiffWave
| MissingFmt
| NotPcm
| UnsupportedBitDepth (bits : Z)
| MissingData
| OutOfCapacity
| OutOfAudioCapacity
| InvalidEncHeader
| PasswordRequired
| AuthFailed
| NoValidPayload
| CorruptedMetadata
| MagicMismatch
| InvalidFileType (mimetype : list Z)
| InvalidFileType_esm (mimetype : list Z)
| RangeError
| TypeError.

(** [Unmodelled] marks the executions that leave the fragment of JavaScript
    embedded here (a metadata [len] that is not an integer literal, a
    metadata [items] that is a string): the embedding says nothing about
    them. *)
Inductive outcome (A : Type) : Type :=
| Ret (a : A)
| Throw (e : error)
| Unmodelled.

Arguments Ret {A} a.
Arguments Throw {A} e.
Arguments Unmodelled {A}.

#[global] Instance outcome_bind : MBind outcome :=
  fun A B (k : A -> outcome B) (m : outcome A) =>
    match m with
    | Ret a => k a
    | Throw e => Throw e
    | Unmodelled => Unmodelled
    end.

(** ** Strings

    A JavaScript string is the list of its UTF-16 code units.  [str] gives
    the code units of an ASCII literal of the source. *)
Definition str (s : string) : list Z :=
  map (fun c => Z.of_nat (nat_of_ascii c)) (list_ascii_of_string s).

(** [a === b] on two strings. *)
Definition str_eqb (a b : list Z) : bool := bool_decide (a = b).

Definition is_unit (c : Z) : Prop := 0 <= c < 65536.
Definition is_ascii (c : Z) : Prop := 0 <= c < 128.
Definition is_byte (b : Z) : Prop := 0 <= b < 256.
Definition is_bit (b : Z) : Prop := b = 0 \/ b = 1.

Definition is_high_surrogate (c : Z) : bool := (55296 <=? c) && (c <=? 56319).
Definition is_low_surrogate (c : Z) : bool := (56320 <=? c) && (c <=? 57343).

(** A string without lone surrogates: a sequence of code units outside the
    surrogate range and of surrogate pairs. *)
Inductive well_formed : list Z -> Prop :=
| wf_nil : well_formed []
| wf_unit (c : Z) (s : list Z) :
    is_unit c -> is_high_surrogate c = false -> is_low_surrogate c = false ->
    well_formed s -> well_formed (c :: s)
| wf_pair (c d : Z) (s : list Z) :
    is_high_surrogate c = true -> is_low_surrogate d = true ->
    well_formed s -> well_formed (c :: d :: s).

(** *** UTF-8, as [Buffer.from(s, "utf8")] and [buf.toString("utf8")] *)

Definition utf8_encode_cp (cp : Z) : list Z :=
  if cp <? 128 then [cp]
  else if cp <? 2048 then [192 + cp / 64; 128 + cp mod 64]
  else if cp <? 65536 then [224 + cp / 4096; 128 + cp / 64 mod 64; 128 + cp mod 64]
  else [240 + cp / 262144; 128 + cp / 4096 mod 64; 128 + cp / 64 mod 64; 128 + cp mod 64].

(** The bytes of U+FFFD, which replaces a lone surrogate. *)
Definition utf8_replacement : list Z := [239; 191; 189].

Fixpoint utf8_encode (s : list Z) : list Z :=
  match s with
  | [] => []
  | c :: rest =>
      if is_high_surrogate c then
        match rest with
        | d :: rest' =>
            if is_low_surrogate d then
              utf8_encode_cp (65536 + (c - 55296) * 1024 + (d - 56320)) ++ utf8_encode rest'
            else utf8_replacement ++ utf8_encode rest
        | [] => utf8_replacement
        end
      else if is_low_surrogate c then utf8_replacement ++ utf8_encode rest
      else utf8_encode_cp c ++ utf8_encode rest
  end.

(** The code units of a decoded code point. *)
Definition utf16_units (cp : Z) : list Z :=
  if cp <? 65536 then [cp]
  else [55296 + (cp - 65536) / 1024; 56320 + (cp - 65536) mod 1024].

(** What a byte starts when no sequence is pending: an ASCII character, a
    sequence of [needed] more bytes whose next byte must lie in
    [lower, upper], or an error. *)
Inductive utf8_lead : Type :=
| LeadAscii
| LeadSeq (needed cp lower upper : Z)
| LeadBad.

Definition utf8_classify (b : Z) : utf8_lead :=
  if b <=? 127 then LeadAscii
  else if (194 <=? b) && (b <=? 223) then LeadSeq 1 (b mod 32) 128 191
  else if (224 <=? b) && (b <=? 239) then
    LeadSeq 2 (b mod 16) (if b =? 224 then 160 else 128) (if b =? 237 then 159 else 191)
  else if (240 <=? b) && (b <=? 244) then
    LeadSeq 3 (b mod 8) (if b =? 240 then 144 else 128) (if b =? 244 then 143 else 191)
  else LeadBad.

(** The decoder of the Encoding Standard: [needed] continuation bytes are
    pending for the code point [cp]; a byte that cannot continue the
    sequence yields U+FFFD and is then read again as a lead byte. *)
Fixpoint utf8_decode_from (bytes : list Z) (needed cp lower upper : Z) : list Z :=
  match bytes with
  | [] => if needed =? 0 then [] else [65533]
  | b :: rest =>
      let start (pre : list Z) :=
        match utf8_classify b with
        | LeadAscii => pre ++ b :: utf8_decode_from rest 0 0 128 191
        | LeadSeq n c lo up => pre ++ utf8_decode_from rest n c lo up
        | LeadBad => pre ++ 65533 :: utf8_decode_from rest 0 0 128 191
        end in
      if needed =? 0 then start []
      else if (lower <=? b) && (b <=? upper) then
        let cp' := cp * 64 + b mod 64 in
        if needed =? 1 then utf16_units cp' ++ utf8_decode_from rest 0 0 128 191
        else utf8_decode_from rest (needed - 1) cp' 128 191
      else start [65533]
  end.

Definition utf8_decode (bytes : list Z) : list Z := utf8_decode_from bytes 0 0 128 191.

(** *** [String.prototype.trim] *)

(** White space and line terminators of ECMAScript. *)
Definition is_js_whitespace (c : Z) : bool :=
  ((9 <=? c) && (c <=? 13)) || (c =? 32) || (c =? 160) || (c =? 5760)
  || ((8192 <=? c) && (c <=? 8202)) || (c =? 8232) || (c =? 8233) || (c =? 8239)
  || (c =? 8287) || (c =? 12288) || (c =? 65279).

Fixpoint trim_start (s : list Z) : list Z :=
  match s with
  | c :: rest => if is_js_whitespace c then trim_start rest else s
  | [] => []
  end.

Definition trim (s : list Z) : list Z := rev (trim_start (rev (trim_start s))).

(** A string made only of characters that [trim] removes. *)
Definition all_whitespace (s : list Z) : Prop := Forall (fun c => is_js_whitespace c = true) s.

(** *** [buf.toString("base64")] *)

Definition base64_char (v : Z) : Z :=
  if v <? 26 then 65 + v
  else if v <? 52 then 97 + (v - 26)
  else if v <? 62 then 48 + (v - 52)
  else if v =? 62 then 43 else 47.

Fixpoint base64_encode (l : list Z) : list Z :=
  match l with
  | [] => []
  | [a] => [base64_char (a / 4); base64_char (a mod 4 * 16); 61; 61]
  | [a; b] =>
      [base64_char (a / 4); base64_char (a mod 4 * 16 + b / 16);
       base64_char (b mod 16 * 4); 61]
  | a :: b :: c :: rest =>
      [base64_char (a / 4); base64_char (a mod 4 * 16 + b / 16);
       base64_char (b mod 16 * 4 + c / 64); base64_char (c mod 64)] ++ base64_encode rest
  end.


(** *** JSON values *)

(** A number is kept when its literal is a plain integer below 2^53 in
    absolute value, which a double holds exactly; every other number is
    [NOther], and the embedding does not compute with it. *)
Inductive jnum : Type :=
| NInt (z : Z)
| NOther.

#[warnings="-register-all"]
Inductive json : Type :=
| JNull
| JBool (b : bool)
| JNum (n : jnum)
| JStr (s : list Z)
| JArr (elements : list json)
| JObj (members : list (list Z * json)).

(** *** [JSON.stringify] of the metadata *)

Definition hex_digit (d : Z) : Z := if d <? 10 then 48 + d else 87 + d.

(** [\uXXXX], with lower-case digits. *)
Definition unicode_escape (c : Z) : list Z :=
  [92; 117; hex_digit (c / 4096); hex_digit (c / 256 mod 16);
   hex_digit (c / 16 mod 16); hex_digit (c mod 16)].

(** A code unit that is not a surrogate, inside a quoted string. *)
Definition quote_unit (c : Z) : list Z :=
  if c =? 8 then [92; 98]
  else if c =? 9 then [92; 116]
  else if c =? 10 then [92; 110]
  else if c =? 12 then [92; 102]
  else if c =? 13 then [92; 114]
  else if c =? 34 then [92; 34]
  else if c =? 92 then [92; 92]
  else if c <? 32 then unicode_escape c
  else [c].

(** A surrogate pair is copied, a lone surrogate is escaped. *)
Fixpoint quote_units (s : list Z) : list Z :=
  match s with
  | [] => []
  | c :: rest =>
      if is_high_surrogate c then
        match rest with
        | d :: rest' =>
            if is_low_surrogate d then c :: d :: quote_units rest'
            else unicode_escape c ++ quote_units rest
        | [] => unicode_escape c
        end
      else if is_low_surrogate c then unicode_escape c ++ quote_units rest
      else quote_unit c ++ quote_units rest
  end.

Definition QuoteJSONString (s : list Z) : list Z := 34 :: quote_units s ++ [34].

(** The decimal digits of a non-negative integer, as [Number::toString]
    prints every integer below 10^21. *)
Fixpoint decimal_digits (fuel : nat) (n : Z) (acc : list Z) : list Z :=
  let acc' := (48 + n mod 10) :: acc in
  match fuel with
  | O => acc'
  | S fuel' => if n <? 10 then acc' else decimal_digits fuel' (n / 10) acc'
  end.

Definition Number_toString (n : Z) : list Z := decimal_digits (Z.to_nat (Z.log2 n)) n [].

(** An entry of the [items] array of [packPayload]. *)
Record item : Type := {
  item_t : list Z;
  item_name : list Z;
  item_mime : list Z;
  item_len : Z;
  item_data : list Z
}.

(** A property name with its colon. *)
Definition json_key (k : string) : list Z := 34 :: str k ++ [34; 58].

(** [{"t":...,"name":...,"mime":...,"len":...}]: the four properties the
    [map] of [packPayload] keeps, in that order. *)
Definition stringify_item (it : item) : list Z :=
  [123] ++ json_key "t" ++ QuoteJSONString (item_t it)
  ++ [44] ++ json_key "name" ++ QuoteJSONString (item_name it)
  ++ [44] ++ json_key "mime" ++ QuoteJSONString (item_mime it)
  ++ [44] ++ json_key "len" ++ Number_toString (item_len it) ++ [125].

Fixpoint join_comma (l : list (list Z)) : list Z :=
  match l with
  | [] => []
  | [x] => x
  | x :: rest => x ++ 44 :: join_comma rest
  end.

(** [JSON.stringify({ v: 1, items: [...] })]. *)
Definition stringify_meta (items : list item) : list Z :=
  [123] ++ json_key "v" ++ [49; 44] ++ json_key "items"
  ++ [91] ++ join_comma (map stringify_item items) ++ [93; 125].

(** The beginning of the metadata of a container whose first item is the
    typed text, character by character, up to the digits of the length:
    [{"v":1,"items":[{"t":"text","name":"message.txt","mime":"text/plain","len":]. *)
Definition text_item_meta : list Z :=
  [123; 34] ++ str "v" ++ [34; 58] ++ str "1," ++ [34] ++ str "items" ++ [34; 58] ++ str "[{"
  ++ [34] ++ str "t" ++ [34; 58; 34] ++ str "text" ++ [34; 44; 34]
  ++ str "name" ++ [34; 58; 34] ++ str "message.txt" ++ [34; 44; 34]
  ++ str "mime" ++ [34; 58; 34] ++ str "text/plain" ++ [34; 44; 34]
  ++ str "len" ++ [34; 58].

(** The value [JSON.parse] is to give back for the metadata. *)
Definition json_of_item (it : item) : json :=
  JObj [(str "t", JStr (item_t it)); (str "name", JStr (item_name it));
        (str "mime", JStr (item_mime it)); (str "len", JNum (NInt (item_len it)))].

Definition json_of_meta (items : list item) : json :=
  JObj [(str "v", JNum (NInt 1)); (str "items", JArr (map json_of_item items))].

(** *** [JSON.parse] *)

Definition is_json_ws (c : Z) : bool := (c =? 32) || (c =? 9) || (c =? 10) || (c =? 13).

Fixpoint skip_ws (s : list Z) : list Z :=
  match s with
  | c :: rest => if is_json_ws c then skip_ws rest else s
  | [] => []
  end.

Definition hex_value (h : Z) : option Z :=
  if (48 <=? h) && (h <=? 57) then Some (h - 48)
  else if (97 <=? h) && (h <=? 102) then Some (h - 87)
  else if (65 <=? h) && (h <=? 70) then Some (h - 55)
  else None.

Definition hex4 (h1 h2 h3 h4 : Z) : option Z :=
  match hex_value h1, hex_value h2, hex_value h3, hex_value h4 with
  | Some a, Some b, Some c, Some d => Some (((a * 16 + b) * 16 + c) * 16 + d)
  | _, _, _, _ => None
  end.

(** The character after a backslash, other than [u]. *)
Definition simple_escape (e : Z) : option Z :=
  if e =? 34 then Some 34
  else if e =? 92 then Some 92
  else if e =? 47 then Some 47
  else if e =? 98 then Some 8
  else if e =? 102 then Some 12
  else if e =? 110 then Some 10
  else if e =? 114 then Some 13
  else if e =? 116 then Some 9
  else None.

(** The characters of a string after its opening quote, up to the closing
    one. *)
Fixpoint parse_string_chars (s : list Z) : option (list Z * list Z) :=
  match s with
  | [] => None
  | c :: r =>
      if c =? 34 then Some ([], r)
      else if c =? 92 then
        match r with
        | [] => None
        | e :: r1 =>
            if e =? 117 then
              match r1 with
              | h1 :: h2 :: h3 :: h4 :: r2 =>
                  match hex4 h1 h2 h3 h4 with
                  | Some u =>
                      match parse_string_chars r2 with
                      | Some (chars, rest) => Some (u :: chars, rest)
                      | None => None
                      end
                  | None => None
                  end
              | _ => None
              end
            else
              match simple_escape e with
              | Some u =>
                  match parse_string_chars r1 with
                  | Some (chars, rest) => Some (u :: chars, rest)
                  | None => None
                  end
              | None => None
              end
        end
      else if c <? 32 then None
      else
        match parse_string_chars r with
        | Some (chars, rest) => Some (c :: chars, rest)
        | None => None
        end
  end.

Definition is_digit (c : Z) : bool := (48 <=? c) && (c <=? 57).
Definition is_digit_char (d : Z) : Prop := 48 <= d <= 57.

Fixpoint span_digits (s : list Z) : list Z * list Z :=
  match s with
  | c :: r =>
      if is_digit c then let '(ds, rest) := span_digits r in (c :: ds, rest) else ([], s)
  | [] => ([], [])
  end.

Definition digits_value (ds : list Z) : Z := fold_left (fun a d => 10 * a + (d - 48)) ds 0.

(** The optional fraction: [None] is a syntax error. *)
Definition parse_fraction (s : list Z) : option (bool * list Z) :=
  match s with
  | c :: r =>
      if c =? 46 then
        match span_digits r with
        | ([], _) => None
        | (_, rest) => Some (true, rest)
        end
      else Some (false, s)
  | [] => Some (false, [])
  end.

(** The optional exponent. *)
Definition parse_exponent (s : list Z) : option (bool * list Z) :=
  match s with
  | c :: r =>
      if (c =? 101) || (c =? 69) then
        let r1 := match r with
                  | sign :: r' => if (sign =? 43) || (sign =? 45) then r' else r
                  | [] => r
                  end in
        match span_digits r1 with
        | ([], _) => None
        | (_, rest) => Some (true, rest)
        end
      else Some (false, s)
  | [] => Some (false, [])
  end.

Definition parse_number (s : list Z) : option (jnum * list Z) :=
  let '(negative, s1) := match s with
                         | c :: r => if c =? 45 then (true, r) else (false, s)
                         | [] => (false, s)
                         end in
  match span_digits s1 with
  | ([], _) => None
  | (d :: ds, s2) =>
      if (d =? 48) && negb (bool_decide (ds = [])) then None
      else
        match parse_fraction s2 with
        | None => None
        | Some (has_fraction, s3) =>
            match parse_exponent s3 with
            | None => None
            | Some (has_exponent, s4) =>
                let v := digits_value (d :: ds) in
                Some (if has_fraction || has_exponent then NOther
                      else if v <? 2 ^ 53 then NInt (if negative then - v else v)
                      else NOther, s4)
            end
        end
  end.

(** [strip_prefix p s] is what follows the literal [p] at the head of [s]. *)
Fixpoint strip_prefix (p s : list Z) : option (list Z) :=
  match p, s with
  | [], _ => Some s
  | a :: p', b :: s' => if a =? b then strip_prefix p' s' else None
  | _ :: _, [] => None
  end.

(** Recursive descent on the JSON grammar.  Each call spends one unit of
    [fuel]; [JSON_parse] gives two units per character, more than any
    descent uses. *)
Fixpoint parse_value (fuel : nat) (s : list Z) : option (json * list Z) :=
  match fuel with
  | O => None
  | S fuel' =>
      match skip_ws s with
      | [] => None
      | c :: r =>
          if c =? 123 then
            match skip_ws r with
            | c' :: r' =>
                if c' =? 125 then Some (JObj [], r')
                else
                  match parse_members fuel' r with
                  | Some (ms, rest) => Some (JObj ms, rest)
                  | None => None
                  end
            | [] => None
            end
          else if c =? 91 then
            match skip_ws r with
            | c' :: r' =>
                if c' =? 93 then Some (JArr [], r')
                else
                  match parse_elements fuel' r with
                  | Some (vs, rest) => Some (JArr vs, rest)
                  | None => None
                  end
            | [] => None
            end
          else if c =? 34 then
            match parse_string_chars r with
            | Some (chars, rest) => Some (JStr chars, rest)
            | None => None
            end
          else if c =? 116 then
            match strip_prefix (str "true") (c :: r) with
            | Some rest => Some (JBool true, rest)
            | None => None
            end
          else if c =? 102 then
            match strip_prefix (str "false") (c :: r) with
            | Some rest => Some (JBool false, rest)
            | None => None
            end
          else if c =? 110 then
            match strip_prefix (str "null") (c :: r) with
            | Some rest => Some (JNull, rest)
            | None => None
            end
          else
            match parse_number (c :: r) with
            | Some (n, rest) => Some (JNum n, rest)
            | None => None
            end
      end
  end
with parse_members (fuel : nat) (s : list Z) : option (list (list Z * json) * list Z) :=
  match fuel with
  | O => None
  | S fuel' =>
      match skip_ws s with
      | [] => None
      | c :: r =>
          if c =? 34 then
            match parse_string_chars r with
            | None => None
            | Some (k, r1) =>
                match skip_ws r1 with
                | [] => None
                | c1 :: r2 =>
                    if c1 =? 58 then
                      match parse_value fuel' r2 with
                      | None => None
                      | Some (v, r3) =>
                          match skip_ws r3 with
                          | [] => None
                          | c3 :: r4 =>
                              if c3 =? 44 then
                                match parse_members fuel' r4 with
                                | Some (ms, rest) => Some ((k, v) :: ms, rest)
                                | None => None
                                end
                              else if c3 =? 125 then Some ([(k, v)], r4)
                              else None
                          end
                      end
                    else None
                end
            end
          else None
      end
  end
with parse_elements (fuel : nat) (s : list Z) : option (list json * list Z) :=
  match fuel with
  | O => None
  | S fuel' =>
      match parse_value fuel' s with
      | None => None
      | Some (v, r) =>
          match skip_ws r with
          | [] => None
          | c :: r' =>
              if c =? 44 then
                match parse_elements fuel' r' with
                | Some (vs, rest) => Some (v :: vs, rest)
                | None => None
                end
              else if c =? 93 then Some ([v], r')
              else None
          end
      end
  end.

(** A property name made of plain characters. *)
Definition plain_key (k : string) : Prop :=
  forall r, parse_string_chars (str k ++ 34 :: r) = Some (str k, r).

(** [JSON.parse(text)]: [None] is the [SyntaxError]. *)
Definition JSON_parse (text : list Z) : option json :=
  match parse_value (2 * length text + 2) text with
  | Some (v, rest) =>
      match skip_ws rest with
      | [] => Some v
      | _ :: _ => None
      end
  | None => None
  end.


(** ** Buffers *)

(** [buf[i]]: [None] is JavaScript's [undefined], the value of an index
    outside the buffer. *)
Definition at_index (buf : list Z) (i : Z) : option Z :=
  if i <? 0 then None else buf !! Z.to_nat i.

(** The operand conversion of [&]: [undefined] becomes 0, a byte stays. *)
Definition ToInt32 (v : option Z) : Z := default 0 v.

(** [buf[i] = v] on a [Uint8Array]: the value is reduced modulo 256, and a
    store outside the buffer is ignored. *)
Definition store (buf : list Z) (i v : Z) : list Z :=
  if i <? 0 then buf else <[Z.to_nat i := v mod 256]> buf.

Definition buf_length (buf : list Z) : Z := Z.of_nat (length buf).

(** [buf.slice(start, end)]: negative positions count from the end, and
    both positions are clamped to the buffer. *)
Definition clamp_index (len i : Z) : Z :=
  if i <? 0 then Z.max (len + i) 0 else Z.min i len.

Definition slice (buf : list Z) (start stop : Z) : list Z :=
  let s := clamp_index (buf_length buf) start in
  let e := clamp_index (buf_length buf) stop in
  take (Z.to_nat (e - s)) (drop (Z.to_nat s) buf).

(** [buf.readUInt32BE(offset)], [buf.readUInt32LE(offset)] and
    [buf.readUInt16LE(offset)] raise a [RangeError] when the first or the
    last byte is outside the buffer. *)
Definition readUInt32BE (buf : list Z) (offset : Z) : outcome Z :=
  match at_index buf offset, at_index buf (offset + 1),
        at_index buf (offset + 2), at_index buf (offset + 3) with
  | Some b0, Some b1, Some b2, Some b3 =>
      Ret (b0 * 2 ^ 24 + b1 * 2 ^ 16 + b2 * 2 ^ 8 + b3)
  | _, _, _, _ => Throw RangeError
  end.

Definition readUInt32LE (buf : list Z) (offset : Z) : outcome Z :=
  match at_index buf offset, at_index buf (offset + 1),
        at_index buf (offset + 2), at_index buf (offset + 3) with
  | Some b0, Some b1, Some b2, Some b3 =>
      Ret (b0 + b1 * 2 ^ 8 + b2 * 2 ^ 16 + b3 * 2 ^ 24)
  | _, _, _, _ => Throw RangeError
  end.

Definition readUInt16LE (buf : list Z) (offset : Z) : outcome Z :=
  match at_index buf offset, at_index buf (offset + 1) with
  | Some b0, Some b1 => Ret (b0 + b1 * 2 ^ 8)
  | _, _ => Throw RangeError
  end.

(** [buf.toString("ascii", start, end)]: the positions are clamped and the
    top bit of every byte is cleared. *)
Definition toString_ascii (buf : list Z) (start stop : Z) : list Z :=
  let len := buf_length buf in
  let s := Z.min (Z.max start 0) len in
  let e := Z.min (Z.max stop 0) len in
  map (fun b => Z.land b 127) (take (Z.to_nat (e - s)) (drop (Z.to_nat s) buf)).

(** ** Helpers of the server *)

(** [u32(n)]: [n >>> 0] written big-endian on four bytes. *)
Definition u32 (n : Z) : list Z :=
  let v := n mod 2 ^ 32 in
  [v / 2 ^ 24; (v / 2 ^ 16) mod 256; (v / 2 ^ 8) mod 256; v mod 256].

Definition bitsNeeded (nBytes : Z) : Z := nBytes * 8.

Definition readU32BE (buf : list Z) : outcome Z := readUInt32BE buf 0.

(** [Math.ceil(bits / 8 / 1024)]: the two divisions by a power of two are
    exact on a double, so this is the integer ceiling of [bits / 8192]. *)
Definition ceilKB (bits : Z) : Z := - ((- bits) / 8192).

(** ** Image carrier: [embedLSB_RGBA] and the image reader *)

(** What an embedding function returns: [{ ok: true, usedBits }] or
    [{ error }]. *)
Inductive embed_result : Type :=
| EmbedOk (usedBits : Z)
| EmbedError (e : error).

(** The values of [b] in [for (let b = 7; b >= 0; b--)]. *)
Definition msb_first : list Z := [7; 6; 5; 4; 3; 2; 1; 0].

(** Body of the inner loop of [embedLSB_RGBA] for the byte [payload[i]]:
    the state is the buffer and [bitIdx]. *)
Definition embedLSB_RGBA_bit (byte : Z) (st : list Z * Z) (b : Z) : list Z * Z :=
  let '(rgbabuf, bitIdx) := st in
  let bit := Z.land (Z.shiftr byte b) 1 in
  let pixelIndex := bitIdx / 3 in
  let channel := bitIdx mod 3 in
  let base := pixelIndex * 4 in
  let chOffset := base + channel in
  (store rgbabuf chOffset (Z.lor (Z.land (ToInt32 (at_index rgbabuf chOffset)) 254) bit),
   bitIdx + 1).

Definition embedLSB_RGBA (rgbabuf : list Z) (width height : Z) (payload : list Z)
  : embed_result * list Z :=
  let capacityBits := width * height * 3 in
  let needBits := bitsNeeded (buf_length payload) in
  if needBits >? capacityBits then
    (EmbedError (NotEnoughCapacity (ceilKB needBits) (ceilKB capacityBits)), rgbabuf)
  else
    let st := fold_left (fun st byte => fold_left (embedLSB_RGBA_bit byte) msb_first st)
                        payload (rgbabuf, 0) in
    (EmbedOk needBits, st.1).

(** [Buffer.alloc(n)] raises a [RangeError] on a negative size and on a
    size the platform does not allocate: one past
    [buffer.constants.MAX_LENGTH], or one for which there is no memory.
    [alloc_limit] is the largest size the platform allocates; it is at
    least 48, the largest size the extraction asks for before it has read
    a length from the carrier.  A buffer that is held has been allocated,
    so the limit is not below its size: where a buffer of [held] bytes is
    at hand, the allocation of [n] bytes fails for an [n] that is negative,
    or above both the limit and [held]. *)
Class Platform : Type := {
  alloc_limit : Z;
  alloc_limit_min : 48 <= alloc_limit
}.

Definition Buffer_alloc_fails `{Platform} (held n : Z) : bool :=
  (n <? 0) || (Z.max alloc_limit held <? n).

(** A reader is its [readBytes] method with the cursor [bitIdx] passed
    explicitly: [readBytes n bitIdx] is the buffer read and the cursor
    after the call.  An exception leaves no cursor: it ends the request. *)
Definition reader : Type := Z -> Z -> outcome (list Z * Z).

(** Inner loop of the image reader's [readBytes]. *)
Fixpoint image_read_byte (buf : list Z) (capacityBits : Z) (bs : list Z) (byte bitIdx : Z)
  : outcome (Z * Z) :=
  match bs with
  | [] => Ret (byte, bitIdx)
  | b :: bs' =>
      if bitIdx >=? capacityBits then Throw OutOfCapacity
      else
        let pixelIndex := bitIdx / 3 in
        let channel := bitIdx mod 3 in
        let base := pixelIndex * 4 in
        let bit := Z.land (ToInt32 (at_index buf (base + channel))) 1 in
        image_read_byte buf capacityBits bs' (Z.lor byte (Z.shiftl bit b)) (bitIdx + 1)
  end.

(** Outer loop: [n] bytes, each stored with [out[i] = byte]. *)
Fixpoint image_read_loop (buf : list Z) (capacityBits : Z) (n : nat) (bitIdx : Z)
  : outcome (list Z * Z) :=
  match n with
  | O => Ret ([], bitIdx)
  | S n' =>
      '(byte, bitIdx1) ← image_read_byte buf capacityBits msb_first 0 bitIdx;
      '(out, bitIdx2) ← image_read_loop buf capacityBits n' bitIdx1;
      Ret (byte mod 256 :: out, bitIdx2)
  end.

(** [readBytes(n)] allocates [out] before it reads the first bit.  The
    buffer at hand is the raw picture, of [width * height * 4] bytes. *)
Definition imageReader `{Platform} (data : list Z) (width height : Z) : reader :=
  fun n bitIdx =>
    if Buffer_alloc_fails (width * height * 4) n then Throw RangeError
    else image_read_loop data (width * height * 3) (Z.to_nat n) bitIdx.

(** ** Audio carrier: [embedLSB_WavPCM] and the audio reader *)

Definition embedLSB_WavPCM_bit (dataOffset bytesPerSample byte : Z)
  (st : list Z * Z) (b : Z) : list Z * Z :=
  let '(buf, bitIdx) := st in
  let bit := Z.land (Z.shiftr byte b) 1 in
  let sampleIndex := bitIdx in
  let lsbByte := dataOffset + sampleIndex * bytesPerSample in
  (store buf lsbByte (Z.lor (Z.land (ToInt32 (at_index buf lsbByte)) 254) bit), bitIdx + 1).

(** [bitsPerSample / 8] is exact for the two depths [parseWavHeader] lets
    through (8 and 16), the only values the callers pass. *)
Definition embedLSB_WavPCM (buf payload : list Z) (dataOffset dataLength bitsPerSample : Z)
  : embed_result * list Z :=
  let bytesPerSample := bitsPerSample / 8 in
  let numSamples := dataLength / bytesPerSample in
  let capacityBits := numSamples in
  let needBits := bitsNeeded (buf_length payload) in
  if needBits >? capacityBits then
    (EmbedError (NotEnoughWavCapacity (ceilKB needBits) (ceilKB capacityBits)), buf)
  else
    let st := fold_left
                (fun st byte =>
                   fold_left (embedLSB_WavPCM_bit dataOffset bytesPerSample byte) msb_first st)
                payload (buf, 0) in
    (EmbedOk needBits, st.1).

Fixpoint audio_read_byte (wav : list Z) (dataOffset numSamples bytesPerSample : Z)
  (bs : list Z) (byte bitIdx : Z) : outcome (Z * Z) :=
  match bs with
  | [] => Ret (byte, bitIdx)
  | b :: bs' =>
      if bitIdx >=? numSamples then Throw OutOfAudioCapacity
      else
        let lsbByteIndex := dataOffset + bitIdx * bytesPerSample in
        let bit := Z.land (ToInt32 (at_index wav lsbByteIndex)) 1 in
        audio_read_byte wav dataOffset numSamples bytesPerSample bs'
          (Z.lor byte (Z.shiftl bit b)) (bitIdx + 1)
  end.

Fixpoint audio_read_loop (wav : list Z) (dataOffset numSamples bytesPerSample : Z)
  (n : nat) (bitIdx : Z) : outcome (list Z * Z) :=
  match n with
  | O => Ret ([], bitIdx)
  | S n' =>
      '(byte, bitIdx1) ←
        audio_read_byte wav dataOffset numSamples bytesPerSample msb_first 0 bitIdx;
      '(out, bitIdx2) ← audio_read_loop wav dataOffset numSamples bytesPerSample n' bitIdx1;
      Ret (byte mod 256 :: out, bitIdx2)
  end.

(** The buffer at hand is the WAV file, which holds the samples: it has
    [dataOffset + numSamples * bytesPerSample] bytes or more. *)
Definition audioReader `{Platform} (wav : list Z) (dataOffset numSamples bytesPerSample : Z)
  : reader :=
  fun n bitIdx =>
    if Buffer_alloc_fails (dataOffset + numSamples * bytesPerSample) n then Throw RangeError
    else audio_read_loop wav dataOffset numSamples bytesPerSample (Z.to_nat n) bitIdx.

(** ** [parseWavHeader] *)

Record wav_fmt : Type := {
  audioFormat : Z;
  numChannels : Z;
  sampleRate : Z;
  byteRate : Z;
  blockAlign : Z;
  bitsPerSample : Z
}.

(** The three variables of the chunk loop: [fmt] ([None] is [null]),
    [dataOffset] and [dataLength]. *)
Record wav_scan : Type := {
  scan_fmt : option wav_fmt;
  scan_dataOffset : Z;
  scan_dataLength : Z
}.

(** What [parseWavHeader] returns. *)
Record wav_header : Type := {
  hdr_dataOffset : Z;
  hdr_dataLength : Z;
  hdr_fmt : wav_fmt
}.

(** The six reads of the [fmt ] branch, in source order. *)
Definition read_fmt (buf : list Z) (start : Z) : outcome wav_fmt :=
  audioFormat ← readUInt16LE buf (start + 0);
  numChannels ← readUInt16LE buf (start + 2);
  sampleRate ← readUInt32LE buf (start + 4);
  byteRate ← readUInt32LE buf (start + 8);
  blockAlign ← readUInt16LE buf (start + 12);
  bitsPerSample ← readUInt16LE buf (start + 14);
  Ret {| audioFormat := audioFormat; numChannels := numChannels; sampleRate := sampleRate;
         byteRate := byteRate; blockAlign := blockAlign; bitsPerSample := bitsPerSample |}.

(** The [while (offset + 8 <= buf.length)] loop.  Every iteration moves
    [offset] forward by at least 8, so [length buf] iterations are never
    used up ([wav_chunks_fuel] below); running out of fuel is kept apart
    from every result of the source as [Unmodelled]. *)
Fixpoint wav_chunks (fuel : nat) (buf : list Z) (offset : Z) (st : wav_scan)
  : outcome wav_scan :=
  if offset + 8 <=? buf_length buf then
    match fuel with
    | O => Unmodelled
    | S fuel' =>
        let id := toString_ascii buf offset (offset + 4) in
        size ← readUInt32LE buf (offset + 4);
        let start := offset + 8 in
        let end_ := start + size in
        if end_ >? buf_length buf then Ret st
        else
          st' ← (if str_eqb id (str "fmt ") then
                   fmt ← read_fmt buf start;
                   Ret {| scan_fmt := Some fmt; scan_dataOffset := scan_dataOffset st;
                          scan_dataLength := scan_dataLength st |}
                 else if str_eqb id (str "data") then
                   Ret {| scan_fmt := scan_fmt st; scan_dataOffset := start;
                          scan_dataLength := size |}
                 else Ret st);
          wav_chunks fuel' buf (end_ + size mod 2) st'
    end
  else Ret st.

Definition is_riff_wave (buf : list Z) : bool :=
  str_eqb (toString_ascii buf 0 4) (str "RIFF") && str_eqb (toString_ascii buf 8 12) (str "WAVE").

Definition scan_chunks (buf : list Z) : outcome wav_scan :=
  wav_chunks (length buf) buf 12
    {| scan_fmt := None; scan_dataOffset := -1; scan_dataLength := -1 |}.

Definition parseWavHeader (buf : list Z) : outcome wav_header :=
  if negb (is_riff_wave buf) then Throw NotRiffWave
  else
    st ← scan_chunks buf;
    match scan_fmt st with
    | None => Throw MissingFmt
    | Some fmt =>
        if negb (audioFormat fmt =? 1) then Throw NotPcm
        else if negb ((bitsPerSample fmt =? 8) || (bitsPerSample fmt =? 16)) then
          Throw (UnsupportedBitDepth (bitsPerSample fmt))
        else if (scan_dataOffset st <? 0) || (scan_dataLength st <=? 0) then Throw MissingData
        else Ret {| hdr_dataOffset := scan_dataOffset st;
                    hdr_dataLength := scan_dataLength st; hdr_fmt := fmt |}
    end.

(** Every [fmt ] chunk that the chunk loop visits holds the sixteen bytes
    the loop reads from it. *)
Fixpoint fmt_chunks_complete (fuel : nat) (buf : list Z) (offset : Z) : bool :=
  if offset + 8 <=? buf_length buf then
    match fuel with
    | O => true
    | S fuel' =>
        match readUInt32LE buf (offset + 4) with
        | Ret size =>
            if offset + 8 + size >? buf_length buf then true
            else
              (if str_eqb (toString_ascii buf offset (offset + 4)) (str "fmt ")
               then 16 <=? size else true)
              && fmt_chunks_complete fuel' buf (offset + 8 + size + size mod 2)
        | _ => true
        end
    end
  else true.

(** Two buffers that agree on the positions from [a]
    to [b]. *)
Definition agree_on (buf buf' : list Z) (a b : Z) : Prop :=
  forall i, a <= i < b -> at_index buf' i = at_index buf i.

Definition complete_fmt_chunks (buf : list Z) : Prop :=
  fmt_chunks_complete (length buf) buf 12 = true.

(** [processAudioSimple]: validates and returns its argument. *)
Definition processAudioSimple (inputBuf : list Z) : outcome (list Z) :=
  header ← parseWavHeader inputBuf;
  Ret inputBuf.

(** ** The carrier branches of the embed handler

    Each takes the payload already packed and encrypted, and returns the
    response (the stego carrier, or the error of the 400 response) next to
    the final content of the buffer the branch works on. *)

(** Image branch: [data] is the raw RGBA output of the image decoder for
    a [width] x [height] picture. *)
Definition embedImage (data : list Z) (width height : Z) (payload : list Z)
  : outcome (list Z) * list Z :=
  let buf := data in
  let '(r, buf') := embedLSB_RGBA buf width height payload in
  match r with
  | EmbedError e => (Throw e, buf')
  | EmbedOk _ => (Ret buf', buf')
  end.

(** Audio branch of the WAV-only server. *)
Definition embedAudio (cover payload : list Z) : outcome (list Z) * list Z :=
  match processAudioSimple cover with
  | Ret wavBuf =>
      match parseWavHeader wavBuf with
      | Ret h =>
          let '(r, wavBuf') :=
            embedLSB_WavPCM wavBuf payload (hdr_dataOffset h) (hdr_dataLength h)
                            (bitsPerSample (hdr_fmt h)) in
          match r with
          | EmbedError e => (Throw e, wavBuf')
          | EmbedOk _ => (Ret wavBuf', wavBuf')
          end
      | Throw e => (Throw e, wavBuf)
      | Unmodelled => (Unmodelled, wavBuf)
      end
  | Throw e => (Throw e, cover)
  | Unmodelled => (Unmodelled, cover)
  end.


(** ** Reading the parsed metadata *)

(** The value of a property name in a parsed object: a repeated name keeps
    its last value. *)
Fixpoint lookup_member (key : list Z) (members : list (list Z * json)) : option json :=
  match members with
  | [] => None
  | (k, v) :: rest =>
      match lookup_member key rest with
      | Some v' => Some v'
      | None => if str_eqb k key then Some v else None
      end
  end.

(** [v.key] for the property names the server reads ([items], [len], [t],
    [name], [mime]), which no prototype defines: [None] is [undefined],
    and the access throws on [null]. *)
Definition get_prop (v : json) (key : string) : outcome (option json) :=
  match v with
  | JNull => Throw TypeError
  | JObj members => Ret (lookup_member (str key) members)
  | _ => Ret None
  end.

(** The values visited by [for (const m of meta.items || [])]. *)
Definition items_for_of (v : option json) : outcome (list json) :=
  match v with
  | None | Some JNull | Some (JBool false) | Some (JNum (NInt 0)) | Some (JStr []) => Ret []
  | Some (JArr l) => Ret l
  | Some (JStr (_ :: _)) | Some (JNum NOther) => Unmodelled
  | Some (JBool true) | Some (JNum (NInt _)) | Some (JObj _) => Throw TypeError
  end.

(** The array of [(meta.items || []).reduce(...)]: only an array has a
    [reduce] method. *)
Definition items_reduce (v : option json) : outcome (list json) :=
  match v with
  | None | Some JNull | Some (JBool false) | Some (JNum (NInt 0)) | Some (JStr []) => Ret []
  | Some (JArr l) => Ret l
  | Some (JNum NOther) => Unmodelled
  | Some (JStr (_ :: _)) | Some (JBool true) | Some (JNum (NInt _)) | Some (JObj _) =>
      Throw TypeError
  end.

(** [it.len || 0], for a [len] that is an integer or a falsy value. *)
Definition len_or_0 (it : json) : outcome Z :=
  v ← get_prop it "len";
  match v with
  | None | Some JNull | Some (JBool false) | Some (JStr []) => Ret 0
  | Some (JNum (NInt z)) => Ret z
  | _ => Unmodelled
  end.

(** [a + b] on two integers that a double holds exactly: the sum is exact
    when it is below 2^53 in absolute value; a larger sum is rounded, and
    the embedding does not compute with it. *)
Definition number_add (a b : Z) : outcome Z :=
  if Z.abs (a + b) <? 2 ^ 53 then Ret (a + b) else Unmodelled.

(** [reduce((s, it) => s + (it.len || 0), s)]. *)
Fixpoint sum_lens (its : list json) (s : Z) : outcome Z :=
  match its with
  | [] => Ret s
  | it :: rest => n ← len_or_0 it; s ← number_add s n; sum_lens rest s
  end.

(** ** [packPayload] *)

(** An uploaded file, with the three fields of it the server reads. *)
Record upload : Type := {
  buffer : list Z;
  originalname : list Z;
  mimetype : list Z
}.

(** [s || fallback] on a string. *)
Definition or_default (s fallback : list Z) : list Z :=
  if bool_decide (s = []) then fallback else s.

(** The [items] array after the two [if] statements. *)
Definition packPayload_items (secretText : list Z) (secretFile : option upload) : list item :=
  (if negb (bool_decide (secretText = [])) && negb (bool_decide (trim secretText = [])) then
     let data := utf8_encode secretText in
     [{| item_t := str "text"; item_name := str "message.txt"; item_mime := str "text/plain";
         item_len := buf_length data; item_data := data |}]
   else [])
  ++ match secretFile with
     | Some f =>
         let data := buffer f in
         [{| item_t := str "file";
             item_name := or_default (originalname f) (str "secret");
             item_mime := or_default (mimetype f) (str "application/octet-stream");
             item_len := buf_length data; item_data := data |}]
     | None => []
     end.

(** An item as [packPayload] builds it: strings of code units, and a
    length that is the length of the data. *)
Definition item_ok (it : item) : Prop :=
  Forall is_unit (item_t it) /\ Forall is_unit (item_name it) /\
  Forall is_unit (item_mime it) /\ Forall is_byte (item_data it) /\
  item_len it = buf_length (item_data it) /\ item_len it < 2 ^ 53.

Definition MAGIC : list Z := str "STEGv1".

(** The container of a list of items: the last four lines of
    [packPayload]. *)
Definition container_of (items : list item) : list Z :=
  let metaBuf := utf8_encode (stringify_meta items) in
  let dataConcat := concat (map item_data items) in
  MAGIC ++ u32 (buf_length metaBuf) ++ metaBuf ++ dataConcat.

Definition packPayload (secretText : list Z) (secretFile : option upload) : outcome (list Z) :=
  let items := packPayload_items secretText secretFile in
  if bool_decide (items = []) then Throw NoSecretData
  else Ret (container_of items).

(** ** [parseContainer] *)

(** An element of the list [parseContainer] returns: [name] and [mime] are
    whatever the metadata holds under these names. *)
Inductive out_item : Type :=
| OutText (name mime : option json) (text : list Z)
| OutFile (name mime : option json) (base64 : list Z).

Definition is_string (v : option json) (s : string) : bool :=
  match v with
  | Some (JStr chars) => str_eqb chars (str s)
  | _ => false
  end.

(** The [for (const m of ...)] loop, for metadata whose [len] are integers. *)
Fixpoint parseContainer_items (containerBuf : list Z) (ms : list json) (off : Z)
  : outcome (list out_item) :=
  match ms with
  | [] => Ret []
  | m :: rest =>
      len ← get_prop m "len";
      match len with
      | Some (JNum (NInt len)) =>
          stop ← number_add off len;
          let data := slice containerBuf off stop in
          let off := stop in
          t ← get_prop m "t";
          name ← get_prop m "name";
          mime ← get_prop m "mime";
          let it := if is_string t "text" || is_string mime "text/plain"
                    then OutText name mime (utf8_decode data)
                    else OutFile name mime (base64_encode data) in
          items ← parseContainer_items containerBuf rest off;
          Ret (it :: items)
      | _ => Unmodelled
      end
  end.

Definition parseContainer (containerBuf : list Z) : outcome (list out_item) :=
  if negb (bool_decide (slice containerBuf 0 6 = MAGIC)) then Throw MagicMismatch
  else
    let off := 6 in
    metaLen ← readU32BE (slice containerBuf off (off + 4));
    let off := off + 4 in
    let metaBuf := slice containerBuf off (off + metaLen) in
    let off := off + metaLen in
    match JSON_parse (utf8_decode metaBuf) with
    | None => Throw CorruptedMetadata
    | Some meta =>
        items ← get_prop meta "items";
        ms ← items_for_of items;
        parseContainer_items containerBuf ms off
    end.


(** Bound on the metadata: its length fits the 32-bit field. *)
Definition meta_fits (items : list item) : Prop :=
  buf_length (utf8_encode (stringify_meta items)) < 2 ^ 32.

(** What [parseContainer] makes of a packed item: a text item, and a file
    item whose mime type is [text/plain], come back as text, the UTF-8
    decoding of the bytes; any other file item comes back as a file, with
    the base64 of the bytes. *)
Definition out_of_item (it : item) : out_item :=
  if str_eqb (item_t it) (str "text") || str_eqb (item_mime it) (str "text/plain")
  then OutText (Some (JStr (item_name it))) (Some (JStr (item_mime it)))
               (utf8_decode (item_data it))
  else OutFile (Some (JStr (item_name it))) (Some (JStr (item_mime it)))
               (base64_encode (item_data it)).

(** A reader over a carrier that holds the bytes [stream] from cursor 0
    on: reading [n] bytes at byte position [k] gives that part of the
    stream and moves the cursor behind it. *)
Definition reads_stream (rd : reader) (stream : list Z) : Prop :=
  forall n k,
    0 <= n -> 0 <= k -> k + n <= buf_length stream ->
    rd n (8 * k) = Ret (slice stream k (k + n), 8 * (k + n)).

(** ** The bit walk shared by the two carriers

    The four loops above differ only in the byte offset of bit [i] and in
    the error of the capacity test.  The definitions below factor the walk
    over an offset function [addr]; the proofs relate each source loop to
    them. *)

(** Offset of bit [i] in a raw RGBA buffer, and in a PCM data chunk. *)
Definition rgba_offset (i : Z) : Z := i / 3 * 4 + i mod 3.
Definition wav_offset (dataOffset bytesPerSample i : Z) : Z :=
  dataOffset + i * bytesPerSample.

(** The bits of a payload in the order the embedding loops visit them. *)
Definition byte_bits (byte : Z) : list Z :=
  map (fun b => Z.land (Z.shiftr byte b) 1) msb_first.
Definition payload_bits (payload : list Z) : list Z := flat_map byte_bits payload.

Definition write_bit (addr : Z -> Z) (st : list Z * Z) (bit : Z) : list Z * Z :=
  (store st.1 (addr st.2) (Z.lor (Z.land (ToInt32 (at_index st.1 (addr st.2))) 254) bit),
   st.2 + 1).
Definition write_bits (addr : Z -> Z) (bits : list Z) (st : list Z * Z) : list Z * Z :=
  fold_left (write_bit addr) bits st.

(** The carrier bit [i]: the lowest bit of the byte at [addr i]. *)
Definition carrier_bit (buf : list Z) (addr : Z -> Z) (i : Z) : Z :=
  Z.land (ToInt32 (at_index buf (addr i))) 1.
Definition carrier_bits (buf : list Z) (addr : Z -> Z) (i : Z) (n : nat) : list Z :=
  map (fun k => carrier_bit buf addr (i + Z.of_nat k)) (seq 0 n).

(** A byte assembled from bits paired with their positions [bs]. *)
Definition assemble (bs bits : list Z) (byte : Z) : Z :=
  fold_left (fun acc p => Z.lor acc (Z.shiftl p.2 p.1)) (zip bs bits) byte.
Definition carrier_byte (buf : list Z) (addr : Z -> Z) (i : Z) : Z :=
  assemble msb_first (carrier_bits buf addr i 8) 0.
Definition carrier_bytes (buf : list Z) (addr : Z -> Z) (i : Z) (n : nat) : list Z :=
  map (fun k => carrier_byte buf addr (i + 8 * Z.of_nat k)) (seq 0 n).

Fixpoint read_byte (buf : list Z) (addr : Z -> Z) (cap : Z) (err : error)
  (bs : list Z) (byte bitIdx : Z) : outcome (Z * Z) :=
  match bs with
  | [] => Ret (byte, bitIdx)
  | b :: bs' =>
      if bitIdx >=? cap then Throw err
      else read_byte buf addr cap err bs'
             (Z.lor byte (Z.shiftl (carrier_bit buf addr bitIdx) b)) (bitIdx + 1)
  end.

Fixpoint read_loop (buf : list Z) (addr : Z -> Z) (cap : Z) (err : error)
  (n : nat) (bitIdx : Z) : outcome (list Z * Z) :=
  match n with
  | O => Ret ([], bitIdx)
  | S n' =>
      '(byte, bitIdx1) ← read_byte buf addr cap err msb_first 0 bitIdx;
      '(out, bitIdx2) ← read_loop buf addr cap err n' bitIdx1;
      Ret (byte mod 256 :: out, bitIdx2)
  end.

(** ** Predicates of the statements *)

(** The value a written byte ends with: all bits of the old value but the
    lowest, which is the payload bit. *)
Definition with_lsb (old bit : Z) : Z := Z.lor (Z.land old 254) bit mod 256.

(** What one written byte looks like: bit 0 is the payload bit, bits 1 to 7
    are the old ones. *)
Definition lsb_replaced (old new bit : Z) : Prop :=
  is_byte new /\ Z.land new 1 = bit /\ forall t, 1 <= t < 8 -> Z.testbit new t = Z.testbit old t.

(** The data chunk recorded by the chunk loop lies inside the buffer. *)
Definition data_in_range (buf : list Z) (st : wav_scan) : Prop :=
  (scan_dataOffset st = -1 /\ scan_dataLength st = -1) \/
  (20 <= scan_dataOffset st /\ 0 <= scan_dataLength st /\
   scan_dataOffset st + scan_dataLength st <= buf_length buf).

(** A list of read bytes [out] holds the carrier bits from cursor [i] on,
    most significant bit first: bit [7 - j] of byte [k] is the lowest bit of
    the byte at the offset of carrier bit [i + 8k + j]. *)
Definition reads_msb_first (buf : list Z) (addr : Z -> Z) (i : Z) (out : list Z) : Prop :=
  forall (k : nat) (byte j : Z),
    out !! k = Some byte -> 0 <= j < 8 ->
    is_byte byte /\
    Z.testbit byte (7 - j)
    = Z.testbit (ToInt32 (at_index buf (addr (i + 8 * Z.of_nat k + j)))) 0.

(** ** Audio branch of the embed handler of [backend/server.js]

    The older server converts a cover that is not already 8- or 16-bit PCM
    WAV before it embeds.  The converter is external and is passed as
    [transcodeToPcmWav]. *)
Definition embedAudio_transcoding (transcodeToPcmWav : list Z -> outcome (list Z))
  (cover payload : list Z) : outcome (list Z) :=
  let wavBuf := cover in
  let looksWav := is_riff_wave wavBuf in
  let isPcm8or16 :=
    if looksWav then
      match parseWavHeader wavBuf with
      | Ret h => (audioFormat (hdr_fmt h) =? 1)
                 && ((bitsPerSample (hdr_fmt h) =? 8) || (bitsPerSample (hdr_fmt h) =? 16))
      | _ => false
      end
    else false in
  wavBuf ← (if negb looksWav || negb isPcm8or16 then transcodeToPcmWav cover else Ret wavBuf);
  h ← parseWavHeader wavBuf;
  let '(r, wavBuf') :=
    embedLSB_WavPCM wavBuf payload (hdr_dataOffset h) (hdr_dataLength h)
                    (bitsPerSample (hdr_fmt h)) in
  match r with
  | EmbedError e => Throw e
  | EmbedOk _ => Ret wavBuf'
  end.

(** ** Sample inputs *)

Module Fixtures.

Definition u16le (n : Z) : list Z := [n mod 256; n / 256 mod 256].
Definition u32le (n : Z) : list Z :=
  [n mod 256; n / 256 mod 256; n / 65536 mod 256; n / 16777216 mod 256].

(** A mono WAV file with one [fmt ] chunk holding the first [fmt_size]
    bytes of the sixteen format bytes, then one [data] chunk. *)
Definition wav_file (fmt_size format bits : Z) (samples : list Z) : list Z :=
  let fmt_bytes :=
    u16le format ++ u16le 1 ++ u32le 8000 ++ u32le (8000 * (bits / 8))
    ++ u16le (bits / 8) ++ u16le bits in
  str "RIFF" ++ u32le (20 + fmt_size + buf_length samples) ++ str "WAVE"
  ++ str "fmt " ++ u32le fmt_size ++ take (Z.to_nat fmt_size) fmt_bytes
  ++ str "data" ++ u32le (buf_length samples) ++ samples.

(** A deterministic stand-in for the random generator: the state is a
    counter. *)
Definition toy_randomBytes (n : Z) (g : Z) : list Z * Z :=
  (map (fun k => (g + Z.of_nat k) mod 256) (seq 0 (Z.to_nat n)), g + n).

(** A stand-in for the key derivation: [keylen] bytes taken from the
    password, the salt and zero padding. *)
Definition toy_scrypt (password salt : list Z) (keylen : Z) : list Z :=
  take (Z.to_nat keylen) (utf8_encode password ++ salt ++ repeat 0 (Z.to_nat keylen)).

(** A stand-in for the authenticated cipher: every byte is shifted by
    the first key byte, and the tag is the first 16 bytes of the key. *)
Definition toy_tag (key iv : list Z) : list Z :=
  map (fun b => b mod 256) (take 16 (key ++ repeat 0 16)).

Definition toy_encrypt (key iv plain : list Z) : list Z * list Z :=
  (map (fun b => (b + hd 0 key) mod 256) plain, toy_tag key iv).

Definition toy_decrypt (key iv tag enc : list Z) : option (list Z) :=
  if bool_decide (tag = toy_tag key iv)
  then Some (map (fun b => (b - hd 0 key) mod 256) enc)
  else None.


End Fixtures.

(** ** Encryption envelope and handlers

    The primitives of Node's [crypto] module are the fields of the class
    [Crypto]:
    [randomBytes n] draws [n] bytes from an entropy state;
    [scryptSync password salt keylen] derives a key;
    [gcm_encrypt key iv plain] is [createCipheriv("aes-256-gcm", key, iv)]
    followed by [update], [final] and [getAuthTag], and returns the
    ciphertext and the tag; [gcm_decrypt key iv tag enc] is
    [createDecipheriv] followed by [setAuthTag], [update] and [final], and
    is [None] when [final] throws. *)
Class Crypto : Type := {
  entropy : Type;
  randomBytes : Z -> entropy -> list Z * entropy;
  scryptSync : list Z -> list Z -> Z -> list Z;
  gcm_encrypt : list Z -> list Z -> list Z -> list Z * list Z;
  gcm_decrypt : list Z -> list Z -> list Z -> list Z -> option (list Z)
}.

Definition encryptIfNeeded `{Crypto} (buf password : list Z) (g : entropy) : list Z * entropy :=
  if bool_decide (password = []) then (buf, g)
  else
    let '(salt, g) := randomBytes 16 g in
    let '(iv, g) := randomBytes 12 g in
    let key := scryptSync password salt 32 in
    let '(enc, tag) := gcm_encrypt key iv buf in
    let HEAD := str "ENCv1" in
    (HEAD ++ salt ++ iv ++ tag ++ u32 (buf_length enc) ++ enc, g).

(** The envelope with its six fields. *)
Definition envelope (salt iv tag enc : list Z) : list Z :=
  str "ENCv1" ++ salt ++ iv ++ tag ++ u32 (buf_length enc) ++ enc.

(** The [// Decrypt] block of [extractData]. *)
Definition decryptEnvelope `{Crypto} (combined password : list Z) : outcome (list Z) :=
  let ENC := str "ENCv1" in
  if negb (bool_decide (slice combined 0 5 = ENC)) then Throw InvalidEncHeader
  else
    let off := 5 in
    let salt := slice combined off (off + 16) in
    let off := off + 16 in
    let iv := slice combined off (off + 12) in
    let off := off + 12 in
    let tag := slice combined off (off + 16) in
    let off := off + 16 in
    len ← readU32BE (slice combined off (off + 4));
    let off := off + 4 in
    let enc2 := slice combined off (off + len) in
    if bool_decide (password = []) then Throw PasswordRequired
    else
      let key := scryptSync password salt 32 in
      match gcm_decrypt key iv tag enc2 with
      | Some dec => Ret dec
      | None => Throw AuthFailed
      end.

Definition extractData `{Crypto} (rd : reader) (password : list Z) : outcome (list Z) :=
  '(first5, i) ← rd 5 0;
  if bool_decide (first5 = str "ENCv1") then
    '(headerRest, i) ← rd 48 i;
    encLen ← readU32BE (slice headerRest 44 48);
    '(enc, i) ← rd encLen i;
    let combined := first5 ++ headerRest ++ enc in
    decryptEnvelope combined password
  else
    '(sixth, i) ← rd 1 i;
    let magic := first5 ++ sixth in
    if negb (bool_decide (magic = MAGIC)) then Throw NoValidPayload
    else
      '(metaLenBuf, i) ← rd 4 i;
      metaLen ← readU32BE metaLenBuf;
      '(metaBuf, i) ← rd metaLen i;
      match JSON_parse (utf8_decode metaBuf) with
      | None => Throw CorruptedMetadata
      | Some meta =>
          items ← get_prop meta "items";
          its ← items_reduce items;
          dataTotal ← sum_lens its 0;
          '(dataBuf, i) ← rd dataTotal i;
          Ret (magic ++ metaLenBuf ++ metaBuf ++ dataBuf)
      end.

(** A carrier as the handlers see it once the upload is decoded: the raw
    RGBA samples of a picture with its size, or the bytes of an audio
    file.  The image library is outside the embedding: the PNG file the
    embed handler sends is taken to decode, in the extract handler, to the
    samples it was encoded from (PNG is lossless). *)
Inductive carrier : Type :=
| ImageCarrier (data : list Z) (width height : Z)
| AudioCarrier (buf : list Z).

Definition handleEmbed `{Crypto} (cover : carrier) (secretText : list Z) (secretFile : option upload)
  (password : list Z) (g : entropy) : outcome carrier :=
  if bool_decide (secretText = []) && bool_decide (secretFile = None) then Throw SecretRequired
  else
    packed ← packPayload secretText secretFile;
    let '(payload, _) := encryptIfNeeded packed password g in
    match cover with
    | ImageCarrier data width height =>
        stego ← (embedImage data width height payload).1;
        Ret (ImageCarrier stego width height)
    | AudioCarrier buf =>
        stego ← (embedAudio buf payload).1;
        Ret (AudioCarrier stego)
    end.

Definition handleExtract `{Crypto} `{Platform} (stego : carrier) (password : list Z)
  : outcome (list out_item) :=
  match stego with
  | ImageCarrier data width height =>
      containerBuf ← extractData (imageReader data width height) password;
      parseContainer containerBuf
  | AudioCarrier wav =>
      h ← parseWavHeader wav;
      let bytesPerSample := bitsPerSample (hdr_fmt h) / 8 in
      let numSamples := hdr_dataLength h / bytesPerSample in
      containerBuf ←
        extractData (audioReader wav (hdr_dataOffset h) numSamples bytesPerSample) password;
      parseContainer containerBuf
  end.


(** What the embedding assumes of the primitives: the generator returns as
    many bytes as asked, the derived key has the length asked, a tag has 16
    bytes, outputs are bytes, decrypting an encryption under the same key,
    nonce and tag gives the plaintext back, and a ciphertext is as long as
    its plaintext (the cipher is a stream mode). *)
Record crypto_laws `{Crypto} : Prop := {
  randomBytes_length : forall n g, 0 <= n -> buf_length (randomBytes n g).1 = n;
  randomBytes_bytes : forall n g, Forall is_byte (randomBytes n g).1;
  scryptSync_length : forall password salt n,
      0 <= n -> buf_length (scryptSync password salt n) = n;
  gcm_tag_length : forall key iv plain, buf_length (gcm_encrypt key iv plain).2 = 16;
  gcm_encrypt_bytes : forall key iv plain,
      Forall is_byte plain ->
      Forall is_byte (gcm_encrypt key iv plain).1 /\ Forall is_byte (gcm_encrypt key iv plain).2;
  gcm_decrypt_encrypt : forall key iv plain,
      buf_length key = 32 -> buf_length iv = 12 -> Forall is_byte plain ->
      gcm_decrypt key iv (gcm_encrypt key iv plain).2 (gcm_encrypt key iv plain).1 = Some plain;
  gcm_encrypt_length : forall key iv plain,
      buf_length (gcm_encrypt key iv plain).1 = buf_length plain
}.

(** A platform that allocates up to 2^30 - 1 bytes, for the sample
    inputs. *)
Definition toy_platform : Platform := {|
  alloc_limit := 2 ^ 30 - 1;
  alloc_limit_min := ltac:(lia)
|}.

(** The stand-ins of [Fixtures] as an instance, for the sample inputs. *)
Definition toy_crypto : Crypto := {|
  entropy := Z;
  randomBytes := Fixtures.toy_randomBytes;
  scryptSync := Fixtures.toy_scrypt;
  gcm_encrypt := Fixtures.toy_encrypt;
  gcm_decrypt := Fixtures.toy_decrypt
|}.

(** ** Inputs and result of an embedding followed by an extraction *)

(** An uploaded secret file: bytes, and strings of code units for its name
    and type. *)
Definition upload_ok (f : upload) : Prop :=
  Forall is_byte (buffer f) /\ Forall is_unit (originalname f) /\
  Forall is_unit (mimetype f).

(** The secrets of a request: the text is a well-formed string, as the
    form parser produces it. *)
Definition secrets_ok (secretText : list Z) (secretFile : option upload) : Prop :=
  well_formed secretText /\
  match secretFile with Some f => upload_ok f | None => True end.

(** A decoded cover: a picture whose buffer has four bytes per pixel, or a
    WAV file that [parseWavHeader] accepts and whose [fmt ] chunks hold the
    sixteen format bytes. *)
Definition cover_ok (cover : carrier) : Prop :=
  match cover with
  | ImageCarrier data width height => buf_length data = width * height * 4
  | AudioCarrier buf =>
      Forall is_byte buf /\ complete_fmt_chunks buf /\ exists h, parseWavHeader buf = Ret h
  end.

(** The number of bits a cover holds: [capacityBits] of [embedLSB_RGBA]
    and [numSamples] of [embedLSB_WavPCM]. *)
Definition capacityBits (cover : carrier) : outcome Z :=
  match cover with
  | ImageCarrier _ width height => Ret (width * height * 3)
  | AudioCarrier buf =>
      h ← parseWavHeader buf;
      Ret (hdr_dataLength h / (bitsPerSample (hdr_fmt h) / 8))
  end.

(** The response of the extract handler to the stego carrier of these
    secrets: the text comes first; the file comes back as a file, with the
    base64 of its bytes, unless its type is [text/plain], in which case it
    comes back as text, the UTF-8 decoding of its bytes. *)
Definition extracted_items (secretText : list Z) (secretFile : option upload) : list out_item :=
  (if negb (bool_decide (secretText = [])) && negb (bool_decide (trim secretText = [])) then
     [OutText (Some (JStr (str "message.txt"))) (Some (JStr (str "text/plain"))) secretText]
   else [])
  ++ match secretFile with
     | Some f =>
         let name := or_default (originalname f) (str "secret") in
         let mime := or_default (mimetype f) (str "application/octet-stream") in
         [if str_eqb mime (str "text/plain")
          then OutText (Some (JStr name)) (Some (JStr mime)) (utf8_decode (buffer f))
          else OutFile (Some (JStr name)) (Some (JStr mime)) (base64_encode (buffer f))]
     | None => []
     end.

(** ** Error messages

    The message of each error the source creates; the two runtime
    exceptions and the failure of [decipher.final()] carry the runtime's
    own message. *)
Definition error_message (e : error) : option (list Z) :=
  match e with
  | NoSecretData => Some (str "No secret data provided")
  | SecretRequired => Some (str "At least one secret is required (text or file)")
  | NotEnoughCapacity needKB haveKB =>
      Some (str "Not enough capacity. Need " ++ Number_toString needKB ++ str "KB, have "
            ++ Number_toString haveKB ++ str "KB.")
  | NotEnoughWavCapacity needKB haveKB =>
      Some (str "Not enough WAV capacity. Need " ++ Number_toString needKB ++ str "KB, have ~"
            ++ Number_toString haveKB ++ str "KB (1 bit/sample).")
  | NotRiffWave => Some (str "Audio cover must be WAV (RIFF/WAVE).")
  | MissingFmt => Some (str "Invalid WAV: missing fmt chunk.")
  | NotPcm => Some (str "WAV must be PCM (uncompressed).")
  | UnsupportedBitDepth bits =>
      Some (str "Unsupported WAV bit depth: " ++ Number_toString bits
            ++ str ". Use 8 or 16-bit PCM.")
  | MissingData => Some (str "Invalid WAV: missing data chunk.")
  | OutOfCapacity => Some (str "Out of capacity while reading.")
  | OutOfAudioCapacity => Some (str "Out of audio capacity while reading.")
  | InvalidEncHeader => Some (str "Invalid encrypted payload header.")
  | PasswordRequired => Some (str "Password required to decrypt payload.")
  | NoValidPayload => Some (str "No valid payload found in the file.")
  | CorruptedMetadata => Some (str "Corrupted container metadata.")
  | MagicMismatch => Some (str "No payload found (magic mismatch).")
  | InvalidFileType mimetype =>
      Some (str "Invalid file type: " ++ mimetype
            ++ str ". Only images and WAV audio are allowed.")
  | InvalidFileType_esm mimetype =>
      Some (str "Invalid file type: " ++ mimetype ++ str ". Only images and audio are allowed.")
  | AuthFailed | RangeError | TypeError => None
  end.

(** The error classes of the specification (section 7), which the source
    does not have: it throws plain [Error] objects. *)
Inductive error_class : Type :=
| InputError
| FormatError
| CapacityError
| AuthError
| RuntimeError.

Definition class_of (e : error) : error_class :=
  match e with
  | NoSecretData | SecretRequired | InvalidFileType _ | InvalidFileType_esm _ => InputError
  | NotEnoughCapacity _ _ | NotEnoughWavCapacity _ _ | OutOfCapacity | OutOfAudioCapacity =>
      CapacityError
  | NotRiffWave | MissingFmt | NotPcm | UnsupportedBitDepth _ | MissingData
  | InvalidEncHeader | NoValidPayload | CorruptedMetadata | MagicMismatch => FormatError
  | PasswordRequired | AuthFailed => AuthError
  | RangeError | TypeError => RuntimeError
  end.


(** ** Predicates of the further properties *)

(** The errors [parseWavHeader] can end with. *)
Definition wav_header_error (e : error) : Prop :=
  e = NotRiffWave \/ e = MissingFmt \/ e = NotPcm \/ (exists bits, e = UnsupportedBitDepth bits) \/
  e = MissingData \/ e = RangeError.


(** ** The upload filter, the dispatch on the file type and the download name *)

(** [s.startsWith(p)]. *)
Definition startsWith (s p : list Z) : bool := bool_decide (take (length p) s = p).

(** The [fileFilter] of the WAV-only server: the value of [ok]. *)
Definition fileFilter (mimetype : list Z) : bool :=
  startsWith mimetype (str "image/")
  || str_eqb mimetype (str "audio/wav")
  || str_eqb mimetype (str "audio/x-wav")
  || str_eqb mimetype (str "audio/wave").

(** The [fileFilter] of the older server. *)
Definition fileFilter_esm (mimetype : list Z) : bool :=
  startsWith mimetype (str "image/") || startsWith mimetype (str "audio/").

(** The two callbacks as multer calls them for a file: [cb(null, true)],
    or [cb] with the error, which ends the request. *)
Definition fileFilter_cb (mimetype : list Z) : outcome unit :=
  if fileFilter mimetype then Ret tt else Throw (InvalidFileType mimetype).

Definition fileFilter_esm_cb (mimetype : list Z) : outcome unit :=
  if fileFilter_esm mimetype then Ret tt else Throw (InvalidFileType_esm mimetype).

(** The three types under which a WAV file is uploaded, and the types of
    pictures, written out. *)
Definition wav_type (m : list Z) : Prop :=
  m = str "audio/wav" \/ m = str "audio/x-wav" \/ m = str "audio/wave".

Definition image_type (m : list Z) : Prop := exists rest, m = str "image/" ++ rest.

(** The branch the embed and extract handlers of both servers take for a
    cover or stego file of a given type; [NoBranch] is the final
    "Unsupported ... file type" response. *)
Inductive branch : Type :=
| ImageBranch
| AudioBranch
| NoBranch.

Definition branch_of (mimetype : list Z) : branch :=
  if startsWith mimetype (str "image/") then ImageBranch
  else if startsWith mimetype (str "audio/") then AudioBranch
  else NoBranch.

(** [\w] of a regular expression without flags: a letter of the ASCII
    alphabet, a digit or the underscore. *)
Definition is_word_char (c : Z) : bool :=
  ((48 <=? c) && (c <=? 57)) || ((65 <=? c) && (c <=? 90)) || (c =? 95)
  || ((97 <=? c) && (c <=? 122)).

(** The characters outside the class [[^\w.\-]]. *)
Definition is_safe_char (c : Z) : bool := is_word_char c || (c =? 46) || (c =? 45).

(** [s.replace(/[^\w.\-]+/g, "_")]: every maximal run of characters of the
    class becomes one underscore; [in_run] tells that the character before
    was of the class. *)
Fixpoint replace_unsafe_runs (s : list Z) (in_run : bool) : list Z :=
  match s with
  | [] => []
  | c :: rest =>
      if is_safe_char c then c :: replace_unsafe_runs rest false
      else if in_run then replace_unsafe_runs rest true
      else 95 :: replace_unsafe_runs rest true
  end.

(** [safeFilename(s, fallback)]; the default of [fallback] is ["file"]. *)
Definition safeFilename (s fallback : list Z) : list Z :=
  or_default (take 100 (replace_unsafe_runs (or_default s fallback) false)) fallback.

(** [s.replace(/\.[^.]+$/, "")]: the match is tried at every position from
    the left; it succeeds at a dot that is followed, up to the end of the
    string, by one or more characters other than a dot. *)
Fixpoint strip_extension (s : list Z) : list Z :=
  match s with
  | [] => []
  | c :: rest =>
      if (c =? 46) && negb (bool_decide (rest = [])) && forallb (fun d => negb (d =? 46)) rest
      then []
      else c :: strip_extension rest
  end.

(** The [Content-Disposition] header of the audio branch of the WAV-only
    server's embed handler, for a cover named [originalname]. *)
Definition stego_wav_disposition (originalname : list Z) : list Z :=
  let baseName :=
    safeFilename (strip_extension (or_default originalname (str "audio"))) (str "file") in
  str "attachment; filename=" ++ [34] ++ baseName ++ str "_stego.wav" ++ [34].

(** The same header in the older server, which does not call
    [safeFilename]. *)
Definition stego_wav_disposition_esm (originalname : list Z) : list Z :=
  let baseName := strip_extension (or_default originalname (str "audio")) in
  str "attachment; filename=" ++ [34] ++ baseName ++ str "_stego.wav" ++ [34].


(** ** Cross-origin requests and the final error handler *)

(** [s.split(sep)] for a separator of one character. *)
Fixpoint split_on (sep : Z) (s : list Z) : list (list Z) :=
  match s with
  | [] => [[]]
  | c :: rest =>
      if c =? sep then [] :: split_on sep rest
      else
        match split_on sep rest with
        | piece :: pieces => (c :: piece) :: pieces
        | [] => [[c]]
        end
  end.

(** [ORIGINS_ENV]: an environment variable that is not set, or is empty,
    is the empty string here. *)
Definition ORIGINS_ENV (CLIENT_ORIGIN CLIENT_ORIGINS : list Z) : list Z :=
  or_default CLIENT_ORIGIN
    (or_default CLIENT_ORIGINS
       (str "http://localhost:5173,https://stegnography-seven.vercel.app")).

(** [ORIGINS_ENV.split(",").map((s) => s.trim()).filter(Boolean)]. *)
Definition ALLOWED_ORIGINS (origins_env : list Z) : list (list Z) :=
  filter (fun s => s <> []) (map trim (split_on 44 origins_env)).

(** The canonical form under which the [i] flag compares a character with
    an ASCII character of the pattern: lower-case ASCII letters are taken
    to upper case; a character outside ASCII never has the canonical form
    of an ASCII character, and is left as it is. *)
Definition canonicalize (c : Z) : Z := if (97 <=? c) && (c <=? 122) then c - 32 else c.

(** The literal [pattern] matches at the head of [s], under the [i] flag;
    [strip_prefix_i] gives what follows the match. *)
Fixpoint strip_prefix_i (pattern s : list Z) : option (list Z) :=
  match pattern, s with
  | [], _ => Some s
  | p :: pattern', c :: s' =>
      if canonicalize c =? canonicalize p then strip_prefix_i pattern' s' else None
  | _ :: _, [] => None
  end.

(** [/pattern/i.test(s)] for a pattern of literal ASCII characters: the
    match is tried at every position. *)
Fixpoint regex_test_i (pattern s : list Z) : bool :=
  match strip_prefix_i pattern s with
  | Some _ => true
  | None => match s with
            | [] => false
            | _ :: s' => regex_test_i pattern s'
            end
  end.

(** [isLocal]: [origin && /^http:\/\/localhost:\d+$/i.test(origin)]. *)
Definition isLocal (origin : list Z) : bool :=
  negb (bool_decide (origin = []))
  && match strip_prefix_i (str "http://localhost:") origin with
     | Some port => negb (bool_decide (port = [])) && forallb is_digit port
     | None => false
     end.

(** What the [origin] function of the CORS options passes to its callback:
    [callback(null, true)] or an error with its message.  A request without
    an [Origin] header has the origin [[]]. *)
Inductive cors_decision : Type :=
| CorsAllowed
| CorsRejected (message : list Z).

(** The WAV-only server. *)
Definition corsOrigin (allowed : list (list Z)) (origin : list Z) : cors_decision :=
  if bool_decide (origin = []) then CorsAllowed
  else if bool_decide (origin ∈ allowed) || isLocal origin then CorsAllowed
  else CorsRejected (str "Not allowed by CORS: " ++ origin).

(** The older server. *)
Definition corsOrigin_esm (allowed : list (list Z)) (origin : list Z) : cors_decision :=
  if bool_decide (origin = []) then CorsAllowed
  else if bool_decide (origin ∈ allowed) then CorsAllowed
  else CorsRejected (str "Not allowed by CORS: " ++ origin).

(** The origins of the pattern of [isLocal]: [http://localhost:], in
    letters of either case, followed by one decimal digit or more and
    nothing else. *)
Definition local_origin (origin : list Z) : Prop :=
  exists scheme_host port,
    origin = scheme_host ++ port /\
    map canonicalize scheme_host = map canonicalize (str "http://localhost:") /\
    port <> [] /\ Forall is_digit_char port.



(** The last error handler of the WAV-only server, for an error whose
    [message] is given ([[]] when it has none) and a response whose headers
    are not sent yet: the status and the [error] of the JSON body. *)
Definition errorHandler (message : list Z) : Z * list Z :=
  let msg := or_default message (str "Unexpected server error.") in
  let status := if regex_test_i (str "Not allowed by CORS") msg then 403 else 500 in
  (status, msg).


(** ** The responses of the two handlers of the WAV-only server *)

(** The image library: [sharp_raw] is
    [sharp(buffer).ensureAlpha().raw().toBuffer({ resolveWithObject: true })],
    which gives the samples, the width and the height, and [sharp_png] is
    [sharp(buf, { raw }).png().toBuffer()]; [None] is a rejected promise,
    whose error is not one of the server. *)
Class Sharp : Type := {
  sharp_raw : list Z -> option (list Z * Z * Z);
  sharp_png : list Z -> Z -> Z -> option (list Z)
}.

(** A stand-in for the image library, for the sample inputs: a picture
    file is the width, the height and the raw samples. *)
Definition toy_sharp : Sharp := {|
  sharp_raw := fun file =>
    match file with
    | width :: height :: data =>
        if bool_decide (buf_length data = width * height * 4) then Some (data, width, height)
        else None
    | _ => None
    end;
  sharp_png := fun buf width height => Some (width :: height :: buf)
|}.


(** A response: [res.send] of a file with its two headers,
    [res.json({ ok: true, items })], or [res.status(status).json({ error })],
    where the message [None] is the message of a runtime exception. *)
Inductive response : Type :=
| SendFile (contentType disposition body : list Z)
| JsonItems (items : list out_item)
| JsonError (status : Z) (message : option (list Z)).

(** [handleEmbed], from the uploaded files and the fields of the form to
    the response; [Throw e] is [next(e)]. *)
Definition handleEmbed_response `{Crypto} `{Sharp} (cover secretFile : option upload)
  (secretText password : list Z) (g : entropy) : outcome response :=
  match cover with
  | None => Ret (JsonError 400 (Some (str "Cover file is required")))
  | Some cover =>
      if bool_decide (secretText = []) && bool_decide (secretFile = None) then
        Ret (JsonError 400 (Some (str "At least one secret is required (text or file)")))
      else
        packed ← packPayload secretText secretFile;
        let '(payload, _) := encryptIfNeeded packed password g in
        if startsWith (mimetype cover) (str "image/") then
          match sharp_raw (buffer cover) with
          | None => Unmodelled
          | Some (data, width, height) =>
              let '(r, buf) := embedLSB_RGBA data width height payload in
              match r with
              | EmbedError e => Ret (JsonError 400 (error_message e))
              | EmbedOk _ =>
                  match sharp_png buf width height with
                  | None => Unmodelled
                  | Some stego =>
                      Ret (SendFile (str "image/png")
                                    (str "attachment; filename=" ++ [34] ++ str "stego.png" ++ [34])
                                    stego)
                  end
              end
          end
        else if startsWith (mimetype cover) (str "audio/") then
          match processAudioSimple (buffer cover) with
          | Throw e => Ret (JsonError 400 (error_message e))
          | Unmodelled => Unmodelled
          | Ret wavBuf =>
              h ← parseWavHeader wavBuf;
              let '(r, wavBuf') :=
                embedLSB_WavPCM wavBuf payload (hdr_dataOffset h) (hdr_dataLength h)
                                (bitsPerSample (hdr_fmt h)) in
              match r with
              | EmbedError e => Ret (JsonError 400 (error_message e))
              | EmbedOk _ =>
                  Ret (SendFile (str "audio/wav") (stego_wav_disposition (originalname cover))
                                wavBuf')
              end
          end
        else
          Ret (JsonError 400
                 (Some (str "Unsupported cover file type: " ++ mimetype cover
                        ++ str ". Use images (PNG/JPEG) or WAV audio.")))
  end.

(** [handleExtract], from the uploaded file and the password to the
    response. *)
Definition handleExtract_response `{Crypto} `{Platform} `{Sharp} (stego : option upload)
  (password : list Z) : outcome response :=
  match stego with
  | None => Ret (JsonError 400 (Some (str "Stego file is required")))
  | Some stego =>
      if startsWith (mimetype stego) (str "image/") then
        match sharp_raw (buffer stego) with
        | None => Unmodelled
        | Some (data, width, height) =>
            items ← handleExtract (ImageCarrier data width height) password;
            Ret (JsonItems items)
        end
      else if startsWith (mimetype stego) (str "audio/") then
        items ← handleExtract (AudioCarrier (buffer stego)) password;
        Ret (JsonItems items)
      else Ret (JsonError 400 (Some (str "Unsupported stego file type")))
  end.


(** ** The client's decoding of a file item ([Extract.jsx])

    [atob] is the browser's forgiving base64 decoder: it removes ASCII
    white space, removes one or two [=] at the end of a string whose length
    is a multiple of four, fails on a length that is one more than a
    multiple of four and on a character outside the alphabet, and decodes
    six bits per character, dropping the bits of an incomplete byte. *)

Definition is_ascii_whitespace (c : Z) : bool :=
  (c =? 9) || (c =? 10) || (c =? 12) || (c =? 13) || (c =? 32).

Definition base64_value (c : Z) : option Z :=
  if (65 <=? c) && (c <=? 90) then Some (c - 65)
  else if (97 <=? c) && (c <=? 122) then Some (c - 71)
  else if (48 <=? c) && (c <=? 57) then Some (c + 4)
  else if c =? 43 then Some 62
  else if c =? 47 then Some 63
  else None.

(** [s.endsWith(suffix)]. *)
Definition endsWith (s suffix : list Z) : bool :=
  bool_decide (drop (length s - length suffix) s = suffix).

Definition remove_padding (data : list Z) : list Z :=
  if Z.of_nat (length data) mod 4 =? 0 then
    if endsWith data [61; 61] then take (length data - 2) data
    else if endsWith data [61] then take (length data - 1) data
    else data
  else data.

Fixpoint base64_values (data : list Z) : option (list Z) :=
  match data with
  | [] => Some []
  | c :: rest =>
      match base64_value c, base64_values rest with
      | Some v, Some vs => Some (v :: vs)
      | _, _ => None
      end
  end.

Fixpoint decode_sextets (vs : list Z) : list Z :=
  match vs with
  | a :: b :: c :: d :: rest =>
      [a * 4 + b / 16; b mod 16 * 16 + c / 4; c mod 4 * 64 + d] ++ decode_sextets rest
  | [a; b; c] => [a * 4 + b / 16; b mod 16 * 16 + c / 4]
  | [a; b] => [a * 4 + b / 16]
  | _ => []
  end.

(** [atob(data)]: the character codes of the binary string returned;
    [None] is the exception. *)
Definition atob (data : list Z) : option (list Z) :=
  let data := List.filter (fun c => negb (is_ascii_whitespace c)) data in
  let data := remove_padding data in
  if Z.of_nat (length data) mod 4 =? 1 then None
  else
    match base64_values data with
    | Some vs => Some (decode_sextets vs)
    | None => None
    end.

(** The characters matched by [[^;]+]: those before the first semicolon. *)
Fixpoint take_while_not_semicolon (s : list Z) : list Z :=
  match s with
  | c :: rest => if c =? 59 then [] else c :: take_while_not_semicolon rest
  | [] => []
  end.

(** [b.replace(/^data:[^;]+;base64,/, "")]: the prefix of a data URL, when
    the string has one. *)
Definition strip_data_url (s : list Z) : list Z :=
  match strip_prefix (str "data:") s with
  | Some rest =>
      let media := take_while_not_semicolon rest in
      match media with
      | [] => s
      | _ :: _ =>
          match strip_prefix (str ";base64,") (drop (length media) rest) with
          | Some data => data
          | None => s
          end
      end
  | None => s
  end.

(** The chunks of [base64ToBlob]: 512 characters of the binary string at a
    time, each stored in a [Uint8Array]; [length s] turns are enough. *)
Fixpoint byte_arrays (fuel : nat) (byteCharacters : list Z) : list (list Z) :=
  match fuel with
  | O => []
  | S fuel' =>
      match byteCharacters with
      | [] => []
      | _ :: _ =>
          map (fun c => c mod 256) (take 512 byteCharacters)
          :: byte_arrays fuel' (drop 512 byteCharacters)
      end
  end.

(** [base64ToBlob(base64, mimeType)]: the bytes of the [Blob]; [None] is
    the error "Failed to convert file data". *)
Definition base64ToBlob (base64 : list Z) : option (list Z) :=
  let base64Data := strip_data_url base64 in
  match atob base64Data with
  | Some byteCharacters => Some (concat (byte_arrays (length byteCharacters) byteCharacters))
  | None => None
  end.

(** [sizeFromBase64(b64)]. *)
Definition sizeFromBase64 (b64 : list Z) : Z :=
  if bool_decide (b64 = []) then 0
  else
    let cleanBase64 := strip_data_url b64 in
    let len := buf_length cleanBase64 in
    let padding :=
      if endsWith cleanBase64 [61; 61] then 2 else if endsWith cleanBase64 [61] then 1 else 0 in
    len * 3 / 4 - padding.


(** ** The extract route of the older server

    [backend/server.js] has the steps of [extractData] and [parseContainer]
    inline in its route, with the two calls of [JSON.parse] outside of any
    [try]: a metadata text that is not JSON ends the route with the
    [SyntaxError] of the runtime, which is not an error of the server. *)
Inductive esm_outcome (A : Type) : Type :=
| EsmRet (a : A)
| EsmThrow (e : error)
| EsmSyntaxError
| EsmUnmodelled.

Arguments EsmRet {A} a.
Arguments EsmThrow {A} e.
Arguments EsmSyntaxError {A}.
Arguments EsmUnmodelled {A}.

#[global] Instance esm_outcome_bind : MBind esm_outcome :=
  fun A B (k : A -> esm_outcome B) (m : esm_outcome A) =>
    match m with
    | EsmRet a => k a
    | EsmThrow e => EsmThrow e
    | EsmSyntaxError => EsmSyntaxError
    | EsmUnmodelled => EsmUnmodelled
    end.

(** A call of a function shared with the WAV-only server. *)
Definition esm_call {A : Type} (o : outcome A) : esm_outcome A :=
  match o with
  | Ret a => EsmRet a
  | Throw e => EsmThrow e
  | Unmodelled => EsmUnmodelled
  end.

(** The block [// Read container] of the route. *)
Definition readContainer_esm `{Crypto} (rd : reader) (password : list Z)
  : esm_outcome (list Z) :=
  '(first5, i) ← esm_call (rd 5 0);
  if bool_decide (first5 = str "ENCv1") then
    '(headerRest, i) ← esm_call (rd 48 i);
    encLen ← esm_call (readU32BE (slice headerRest 44 48));
    '(enc, i) ← esm_call (rd encLen i);
    let combined := first5 ++ headerRest ++ enc in
    esm_call (decryptEnvelope combined password)
  else
    '(sixth, i) ← esm_call (rd 1 i);
    let magic := first5 ++ sixth in
    if negb (bool_decide (magic = MAGIC)) then EsmThrow NoValidPayload
    else
      '(metaLenBuf, i) ← esm_call (rd 4 i);
      metaLen ← esm_call (readU32BE metaLenBuf);
      '(metaBuf, i) ← esm_call (rd metaLen i);
      match JSON_parse (utf8_decode metaBuf) with
      | None => EsmSyntaxError
      | Some meta =>
          items ← esm_call (get_prop meta "items");
          its ← esm_call (items_reduce items);
          dataTotal ← esm_call (sum_lens its 0);
          '(dataBuf, i) ← esm_call (rd dataTotal i);
          EsmRet (magic ++ metaLenBuf ++ metaBuf ++ dataBuf)
      end.

(** The block [// parseContainer (inline)] of the route. *)
Definition parseContainer_esm (containerBuf : list Z) : esm_outcome (list out_item) :=
  if negb (bool_decide (slice containerBuf 0 6 = MAGIC)) then EsmThrow MagicMismatch
  else
    let off := 6 in
    metaLen ← esm_call (readU32BE (slice containerBuf off (off + 4)));
    let off := off + 4 in
    let metaBuf := slice containerBuf off (off + metaLen) in
    let off := off + metaLen in
    match JSON_parse (utf8_decode metaBuf) with
    | None => EsmSyntaxError
    | Some meta =>
        items ← esm_call (get_prop meta "items");
        ms ← esm_call (items_for_of items);
        esm_call (parseContainer_items containerBuf ms off)
    end.

(** The route from the decoded stego file to the items. *)
Definition handleExtract_esm `{Crypto} `{Platform} (stego : carrier) (password : list Z)
  : esm_outcome (list out_item) :=
  match stego with
  | ImageCarrier data width height =>
      containerBuf ← readContainer_esm (imageReader data width height) password;
      parseContainer_esm containerBuf
  | AudioCarrier wav =>
      h ← esm_call (parseWavHeader wav);
      let bytesPerSample := bitsPerSample (hdr_fmt h) / 8 in
      let numSamples := hdr_dataLength h / bytesPerSample in
      containerBuf ←
        readContainer_esm (audioReader wav (hdr_dataOffset h) numSamples bytesPerSample) password;
      parseContainer_esm containerBuf
  end.

(** The answer of the older route that corresponds to an answer of the
    WAV-only server: "Corrupted container metadata." stands for the
    [SyntaxError]. *)
Definition esm_of {A : Type} (o : outcome A) : esm_outcome A :=
  match o with
  | Ret a => EsmRet a
  | Throw CorruptedMetadata => EsmSyntaxError
  | Throw e => EsmThrow e
  | Unmodelled => EsmUnmodelled
  end.


(** ** The analyzer's bit planes and signature scan ([Analyze.jsx]) *)

(** [(v >> plane) & 1]: an [undefined] [v] counts as 0, and the shift count
    is [plane] modulo 32. *)
Definition plane_bit (v : option Z) (plane : Z) : Z :=
  Z.land (Z.shiftr (ToInt32 v) (Z.land plane 31)) 1.

(** The three pushes of one turn of the first loop of
    [extractImageBitPlaneBytes], for the pixel at offset [i]. *)
Definition pixel_plane_bits (data : list Z) (plane i : Z) : list Z :=
  [plane_bit (at_index data i) plane; plane_bit (at_index data (i + 1)) plane;
   plane_bit (at_index data (i + 2)) plane].

(** [bits] after the first loop, which takes one turn for every [i] = 0, 4,
    8, ... below [data.length]. *)
Definition image_plane_bits (data : list Z) (plane : Z) : list Z :=
  flat_map (fun k => pixel_plane_bits data plane (4 * Z.of_nat k))
           (seq 0 (Z.to_nat ((buf_length data + 3) / 4))).

(** The inner loop of the second loop: [v = (v << 1) | bits[i * 8 + b]] for
    [b] from 0 to 7.  [v] stays below 256, where the 32-bit operations are
    exact. *)
Definition pack_byte (bits : list Z) (i : Z) : Z :=
  fold_left (fun v b => Z.lor (Z.shiftl v 1) (ToInt32 (at_index bits (i * 8 + b))))
            [0; 1; 2; 3; 4; 5; 6; 7] 0.

Definition extractImageBitPlaneBytes (data : list Z) (plane : Z) : list Z :=
  let bits := image_plane_bits data plane in
  map (fun i => pack_byte bits (Z.of_nat i) mod 256) (seq 0 (Z.to_nat (buf_length bits / 8))).

(** [MAGIC_SIGNATURES]: the [name] and the [sig] of each entry. *)
Definition MAGIC_SIGNATURES : list (list Z * list Z) :=
  [(str "PNG", [137; 80; 78; 71]); (str "JPEG", [255; 216; 255]);
   (str "WAV", [82; 73; 70; 70]); (str "OGG", [79; 103; 103; 83]);
   (str "FLAC", [102; 76; 97; 67]); (str "MP3/ID3", [73; 68; 51]);
   (str "ZIP", [80; 75; 3; 4]); (str "PDF", [37; 80; 68; 70]);
   (str "GIF", [71; 73; 70; 56])].

(** [arrayEq(a, b, start)]: [a] is a byte array, whose elements outside it
    are [undefined]. *)
Definition arrayEq (a b : list Z) (start : Z) : bool :=
  forallb (fun i => bool_decide (at_index a (start + Z.of_nat i) = b !! i)) (seq 0 (length b)).

(** One turn of the inner loop of [scanForSignatures], at the offset [i]
    and for the signature [m]: the state is [hits], as pairs of a [type]
    and an [offset], and whether the function has returned. *)
Definition scan_signature (bytes : list Z) (limitHits i : Z)
  (st : list (list Z * Z) * bool) (m : list Z * list Z) : list (list Z * Z) * bool :=
  let '(hits, returned) := st in
  if returned then st
  else if (i + buf_length m.2 <=? buf_length bytes) && arrayEq bytes m.2 i then
    let hits := hits ++ [(m.1, i)] in
    (hits, Z.of_nat (length hits) >=? limitHits)
  else st.

Definition scanForSignatures (bytes : list Z) (limitHits : Z) : list (list Z * Z) :=
  (fold_left
     (fun st i => fold_left (scan_signature bytes limitHits (Z.of_nat i)) MAGIC_SIGNATURES st)
     (seq 0 (length bytes)) ([], false)).1.

(** The occurrences of the signatures in [bytes]: at every offset, from
    the first on, the signatures that the bytes from this offset on begin
    with, in the order of [MAGIC_SIGNATURES]. *)
Definition signature_occurrences (bytes : list Z) : list (list Z * Z) :=
  flat_map
    (fun i =>
       map (fun m : list Z * list Z => (m.1, Z.of_nat i))
           (filter (fun m : list Z * list Z => take (length m.2) (drop i bytes) = m.2)
                   MAGIC_SIGNATURES))
    (seq 0 (length bytes)).


(** [extractAudioBitPlane(samples, plane)], on the samples of an
    [Int16Array]. *)
Definition extractAudioBitPlane (samples : list Z) (plane : Z) : list Z :=
  map (fun s => plane_bit (Some s) plane) samples.

(** The sample of two bytes, the low one first, as a signed number. *)
Definition int16 (lo hi : Z) : Z :=
  let v := lo + 256 * hi in
  if v <? 32768 then v else v - 65536.

(** [new Int16Array(u8.buffer, byteOffset, length)] for a byte array [u8]
    that starts its buffer, on a little-endian platform: a [RangeError]
    when the offset is negative or odd, when the length is negative, and
    when the samples do not fit in the buffer. *)
Definition Int16Array_view (u8 : list Z) (byteOffset length : Z) : outcome (list Z) :=
  if (byteOffset <? 0) || negb (byteOffset mod 2 =? 0) || (length <? 0)
     || (buf_length u8 <? byteOffset + 2 * length)
  then Throw RangeError
  else
    Ret (map (fun i => int16 (ToInt32 (at_index u8 (byteOffset + 2 * Z.of_nat i)))
                             (ToInt32 (at_index u8 (byteOffset + 2 * Z.of_nat i + 1))))
             (seq 0 (Z.to_nat length))).

(** The inner loops of [packBitsToBytes]:
    [v = (v << 1) | bits[i + b * stride]], for [b] from 0 to 7 when
    [msbFirst] holds and from 7 to 0 when it does not. *)
Definition pack_strided (bits : list Z) (msbFirst : bool) (stride i : Z) : Z :=
  fold_left (fun v b => Z.lor (Z.shiftl v 1) (ToInt32 (at_index bits (i + b * stride))))
            (if msbFirst then [0; 1; 2; 3; 4; 5; 6; 7] else [7; 6; 5; 4; 3; 2; 1; 0]) 0.

(** The outer loop of [packBitsToBytes], with its [break].  Every turn
    moves [i] forward by at least 8, so [length bits] turns are never used
    up; running out of fuel is kept apart as [Unmodelled]. *)
Fixpoint packBitsToBytes_loop (fuel : nat) (bits : list Z) (msbFirst : bool)
  (stride i bi : Z) (out : list Z) : outcome (list Z) :=
  if i + 7 * stride <? buf_length bits then
    match fuel with
    | O => Unmodelled
    | S fuel' =>
        let out := store out bi (pack_strided bits msbFirst stride i) in
        if bi + 1 >=? buf_length out then Ret out
        else packBitsToBytes_loop fuel' bits msbFirst stride (i + 8 * stride) (bi + 1) out
    end
  else Ret out.

(** [packBitsToBytes(bits, msbFirst, stride, start)], for the strides and
    the starts the callers pass, which are positive and not negative.
    [new Uint8Array(n)] raises a [RangeError] on a negative [n]. *)
Definition packBitsToBytes (bits : list Z) (msbFirst : bool) (stride start : Z)
  : outcome (list Z) :=
  if (stride <? 1) || (start <? 0) then Unmodelled
  else
    let N := (buf_length bits - start) / stride in
    if N / 8 <? 0 then Throw RangeError
    else
      packBitsToBytes_loop (length bits) bits msbFirst stride start 0
                           (repeat 0 (Z.to_nat (N / 8))).

(** The [attempts] of [tryHeaderRecoveryFromBits], in the order of the
    pushes: the stride, the bit order and the start of each. *)
Definition header_attempts : list (Z * bool * Z) :=
  flat_map
    (fun stride =>
       flat_map (fun msbFirst => [(stride, msbFirst, 0); (stride, msbFirst, 1);
                                  (stride, msbFirst, 2)])
                [true; false])
    [1; 2; 3; 4].

Fixpoint pack_attempts (bits : list Z) (todo : list (Z * bool * Z))
  : outcome (list (Z * bool * list Z)) :=
  match todo with
  | [] => Ret []
  | (stride, msbFirst, start) :: todo' =>
      bytes ← packBitsToBytes bits msbFirst stride start;
      attempts ← pack_attempts bits todo';
      Ret ((stride, msbFirst, bytes) :: attempts)
  end.

(** [tryHeaderRecoveryFromBits]: the attempts that have hits, each with its
    stride, its bit order and its hits. *)
Definition tryHeaderRecoveryFromBits (bits : list Z)
  : outcome (list (Z * bool * list (list Z * Z))) :=
  attempts ← pack_attempts bits header_attempts;
  Ret (flat_map (fun a : Z * bool * list Z =>
                   let hits := scanForSignatures a.2 6 in
                   if bool_decide (hits = []) then [] else [(a.1.1, a.1.2, hits)])
                attempts).


(** * Proofs *)

(** ** Buffer lemmas *)

(** A list of bytes, by computation. *)
Lemma is_byte_sample (l : list Z) :
  forallb (fun b => (0 <=? b) && (b <? 256)) l = true -> Forall is_byte l.
Proof.
  intros H. apply Forall_forall. intros b Hb. rewrite forallb_forall in H.
  specialize (H b (proj1 (list_elem_of_In _ _) Hb)). unfold is_byte. lia.
Defined.

Lemma at_index_store_same (buf : list Z) (i v : Z) :
  at_index (store buf i v) i = (fun _ => v mod 256) <$> at_index buf i.
Proof.
  unfold at_index, store. destruct (i <? 0) eqn:Hi; [done|].
  destruct (decide (Z.to_nat i < length buf)%nat) as [Hlt|Hge].
  - rewrite list_lookup_insert_eq by done.
    destruct (lookup_lt_is_Some_2 buf _ Hlt) as [x ->]. done.
  - rewrite list_insert_ge by lia. rewrite lookup_ge_None_2 by lia. done.
Qed.

Lemma at_index_store_other (buf : list Z) (i j v : Z) :
  i <> j -> at_index (store buf i v) j = at_index buf j.
Proof.
  intros Hne. unfold at_index, store.
  destruct (j <? 0) eqn:Hj; [done|]. destruct (i <? 0) eqn:Hi; [done|].
  apply list_lookup_insert_ne. lia.
Qed.

Lemma length_store (buf : list Z) (i v : Z) : length (store buf i v) = length buf.
Proof. unfold store. destruct (i <? 0); [done|]. apply length_insert. Qed.

Lemma at_index_Some (buf : list Z) (i : Z) :
  0 <= i < buf_length buf -> is_Some (at_index buf i).
Proof.
  intros H. unfold at_index, buf_length in *.
  destruct (Z.ltb_spec i 0); [lia|]. apply lookup_lt_is_Some_2. lia.
Qed.


Lemma buffer_ext (a b : list Z) :
  (forall i, at_index a i = at_index b i) -> a = b.
Proof.
  intros H. apply list_eq. intros n. specialize (H (Z.of_nat n)).
  unfold at_index in H. destruct (Z.ltb_spec (Z.of_nat n) 0); [lia|].
  by rewrite Nat2Z.id in H.
Qed.

(** ** Writing bits *)

Lemma fold_left_map_in {A B C : Type} (g : A -> B -> A) (f : C -> B) (l : list C) (a : A) :
  fold_left g (map f l) a = fold_left (fun s x => g s (f x)) l a.
Proof. revert a. induction l as [|x l IH]; intros a; simpl; [done|apply IH]. Qed.

Lemma fold_left_ext_in {A B : Type} (f g : A -> B -> A) (l : list B) (a : A) :
  (forall s x, f s x = g s x) -> fold_left f l a = fold_left g l a.
Proof. intros H. revert a. induction l as [|x l IH]; intros a; simpl; [done|]. by rewrite H, IH. Qed.

Lemma write_bits_payload (step : Z -> list Z * Z -> Z -> list Z * Z) (addr : Z -> Z)
    (payload : list Z) (st : list Z * Z) :
  (forall byte s b, step byte s b = write_bit addr s (Z.land (Z.shiftr byte b) 1)) ->
  fold_left (fun st byte => fold_left (step byte) msb_first st) payload st
  = write_bits addr (payload_bits payload) st.
Proof.
  intros Hstep. unfold write_bits, payload_bits. revert st.
  induction payload as [|byte payload IH]; intros st; [done|].
  cbn [fold_left flat_map]. rewrite fold_left_app, IH. f_equal.
  unfold byte_bits. rewrite fold_left_map_in. apply fold_left_ext_in. intros s b. apply Hstep.
Qed.

Lemma embedLSB_RGBA_loop (payload : list Z) (st : list Z * Z) :
  fold_left (fun st byte => fold_left (embedLSB_RGBA_bit byte) msb_first st) payload st
  = write_bits rgba_offset (payload_bits payload) st.
Proof. apply write_bits_payload. by intros byte [buf i] b. Qed.

Lemma embedLSB_WavPCM_loop (dataOffset bytesPerSample : Z) (payload : list Z) (st : list Z * Z) :
  fold_left (fun st byte =>
               fold_left (embedLSB_WavPCM_bit dataOffset bytesPerSample byte) msb_first st)
            payload st
  = write_bits (wav_offset dataOffset bytesPerSample) (payload_bits payload) st.
Proof. apply write_bits_payload. by intros byte [buf i] b. Qed.

Lemma length_payload_bits (payload : list Z) :
  length (payload_bits payload) = (8 * length payload)%nat.
Proof.
  unfold payload_bits. induction payload as [|b l IH]; [done|].
  cbn [flat_map]. rewrite length_app, IH. unfold byte_bits. rewrite length_map. simpl. lia.
Qed.

Lemma write_bits_cursor (addr : Z -> Z) (bits buf : list Z) (i : Z) :
  (write_bits addr bits (buf, i)).2 = i + Z.of_nat (length bits).
Proof.
  unfold write_bits. revert buf i. induction bits as [|b bits IH]; intros buf i.
  - simpl. lia.
  - cbn [fold_left]. unfold write_bit at 2. cbn [fst snd]. rewrite IH. cbn [length]. lia.
Qed.

Lemma write_bits_length (addr : Z -> Z) (bits buf : list Z) (i : Z) :
  length (write_bits addr bits (buf, i)).1 = length buf.
Proof.
  unfold write_bits. revert buf i. induction bits as [|b bits IH]; intros buf i; [done|].
  cbn [fold_left]. unfold write_bit at 2. cbn [fst snd]. rewrite IH. apply length_store.
Qed.

(** A byte that is the offset of no written bit keeps its value. *)
Lemma write_bits_untouched (addr : Z -> Z) (bits buf : list Z) (i j : Z) :
  (forall k, 0 <= k < Z.of_nat (length bits) -> addr (i + k) <> j) ->
  at_index (write_bits addr bits (buf, i)).1 j = at_index buf j.
Proof.
  unfold write_bits. revert buf i. induction bits as [|b bits IH]; intros buf i Hj; [done|].
  cbn [fold_left]. unfold write_bit at 2. cbn [fst snd]. rewrite IH.
  - apply at_index_store_other. specialize (Hj 0). rewrite Z.add_0_r in Hj.
    apply Hj. cbn [length]. lia.
  - intros k Hk. replace (i + 1 + k) with (i + (k + 1)) by lia. apply Hj. cbn [length]. lia.
Qed.

Lemma write_bits_written (addr : Z -> Z) (bits buf : list Z) (i : Z) (k : nat) (bit : Z) :
  (forall a b, i <= a < b -> b < i + Z.of_nat (length bits) -> addr a < addr b) ->
  bits !! k = Some bit ->
  at_index (write_bits addr bits (buf, i)).1 (addr (i + Z.of_nat k))
  = (fun old => with_lsb old bit) <$> at_index buf (addr (i + Z.of_nat k)).
Proof.
  unfold write_bits. revert buf i k. induction bits as [|b bits IH]; intros buf i k Hmono Hk; [done|].
  cbn [fold_left]. unfold write_bit at 2. cbn [fst snd]. destruct k as [|k].
  - injection Hk as ->. change (Z.of_nat 0) with 0. rewrite Z.add_0_r.
    change (fold_left (write_bit addr) bits ?s) with (write_bits addr bits s).
    rewrite write_bits_untouched.
    + rewrite at_index_store_same. unfold with_lsb, ToInt32.
      by destruct (at_index buf (addr i)).
    + intros j Hj. assert (addr i < addr (i + 1 + j)); [|lia].
      apply Hmono; cbn [length]; lia.
  - replace (i + Z.of_nat (S k)) with (i + 1 + Z.of_nat k) by lia.
    rewrite IH; [| |done].
    + rewrite at_index_store_other; [done|].
      assert (addr i < addr (i + 1 + Z.of_nat k)); [|lia].
      apply lookup_lt_Some in Hk. cbn [length] in Hk. apply Hmono; cbn [length]; lia.
    + intros a c Hac Hc. apply Hmono; cbn [length]; lia.
Qed.

Lemma rgba_offset_mono (a b : Z) : 0 <= a < b -> rgba_offset a < rgba_offset b.
Proof. unfold rgba_offset. lia. Qed.

Lemma wav_offset_mono (dataOffset bps a b : Z) :
  0 < bps -> a < b -> wav_offset dataOffset bps a < wav_offset dataOffset bps b.
Proof. unfold wav_offset. nia. Qed.

(** ** Reading bits *)

Lemma image_read_byte_eq (buf : list Z) (cap : Z) (bs : list Z) (byte i : Z) :
  image_read_byte buf cap bs byte i = read_byte buf rgba_offset cap OutOfCapacity bs byte i.
Proof.
  revert byte i. induction bs as [|b bs IH]; intros byte i; [done|].
  cbn [image_read_byte read_byte]. destruct (i >=? cap); [done|]. by rewrite IH.
Qed.

Lemma image_read_loop_eq (buf : list Z) (cap : Z) (n : nat) (i : Z) :
  image_read_loop buf cap n i = read_loop buf rgba_offset cap OutOfCapacity n i.
Proof.
  revert i. induction n as [|n IH]; intros i; [done|].
  cbn [image_read_loop read_loop]. rewrite image_read_byte_eq.
  destruct (read_byte _ _ _ _ _ _ _) as [[byte i1]| |]; [|done..].
  cbn. by rewrite IH.
Qed.

Lemma audio_read_byte_eq (wav : list Z) (dataOffset numSamples bps : Z)
    (bs : list Z) (byte i : Z) :
  audio_read_byte wav dataOffset numSamples bps bs byte i
  = read_byte wav (wav_offset dataOffset bps) numSamples OutOfAudioCapacity bs byte i.
Proof.
  revert byte i. induction bs as [|b bs IH]; intros byte i; [done|].
  cbn [audio_read_byte read_byte]. destruct (i >=? numSamples); [done|]. by rewrite IH.
Qed.

Lemma audio_read_loop_eq (wav : list Z) (dataOffset numSamples bps : Z) (n : nat) (i : Z) :
  audio_read_loop wav dataOffset numSamples bps n i
  = read_loop wav (wav_offset dataOffset bps) numSamples OutOfAudioCapacity n i.
Proof.
  revert i. induction n as [|n IH]; intros i; [done|].
  cbn [audio_read_loop read_loop]. rewrite audio_read_byte_eq.
  destruct (read_byte _ _ _ _ _ _ _) as [[byte i1]| |]; [|done..].
  cbn. by rewrite IH.
Qed.

Lemma carrier_bits_S (buf : list Z) (addr : Z -> Z) (i : Z) (n : nat) :
  carrier_bits buf addr i (S n) = carrier_bit buf addr i :: carrier_bits buf addr (i + 1) n.
Proof.
  unfold carrier_bits. cbn [seq map]. rewrite Z.add_0_r. f_equal.
  rewrite <- seq_shift, map_map. apply map_ext. intros k. f_equal. lia.
Qed.

Lemma carrier_bytes_S (buf : list Z) (addr : Z -> Z) (i : Z) (n : nat) :
  carrier_bytes buf addr i (S n) = carrier_byte buf addr i :: carrier_bytes buf addr (i + 8) n.
Proof.
  unfold carrier_bytes. cbn [seq map]. rewrite Z.mul_0_r, Z.add_0_r. f_equal.
  rewrite <- seq_shift, map_map. apply map_ext. intros k. f_equal. lia.
Qed.

Lemma read_byte_ok (buf : list Z) (addr : Z -> Z) (cap : Z) (err : error)
    (bs : list Z) (byte i : Z) :
  i + Z.of_nat (length bs) <= cap ->
  read_byte buf addr cap err bs byte i
  = Ret (assemble bs (carrier_bits buf addr i (length bs)) byte, i + Z.of_nat (length bs)).
Proof.
  revert byte i. induction bs as [|b bs IH]; intros byte i Hcap.
  - cbn. by rewrite Z.add_0_r.
  - cbn [read_byte length]. cbn [length] in Hcap.
    destruct (Z.geb_spec i cap); [lia|].
    rewrite IH by lia. rewrite carrier_bits_S. unfold assemble. cbn. do 2 f_equal. lia.
Qed.

Lemma read_byte_fail (buf : list Z) (addr : Z -> Z) (cap : Z) (err : error)
    (bs : list Z) (byte i : Z) :
  bs <> [] ->
  cap < i + Z.of_nat (length bs) ->
  read_byte buf addr cap err bs byte i = Throw err.
Proof.
  revert byte i. induction bs as [|b bs IH]; intros byte i Hne Hcap; [done|].
  cbn [read_byte length]. cbn [length] in Hcap.
  destruct (Z.geb_spec i cap); [done|].
  destruct bs as [|b' bs]; [cbn [length] in Hcap; lia|].
  apply IH; [done|lia].
Qed.

Lemma carrier_bit_01 (buf : list Z) (addr : Z -> Z) (i : Z) :
  carrier_bit buf addr i = 0 \/ carrier_bit buf addr i = 1.
Proof.
  unfold carrier_bit. change 1 with (Z.ones 1) at 1 2. rewrite Z.land_ones by lia.
  change (2 ^ 1) with 2. lia.
Qed.

(** Most significant bit first: the first bit walked has weight 128. *)
Lemma assemble_msb_first (b7 b6 b5 b4 b3 b2 b1 b0 : Z) :
  Forall (fun b => b = 0 \/ b = 1) [b7; b6; b5; b4; b3; b2; b1; b0] ->
  assemble msb_first [b7; b6; b5; b4; b3; b2; b1; b0] 0
  = 128 * b7 + 64 * b6 + 32 * b5 + 16 * b4 + 8 * b3 + 4 * b2 + 2 * b1 + b0.
Proof.
  intros H. repeat (apply Forall_cons in H as [[-> | ->] H]); reflexivity.
Qed.

Lemma carrier_bits_8 (buf : list Z) (addr : Z -> Z) (i : Z) :
  carrier_bits buf addr i 8
  = [carrier_bit buf addr i; carrier_bit buf addr (i + 1); carrier_bit buf addr (i + 2);
     carrier_bit buf addr (i + 3); carrier_bit buf addr (i + 4); carrier_bit buf addr (i + 5);
     carrier_bit buf addr (i + 6); carrier_bit buf addr (i + 7)].
Proof. unfold carrier_bits. cbn. by rewrite Z.add_0_r. Qed.

Lemma carrier_byte_weights (buf : list Z) (addr : Z -> Z) (i : Z) :
  carrier_byte buf addr i
  = 128 * carrier_bit buf addr i + 64 * carrier_bit buf addr (i + 1)
    + 32 * carrier_bit buf addr (i + 2) + 16 * carrier_bit buf addr (i + 3)
    + 8 * carrier_bit buf addr (i + 4) + 4 * carrier_bit buf addr (i + 5)
    + 2 * carrier_bit buf addr (i + 6) + carrier_bit buf addr (i + 7).
Proof.
  unfold carrier_byte. rewrite carrier_bits_8. apply assemble_msb_first.
  repeat (apply Forall_cons; split; [apply carrier_bit_01|]). apply Forall_nil_2.
Qed.

Lemma carrier_byte_range (buf : list Z) (addr : Z -> Z) (i : Z) :
  0 <= carrier_byte buf addr i < 256.
Proof.
  rewrite carrier_byte_weights.
  pose proof (carrier_bit_01 buf addr i). pose proof (carrier_bit_01 buf addr (i + 1)).
  pose proof (carrier_bit_01 buf addr (i + 2)). pose proof (carrier_bit_01 buf addr (i + 3)).
  pose proof (carrier_bit_01 buf addr (i + 4)). pose proof (carrier_bit_01 buf addr (i + 5)).
  pose proof (carrier_bit_01 buf addr (i + 6)). pose proof (carrier_bit_01 buf addr (i + 7)).
  lia.
Qed.

Lemma read_loop_ok (buf : list Z) (addr : Z -> Z) (cap : Z) (err : error) (n : nat) (i : Z) :
  i + 8 * Z.of_nat n <= cap ->
  read_loop buf addr cap err n i = Ret (carrier_bytes buf addr i n, i + 8 * Z.of_nat n).
Proof.
  revert i. induction n as [|n IH]; intros i Hcap.
  - cbn. by rewrite Z.add_0_r.
  - rewrite carrier_bytes_S. cbn [read_loop]. rewrite read_byte_ok by (cbn; lia).
    change (length msb_first) with 8%nat. change (Z.of_nat 8) with 8.
    cbn [mbind outcome_bind]. rewrite IH by lia. cbn [mbind outcome_bind].
    change (assemble msb_first (carrier_bits buf addr i 8) 0) with (carrier_byte buf addr i).
    rewrite Z.mod_small by apply carrier_byte_range. do 2 f_equal. lia.
Qed.

Lemma read_loop_fail (buf : list Z) (addr : Z -> Z) (cap : Z) (err : error) (n : nat) (i : Z) :
  (0 < n)%nat ->
  cap < i + 8 * Z.of_nat n ->
  read_loop buf addr cap err n i = Throw err.
Proof.
  revert i. induction n as [|n IH]; intros i Hn Hcap; [lia|].
  cbn [read_loop]. destruct (Z.le_gt_cases (i + 8) cap) as [Hle|Hgt].
  - rewrite read_byte_ok by (cbn; lia).
    change (length msb_first) with 8%nat. change (Z.of_nat 8) with 8.
    cbn [mbind outcome_bind]. rewrite IH; [done|lia|lia].
  - rewrite read_byte_fail by (done || cbn; lia). done.
Qed.

(** ** Reading back what was written *)

Lemma with_lsb_bit (old bit : Z) : is_bit bit -> Z.land (with_lsb old bit) 1 = bit.
Proof.
  intros Hbit. unfold with_lsb. change 256 with (2 ^ 8). rewrite <- Z.land_ones by lia.
  rewrite <- Z.land_assoc. change (Z.land (Z.ones 8) 1) with 1.
  rewrite Z.land_lor_distr_l, <- Z.land_assoc. change (Z.land 254 1) with 0.
  rewrite Z.land_0_r, Z.lor_0_l. by destruct Hbit as [-> | ->].
Qed.

Lemma with_lsb_testbit (old bit k : Z) :
  is_bit bit -> 1 <= k < 8 -> Z.testbit (with_lsb old bit) k = Z.testbit old k.
Proof.
  intros Hbit Hk. unfold with_lsb. change 256 with (2 ^ 8).
  rewrite Z.mod_pow2_bits_low by lia. rewrite Z.lor_spec, Z.land_spec.
  assert (Hcases : k = 1 \/ k = 2 \/ k = 3 \/ k = 4 \/ k = 5 \/ k = 6 \/ k = 7) by lia.
  destruct Hbit as [-> | ->];
    destruct Hcases as [-> | [-> | [-> | [-> | [-> | [-> | ->]]]]]];
    cbn; by rewrite ?andb_true_r, ?orb_false_r.
Qed.

Lemma with_lsb_range (old bit : Z) : is_byte (with_lsb old bit).
Proof. unfold is_byte, with_lsb. lia. Qed.

Lemma byte_bits_01 (byte : Z) : Forall is_bit (byte_bits byte).
Proof.
  unfold byte_bits. apply Forall_forall. intros x Hx. apply list_elem_of_In, in_map_iff in Hx.
  destruct Hx as (b & <- & _). unfold is_bit.
  change 1 with (Z.ones 1) at 1 2. rewrite Z.land_ones by lia. change (2 ^ 1) with 2. lia.
Qed.

Lemma payload_bits_01 (payload : list Z) : Forall is_bit (payload_bits payload).
Proof.
  unfold payload_bits. induction payload as [|b l IH]; [apply Forall_nil_2|].
  cbn [flat_map]. apply Forall_app. split; [apply byte_bits_01|apply IH].
Qed.

Lemma byte_bits_assemble (byte : Z) :
  is_byte byte -> assemble msb_first (byte_bits byte) 0 = byte.
Proof.
  intros Hb.
  assert (Hall : forallb (fun b => assemble msb_first (byte_bits b) 0 =? b)
                         (map Z.of_nat (seq 0 256)) = true) by (vm_compute; reflexivity).
  rewrite forallb_forall in Hall. apply Z.eqb_eq, Hall, in_map_iff.
  exists (Z.to_nat byte). unfold is_byte in Hb. split; [lia|apply in_seq; lia].
Qed.

Lemma map_seq_lookup {A : Type} (f : nat -> A) (l : list A) :
  (forall k x, l !! k = Some x -> f k = x) -> map f (seq 0 (length l)) = l.
Proof.
  revert f. induction l as [|a l IH]; intros f H; [done|].
  cbn [length seq map]. f_equal; [by apply (H 0%nat)|].
  rewrite <- seq_shift, map_map. apply IH. intros k x Hk. by apply (H (S k)).
Qed.

Lemma carrier_bits_app (buf : list Z) (addr : Z -> Z) (i : Z) (n m : nat) :
  carrier_bits buf addr i (n + m)
  = carrier_bits buf addr i n ++ carrier_bits buf addr (i + Z.of_nat n) m.
Proof.
  revert i. induction n as [|n IH]; intros i.
  - cbn [Nat.add]. change (Z.of_nat 0) with 0. by rewrite Z.add_0_r.
  - cbn [Nat.add]. rewrite !carrier_bits_S, IH. cbn [app]. do 3 f_equal. lia.
Qed.

Lemma length_carrier_bits (buf : list Z) (addr : Z -> Z) (i : Z) (n : nat) :
  length (carrier_bits buf addr i n) = n.
Proof. unfold carrier_bits. by rewrite length_map, length_seq. Qed.

(** After the walk, the carrier bits from the start cursor on are the bits
    written, when every offset is inside the buffer. *)
Lemma carrier_bits_written (addr : Z -> Z) (bits buf : list Z) (i : Z) :
  (forall a b, i <= a < b -> b < i + Z.of_nat (length bits) -> addr a < addr b) ->
  (forall k, 0 <= k < Z.of_nat (length bits) -> 0 <= addr (i + k) < buf_length buf) ->
  Forall is_bit bits ->
  carrier_bits (write_bits addr bits (buf, i)).1 addr i (length bits) = bits.
Proof.
  intros Hmono Hrange Hbits. unfold carrier_bits. apply map_seq_lookup. intros k bit Hk.
  unfold carrier_bit. rewrite (write_bits_written addr bits buf i k bit Hmono Hk).
  pose proof (lookup_lt_Some _ _ _ Hk) as Hlt.
  destruct (at_index_Some buf (addr (i + Z.of_nat k))) as [old ->]; [apply Hrange; lia|].
  cbn. apply with_lsb_bit. rewrite Forall_forall in Hbits. apply Hbits.
  by apply list_elem_of_lookup_2 in Hk.
Qed.

Lemma carrier_bytes_payload (buf : list Z) (addr : Z -> Z) (i : Z) (payload : list Z) :
  Forall is_byte payload ->
  carrier_bits buf addr i (length (payload_bits payload)) = payload_bits payload ->
  carrier_bytes buf addr i (length payload) = payload.
Proof.
  revert i. induction payload as [|b l IH]; intros i Hbytes Hbits; [done|].
  apply Forall_cons in Hbytes as [Hb Hl].
  cbn [length]. rewrite carrier_bytes_S.
  change (payload_bits (b :: l)) with (byte_bits b ++ payload_bits l) in Hbits.
  rewrite length_app in Hbits. change (length (byte_bits b)) with 8%nat in Hbits.
  rewrite carrier_bits_app in Hbits.
  apply app_inj_1 in Hbits as [H8 Hrest]; [|by rewrite length_carrier_bits].
  f_equal.
  - unfold carrier_byte. rewrite H8. by apply byte_bits_assemble.
  - apply IH; [done|]. exact Hrest.
Qed.

(** ** The embedding functions in terms of the bit walk *)

Lemma byte_bits_lookup (byte : Z) (j : nat) :
  (j < 8)%nat -> byte_bits byte !! j = Some (Z.land (Z.shiftr byte (7 - Z.of_nat j)) 1).
Proof.
  intros Hj. unfold byte_bits, msb_first.
  do 8 (destruct j as [|j]; [reflexivity|]). lia.
Qed.

Lemma payload_bits_lookup (payload : list Z) (k j : nat) (byte : Z) :
  payload !! k = Some byte -> (j < 8)%nat ->
  payload_bits payload !! (8 * k + j)%nat = Some (Z.land (Z.shiftr byte (7 - Z.of_nat j)) 1).
Proof.
  revert k. induction payload as [|b l IH]; intros k Hk Hj; [done|].
  change (payload_bits (b :: l)) with (byte_bits b ++ payload_bits l).
  destruct k as [|k].
  - injection Hk as ->. rewrite lookup_app_l by (change (length (byte_bits byte)) with 8%nat; lia).
    replace (8 * 0 + j)%nat with j by lia. by apply byte_bits_lookup.
  - rewrite lookup_app_r by (change (length (byte_bits b)) with 8%nat; lia).
    change (length (byte_bits b)) with 8%nat.
    replace (8 * S k + j - 8)%nat with (8 * k + j)%nat by lia. by apply IH.
Qed.

Lemma testbit_payload_bit (byte j : Z) :
  0 <= j < 8 -> Z.testbit (Z.land (Z.shiftr byte (7 - j)) 1) 0 = Z.testbit byte (7 - j).
Proof.
  intros Hj. rewrite Z.land_spec, Z.shiftr_spec by lia. cbn. by rewrite andb_true_r.
Qed.

Lemma testbit_lsb (x bit : Z) : Z.land x 1 = bit -> Z.testbit x 0 = Z.testbit bit 0.
Proof. intros <-. rewrite Z.land_spec. cbn. by rewrite andb_true_r. Qed.

Lemma embedLSB_RGBA_ok (rgbabuf : list Z) (width height : Z) (payload : list Z) :
  bitsNeeded (buf_length payload) <= width * height * 3 ->
  embedLSB_RGBA rgbabuf width height payload
  = (EmbedOk (bitsNeeded (buf_length payload)),
     (write_bits rgba_offset (payload_bits payload) (rgbabuf, 0)).1).
Proof.
  intros Hcap. unfold embedLSB_RGBA.
  destruct (Z.gtb_spec (bitsNeeded (buf_length payload)) (width * height * 3)); [lia|].
  by rewrite embedLSB_RGBA_loop.
Qed.

Lemma embedLSB_RGBA_full (rgbabuf : list Z) (width height : Z) (payload : list Z) :
  width * height * 3 < bitsNeeded (buf_length payload) ->
  embedLSB_RGBA rgbabuf width height payload
  = (EmbedError (NotEnoughCapacity (ceilKB (bitsNeeded (buf_length payload)))
                                   (ceilKB (width * height * 3))), rgbabuf).
Proof.
  intros Hcap. unfold embedLSB_RGBA.
  by destruct (Z.gtb_spec (bitsNeeded (buf_length payload)) (width * height * 3)); [|lia].
Qed.

Lemma embedLSB_WavPCM_ok (buf payload : list Z) (dataOffset dataLength bits : Z) :
  bitsNeeded (buf_length payload) <= dataLength / (bits / 8) ->
  embedLSB_WavPCM buf payload dataOffset dataLength bits
  = (EmbedOk (bitsNeeded (buf_length payload)),
     (write_bits (wav_offset dataOffset (bits / 8)) (payload_bits payload) (buf, 0)).1).
Proof.
  intros Hcap. unfold embedLSB_WavPCM.
  destruct (Z.gtb_spec (bitsNeeded (buf_length payload)) (dataLength / (bits / 8))); [lia|].
  by rewrite embedLSB_WavPCM_loop.
Qed.

Lemma embedLSB_WavPCM_full (buf payload : list Z) (dataOffset dataLength bits : Z) :
  dataLength / (bits / 8) < bitsNeeded (buf_length payload) ->
  embedLSB_WavPCM buf payload dataOffset dataLength bits
  = (EmbedError (NotEnoughWavCapacity (ceilKB (bitsNeeded (buf_length payload)))
                                      (ceilKB (dataLength / (bits / 8)))), buf).
Proof.
  intros Hcap. unfold embedLSB_WavPCM.
  by destruct (Z.gtb_spec (bitsNeeded (buf_length payload)) (dataLength / (bits / 8))); [|lia].
Qed.

(** [ceilKB] rounds a bit count up to whole kilobytes. *)
Lemma ceilKB_spec (bits : Z) : 8192 * (ceilKB bits - 1) < bits <= 8192 * ceilKB bits.
Proof. unfold ceilKB. lia. Qed.

Lemma with_lsb_replaced (old bit : Z) : is_bit bit -> lsb_replaced old (with_lsb old bit) bit.
Proof.
  intros Hbit. split; [apply with_lsb_range|]. split; [by apply with_lsb_bit|].
  intros t Ht. by apply with_lsb_testbit.
Qed.

(** The effect of a bit walk on the buffer, offset by offset. *)
Lemma write_bits_effect (addr : Z -> Z) (payload buf : list Z) :
  (forall a b, 0 <= a < b -> addr a < addr b) ->
  let buf' := (write_bits addr (payload_bits payload) (buf, 0)).1 in
  length buf' = length buf /\
  (forall k byte j old,
      payload !! k = Some byte -> (j < 8)%nat ->
      at_index buf (addr (Z.of_nat (8 * k + j))) = Some old ->
      exists new, at_index buf' (addr (Z.of_nat (8 * k + j))) = Some new /\
                  lsb_replaced old new (Z.land (Z.shiftr byte (7 - Z.of_nat j)) 1)) /\
  (forall o, (forall i, 0 <= i < 8 * buf_length payload -> addr i <> o) ->
             at_index buf' o = at_index buf o).
Proof.
  intros Hmono buf'. split; [apply write_bits_length|]. split.
  - intros k byte j old Hk Hj Hold.
    pose proof (payload_bits_lookup payload k j byte Hk Hj) as Hbit.
    exists (with_lsb old (Z.land (Z.shiftr byte (7 - Z.of_nat j)) 1)). split.
    + subst buf'.
      pose proof (write_bits_written addr (payload_bits payload) buf 0 (8 * k + j)
                    _ (fun a b Hab _ => Hmono a b Hab) Hbit) as Hw.
      rewrite Z.add_0_l in Hw. rewrite Hw, Hold. done.
    + apply with_lsb_replaced.
      pose proof (payload_bits_01 payload) as H01. rewrite Forall_forall in H01.
      apply H01. by apply list_elem_of_lookup_2 in Hbit.
  - intros o Ho. subst buf'. apply write_bits_untouched. intros i Hi.
    rewrite length_payload_bits in Hi. rewrite Z.add_0_l. apply Ho.
    unfold buf_length. lia.
Qed.

(** ** [parseWavHeader] *)

Lemma at_index_byte (buf : list Z) (i b : Z) :
  Forall is_byte buf -> at_index buf i = Some b -> is_byte b.
Proof.
  intros Hbuf Hi. unfold at_index in Hi. destruct (i <? 0); [done|].
  rewrite Forall_forall in Hbuf. apply Hbuf. by apply list_elem_of_lookup_2 in Hi.
Qed.

Lemma readUInt32LE_range (buf : list Z) (offset v : Z) :
  Forall is_byte buf -> readUInt32LE buf offset = Ret v -> 0 <= v < 2 ^ 32.
Proof.
  intros Hbuf. unfold readUInt32LE.
  destruct (at_index buf offset) as [b0|] eqn:H0; [|done].
  destruct (at_index buf (offset + 1)) as [b1|] eqn:H1; [|done].
  destruct (at_index buf (offset + 2)) as [b2|] eqn:H2; [|done].
  destruct (at_index buf (offset + 3)) as [b3|] eqn:H3; [|done].
  intros [= <-].
  apply (at_index_byte _ _ _ Hbuf) in H0, H1, H2, H3. unfold is_byte in *. lia.
Qed.

Lemma readUInt32LE_in_range (buf : list Z) (offset : Z) :
  0 <= offset -> offset + 4 <= buf_length buf -> exists v, readUInt32LE buf offset = Ret v.
Proof.
  intros H0 Hlen. unfold readUInt32LE.
  destruct (at_index_Some buf offset) as [b0 ->]; [lia|].
  destruct (at_index_Some buf (offset + 1)) as [b1 ->]; [lia|].
  destruct (at_index_Some buf (offset + 2)) as [b2 ->]; [lia|].
  destruct (at_index_Some buf (offset + 3)) as [b3 ->]; [lia|].
  by eexists.
Qed.

Lemma wav_chunks_data_in_range (fuel : nat) (buf : list Z) (offset : Z) (st st' : wav_scan) :
  Forall is_byte buf -> 12 <= offset -> data_in_range buf st ->
  wav_chunks fuel buf offset st = Ret st' -> data_in_range buf st'.
Proof.
  intros Hbuf. revert offset st. induction fuel as [|fuel IH]; intros offset st Hoff Hst.
  - cbn [wav_chunks]. destruct (offset + 8 <=? buf_length buf); [done|]. by intros [= <-].
  - cbn [wav_chunks]. destruct (Z.leb_spec (offset + 8) (buf_length buf)); [|by intros [= <-]].
    destruct (readUInt32LE buf (offset + 4)) as [size| |] eqn:Hsize; [|done..].
    cbn [mbind outcome_bind].
    pose proof (readUInt32LE_range _ _ _ Hbuf Hsize) as Hrange.
    destruct (Z.gtb_spec (offset + 8 + size) (buf_length buf)); [by intros [= <-]|].
    destruct (str_eqb _ (str "fmt ")).
    + destruct (read_fmt buf (offset + 8)) as [f| |]; [|done..]. cbn [mbind outcome_bind].
      apply IH; [lia|]. exact Hst.
    + destruct (str_eqb _ (str "data")); cbn [mbind outcome_bind].
      * apply IH; [lia|]. right. cbn. lia.
      * apply IH; [lia|done].
Qed.

(** [length buf] iterations are enough: the loop never runs out of fuel. *)
Lemma wav_chunks_fuel (fuel : nat) (buf : list Z) (offset : Z) (st : wav_scan) :
  Forall is_byte buf -> 0 <= offset ->
  buf_length buf - offset < 8 * Z.of_nat fuel + 8 ->
  wav_chunks fuel buf offset st <> Unmodelled.
Proof.
  intros Hbuf. revert offset st. induction fuel as [|fuel IH]; intros offset st Hoff Hfuel.
  - cbn [wav_chunks]. destruct (Z.leb_spec (offset + 8) (buf_length buf)); [lia|done].
  - cbn [wav_chunks]. destruct (Z.leb_spec (offset + 8) (buf_length buf)); [|done].
    destruct (readUInt32LE_in_range buf (offset + 4)) as [size Hsize]; [lia..|].
    rewrite Hsize. cbn [mbind outcome_bind].
    pose proof (readUInt32LE_range _ _ _ Hbuf Hsize) as Hrange.
    destruct (Z.gtb_spec (offset + 8 + size) (buf_length buf)); [done|].
    assert (Hread : forall o, read_fmt buf o <> Unmodelled).
    { intros o. unfold read_fmt, readUInt16LE, readUInt32LE.
      repeat (match goal with |- context [at_index ?b ?i] => destruct (at_index b i) end;
              cbn [mbind outcome_bind]; try done). }
    destruct (str_eqb _ (str "fmt ")).
    + specialize (Hread (offset + 8)).
      destruct (read_fmt buf (offset + 8)) as [f| |]; [|done..]. cbn [mbind outcome_bind].
      apply IH; lia.
    + destruct (str_eqb _ (str "data")); cbn [mbind outcome_bind]; apply IH; lia.
Qed.

(** A header that [parseWavHeader] returns describes 8- or 16-bit PCM and
    a non-empty data chunk inside the buffer. *)
Lemma parseWavHeader_Ret (buf : list Z) (h : wav_header) :
  Forall is_byte buf -> parseWavHeader buf = Ret h ->
  is_riff_wave buf = true /\
  audioFormat (hdr_fmt h) = 1 /\
  (bitsPerSample (hdr_fmt h) = 8 \/ bitsPerSample (hdr_fmt h) = 16) /\
  20 <= hdr_dataOffset h /\ 0 < hdr_dataLength h /\
  hdr_dataOffset h + hdr_dataLength h <= buf_length buf.
Proof.
  intros Hbuf. unfold parseWavHeader.
  destruct (is_riff_wave buf); [|done]. cbn [negb].
  destruct (scan_chunks buf) as [st| |] eqn:Hscan; [|done..]. cbn [mbind outcome_bind].
  assert (Hdata : data_in_range buf st).
  { unfold scan_chunks in Hscan. eapply wav_chunks_data_in_range; [done| |left|exact Hscan]; done. }
  destruct (scan_fmt st) as [f|]; [|done].
  destruct (Z.eqb_spec (audioFormat f) 1); [|done]. cbn [negb].
  destruct (Z.eqb_spec (bitsPerSample f) 8); cbn [orb negb];
    [|destruct (Z.eqb_spec (bitsPerSample f) 16); cbn [negb]; [|done]];
    (destruct (Z.ltb_spec (scan_dataOffset st) 0); cbn [orb]; [done|];
     destruct (Z.leb_spec (scan_dataLength st) 0); [done|];
     intros [= <-]; cbn; destruct Hdata as [[? ?]|(? & ? & ?)]; [lia|];
     repeat split; auto with lia).
Qed.

(** ** The readers *)

Lemma carrier_byte_testbit (buf : list Z) (addr : Z -> Z) (i j : Z) :
  0 <= j < 8 ->
  Z.testbit (carrier_byte buf addr i) (7 - j)
  = Z.testbit (ToInt32 (at_index buf (addr (i + j)))) 0.
Proof.
  intros Hj. rewrite carrier_byte_weights.
  assert (Hbit : forall m, Z.testbit (ToInt32 (at_index buf (addr m))) 0
                           = Z.testbit (carrier_bit buf addr m) 0).
  { intros m. by apply testbit_lsb. }
  rewrite Hbit.
  assert (Hcases : j = 0 \/ j = 1 \/ j = 2 \/ j = 3 \/ j = 4 \/ j = 5 \/ j = 6 \/ j = 7) by lia.
  destruct Hcases as [-> | [-> | [-> | [-> | [-> | [-> | [-> | ->]]]]]]];
    rewrite ?Z.add_0_r;
    destruct (carrier_bit_01 buf addr i) as [-> | ->];
    destruct (carrier_bit_01 buf addr (i + 1)) as [-> | ->];
    destruct (carrier_bit_01 buf addr (i + 2)) as [-> | ->];
    destruct (carrier_bit_01 buf addr (i + 3)) as [-> | ->];
    destruct (carrier_bit_01 buf addr (i + 4)) as [-> | ->];
    destruct (carrier_bit_01 buf addr (i + 5)) as [-> | ->];
    destruct (carrier_bit_01 buf addr (i + 6)) as [-> | ->];
    destruct (carrier_bit_01 buf addr (i + 7)) as [-> | ->];
    reflexivity.
Qed.

Lemma carrier_bytes_lookup (buf : list Z) (addr : Z -> Z) (i : Z) (n k : nat) (byte : Z) :
  carrier_bytes buf addr i n !! k = Some byte ->
  byte = carrier_byte buf addr (i + 8 * Z.of_nat k).
Proof.
  revert i k. induction n as [|n IH]; intros i k Hk; [done|].
  rewrite carrier_bytes_S in Hk. destruct k as [|k].
  - injection Hk as <-. f_equal. lia.
  - cbn in Hk. apply IH in Hk. rewrite Hk. f_equal. lia.
Qed.

Lemma length_carrier_bytes (buf : list Z) (addr : Z -> Z) (i : Z) (n : nat) :
  length (carrier_bytes buf addr i n) = n.
Proof. unfold carrier_bytes. by rewrite length_map, length_seq. Qed.

Lemma carrier_bytes_msb_first (buf : list Z) (addr : Z -> Z) (i : Z) (n : nat) :
  reads_msb_first buf addr i (carrier_bytes buf addr i n).
Proof.
  intros k byte j Hk Hj. apply carrier_bytes_lookup in Hk as ->. split.
  - apply carrier_byte_range.
  - by rewrite carrier_byte_testbit.
Qed.

(** The allocation of [readBytes]. *)
Lemma Buffer_alloc_fails_false `{Platform} (held n : Z) :
  0 <= n -> n <= alloc_limit \/ n <= held -> Buffer_alloc_fails held n = false.
Proof.
  intros Hn Hle. unfold Buffer_alloc_fails.
  destruct (Z.ltb_spec n 0); [lia|]. by destruct (Z.ltb_spec (Z.max alloc_limit held) n); [lia|].
Qed.

Lemma Buffer_alloc_fails_true `{Platform} (held n : Z) :
  n < 0 \/ alloc_limit < n /\ held < n -> Buffer_alloc_fails held n = true.
Proof.
  intros Hn. unfold Buffer_alloc_fails.
  destruct (Z.ltb_spec n 0); [done|]. by destruct (Z.ltb_spec (Z.max alloc_limit held) n); [|lia].
Qed.

Lemma Buffer_alloc_fails_small `{Platform} (held n : Z) :
  0 <= n <= 48 -> Buffer_alloc_fails held n = false.
Proof.
  intros Hn. apply Buffer_alloc_fails_false; [lia|]. left. pose proof alloc_limit_min. lia.
Qed.

(** The contract of [readBytes], for any offset function. *)
Lemma read_loop_contract (buf : list Z) (addr : Z -> Z) (cap : Z) (err : error) (n i : Z) :
  0 <= n ->
  (i + 8 * n <= cap ->
   exists out, read_loop buf addr cap err (Z.to_nat n) i = Ret (out, i + 8 * n) /\
               buf_length out = n /\ reads_msb_first buf addr i out) /\
  (0 < n -> cap < i + 8 * n -> read_loop buf addr cap err (Z.to_nat n) i = Throw err).
Proof.
  intros Hn. split.
  - intros Hcap. exists (carrier_bytes buf addr i (Z.to_nat n)). split; [|split].
    + rewrite read_loop_ok by lia. do 2 f_equal. lia.
    + unfold buf_length. rewrite length_carrier_bytes. lia.
    + apply carrier_bytes_msb_first.
  - intros Hpos Hcap. apply read_loop_fail; lia.
Qed.


(** The claim C9 as the specification states it fails: on a platform that
    allocates up to 2^30 - 1 bytes, a call for 2^30 bytes on a carrier of 24
    bits would move the cursor past the capacity, and throws the
    [RangeError] of the allocation, not the out-of-capacity error. *)
Lemma readBytes_huge_RangeError :
  4 * 2 * 3 < 0 + 8 * 2 ^ 30 /\
  @imageReader toy_platform (repeat 255 32) 4 2 (2 ^ 30) 0 = Throw RangeError /\
  @audioReader toy_platform (repeat 255 32) 4 24 1 (2 ^ 30) 0 = Throw RangeError.
Proof. split; [lia|]. split; reflexivity. Qed.

(** ** The embedding functions *)

(** C5. Image LSB addressing and frame condition.  When the payload passes
    the capacity check, [embedLSB_RGBA] succeeds; bit [i = 8k + j] of the
    walk is bit [7 - j] of [payload[k]] (most significant bit first) and
    lands in bit 0 of the byte at offset [4 * floor(i / 3) + i mod 3],
    whose bits 1 to 7 keep their value; every byte that is the offset of no
    walked bit, so every alpha byte and every byte after the last written
    one, is unchanged. *)
Theorem embedLSB_RGBA_addressing (rgbabuf : list Z) (width height : Z) (payload : list Z) :
  bitsNeeded (buf_length payload) <= width * height * 3 ->
  exists buf',
    embedLSB_RGBA rgbabuf width height payload
    = (EmbedOk (bitsNeeded (buf_length payload)), buf') /\
    length buf' = length rgbabuf /\
    (forall (k j : nat) (byte old : Z),
        payload !! k = Some byte -> (j < 8)%nat ->
        let i := Z.of_nat (8 * k + j) in
        at_index rgbabuf (4 * (i / 3) + i mod 3) = Some old ->
        exists new,
          at_index buf' (4 * (i / 3) + i mod 3) = Some new /\
          is_byte new /\
          Z.testbit new 0 = Z.testbit byte (7 - Z.of_nat j) /\
          forall t, 1 <= t < 8 -> Z.testbit new t = Z.testbit old t) /\
    (forall o,
        (forall i, 0 <= i < bitsNeeded (buf_length payload) -> 4 * (i / 3) + i mod 3 <> o) ->
        at_index buf' o = at_index rgbabuf o) /\
    (forall p, at_index buf' (4 * p + 3) = at_index rgbabuf (4 * p + 3)) /\
    (forall o i, i = bitsNeeded (buf_length payload) - 1 ->
                 4 * (i / 3) + i mod 3 < o -> at_index buf' o = at_index rgbabuf o).
Proof.
  intros Hcap. rewrite embedLSB_RGBA_ok by done. eexists. split; [reflexivity|].
  destruct (write_bits_effect rgba_offset payload rgbabuf rgba_offset_mono)
    as (Hlen & Hwritten & Hframe).
  assert (Hoff : forall i, rgba_offset i = 4 * (i / 3) + i mod 3)
    by (intros i; unfold rgba_offset; lia).
  split; [exact Hlen|]. split; [|split; [|split]].
  - intros k j byte old Hk Hj i Hold. rewrite <- Hoff in *.
    destruct (Hwritten k byte j old Hk Hj Hold) as (new & Hnew & Hbyte & Hlsb & Hrest).
    exists new. split; [done|]. split; [done|]. split; [|done].
    rewrite (testbit_lsb _ _ Hlsb). apply testbit_payload_bit. lia.
  - intros o Ho. apply Hframe. intros i Hi. rewrite Hoff. apply Ho.
    unfold bitsNeeded. lia.
  - intros p. apply Hframe. intros i Hi. unfold rgba_offset. lia.
  - intros o i -> Ho. apply Hframe. intros i Hi. unfold rgba_offset, bitsNeeded in *. lia.
Qed.

Lemma wav_offsets_in_range (buf : list Z) (dataOffset dataLength bps n i : Z) :
  0 <= dataOffset -> 0 < bps -> dataOffset + dataLength <= buf_length buf ->
  n <= dataLength / bps -> 0 <= i < n ->
  0 <= wav_offset dataOffset bps i < buf_length buf.
Proof. unfold wav_offset. intros. nia. Qed.

Lemma rgba_offsets_in_range (buf : list Z) (width height n i : Z) :
  buf_length buf = width * height * 4 -> n <= width * height * 3 -> 0 <= i < n ->
  0 <= rgba_offset i < buf_length buf.
Proof. unfold rgba_offset. intros. lia. Qed.

(** Reading back from cursor 0 what a bit walk wrote. *)
Lemma carrier_bytes_after_write (addr : Z -> Z) (payload buf : list Z) :
  (forall a b, 0 <= a < b -> addr a < addr b) ->
  (forall i, 0 <= i < 8 * buf_length payload -> 0 <= addr i < buf_length buf) ->
  Forall is_byte payload ->
  carrier_bytes (write_bits addr (payload_bits payload) (buf, 0)).1 addr 0 (length payload)
  = payload.
Proof.
  intros Hmono Hrange Hbytes. apply carrier_bytes_payload; [done|].
  apply carrier_bits_written.
  - intros a b Hab _. by apply Hmono.
  - intros k Hk. rewrite length_payload_bits in Hk. rewrite Z.add_0_l. apply Hrange.
    unfold buf_length. lia.
  - apply payload_bits_01.
Qed.

(** C2. Capacity boundary with atomicity.  Image: on a raw RGBA buffer of
    [width * height] pixels, a payload whose bit count is at most the
    capacity [width * height * 3] (in particular equal to it) is embedded,
    and all its bits are in the carrier: the carrier bytes read back from
    cursor 0 are the payload.  A payload with at least one bit more is
    refused with the capacity error, which carries the needed and the
    available size rounded up to whole KB, and the buffer is returned
    as it was.  Audio: the same with the capacity
    [floor(dataLength / bytesPerSample)], the number of samples of a header
    accepted by [parseWavHeader]. *)
Theorem embed_capacity_boundary (payload : list Z) :
  Forall is_byte payload ->
  (forall (rgbabuf : list Z) (width height : Z),
      buf_length rgbabuf = width * height * 4 ->
      (bitsNeeded (buf_length payload) <= width * height * 3 ->
       exists buf',
         embedLSB_RGBA rgbabuf width height payload
         = (EmbedOk (bitsNeeded (buf_length payload)), buf') /\
         carrier_bytes buf' rgba_offset 0 (length payload) = payload) /\
      (width * height * 3 < bitsNeeded (buf_length payload) ->
       exists needKB haveKB,
         embedLSB_RGBA rgbabuf width height payload
         = (EmbedError (NotEnoughCapacity needKB haveKB), rgbabuf) /\
         8192 * (needKB - 1) < 8 * buf_length payload <= 8192 * needKB /\
         8192 * (haveKB - 1) < width * height * 3 <= 8192 * haveKB)) /\
  (forall (wav : list Z) (h : wav_header),
      Forall is_byte wav -> parseWavHeader wav = Ret h ->
      let bytesPerSample := bitsPerSample (hdr_fmt h) / 8 in
      let numSamples := hdr_dataLength h / bytesPerSample in
      (bitsNeeded (buf_length payload) <= numSamples ->
       exists buf',
         embedLSB_WavPCM wav payload (hdr_dataOffset h) (hdr_dataLength h)
                         (bitsPerSample (hdr_fmt h))
         = (EmbedOk (bitsNeeded (buf_length payload)), buf') /\
         carrier_bytes buf' (wav_offset (hdr_dataOffset h) bytesPerSample) 0 (length payload)
         = payload) /\
      (numSamples < bitsNeeded (buf_length payload) ->
       exists needKB haveKB,
         embedLSB_WavPCM wav payload (hdr_dataOffset h) (hdr_dataLength h)
                         (bitsPerSample (hdr_fmt h))
         = (EmbedError (NotEnoughWavCapacity needKB haveKB), wav) /\
         8192 * (needKB - 1) < 8 * buf_length payload <= 8192 * needKB /\
         8192 * (haveKB - 1) < numSamples <= 8192 * haveKB)).
Proof.
  intros Hbytes. split.
  - intros rgbabuf width height Hlen. split.
    + intros Hcap. rewrite embedLSB_RGBA_ok by done. eexists. split; [reflexivity|].
      apply carrier_bytes_after_write; [apply rgba_offset_mono| |done].
      intros i Hi. eapply rgba_offsets_in_range; [done|exact Hcap|].
      unfold bitsNeeded. lia.
    + intros Hcap. rewrite embedLSB_RGBA_full by done. do 2 eexists. split; [reflexivity|].
      split; [|apply ceilKB_spec].
      pose proof (ceilKB_spec (bitsNeeded (buf_length payload))) as H.
      unfold bitsNeeded in *. lia.
  - intros wav h Hwav Hparse bytesPerSample numSamples.
    destruct (parseWavHeader_Ret wav h Hwav Hparse) as (_ & _ & Hbits & Hoff & Hlen & Hend).
    assert (Hbps : 0 < bytesPerSample) by (subst bytesPerSample; lia).
    split.
    + intros Hcap. rewrite embedLSB_WavPCM_ok by done. eexists. split; [reflexivity|].
      apply carrier_bytes_after_write; [intros a b Hab; apply wav_offset_mono; lia| |done].
      intros i Hi. eapply wav_offsets_in_range; [| |exact Hend|exact Hcap|]; try lia.
      unfold bitsNeeded. lia.
    + intros Hcap. rewrite embedLSB_WavPCM_full by done. do 2 eexists. split; [reflexivity|].
      split; [|apply ceilKB_spec].
      pose proof (ceilKB_spec (bitsNeeded (buf_length payload))) as H.
      unfold bitsNeeded in *. lia.
Qed.

(** C6. Audio capacity and addressing.  For a WAV buffer accepted by
    [parseWavHeader], [bytesPerSample] is 1 (8-bit) or 2 (16-bit) and the
    capacity is [floor(dataLength / bytesPerSample)] bits: the embedding
    succeeds up to that many bits and is refused beyond, and the reader
    reads up to that cursor and throws beyond (its out-of-capacity error,
    or the [RangeError] of the allocation when the platform does not
    allocate the bytes asked for).  Bit [i] is bit 0 of the
    byte at offset [dataOffset + i * bytesPerSample], the first byte of
    sample [i]: the embedding writes it there (the other seven bits and
    every other byte of the file keep their value), and the reader reads it
    from there. *)
Theorem wav_capacity_addressing `{Platform} (wav payload : list Z) (h : wav_header) :
  Forall is_byte wav -> parseWavHeader wav = Ret h ->
  let bytesPerSample := bitsPerSample (hdr_fmt h) / 8 in
  let numSamples := hdr_dataLength h / bytesPerSample in
  let dataOffset := hdr_dataOffset h in
  (bitsPerSample (hdr_fmt h) = 8 /\ bytesPerSample = 1 \/
   bitsPerSample (hdr_fmt h) = 16 /\ bytesPerSample = 2) /\
  (bitsNeeded (buf_length payload) <= numSamples ->
   exists buf',
     embedLSB_WavPCM wav payload dataOffset (hdr_dataLength h) (bitsPerSample (hdr_fmt h))
     = (EmbedOk (bitsNeeded (buf_length payload)), buf') /\
     length buf' = length wav /\
     (forall (k j : nat) (byte : Z),
         payload !! k = Some byte -> (j < 8)%nat ->
         let i := Z.of_nat (8 * k + j) in
         exists old new,
           at_index wav (dataOffset + i * bytesPerSample) = Some old /\
           at_index buf' (dataOffset + i * bytesPerSample) = Some new /\
           is_byte new /\
           Z.testbit new 0 = Z.testbit byte (7 - Z.of_nat j) /\
           forall t, 1 <= t < 8 -> Z.testbit new t = Z.testbit old t) /\
     (forall o,
         (forall i, 0 <= i < bitsNeeded (buf_length payload) ->
                    dataOffset + i * bytesPerSample <> o) ->
         at_index buf' o = at_index wav o)) /\
  (numSamples < bitsNeeded (buf_length payload) ->
   embedLSB_WavPCM wav payload dataOffset (hdr_dataLength h) (bitsPerSample (hdr_fmt h))
   = (EmbedError (NotEnoughWavCapacity (ceilKB (bitsNeeded (buf_length payload)))
                                       (ceilKB numSamples)), wav)) /\
  (forall n i, 0 <= n ->
     (0 <= i -> i + 8 * n <= numSamples ->
      exists out,
        audioReader wav dataOffset numSamples bytesPerSample n i = Ret (out, i + 8 * n) /\
        buf_length out = n /\
        forall (k : nat) (byte j : Z),
          out !! k = Some byte -> 0 <= j < 8 ->
          Z.testbit byte (7 - j)
          = Z.testbit
              (ToInt32 (at_index wav (dataOffset + (i + 8 * Z.of_nat k + j) * bytesPerSample))) 0) /\
     (0 < n -> numSamples < i + 8 * n ->
      audioReader wav dataOffset numSamples bytesPerSample n i
      = Throw (if (alloc_limit <? n) && (dataOffset + numSamples * bytesPerSample <? n)
               then RangeError else OutOfAudioCapacity))).
Proof.
  intros Hwav Hparse bytesPerSample numSamples dataOffset.
  destruct (parseWavHeader_Ret wav h Hwav Hparse) as (_ & _ & Hbits & Hoff & Hlen & Hend).
  assert (Hbps : bitsPerSample (hdr_fmt h) = 8 /\ bytesPerSample = 1 \/
                 bitsPerSample (hdr_fmt h) = 16 /\ bytesPerSample = 2).
  { subst bytesPerSample. destruct Hbits as [-> | ->]; [left|right]; done. }
  assert (Hpos : 0 < bytesPerSample) by lia.
  split; [exact Hbps|]. split; [|split].
  - intros Hcap. rewrite embedLSB_WavPCM_ok by done. eexists. split; [reflexivity|].
    destruct (write_bits_effect (wav_offset dataOffset bytesPerSample) payload wav)
      as (Hlength & Hwritten & Hframe).
    { intros a b Hab. apply wav_offset_mono; lia. }
    split; [exact Hlength|]. split.
    + intros k j byte Hk Hj i.
      assert (Hi : 0 <= i < bitsNeeded (buf_length payload)).
      { apply lookup_lt_Some in Hk. unfold bitsNeeded, buf_length. lia. }
      destruct (at_index_Some wav (wav_offset dataOffset bytesPerSample i)) as [old Hold].
      { eapply wav_offsets_in_range; [| |exact Hend|exact Hcap|exact Hi]; lia. }
      destruct (Hwritten k byte j old Hk Hj Hold) as (new & Hnew & Hbyte & Hlsb & Hrest).
      exists old, new. split; [exact Hold|]. split; [exact Hnew|]. split; [done|].
      split; [|done]. rewrite (testbit_lsb _ _ Hlsb). apply testbit_payload_bit. lia.
    + intros o Ho. apply Hframe. intros i Hi. apply Ho. unfold bitsNeeded. lia.
  - intros Hcap. by rewrite embedLSB_WavPCM_full.
  - intros n i Hn.
    destruct (read_loop_contract wav (wav_offset dataOffset bytesPerSample) numSamples
                OutOfAudioCapacity n i Hn) as [Hok Hfail].
    unfold audioReader. split.
    + intros Hi Hcap. rewrite Buffer_alloc_fails_false by (try right; nia).
      rewrite audio_read_loop_eq.
      destruct (Hok Hcap) as (out & Hread & Hout & Hmsb). exists out.
      split; [exact Hread|]. split; [exact Hout|].
      intros k byte j Hk Hj. by destruct (Hmsb k byte j Hk Hj) as [_ ->].
    + intros Hnpos Hcap.
      destruct (Z.ltb_spec alloc_limit n);
        destruct (Z.ltb_spec (dataOffset + numSamples * bytesPerSample) n); cbn [andb].
      * by rewrite Buffer_alloc_fails_true by lia.
      * rewrite Buffer_alloc_fails_false by lia. rewrite audio_read_loop_eq. by apply Hfail.
      * rewrite Buffer_alloc_fails_false by lia. rewrite audio_read_loop_eq. by apply Hfail.
      * rewrite Buffer_alloc_fails_false by lia. rewrite audio_read_loop_eq. by apply Hfail.
Qed.

(** ** UTF-8 *)

(** Decide the integer comparisons of the goal from the hypotheses. *)
Ltac zbool :=
  repeat match goal with
    | |- context [?a <=? ?b] => destruct (Z.leb_spec a b); try lia
    | |- context [?a <? ?b] => destruct (Z.ltb_spec a b); try lia
    | |- context [?a =? ?b] => destruct (Z.eqb_spec a b); try lia
    end.

Lemma surrogate_false_range (c : Z) :
  is_high_surrogate c = false -> is_low_surrogate c = false -> c < 55296 \/ 57343 < c.
Proof. unfold is_high_surrogate, is_low_surrogate. zbool; cbn; intros; lia || done. Qed.

Lemma high_surrogate_range (c : Z) : is_high_surrogate c = true -> 55296 <= c <= 56319.
Proof. unfold is_high_surrogate. zbool; cbn; intros; lia || done. Qed.

Lemma low_surrogate_range (c : Z) : is_low_surrogate c = true -> 56320 <= c <= 57343.
Proof. unfold is_low_surrogate. zbool; cbn; intros; lia || done. Qed.

Lemma utf8_decode_start (b : Z) (rest : list Z) (cp lower upper : Z) :
  utf8_decode_from (b :: rest) 0 cp lower upper
  = match utf8_classify b with
    | LeadAscii => b :: utf8_decode_from rest 0 0 128 191
    | LeadSeq n c lo up => utf8_decode_from rest n c lo up
    | LeadBad => 65533 :: utf8_decode_from rest 0 0 128 191
    end.
Proof. cbn [utf8_decode_from Z.eqb]. by destruct (utf8_classify b). Qed.

Lemma utf8_decode_last (b : Z) (rest : list Z) (cp lower upper : Z) :
  lower <= b <= upper ->
  utf8_decode_from (b :: rest) 1 cp lower upper
  = utf16_units (cp * 64 + b mod 64) ++ utf8_decode_from rest 0 0 128 191.
Proof.
  intros Hb. cbn [utf8_decode_from Z.eqb Pos.eqb].
  destruct (Z.leb_spec lower b); [|lia]. by destruct (Z.leb_spec b upper); [|lia].
Qed.

Lemma utf8_decode_cont (b : Z) (rest : list Z) (needed cp lower upper : Z) :
  1 < needed -> lower <= b <= upper ->
  utf8_decode_from (b :: rest) needed cp lower upper
  = utf8_decode_from rest (needed - 1) (cp * 64 + b mod 64) 128 191.
Proof.
  intros Hn Hb. cbn [utf8_decode_from].
  destruct (Z.eqb_spec needed 0); [lia|]. destruct (Z.eqb_spec needed 1); [lia|].
  destruct (Z.leb_spec lower b); [|lia]. by destruct (Z.leb_spec b upper); [|lia].
Qed.

Lemma utf8_classify_ascii (b : Z) : b <= 127 -> utf8_classify b = LeadAscii.
Proof. intros H. unfold utf8_classify. by destruct (Z.leb_spec b 127); [|lia]. Qed.

Lemma utf8_classify_2 (b : Z) :
  194 <= b <= 223 -> utf8_classify b = LeadSeq 1 (b mod 32) 128 191.
Proof. intros H. unfold utf8_classify. zbool. done. Qed.

Lemma utf8_classify_3 (b : Z) :
  224 <= b <= 239 ->
  utf8_classify b
  = LeadSeq 2 (b mod 16) (if b =? 224 then 160 else 128) (if b =? 237 then 159 else 191).
Proof.
  intros H. unfold utf8_classify.
  destruct (Z.leb_spec b 127); [lia|]. destruct (Z.leb_spec 194 b); [|lia].
  destruct (Z.leb_spec b 223); [lia|]. destruct (Z.leb_spec 224 b); [|lia].
  by destruct (Z.leb_spec b 239); [|lia].
Qed.

Lemma utf8_classify_4 (b : Z) :
  240 <= b <= 244 ->
  utf8_classify b
  = LeadSeq 3 (b mod 8) (if b =? 240 then 144 else 128) (if b =? 244 then 143 else 191).
Proof.
  intros H. unfold utf8_classify.
  destruct (Z.leb_spec b 127); [lia|]. destruct (Z.leb_spec 194 b); [|lia].
  destruct (Z.leb_spec b 223); [lia|]. destruct (Z.leb_spec 224 b); [|lia].
  destruct (Z.leb_spec b 239); [lia|]. destruct (Z.leb_spec 240 b); [|lia].
  by destruct (Z.leb_spec b 244); [|lia].
Qed.

Lemma utf8_decode_unit (c : Z) (rest : list Z) :
  is_unit c -> is_high_surrogate c = false -> is_low_surrogate c = false ->
  utf8_decode_from (utf8_encode_cp c ++ rest) 0 0 128 191
  = c :: utf8_decode_from rest 0 0 128 191.
Proof.
  intros Hc Hh Hl. pose proof (surrogate_false_range c Hh Hl) as Hs.
  unfold is_unit in Hc. unfold utf8_encode_cp.
  destruct (Z.ltb_spec c 128); [|destruct (Z.ltb_spec c 2048); [|destruct (Z.ltb_spec c 65536)]];
    [| | |lia]; cbn [app].
  - by rewrite utf8_decode_start, utf8_classify_ascii by lia.
  - rewrite utf8_decode_start, utf8_classify_2 by lia.
    rewrite utf8_decode_last by lia. unfold utf16_units.
    destruct (Z.ltb_spec ((192 + c / 64) mod 32 * 64 + (128 + c mod 64) mod 64) 65536); [|lia].
    cbn [app]. f_equal. lia.
  - rewrite utf8_decode_start, utf8_classify_3 by lia.
    rewrite utf8_decode_cont by (zbool; lia). rewrite utf8_decode_last by lia.
    unfold utf16_units.
    match goal with |- context [?x <? 65536] => destruct (Z.ltb_spec x 65536); [|lia] end.
    cbn [app]. f_equal. lia.
Qed.

Lemma utf8_decode_pair (c d : Z) (rest : list Z) :
  is_high_surrogate c = true -> is_low_surrogate d = true ->
  utf8_decode_from (utf8_encode_cp (65536 + (c - 55296) * 1024 + (d - 56320)) ++ rest)
                   0 0 128 191
  = c :: d :: utf8_decode_from rest 0 0 128 191.
Proof.
  intros Hc Hd. apply high_surrogate_range in Hc. apply low_surrogate_range in Hd.
  unfold utf8_encode_cp. set (cp := 65536 + (c - 55296) * 1024 + (d - 56320)).
  assert (Hcp : 65536 <= cp <= 1114111) by (subst cp; lia).
  destruct (Z.ltb_spec cp 128); [lia|]. destruct (Z.ltb_spec cp 2048); [lia|].
  destruct (Z.ltb_spec cp 65536); [lia|]. cbn [app].
  rewrite utf8_decode_start, utf8_classify_4 by lia.
  rewrite utf8_decode_cont by (zbool; lia).
  rewrite utf8_decode_cont by lia. rewrite utf8_decode_last by lia.
  unfold utf16_units.
  match goal with |- context [?x <? 65536] => destruct (Z.ltb_spec x 65536); [lia|] end.
  cbn [app]. subst cp. f_equal; [lia|f_equal; lia].
Qed.

(** Decoding the UTF-8 encoding of a string without lone surrogates gives
    the string back. *)
Lemma utf8_decode_encode (s : list Z) :
  well_formed s -> utf8_decode (utf8_encode s) = s.
Proof.
  unfold utf8_decode. induction 1 as [|c s Hc Hh Hl _ IH|c d s Hc Hd _ IH].
  - done.
  - cbn [utf8_encode]. rewrite Hh, Hl. rewrite utf8_decode_unit by done. by rewrite IH.
  - cbn [utf8_encode]. rewrite Hc, Hd. rewrite utf8_decode_pair by done. by rewrite IH.
Qed.

Lemma well_formed_app (s1 s2 : list Z) :
  well_formed s1 -> well_formed s2 -> well_formed (s1 ++ s2).
Proof.
  induction 1 as [|c s Hc Hh Hl _ IH|c d s Hc Hd _ IH]; intros H2; cbn [app].
  - done.
  - apply wf_unit; auto.
  - apply wf_pair; auto.
Qed.

Lemma well_formed_ascii (s : list Z) : Forall is_ascii s -> well_formed s.
Proof.
  induction 1 as [|c s Hc _ IH]; [apply wf_nil|]. unfold is_ascii in Hc.
  apply wf_unit; [unfold is_unit; lia| | |done];
    unfold is_high_surrogate, is_low_surrogate; zbool; done.
Qed.

Lemma utf8_encode_bytes (s : list Z) : Forall is_unit s -> Forall is_byte (utf8_encode s).
Proof.
  intros Hs. remember (length s) as n eqn:Hn. revert s Hs Hn.
  induction (lt_wf n) as [n _ IH]. intros s Hs Hn.
  assert (Hrepl : Forall is_byte utf8_replacement)
    by (repeat (apply Forall_cons; split; [unfold is_byte; lia|]); apply Forall_nil_2).
  assert (Hcp : forall cp, 0 <= cp < 1114112 -> Forall is_byte (utf8_encode_cp cp)).
  { intros cp Hrange. unfold utf8_encode_cp. zbool;
      repeat (apply Forall_cons; split; [unfold is_byte; lia|]); apply Forall_nil_2. }
  destruct s as [|c rest]; [apply Forall_nil_2|].
  apply Forall_cons in Hs as [Hc Hrest]. unfold is_unit in Hc. cbn [utf8_encode].
  destruct (is_high_surrogate c) eqn:Hh.
  - destruct rest as [|d rest']; [done|].
    apply Forall_cons in Hrest as [Hd Hrest']. unfold is_unit in Hd.
    destruct (is_low_surrogate d) eqn:Hl.
    + apply high_surrogate_range in Hh. apply low_surrogate_range in Hl.
      apply Forall_app. split; [apply Hcp; lia|].
      eapply IH; [|done|reflexivity]. subst n. cbn [length]. lia.
    + apply Forall_app. split; [done|].
      eapply IH; [|by apply Forall_cons|reflexivity]. subst n. cbn [length]. lia.
  - assert (Hrec : Forall is_byte (utf8_encode rest)).
    { eapply IH; [|done|reflexivity]. subst n. cbn [length]. lia. }
    destruct (is_low_surrogate c); apply Forall_app; (split; [|done]); [done|apply Hcp; lia].
Qed.

(** ** [packPayload] *)

Lemma trim_start_whitespace (s : list Z) : all_whitespace s -> trim_start s = [].
Proof. induction 1 as [|c s Hc _ IH]; [done|]. cbn [trim_start]. by rewrite Hc. Qed.

Lemma trim_whitespace (s : list Z) : all_whitespace s -> trim s = [].
Proof. intros H. unfold trim. by rewrite (trim_start_whitespace s H). Qed.

Lemma trim_start_nil (s : list Z) : trim_start s = [] -> all_whitespace s.
Proof.
  induction s as [|c s IH]; [intros _; apply Forall_nil_2|].
  cbn [trim_start]. destruct (is_js_whitespace c) eqn:Hc; [|done].
  intros H. apply Forall_cons. split; [done|by apply IH].
Qed.

Lemma trim_start_suffix (s : list Z) : exists p, s = p ++ trim_start s /\ all_whitespace p.
Proof.
  induction s as [|c s (p & Hp & Hws)].
  - exists []. split; [done|apply Forall_nil_2].
  - cbn [trim_start]. destruct (is_js_whitespace c) eqn:Hc.
    + exists (c :: p). split; [cbn [app]; by rewrite <- Hp|by apply Forall_cons].
    + exists []. split; [done|apply Forall_nil_2].
Qed.

(** [trim] is empty only on a string of white space. *)
Lemma trim_nil (s : list Z) : trim s = [] -> all_whitespace s.
Proof.
  unfold trim. intros H.
  assert (Hrev : trim_start (rev (trim_start s)) = []).
  { apply (f_equal (@rev Z)) in H. by rewrite rev_involutive in H. }
  apply trim_start_nil in Hrev.
  destruct (trim_start_suffix s) as (p & Hp & Hws). rewrite Hp.
  apply Forall_app. split; [done|].
  apply Forall_forall. intros c Hc. unfold all_whitespace in Hrev.
  rewrite Forall_forall in Hrev. apply Hrev.
  apply list_elem_of_In. apply -> in_rev. by apply list_elem_of_In.
Qed.

Lemma packPayload_items_whitespace (secretText : list Z) (secretFile : option upload) :
  all_whitespace secretText ->
  packPayload_items secretText secretFile = packPayload_items [] secretFile.
Proof.
  intros Hws. unfold packPayload_items. rewrite (trim_whitespace _ Hws).
  by destruct (bool_decide (secretText = [])).
Qed.

(** ** [parseContainer] *)


(** [slice buf 0 n] is the first [n] bytes, fewer if the buffer is shorter. *)
Lemma slice_0 (buf : list Z) (n : Z) : 0 <= n -> slice buf 0 n = take (Z.to_nat n) buf.
Proof.
  intros Hn. unfold slice, clamp_index, buf_length. cbn [Z.ltb Z.compare].
  destruct (Z.ltb_spec n 0); [lia|]. rewrite (Z.min_l 0) by lia.
  change (Z.to_nat 0) with 0%nat. rewrite drop_0.
  rewrite Z.sub_0_r. destruct (Z.le_gt_cases n (Z.of_nat (length buf))).
  - by rewrite Z.min_l by lia.
  - rewrite Z.min_r by lia. rewrite Nat2Z.id. by rewrite !take_ge by lia.
Qed.

Lemma slice_inside (buf : list Z) (a b : Z) :
  0 <= a <= b -> b <= buf_length buf ->
  slice buf a b = take (Z.to_nat (b - a)) (drop (Z.to_nat a) buf).
Proof.
  intros Hab Hb. unfold slice, clamp_index.
  destruct (Z.ltb_spec a 0); [lia|]. destruct (Z.ltb_spec b 0); [lia|].
  by rewrite !Z.min_l by lia.
Qed.





(** ** The encryption envelope *)

Lemma length_u32 (n : Z) : buf_length (u32 n) = 4.
Proof. reflexivity. Qed.

Lemma u32_bytes (n : Z) : Forall is_byte (u32 n).
Proof.
  unfold u32. repeat (apply Forall_cons; split; [unfold is_byte; lia|]). apply Forall_nil_2.
Qed.

Lemma readU32BE_u32 (n : Z) : readU32BE (u32 n) = Ret (n mod 2 ^ 32).
Proof. unfold readU32BE, readUInt32BE, u32. cbn. f_equal. lia. Qed.

Lemma readU32BE_u32_small (n : Z) : 0 <= n < 2 ^ 32 -> readU32BE (u32 n) = Ret n.
Proof. intros Hn. rewrite readU32BE_u32. f_equal. by apply Z.mod_small. Qed.

Lemma buf_length_app (a b : list Z) : buf_length (a ++ b) = buf_length a + buf_length b.
Proof. unfold buf_length. rewrite length_app. lia. Qed.

Lemma buf_length_nonneg (a : list Z) : 0 <= buf_length a.
Proof. unfold buf_length. lia. Qed.

(** A slice that covers exactly the middle of three concatenated parts. *)
Lemma slice_app_middle (a b c : list Z) (i j : Z) :
  i = buf_length a -> j = buf_length a + buf_length b -> slice (a ++ b ++ c) i j = b.
Proof.
  intros -> ->. pose proof (buf_length_nonneg a). pose proof (buf_length_nonneg b).
  rewrite slice_inside by (rewrite ?buf_length_app; pose proof (buf_length_nonneg c); lia).
  unfold buf_length. rewrite Nat2Z.id.
  replace (Z.to_nat (Z.of_nat (length a) + Z.of_nat (length b) - Z.of_nat (length a)))
    with (length b) by lia.
  rewrite drop_app_length. by rewrite take_app_length.
Qed.

Lemma slice_app_head (a c : list Z) (j : Z) : j = buf_length a -> slice (a ++ c) 0 j = a.
Proof. intros ->. apply (slice_app_middle [] a c); reflexivity. Qed.

Lemma encryptIfNeeded_empty `{Crypto} (buf : list Z) (g : entropy) :
  encryptIfNeeded buf [] g = (buf, g).
Proof. reflexivity. Qed.

Lemma encryptIfNeeded_password `{Crypto} (buf password : list Z) (g : entropy) :
  password <> [] ->
  let salt := (randomBytes 16 g).1 in
  let iv := (randomBytes 12 (randomBytes 16 g).2).1 in
  let sealed := gcm_encrypt (scryptSync password salt 32) iv buf in
  encryptIfNeeded buf password g
  = (str "ENCv1" ++ salt ++ iv ++ sealed.2 ++ u32 (buf_length sealed.1) ++ sealed.1,
     (randomBytes 12 (randomBytes 16 g).2).2).
Proof.
  intros Hpw. cbn zeta. unfold encryptIfNeeded. rewrite bool_decide_eq_false_2 by done.
  destruct (randomBytes 16 g) as [salt g1]. cbn [fst snd].
  destruct (randomBytes 12 g1) as [iv g2]. cbn [fst snd].
  by destruct (gcm_encrypt _ _ _) as [enc tag].
Qed.

Lemma decryptEnvelope_no_password `{Crypto} (combined : list Z) :
  slice combined 0 5 = str "ENCv1" -> 53 <= buf_length combined ->
  decryptEnvelope combined [] = Throw PasswordRequired.
Proof.
  intros Hhead Hlen. unfold decryptEnvelope. rewrite (bool_decide_eq_true_2 _ Hhead).
  cbn [negb]. change (5 + 16 + 12 + 16) with 49. change (49 + 4) with 53.
  assert (Hread : exists len, readU32BE (slice combined 49 53) = Ret len).
  { rewrite slice_inside by lia. unfold readU32BE, readUInt32BE.
    set (b := take (Z.to_nat (53 - 49)) (drop (Z.to_nat 49) combined)).
    assert (Hb : buf_length b = 4).
    { subst b. unfold buf_length in *. rewrite length_take, length_drop. lia. }
    destruct (at_index_Some b 0) as [b0 ->]; [lia|].
    destruct (at_index_Some b (0 + 1)) as [b1 ->]; [lia|].
    destruct (at_index_Some b (0 + 2)) as [b2 ->]; [lia|].
    destruct (at_index_Some b (0 + 3)) as [b3 ->]; [lia|]. by eexists. }
  destruct Hread as [len ->]. reflexivity.
Qed.

(** C8. Encryption envelope gating.  With an empty password
    [encryptIfNeeded] returns its input, byte for byte.  With a non-empty
    password it returns [ENCv1], then the salt, the nonce and the tag, then
    the length of the ciphertext as a big-endian 32-bit integer, then the
    ciphertext; the five fields before the ciphertext have 5, 16, 12, 16
    and 4 bytes, and the length field reads back as the length of the
    ciphertext when this is below 2^32.  Decrypting an envelope that starts
    with [ENCv1] with an empty password throws "Password required to
    decrypt payload.", whatever the cipher would answer. *)
Theorem encrypt_envelope_gating `{Crypto} (buf password : list Z) (g : entropy) :
  crypto_laws ->
  encryptIfNeeded buf [] g = (buf, g) /\
  (password <> [] ->
   let salt := (randomBytes 16 g).1 in
   let iv := (randomBytes 12 (randomBytes 16 g).2).1 in
   let sealed := gcm_encrypt (scryptSync password salt 32) iv buf in
   let enc := sealed.1 in
   let tag := sealed.2 in
   (encryptIfNeeded buf password g).1
   = str "ENCv1" ++ salt ++ iv ++ tag ++ u32 (buf_length enc) ++ enc /\
   buf_length (str "ENCv1") = 5 /\ buf_length salt = 16 /\ buf_length iv = 12 /\
   buf_length tag = 16 /\ buf_length (u32 (buf_length enc)) = 4 /\
   (buf_length enc < 2 ^ 32 -> readU32BE (u32 (buf_length enc)) = Ret (buf_length enc)) /\
   decryptEnvelope (encryptIfNeeded buf password g).1 [] = Throw PasswordRequired) /\
  (forall combined,
      slice combined 0 5 = str "ENCv1" -> 53 <= buf_length combined ->
      decryptEnvelope combined [] = Throw PasswordRequired /\
      class_of PasswordRequired = AuthError).
Proof.
  intros Hlaws. split; [reflexivity|]. split.
  - intros Hpw salt iv sealed enc tag.
    assert (Hsalt : buf_length salt = 16) by (apply randomBytes_length; [done|lia]).
    assert (Hiv : buf_length iv = 12) by (apply randomBytes_length; [done|lia]).
    assert (Htag : buf_length tag = 16) by (by apply gcm_tag_length).
    rewrite encryptIfNeeded_password by done. cbn [fst].
    fold salt iv sealed enc tag.
    split; [reflexivity|]. split; [reflexivity|]. split; [exact Hsalt|]. split; [exact Hiv|].
    split; [exact Htag|]. split; [reflexivity|]. split.
    + intros Hsmall. apply readU32BE_u32_small. pose proof (buf_length_nonneg enc). lia.
    + apply decryptEnvelope_no_password.
      * by apply slice_app_head.
      * rewrite !buf_length_app, Hsalt, Hiv, Htag, length_u32.
        change (buf_length (str "ENCv1")) with 5. pose proof (buf_length_nonneg enc). lia.
  - intros combined Hhead Hlen. split; [by apply decryptEnvelope_no_password|reflexivity].
Qed.

(** ** Format rejection *)

Lemma embedAudio_rejects (cover payload : list Z) (e : error) :
  parseWavHeader cover = Throw e -> embedAudio cover payload = (Throw e, cover).
Proof. intros H. unfold embedAudio, processAudioSimple. by rewrite H. Qed.

Lemma parseWavHeader_not_riff (buf : list Z) :
  is_riff_wave buf = false -> parseWavHeader buf = Throw NotRiffWave.
Proof. intros H. unfold parseWavHeader. by rewrite H. Qed.

Lemma parseWavHeader_scan_throw (buf : list Z) (e : error) :
  is_riff_wave buf = true -> scan_chunks buf = Throw e -> parseWavHeader buf = Throw e.
Proof. intros H Hscan. unfold parseWavHeader. by rewrite H, Hscan. Qed.

Lemma parseWavHeader_missing_fmt (buf : list Z) (st : wav_scan) :
  is_riff_wave buf = true -> scan_chunks buf = Ret st -> scan_fmt st = None ->
  parseWavHeader buf = Throw MissingFmt.
Proof. intros H Hscan Hfmt. unfold parseWavHeader. rewrite H, Hscan. cbn. by rewrite Hfmt. Qed.

Lemma parseWavHeader_not_pcm (buf : list Z) (st : wav_scan) (f : wav_fmt) :
  is_riff_wave buf = true -> scan_chunks buf = Ret st -> scan_fmt st = Some f ->
  audioFormat f <> 1 -> parseWavHeader buf = Throw NotPcm.
Proof.
  intros H Hscan Hfmt Hpcm. unfold parseWavHeader. rewrite H, Hscan. cbn. rewrite Hfmt.
  by destruct (Z.eqb_spec (audioFormat f) 1).
Qed.

Lemma parseWavHeader_bit_depth (buf : list Z) (st : wav_scan) (f : wav_fmt) :
  is_riff_wave buf = true -> scan_chunks buf = Ret st -> scan_fmt st = Some f ->
  audioFormat f = 1 -> bitsPerSample f <> 8 -> bitsPerSample f <> 16 ->
  parseWavHeader buf = Throw (UnsupportedBitDepth (bitsPerSample f)).
Proof.
  intros H Hscan Hfmt Hpcm H8 H16. unfold parseWavHeader. rewrite H, Hscan. cbn. rewrite Hfmt.
  destruct (Z.eqb_spec (audioFormat f) 1); [|done].
  destruct (Z.eqb_spec (bitsPerSample f) 8); [done|].
  by destruct (Z.eqb_spec (bitsPerSample f) 16).
Qed.

Lemma parseWavHeader_missing_data (buf : list Z) (st : wav_scan) (f : wav_fmt) :
  is_riff_wave buf = true -> scan_chunks buf = Ret st -> scan_fmt st = Some f ->
  audioFormat f = 1 -> bitsPerSample f = 8 \/ bitsPerSample f = 16 ->
  scan_dataOffset st < 0 \/ scan_dataLength st <= 0 ->
  parseWavHeader buf = Throw MissingData.
Proof.
  intros H Hscan Hfmt Hpcm Hbits Hdata. unfold parseWavHeader. rewrite H, Hscan. cbn.
  rewrite Hfmt. destruct (Z.eqb_spec (audioFormat f) 1); [|done]. cbn [negb].
  assert (Hdepth : (bitsPerSample f =? 8) || (bitsPerSample f =? 16) = true).
  { destruct Hbits as [-> | ->]; reflexivity. }
  rewrite Hdepth. cbn [negb].
  destruct (Z.ltb_spec (scan_dataOffset st) 0); [done|].
  destruct (Z.leb_spec (scan_dataLength st) 0); [done|lia].
Qed.

(** Format rejection, where the chunk loop ends normally.  The WAV-only
    server answers a cover whose two tags do not read [RIFF] and [WAVE]
    with "Audio cover must be WAV (RIFF/WAVE)."; when the tags match and
    the chunk loop returns, a missing [fmt ] chunk, a format other than 1,
    a depth other than 8 and 16, and a missing or empty data chunk are
    answered, in this order of precedence, with the message of that
    defect.  In each case, and whenever [parseWavHeader] throws, the cover
    buffer is left as it was. *)
Lemma embedAudio_format_rejection (cover payload : list Z) :
  (is_riff_wave cover = false -> embedAudio cover payload = (Throw NotRiffWave, cover)) /\
  (forall st,
      is_riff_wave cover = true -> scan_chunks cover = Ret st ->
      (scan_fmt st = None -> embedAudio cover payload = (Throw MissingFmt, cover)) /\
      (forall f,
          scan_fmt st = Some f ->
          (audioFormat f <> 1 -> embedAudio cover payload = (Throw NotPcm, cover)) /\
          (audioFormat f = 1 -> bitsPerSample f <> 8 -> bitsPerSample f <> 16 ->
           embedAudio cover payload = (Throw (UnsupportedBitDepth (bitsPerSample f)), cover)) /\
          (audioFormat f = 1 -> bitsPerSample f = 8 \/ bitsPerSample f = 16 ->
           scan_dataOffset st < 0 \/ scan_dataLength st <= 0 ->
           embedAudio cover payload = (Throw MissingData, cover)))) /\
  (forall e, parseWavHeader cover = Throw e -> embedAudio cover payload = (Throw e, cover)).
Proof.
  split; [|split].
  - intros H. by apply embedAudio_rejects, parseWavHeader_not_riff.
  - intros st H Hscan. split.
    + intros Hfmt. by eapply embedAudio_rejects, parseWavHeader_missing_fmt.
    + intros f Hfmt. split; [|split].
      * intros Hpcm. by eapply embedAudio_rejects, parseWavHeader_not_pcm.
      * intros Hpcm H8 H16. by eapply embedAudio_rejects, parseWavHeader_bit_depth.
      * intros Hpcm Hbits Hdata. by eapply embedAudio_rejects, parseWavHeader_missing_data.
  - intros e. apply embedAudio_rejects.
Qed.

(** The older server embeds only into a buffer that [parseWavHeader]
    accepts, after the conversion if there is one. *)
Lemma embedAudio_transcoding_guard (transcodeToPcmWav : list Z -> outcome (list Z))
    (cover payload stego : list Z) :
  embedAudio_transcoding transcodeToPcmWav cover payload = Ret stego ->
  exists wavBuf h,
    (wavBuf = cover \/ transcodeToPcmWav cover = Ret wavBuf) /\
    parseWavHeader wavBuf = Ret h /\
    embedLSB_WavPCM wavBuf payload (hdr_dataOffset h) (hdr_dataLength h)
                    (bitsPerSample (hdr_fmt h))
    = (EmbedOk (bitsNeeded (buf_length payload)), stego).
Proof.
  unfold embedAudio_transcoding.
  match goal with
  | |- context [if ?c then transcodeToPcmWav cover else Ret cover] =>
      set (converted := if c then transcodeToPcmWav cover else Ret cover);
      assert (Hcases : converted = Ret cover \/ converted = transcodeToPcmWav cover)
        by (subst converted; destruct c; auto)
  end.
  destruct converted as [wavBuf| |]; [|done..]. cbn [mbind outcome_bind].
  destruct (parseWavHeader wavBuf) as [h| |] eqn:Hparse; [|done..]. cbn [mbind outcome_bind].
  destruct (embedLSB_WavPCM _ _ _ _ _) as [r wavBuf'] eqn:Hembed.
  destruct r as [usedBits|e]; [|done]. intros [= <-].
  exists wavBuf, h. split; [|split; [done|]].
  - destruct Hcases as [Hc|Hc]; [left; congruence|by right].
  - rewrite Hembed. f_equal. unfold embedLSB_WavPCM in Hembed.
    destruct (_ >? _); [done|]. by injection Hembed as <- _.
Qed.

(** The inputs on which the WAV-only server departs from C7.  A cover
    whose only [fmt ] chunk declares format 3 and ends after these two
    bytes makes [readUInt16LE] throw a [RangeError], whose message names no
    defect of the file; and a cover whose first byte is [0xD2], which is
    not the [R] of [RIFF], is taken for a RIFF file, and the embedding
    writes into it. *)
Lemma embedAudio_departures :
  embedAudio (Fixtures.wav_file 2 3 8 []) [65] = (Throw RangeError, Fixtures.wav_file 2 3 8 []) /\
  error_message RangeError = None /\
  is_riff_wave (210 :: tail (Fixtures.wav_file 16 1 8 (repeat 128 8))) = true /\
  exists stego,
    embedAudio (210 :: tail (Fixtures.wav_file 16 1 8 (repeat 128 8))) [65] = (Ret stego, stego).
Proof.
  split; [vm_compute; reflexivity|]. split; [reflexivity|]. split; [vm_compute; reflexivity|].
  eexists. vm_compute. reflexivity.
Qed.

(** ** [JSON.parse] after [JSON.stringify]: strings *)

Lemma hex_value_digit (d : Z) : 0 <= d < 16 -> hex_value (hex_digit d) = Some d.
Proof.
  intros Hd.
  assert (Hall : forallb (fun d => match hex_value (hex_digit d) with
                                   | Some v => v =? d
                                   | None => false
                                   end) (map Z.of_nat (seq 0 16)) = true) by reflexivity.
  rewrite forallb_forall in Hall. specialize (Hall d).
  destruct (hex_value (hex_digit d)) as [v|].
  - f_equal. apply Z.eqb_eq, Hall, in_map_iff. exists (Z.to_nat d). split; [lia|apply in_seq; lia].
  - discriminate Hall. apply in_map_iff. exists (Z.to_nat d). split; [lia|apply in_seq; lia].
Qed.

Lemma parse_string_escape (c : Z) (r : list Z) :
  is_unit c ->
  parse_string_chars (unicode_escape c ++ r)
  = match parse_string_chars r with
    | Some (chars, rest) => Some (c :: chars, rest)
    | None => None
    end.
Proof.
  intros Hc. unfold is_unit in Hc. unfold unicode_escape. cbn [app parse_string_chars Z.eqb Pos.eqb].
  unfold hex4. rewrite !hex_value_digit by lia.
  replace (((c / 4096 * 16 + c / 256 mod 16) * 16 + c / 16 mod 16) * 16 + c mod 16) with c by lia.
  done.
Qed.

Lemma parse_string_literal (c : Z) (r : list Z) :
  32 <= c -> c <> 34 -> c <> 92 ->
  parse_string_chars (c :: r)
  = match parse_string_chars r with
    | Some (chars, rest) => Some (c :: chars, rest)
    | None => None
    end.
Proof.
  intros H32 H34 H92. cbn [parse_string_chars].
  destruct (Z.eqb_spec c 34); [done|]. destruct (Z.eqb_spec c 92); [done|].
  by destruct (Z.ltb_spec c 32); [lia|].
Qed.

Lemma parse_string_quote_unit (c : Z) (r : list Z) :
  is_unit c ->
  parse_string_chars (quote_unit c ++ r)
  = match parse_string_chars r with
    | Some (chars, rest) => Some (c :: chars, rest)
    | None => None
    end.
Proof.
  intros Hc. unfold quote_unit.
  destruct (Z.eqb_spec c 8) as [->|]; [done|]. destruct (Z.eqb_spec c 9) as [->|]; [done|].
  destruct (Z.eqb_spec c 10) as [->|]; [done|]. destruct (Z.eqb_spec c 12) as [->|]; [done|].
  destruct (Z.eqb_spec c 13) as [->|]; [done|]. destruct (Z.eqb_spec c 34) as [->|]; [done|].
  destruct (Z.eqb_spec c 92) as [->|]; [done|].
  destruct (Z.ltb_spec c 32).
  - by apply parse_string_escape.
  - by apply parse_string_literal.
Qed.

(** The parser reads a quoted string back, whatever follows the closing
    quote. *)
Lemma parse_string_quote_units (s rest : list Z) :
  Forall is_unit s ->
  parse_string_chars (quote_units s ++ 34 :: rest) = Some (s, rest).
Proof.
  intros Hs. remember (length s) as n eqn:Hn. revert s Hs Hn.
  induction (lt_wf n) as [n _ IH]. intros s Hs Hn.
  destruct s as [|c s]; [done|].
  apply Forall_cons in Hs as [Hc Hs]. cbn [quote_units].
  assert (Htail : parse_string_chars (quote_units s ++ 34 :: rest) = Some (s, rest)).
  { eapply IH; [|done|reflexivity]. subst n. cbn [length]. lia. }
  destruct (is_high_surrogate c) eqn:Hh.
  - destruct s as [|d s'].
    + rewrite parse_string_escape by done. done.
    + destruct (is_low_surrogate d) eqn:Hl.
      * apply Forall_cons in Hs as [Hd Hs'].
        apply high_surrogate_range in Hh. apply low_surrogate_range in Hl.
        cbn [app]. rewrite parse_string_literal by lia. rewrite parse_string_literal by lia.
        erewrite IH; [done| |done|reflexivity]. subst n. cbn [length]. lia.
      * rewrite <- app_assoc, parse_string_escape by done. by rewrite Htail.
  - destruct (is_low_surrogate c).
    + rewrite <- app_assoc, parse_string_escape by done. by rewrite Htail.
    + rewrite <- app_assoc, parse_string_quote_unit by done. by rewrite Htail.
Qed.

(** ** [JSON.parse] after [JSON.stringify]: numbers *)

Lemma is_digit_true (d : Z) : is_digit_char d -> is_digit d = true.
Proof. unfold is_digit_char, is_digit. intros H. zbool; done. Qed.

Lemma decimal_digits_digits (fuel : nat) (n : Z) (acc : list Z) :
  Forall is_digit_char acc -> Forall is_digit_char (decimal_digits fuel n acc).
Proof.
  revert n acc. induction fuel as [|fuel IH]; intros n acc Hacc; cbn [decimal_digits].
  - apply Forall_cons. split; [unfold is_digit_char; lia|done].
  - assert (Hcons : Forall is_digit_char ((48 + n mod 10) :: acc))
      by (apply Forall_cons; split; [unfold is_digit_char; lia|done]).
    destruct (n <? 10); [done|]. by apply IH.
Qed.

(** The digits printed for [n], read after the digits of [a], give
    [a * 10 ^ k + n]: stated on the fold so that the accumulator carries
    the digits to the left. *)
Lemma decimal_digits_fold (fuel : nat) (n : Z) (acc : list Z) :
  0 <= n < 2 ^ (Z.of_nat fuel + 1) ->
  digits_value (decimal_digits fuel n acc)
  = fold_left (fun a d => 10 * a + (d - 48)) acc n.
Proof.
  unfold digits_value. revert n acc.
  induction fuel as [|fuel IH]; intros n acc Hn; cbn [decimal_digits].
  - change (2 ^ (Z.of_nat 0 + 1)) with 2 in Hn. cbn [fold_left]. f_equal. lia.
  - destruct (Z.ltb_spec n 10).
    + cbn [fold_left]. f_equal. lia.
    + rewrite IH.
      * cbn [fold_left]. f_equal. lia.
      * replace (Z.of_nat (S fuel) + 1) with (Z.succ (Z.of_nat fuel + 1)) in Hn by lia.
        rewrite Z.pow_succ_r in Hn by lia. lia.
Qed.

Lemma decimal_digits_head (fuel : nat) (n : Z) (acc : list Z) :
  0 <= n < 2 ^ (Z.of_nat fuel + 1) ->
  exists d ds, decimal_digits fuel n acc = d :: ds /\
               (n = 0 -> d = 48 /\ ds = acc) /\ (0 < n -> d <> 48).
Proof.
  revert n acc. induction fuel as [|fuel IH]; intros n acc Hn; cbn [decimal_digits].
  - change (2 ^ (Z.of_nat 0 + 1)) with 2 in Hn. eexists _, _. split; [reflexivity|].
    split; [by intros ->|lia].
  - destruct (Z.ltb_spec n 10).
    + eexists _, _. split; [reflexivity|]. split; [by intros ->|lia].
    + destruct (IH (n / 10) ((48 + n mod 10) :: acc)) as (d & ds & Heq & _ & Hpos).
      { replace (Z.of_nat (S fuel) + 1) with (Z.succ (Z.of_nat fuel + 1)) in Hn by lia.
        rewrite Z.pow_succ_r in Hn by lia. lia. }
      exists d, ds. split; [done|]. split; [lia|]. intros _. apply Hpos. lia.
Qed.

Lemma log2_fuel (n : Z) : 0 <= n -> 0 <= n < 2 ^ (Z.of_nat (Z.to_nat (Z.log2 n)) + 1).
Proof.
  intros Hn. rewrite Z2Nat.id by apply Z.log2_nonneg.
  destruct (Z.eq_dec n 0) as [->|Hne]; [done|].
  pose proof (Z.log2_spec n ltac:(lia)) as Hlog.
  replace (Z.log2 n + 1) with (Z.succ (Z.log2 n)) by lia. lia.
Qed.

(** The printed digits of [n]: all digits, their value is [n], and the
    first one is [0] only for [n = 0], printed as the single digit. *)
Lemma Number_toString_spec (n : Z) :
  0 <= n ->
  exists d ds,
    Number_toString n = d :: ds /\ Forall is_digit_char (d :: ds) /\
    digits_value (d :: ds) = n /\ (d = 48 -> ds = []).
Proof.
  intros Hn. unfold Number_toString.
  destruct (decimal_digits_head (Z.to_nat (Z.log2 n)) n [] (log2_fuel n Hn))
    as (d & ds & Heq & Hzero & Hpos).
  exists d, ds. split; [done|]. rewrite <- Heq. split; [|split].
  - apply decimal_digits_digits, Forall_nil_2.
  - by rewrite decimal_digits_fold by by apply log2_fuel.
  - intros Hd. destruct (Z.eq_dec n 0) as [H0|H0]; [by apply Hzero|].
    exfalso. apply Hpos; [lia|done].
Qed.

Lemma span_digits_app (ds : list Z) (c : Z) (rest : list Z) :
  Forall is_digit_char ds -> is_digit c = false ->
  span_digits (ds ++ c :: rest) = (ds, c :: rest).
Proof.
  intros Hds Hc. induction Hds as [|d ds Hd _ IH]; cbn [app span_digits].
  - by rewrite Hc.
  - by rewrite (is_digit_true d Hd), IH.
Qed.

(** A printed integer below 2^53 followed by a closing brace or a comma
    is read back as that integer. *)
Lemma parse_number_printed (n c : Z) (rest : list Z) :
  0 <= n < 2 ^ 53 -> c = 125 \/ c = 44 ->
  parse_number (Number_toString n ++ c :: rest) = Some (NInt n, c :: rest).
Proof.
  intros Hn Hc. destruct (Number_toString_spec n) as (d & ds & -> & Hdigits & Hvalue & Hzero); [lia|].
  pose proof Hdigits as Hd. apply Forall_cons in Hd as [Hd _]. unfold is_digit_char in Hd.
  unfold parse_number. cbn [app]. destruct (Z.eqb_spec d 45); [lia|].
  change (d :: ds ++ c :: rest) with ((d :: ds) ++ c :: rest).
  rewrite span_digits_app; [|done|by destruct Hc as [-> | ->]].
  assert (Hlead : (d =? 48) && negb (bool_decide (ds = [])) = false).
  { destruct (Z.eqb_spec d 48) as [H48|]; [|done]. rewrite (Hzero H48). done. }
  rewrite Hlead. unfold parse_fraction, parse_exponent.
  destruct Hc as [-> | ->]; cbn [Z.eqb Pos.eqb orb]; rewrite Hvalue;
    (destruct (Z.ltb_spec n (2 ^ 53)); [done|lia]).
Qed.

(** ** [JSON.parse] after [JSON.stringify]: the metadata *)

Lemma parse_value_string (f : nat) (s rest : list Z) :
  Forall is_unit s ->
  parse_value (S f) (QuoteJSONString s ++ rest) = Some (JStr s, rest).
Proof.
  intros Hs. unfold QuoteJSONString. cbn [app]. rewrite <- app_assoc. cbn [app].
  cbn [parse_value skip_ws is_json_ws Z.eqb Pos.eqb orb].
  by rewrite parse_string_quote_units.
Qed.

Lemma parse_value_number (f : nat) (n c : Z) (rest : list Z) :
  0 <= n < 2 ^ 53 -> c = 125 \/ c = 44 ->
  parse_value (S f) (Number_toString n ++ c :: rest) = Some (JNum (NInt n), c :: rest).
Proof.
  intros Hn Hc. pose proof (parse_number_printed n c rest Hn Hc) as Hparse.
  destruct (Number_toString_spec n) as (d & ds & Heq & Hdigits & _); [lia|].
  rewrite Heq in *. apply Forall_cons in Hdigits as [Hd _]. unfold is_digit_char in Hd.
  cbn [app] in *. cbn [parse_value skip_ws]. unfold is_json_ws.
  destruct (Z.eqb_spec d 32); [lia|]. destruct (Z.eqb_spec d 9); [lia|].
  destruct (Z.eqb_spec d 10); [lia|]. destruct (Z.eqb_spec d 13); [lia|]. cbn [orb].
  destruct (Z.eqb_spec d 123); [lia|]. destruct (Z.eqb_spec d 91); [lia|].
  destruct (Z.eqb_spec d 34); [lia|]. destruct (Z.eqb_spec d 116); [lia|].
  destruct (Z.eqb_spec d 102); [lia|]. destruct (Z.eqb_spec d 110); [lia|].
  by rewrite Hparse.
Qed.

Lemma parse_members_comma (f : nat) (k : string) (vtext : list Z) (v : json) (more : list Z) :
  plain_key k ->
  parse_value f (vtext ++ 44 :: more) = Some (v, 44 :: more) ->
  parse_members (S f) (json_key k ++ vtext ++ 44 :: more)
  = match parse_members f more with
    | Some (ms, rest) => Some ((str k, v) :: ms, rest)
    | None => None
    end.
Proof.
  intros Hk Hv. unfold json_key. cbn [app]. rewrite <- app_assoc. cbn [app].
  cbn [parse_members skip_ws is_json_ws Z.eqb Pos.eqb orb].
  rewrite Hk. cbn [skip_ws is_json_ws Z.eqb Pos.eqb orb]. rewrite Hv.
  by cbn [skip_ws is_json_ws Z.eqb Pos.eqb orb].
Qed.

Lemma parse_members_close (f : nat) (k : string) (vtext : list Z) (v : json) (rest : list Z) :
  plain_key k ->
  parse_value f (vtext ++ 125 :: rest) = Some (v, 125 :: rest) ->
  parse_members (S f) (json_key k ++ vtext ++ 125 :: rest) = Some ([(str k, v)], rest).
Proof.
  intros Hk Hv. unfold json_key. cbn [app]. rewrite <- app_assoc. cbn [app].
  cbn [parse_members skip_ws is_json_ws Z.eqb Pos.eqb orb].
  rewrite Hk. cbn [skip_ws is_json_ws Z.eqb Pos.eqb orb]. rewrite Hv.
  by cbn [skip_ws is_json_ws Z.eqb Pos.eqb orb].
Qed.

Lemma plain_key_t : plain_key "t". Proof. by intros r. Qed.
Lemma plain_key_name : plain_key "name". Proof. by intros r. Qed.
Lemma plain_key_mime : plain_key "mime". Proof. by intros r. Qed.
Lemma plain_key_len : plain_key "len". Proof. by intros r. Qed.
Lemma plain_key_v : plain_key "v". Proof. by intros r. Qed.
Lemma plain_key_items : plain_key "items". Proof. by intros r. Qed.

Lemma parse_value_item (f : nat) (it : item) (rest : list Z) :
  item_ok it -> 0 <= item_len it ->
  parse_value (S (S (S (S (S (S f)))))) (stringify_item it ++ rest)
  = Some (json_of_item it, rest).
Proof.
  intros (Ht & Hname & Hmime & _ & _ & Hlen) Hpos. unfold stringify_item.
  rewrite <- !app_assoc. cbn [app].
  assert (Hmembers :
    parse_members (S (S (S (S (S f)))))
      (json_key "t" ++ QuoteJSONString (item_t it) ++ 44 ::
       json_key "name" ++ QuoteJSONString (item_name it) ++ 44 ::
       json_key "mime" ++ QuoteJSONString (item_mime it) ++ 44 ::
       json_key "len" ++ Number_toString (item_len it) ++ 125 :: rest)
    = Some ([(str "t", JStr (item_t it)); (str "name", JStr (item_name it));
             (str "mime", JStr (item_mime it)); (str "len", JNum (NInt (item_len it)))], rest)).
  { rewrite (parse_members_comma _ "t" _ (JStr (item_t it)));
      [|apply plain_key_t|by apply parse_value_string].
    rewrite (parse_members_comma _ "name" _ (JStr (item_name it)));
      [|apply plain_key_name|by apply parse_value_string].
    rewrite (parse_members_comma _ "mime" _ (JStr (item_mime it)));
      [|apply plain_key_mime|by apply parse_value_string].
    rewrite (parse_members_close _ "len" _ (JNum (NInt (item_len it))));
      [done|apply plain_key_len|apply parse_value_number; [lia|by left]]. }
  cbn [parse_value skip_ws is_json_ws Z.eqb Pos.eqb orb].
  unfold json_key at 1. cbn [app skip_ws is_json_ws Z.eqb Pos.eqb orb].
  change (34 :: str "t" ++ 34 :: 58 :: ?x) with (json_key "t" ++ x).
  by rewrite Hmembers.
Qed.

Lemma item_ok_len (it : item) : item_ok it -> 0 <= item_len it.
Proof. intros (_ & _ & _ & _ & -> & _). apply buf_length_nonneg. Qed.

Lemma parse_elements_items (items : list item) (f : nat) (rest : list Z) :
  items <> [] -> Forall item_ok items ->
  parse_elements (length items + 6 + f) (join_comma (map stringify_item items) ++ 93 :: rest)
  = Some (map json_of_item items, rest).
Proof.
  intros Hne Hok. induction Hok as [|it items Hit Hitems IH]; [done|].
  cbn [length Nat.add parse_elements].
  replace (length items + 6 + f)%nat with (S (S (S (S (S (S (length items + f))))))) by lia.
  destruct items as [|it2 items].
  - cbn [map join_comma]. rewrite parse_value_item by (done || by apply item_ok_len).
    by cbn [skip_ws is_json_ws Z.eqb Pos.eqb orb].
  - change (join_comma (map stringify_item (it :: it2 :: items)))
      with (stringify_item it ++ 44 :: join_comma (map stringify_item (it2 :: items))).
    rewrite <- app_assoc. cbn [app].
    rewrite parse_value_item by (done || by apply item_ok_len).
    cbn [skip_ws is_json_ws Z.eqb Pos.eqb orb].
    replace (S (S (S (S (S (S (length (it2 :: items) + f)))))))
      with (length (it2 :: items) + 6 + f)%nat by lia.
    by rewrite IH.
Qed.

Lemma parse_value_items (items : list item) (f : nat) (rest : list Z) :
  Forall item_ok items ->
  parse_value (S (length items + 6 + f))
              (91 :: join_comma (map stringify_item items) ++ 93 :: rest)
  = Some (JArr (map json_of_item items), rest).
Proof.
  intros Hok. destruct items as [|it items]; [done|].
  cbn [parse_value skip_ws is_json_ws Z.eqb Pos.eqb orb].
  rewrite parse_elements_items by done.
  change (join_comma (map stringify_item (it :: items)))
    with (join_comma (stringify_item it :: map stringify_item items)).
  destruct (map stringify_item items); by cbn.
Qed.

Lemma parse_value_meta (items : list item) (f : nat) (rest : list Z) :
  Forall item_ok items ->
  parse_value (S (S (S (S (length items + 6 + f))))) (stringify_meta items ++ rest)
  = Some (json_of_meta items, rest).
Proof.
  intros Hok. unfold stringify_meta. rewrite <- !app_assoc. cbn [app].
  assert (Hmembers :
    parse_members (S (S (S (length items + 6 + f))))
      (json_key "v" ++ [49] ++ 44 ::
       json_key "items" ++ (91 :: join_comma (map stringify_item items) ++ [93]) ++ 125 :: rest)
    = Some ([(str "v", JNum (NInt 1)); (str "items", JArr (map json_of_item items))], rest)).
  { rewrite (parse_members_comma _ "v" _ (JNum (NInt 1))); [|apply plain_key_v|done].
    rewrite (parse_members_close _ "items" _ (JArr (map json_of_item items)));
      [done|apply plain_key_items|].
    cbn [app]. rewrite <- app_assoc. cbn [app]. by apply parse_value_items. }
  cbn [parse_value skip_ws is_json_ws Z.eqb Pos.eqb orb].
  unfold json_key at 1. cbn [app skip_ws is_json_ws Z.eqb Pos.eqb orb].
  change (34 :: str "v" ++ 34 :: 58 :: ?x) with (json_key "v" ++ x).
  cbn [app] in Hmembers. rewrite <- app_assoc in Hmembers. cbn [app] in Hmembers.
  by rewrite Hmembers.
Qed.

Lemma length_join_comma (items : list item) :
  (length items <= length (join_comma (map stringify_item items)))%nat.
Proof.
  induction items as [|it items IH]; [done|].
  cbn [map]. destruct (map stringify_item items) as [|x xs] eqn:Hmap.
  - destruct items; [|done]. cbn. lia.
  - change (join_comma (stringify_item it :: x :: xs))
      with (stringify_item it ++ 44 :: join_comma (x :: xs)).
    rewrite length_app. cbn [length] in *. lia.
Qed.

(** [JSON.parse] gives back the metadata that [JSON.stringify] printed. *)
Lemma JSON_parse_stringify_meta (items : list item) :
  Forall item_ok items -> JSON_parse (stringify_meta items) = Some (json_of_meta items).
Proof.
  intros Hok. unfold JSON_parse.
  assert (Hlen : (length items + 10 <= 2 * length (stringify_meta items) + 2)%nat).
  { unfold stringify_meta. rewrite !length_app. cbn [length].
    pose proof (length_join_comma items). lia. }
  replace (2 * length (stringify_meta items) + 2)%nat
    with (S (S (S (S (length items + 6
                      + (2 * length (stringify_meta items) + 2 - length items - 10))))))
    by lia.
  rewrite <- (app_nil_r (stringify_meta items)) at 2.
  by rewrite parse_value_meta.
Qed.

(** ** The printed metadata is a well-formed string *)

Lemma well_formed_units (s : list Z) : well_formed s -> Forall is_unit s.
Proof.
  induction 1 as [|c s Hc _ _ _ IH|c d s Hc Hd _ IH].
  - apply Forall_nil_2.
  - by apply Forall_cons.
  - apply high_surrogate_range in Hc. apply low_surrogate_range in Hd.
    repeat (apply Forall_cons; split; [unfold is_unit; lia|]). done.
Qed.

Lemma ascii_sample (l : list Z) :
  forallb (fun b => (0 <=? b) && (b <? 128)) l = true -> Forall is_ascii l.
Proof.
  intros H. apply Forall_forall. intros b Hb. rewrite forallb_forall in H.
  specialize (H b (proj1 (list_elem_of_In _ _) Hb)). unfold is_ascii. lia.
Qed.

Lemma hex_digit_ascii (d : Z) : 0 <= d < 16 -> is_ascii (hex_digit d).
Proof. intros Hd. unfold hex_digit, is_ascii. zbool. Qed.

Lemma unicode_escape_ascii (c : Z) : is_unit c -> Forall is_ascii (unicode_escape c).
Proof.
  intros Hc. unfold is_unit in Hc. unfold unicode_escape.
  repeat (apply Forall_cons; split; [first [apply hex_digit_ascii|unfold is_ascii]; lia|]).
  apply Forall_nil_2.
Qed.

Lemma well_formed_quote_unit (c : Z) :
  is_unit c -> is_high_surrogate c = false -> is_low_surrogate c = false ->
  well_formed (quote_unit c).
Proof.
  intros Hc Hh Hl. unfold quote_unit.
  repeat (match goal with |- context [?a =? ?b] => destruct (Z.eqb_spec a b) end;
          [by apply well_formed_ascii, ascii_sample|]).
  destruct (Z.ltb_spec c 32).
  - by apply well_formed_ascii, unicode_escape_ascii.
  - apply wf_unit; [done..|apply wf_nil].
Qed.

Lemma well_formed_quote_units (s : list Z) : Forall is_unit s -> well_formed (quote_units s).
Proof.
  intros Hs. remember (length s) as n eqn:Hn. revert s Hs Hn.
  induction (lt_wf n) as [n _ IH]. intros s Hs Hn.
  destruct s as [|c s]; [apply wf_nil|].
  apply Forall_cons in Hs as [Hc Hs]. cbn [quote_units].
  assert (Htail : well_formed (quote_units s)).
  { eapply IH; [|done|reflexivity]. subst n. cbn [length]. lia. }
  destruct (is_high_surrogate c) eqn:Hh.
  - destruct s as [|d s'].
    + by apply well_formed_ascii, unicode_escape_ascii.
    + destruct (is_low_surrogate d) eqn:Hl.
      * apply Forall_cons in Hs as [Hd Hs']. apply wf_pair; [done..|].
        eapply IH; [|done|reflexivity]. subst n. cbn [length]. lia.
      * apply well_formed_app; [|done]. by apply well_formed_ascii, unicode_escape_ascii.
  - destruct (is_low_surrogate c) eqn:Hl.
    + apply well_formed_app; [|done]. by apply well_formed_ascii, unicode_escape_ascii.
    + apply well_formed_app; [|done]. by apply well_formed_quote_unit.
Qed.

Lemma well_formed_QuoteJSONString (s : list Z) :
  Forall is_unit s -> well_formed (QuoteJSONString s).
Proof.
  intros Hs. unfold QuoteJSONString.
  change (34 :: quote_units s ++ [34]) with ([34] ++ quote_units s ++ [34]).
  apply well_formed_app; [by apply well_formed_ascii, ascii_sample|].
  apply well_formed_app; [by apply well_formed_quote_units|].
  by apply well_formed_ascii, ascii_sample.
Qed.

Lemma well_formed_Number_toString (n : Z) : 0 <= n -> well_formed (Number_toString n).
Proof.
  intros Hn. destruct (Number_toString_spec n Hn) as (d & ds & -> & Hdigits & _).
  apply well_formed_ascii. eapply Forall_impl; [exact Hdigits|].
  intros x Hx. unfold is_digit_char in Hx. unfold is_ascii. lia.
Qed.

Lemma well_formed_stringify_item (it : item) : item_ok it -> well_formed (stringify_item it).
Proof.
  intros Hok. pose proof (item_ok_len it Hok) as Hlen.
  destruct Hok as (Ht & Hname & Hmime & _). unfold stringify_item.
  repeat (apply well_formed_app;
          [first [by apply well_formed_QuoteJSONString
                 |by apply well_formed_Number_toString
                 |by apply well_formed_ascii, ascii_sample]|]).
  by apply well_formed_ascii, ascii_sample.
Qed.

Lemma well_formed_join_comma (items : list item) :
  Forall item_ok items -> well_formed (join_comma (map stringify_item items)).
Proof.
  induction 1 as [|it items Hit Hitems IH]; [apply wf_nil|].
  cbn [map]. destruct (map stringify_item items) as [|x xs] eqn:Hmap.
  - by apply well_formed_stringify_item.
  - change (join_comma (stringify_item it :: x :: xs))
      with (stringify_item it ++ [44] ++ join_comma (x :: xs)).
    apply well_formed_app; [by apply well_formed_stringify_item|].
    apply well_formed_app; [by apply well_formed_ascii, ascii_sample|done].
Qed.

Lemma well_formed_stringify_meta (items : list item) :
  Forall item_ok items -> well_formed (stringify_meta items).
Proof.
  intros Hok. unfold stringify_meta.
  repeat (apply well_formed_app;
          [first [by apply well_formed_join_comma
                 |by apply well_formed_ascii, ascii_sample]|]).
  by apply well_formed_ascii, ascii_sample.
Qed.

(** The metadata bytes decode and parse to the metadata of the items. *)
Lemma metadata_roundtrip (items : list item) :
  Forall item_ok items ->
  JSON_parse (utf8_decode (utf8_encode (stringify_meta items))) = Some (json_of_meta items).
Proof.
  intros Hok. rewrite utf8_decode_encode by by apply well_formed_stringify_meta.
  by apply JSON_parse_stringify_meta.
Qed.

Lemma metadata_bytes (items : list item) :
  Forall item_ok items -> Forall is_byte (utf8_encode (stringify_meta items)).
Proof.
  intros Hok. by apply utf8_encode_bytes, well_formed_units, well_formed_stringify_meta.
Qed.

(** ** [packPayload] of a text of white space *)

Lemma utf8_encode_ascii_app (a b : list Z) :
  Forall is_ascii a -> utf8_encode (a ++ b) = a ++ utf8_encode b.
Proof.
  induction 1 as [|c a Hc _ IH]; [done|]. unfold is_ascii in Hc.
  cbn [app utf8_encode]. unfold is_high_surrogate, is_low_surrogate, utf8_encode_cp.
  destruct (Z.leb_spec 55296 c); [lia|]. destruct (Z.leb_spec 56320 c); [lia|].
  destruct (Z.ltb_spec c 128); [|lia]. cbn [andb app]. by rewrite IH.
Qed.

(** The printed text item: the literal text, the digits of the length and
    the closing brace. *)
Lemma stringify_meta_text_item (len : Z) (data : list Z) (rest : list item) :
  stringify_meta ({| item_t := str "text"; item_name := str "message.txt";
                     item_mime := str "text/plain"; item_len := len; item_data := data |}
                  :: rest)
  = text_item_meta ++ Number_toString len ++ [125]
    ++ match rest with
       | [] => []
       | _ :: _ => 44 :: join_comma (map stringify_item rest)
       end ++ [93; 125].
Proof.
  unfold stringify_meta. rewrite map_cons.
  assert (Hitem : forall tail,
             stringify_item {| item_t := str "text"; item_name := str "message.txt";
                               item_mime := str "text/plain"; item_len := len;
                               item_data := data |} ++ tail
             = str "{" ++ [34] ++ str "t" ++ [34; 58; 34] ++ str "text" ++ [34; 44; 34]
               ++ str "name" ++ [34; 58; 34] ++ str "message.txt" ++ [34; 44; 34]
               ++ str "mime" ++ [34; 58; 34] ++ str "text/plain" ++ [34; 44; 34]
               ++ str "len" ++ [34; 58] ++ Number_toString len ++ [125] ++ tail).
  { intros tail. unfold stringify_item. cbn [item_t item_name item_mime item_len].
    rewrite <- !app_assoc. reflexivity. }
  assert (Hjoin : forall x l,
             join_comma (x :: l)
             = x ++ match l with [] => [] | _ :: _ => 44 :: join_comma l end).
  { intros x [|y l]; [by rewrite app_nil_r|done]. }
  rewrite Hjoin.
  change ([123] ++ json_key "v" ++ [49; 44] ++ json_key "items" ++ [91] ++ ?x)
    with (([123] ++ json_key "v" ++ [49; 44] ++ json_key "items" ++ [91]) ++ x).
  rewrite <- (app_assoc (stringify_item _)), Hitem.
  destruct rest; reflexivity.
Qed.

(** C10. White-space-only text.  A secret text made only of white space
    (the characters [trim] removes) counts as absent: with a secret file
    the items are those of an empty text, and without one [packPayload]
    throws "No secret data provided".  A text with at least one other
    character becomes the first item, named [message.txt], of mime type
    [text/plain], whose bytes are the UTF-8 encoding of the whole text,
    white space included, and these bytes follow the metadata in the
    container.  The metadata of the container then begins, byte for byte,
    with the text [{"v":1,"items":[{"t":"text","name":"message.txt",]
    ["mime":"text/plain","len":], followed by the decimal digits of the
    number of bytes of the encoded text, without a leading zero, and a
    closing brace; without a secret file nothing but the two closing
    brackets of the list and of the object follows. *)
Theorem packPayload_whitespace_text (secretText : list Z) (secretFile : option upload) :
  (all_whitespace secretText ->
   packPayload_items secretText secretFile = packPayload_items [] secretFile /\
   packPayload secretText None = Throw NoSecretData) /\
  (~ all_whitespace secretText ->
   exists rest digits tail,
     let it := {| item_t := str "text"; item_name := str "message.txt";
                  item_mime := str "text/plain";
                  item_len := buf_length (utf8_encode secretText);
                  item_data := utf8_encode secretText |} in
     packPayload_items secretText secretFile = it :: rest /\
     packPayload_items [] secretFile = rest /\
     packPayload secretText secretFile
     = Ret (MAGIC ++ u32 (buf_length (utf8_encode (stringify_meta (it :: rest))))
                  ++ utf8_encode (stringify_meta (it :: rest))
                  ++ utf8_encode secretText ++ concat (map item_data rest)) /\
     stringify_meta (it :: rest) = text_item_meta ++ digits ++ [125] ++ tail /\
     utf8_encode (stringify_meta (it :: rest))
     = text_item_meta ++ digits ++ [125] ++ utf8_encode tail /\
     Forall is_digit_char digits /\
     digits_value digits = Z.of_nat (length (utf8_encode secretText)) /\
     (forall ds, digits = 48 :: ds -> ds = []) /\
     (secretFile = None -> tail = [93; 125])).
Proof.
  split.
  - intros Hws. split; [by apply packPayload_items_whitespace|].
    unfold packPayload. by rewrite (packPayload_items_whitespace _ _ Hws).
  - intros Hnws.
    assert (Hne : secretText <> []) by (intros ->; apply Hnws, Forall_nil_2).
    assert (Htrim : trim secretText <> []) by (intros H; by apply Hnws, trim_nil).
    destruct (Number_toString_spec (buf_length (utf8_encode secretText))
                (buf_length_nonneg _)) as (d & ds & Hprint & Hdigits & Hvalue & Hzero).
    exists (packPayload_items [] secretFile), (d :: ds),
      (match packPayload_items [] secretFile with
       | [] => []
       | _ :: _ => 44 :: join_comma (map stringify_item (packPayload_items [] secretFile))
       end ++ [93; 125]).
    cbn zeta. rewrite stringify_meta_text_item, Hprint.
    split; [|split; [done|split; [|split; [done|split; [|split; [done|split; [done|split]]]]]]].
    + unfold packPayload_items.
      rewrite (bool_decide_eq_false_2 _ Hne), (bool_decide_eq_false_2 _ Htrim).
      reflexivity.
    + unfold packPayload, packPayload_items.
      rewrite (bool_decide_eq_false_2 _ Hne), (bool_decide_eq_false_2 _ Htrim).
      cbn [negb andb app bool_decide]. rewrite bool_decide_eq_false_2 by done.
      unfold container_of. cbn [map concat item_data].
      rewrite stringify_meta_text_item, Hprint. rewrite <- ?app_assoc. reflexivity.
    + rewrite utf8_encode_ascii_app by (apply ascii_sample; reflexivity).
      rewrite utf8_encode_ascii_app
        by (eapply Forall_impl; [exact Hdigits|]; intros c Hc; unfold is_digit_char in Hc;
            unfold is_ascii; lia).
      by rewrite utf8_encode_ascii_app by (apply ascii_sample; reflexivity).
    + intros ds' [= -> ->]. by apply Hzero.
    + by intros ->.
Qed.

(** ** [parseContainer] after [packPayload] *)

Lemma get_prop_item (it : item) :
  get_prop (json_of_item it) "len" = Ret (Some (JNum (NInt (item_len it)))) /\
  get_prop (json_of_item it) "t" = Ret (Some (JStr (item_t it))) /\
  get_prop (json_of_item it) "name" = Ret (Some (JStr (item_name it))) /\
  get_prop (json_of_item it) "mime" = Ret (Some (JStr (item_mime it))).
Proof. repeat split. Qed.

Lemma get_prop_meta (items : list item) :
  get_prop (json_of_meta items) "items" = Ret (Some (JArr (map json_of_item items))).
Proof. reflexivity. Qed.

Lemma number_add_exact (a b : Z) : Z.abs (a + b) < 2 ^ 53 -> number_add a b = Ret (a + b).
Proof. intros Hab. unfold number_add. by destruct (Z.ltb_spec (Z.abs (a + b)) (2 ^ 53)); [|lia]. Qed.

Lemma parseContainer_items_packed (items : list item) (pre : list Z) :
  Forall item_ok items ->
  buf_length (pre ++ concat (map item_data items)) < 2 ^ 53 ->
  parseContainer_items (pre ++ concat (map item_data items)) (map json_of_item items)
                       (buf_length pre)
  = Ret (map out_of_item items).
Proof.
  intros Hok. revert pre. induction Hok as [|it items Hit _ IH]; intros pre Hsize; [done|].
  cbn [map parseContainer_items concat].
  destruct (get_prop_item it) as (-> & -> & -> & ->). cbn [mbind outcome_bind].
  destruct Hit as (_ & _ & _ & _ & Hlen & _). rewrite Hlen.
  cbn [concat map] in Hsize. rewrite !buf_length_app in Hsize.
  pose proof (buf_length_nonneg pre). pose proof (buf_length_nonneg (item_data it)).
  pose proof (buf_length_nonneg (concat (map item_data items))).
  rewrite number_add_exact by lia. cbn [mbind outcome_bind].
  rewrite slice_app_middle by done.
  rewrite <- buf_length_app, app_assoc, IH by (rewrite !buf_length_app; lia).
  cbn [mbind outcome_bind].
  unfold out_of_item, is_string. by destruct (_ || _).
Qed.

Lemma buf_length_MAGIC : buf_length MAGIC = 6.
Proof. reflexivity. Qed.

Lemma parseContainer_container_of (items : list item) :
  Forall item_ok items -> meta_fits items ->
  buf_length (container_of items) < 2 ^ 53 ->
  parseContainer (container_of items) = Ret (map out_of_item items).
Proof.
  intros Hok Hfits Hsize. unfold parseContainer, container_of, meta_fits in *.
  set (metaBuf := utf8_encode (stringify_meta items)) in *.
  set (dataConcat := concat (map item_data items)).
  rewrite slice_app_head by done. rewrite bool_decide_eq_true_2 by done. cbn [negb].
  change (6 + 4) with 10.
  rewrite (slice_app_middle MAGIC (u32 (buf_length metaBuf))) by done.
  rewrite readU32BE_u32_small by (pose proof (buf_length_nonneg metaBuf); lia).
  cbn [mbind outcome_bind].
  replace (MAGIC ++ u32 (buf_length metaBuf) ++ metaBuf ++ dataConcat)
    with ((MAGIC ++ u32 (buf_length metaBuf)) ++ metaBuf ++ dataConcat) by by rewrite <- app_assoc.
  rewrite (slice_app_middle (MAGIC ++ u32 (buf_length metaBuf)) metaBuf dataConcat)
    by (rewrite ?buf_length_app, ?length_u32, ?buf_length_MAGIC; lia).
  subst metaBuf. rewrite metadata_roundtrip by done. rewrite get_prop_meta.
  cbn [mbind outcome_bind items_for_of].
  set (metaBuf := utf8_encode (stringify_meta items)).
  replace (10 + buf_length metaBuf)
    with (buf_length ((MAGIC ++ u32 (buf_length metaBuf)) ++ metaBuf))
    by (rewrite !buf_length_app, length_u32, buf_length_MAGIC; lia).
  rewrite app_assoc. apply parseContainer_items_packed; [done|].
  by rewrite <- !app_assoc in *.
Qed.

(** ** [extractData] on a plain container *)

Lemma sum_lens_items (items : list item) (s : Z) :
  Forall item_ok items ->
  0 <= s -> s + buf_length (concat (map item_data items)) < 2 ^ 53 ->
  sum_lens (map json_of_item items) s = Ret (s + buf_length (concat (map item_data items))).
Proof.
  intros Hok. revert s. induction Hok as [|it items Hit _ IH]; intros s Hs Hsize.
  - cbn. f_equal. unfold buf_length. cbn. lia.
  - cbn [map sum_lens concat] in *. unfold len_or_0.
    destruct (get_prop_item it) as (-> & _). cbn [mbind outcome_bind].
    destruct Hit as (_ & _ & _ & _ & -> & _). rewrite buf_length_app in *.
    pose proof (buf_length_nonneg (item_data it)).
    pose proof (buf_length_nonneg (concat (map item_data items))).
    rewrite number_add_exact by lia. cbn [mbind outcome_bind].
    rewrite IH by lia. f_equal. lia.
Qed.

Lemma container_of_length (items : list item) :
  buf_length (container_of items)
  = 10 + buf_length (utf8_encode (stringify_meta items))
    + buf_length (concat (map item_data items)).
Proof.
  unfold container_of. rewrite !buf_length_app, length_u32, buf_length_MAGIC. lia.
Qed.

Lemma reads_stream_at (rd : reader) (stream : list Z) (n k i j : Z) :
  reads_stream rd stream ->
  0 <= n -> 0 <= k -> k + n <= buf_length stream -> i = 8 * k -> j = 8 * (k + n) ->
  rd n i = Ret (slice stream k (k + n), j).
Proof. intros Hrd Hn Hk Hlen -> ->. by apply Hrd. Qed.

Lemma extractData_plain `{Crypto} (rd : reader) (items : list item) (password : list Z) :
  Forall item_ok items -> meta_fits items ->
  buf_length (container_of items) < 2 ^ 53 ->
  reads_stream rd (container_of items) ->
  extractData rd password = Ret (container_of items).
Proof.
  intros Hok Hfits Hsize Hrd. unfold meta_fits in Hfits.
  pose proof (container_of_length items) as Hlen.
  set (metaBuf := utf8_encode (stringify_meta items)) in *.
  set (dataConcat := concat (map item_data items)) in *.
  pose proof (buf_length_nonneg metaBuf) as HL. pose proof (buf_length_nonneg dataConcat) as HD.
  assert (Hshape : container_of items
                   = MAGIC ++ u32 (buf_length metaBuf) ++ metaBuf ++ dataConcat) by done.
  assert (H1 : rd 5 0 = Ret (str "STEGv", 40)).
  { rewrite (reads_stream_at rd _ 5 0 0 40 Hrd) by lia. rewrite slice_0 by lia. by rewrite Hshape. }
  assert (H2 : rd 1 40 = Ret ([49], 48)).
  { rewrite (reads_stream_at rd _ 1 5 40 48 Hrd) by lia. rewrite slice_inside by lia.
    by rewrite Hshape. }
  assert (H3 : rd 4 48 = Ret (u32 (buf_length metaBuf), 80)).
  { rewrite (reads_stream_at rd _ 4 6 48 80 Hrd) by lia. rewrite Hshape.
    by rewrite (slice_app_middle MAGIC (u32 (buf_length metaBuf))). }
  assert (H4 : rd (buf_length metaBuf) 80 = Ret (metaBuf, 8 * (10 + buf_length metaBuf))).
  { rewrite (reads_stream_at rd _ (buf_length metaBuf) 10 80 (8 * (10 + buf_length metaBuf)) Hrd)
      by lia.
    rewrite Hshape.
    replace (MAGIC ++ u32 (buf_length metaBuf) ++ metaBuf ++ dataConcat)
      with ((MAGIC ++ u32 (buf_length metaBuf)) ++ metaBuf ++ dataConcat)
      by by rewrite <- app_assoc.
    rewrite (slice_app_middle (MAGIC ++ u32 (buf_length metaBuf)) metaBuf dataConcat)
      by (rewrite ?buf_length_app, ?length_u32, ?buf_length_MAGIC; lia).
    done. }
  assert (H5 : rd (buf_length dataConcat) (8 * (10 + buf_length metaBuf))
               = Ret (dataConcat, 8 * (10 + buf_length metaBuf + buf_length dataConcat))).
  { rewrite (reads_stream_at rd _ (buf_length dataConcat) (10 + buf_length metaBuf)
               (8 * (10 + buf_length metaBuf))
               (8 * (10 + buf_length metaBuf + buf_length dataConcat)) Hrd) by lia.
    rewrite Hshape.
    replace (MAGIC ++ u32 (buf_length metaBuf) ++ metaBuf ++ dataConcat)
      with ((MAGIC ++ u32 (buf_length metaBuf) ++ metaBuf) ++ dataConcat ++ [])
      by (by rewrite app_nil_r, <- !app_assoc).
    rewrite (slice_app_middle (MAGIC ++ u32 (buf_length metaBuf) ++ metaBuf) dataConcat [])
      by (rewrite ?buf_length_app, ?length_u32, ?buf_length_MAGIC; lia).
    done. }
  unfold extractData. rewrite H1. cbn [mbind outcome_bind].
  rewrite bool_decide_eq_false_2 by done. rewrite H2. cbn [mbind outcome_bind].
  rewrite bool_decide_eq_true_2 by done. cbn [negb]. rewrite H3. cbn [mbind outcome_bind].
  rewrite readU32BE_u32_small by lia. cbn [mbind outcome_bind]. rewrite H4.
  cbn [mbind outcome_bind]. subst metaBuf. rewrite metadata_roundtrip by done.
  rewrite get_prop_meta. cbn [mbind outcome_bind items_reduce].
  rewrite sum_lens_items
    by (try done; fold dataConcat;
        pose proof (buf_length_nonneg (utf8_encode (stringify_meta items))); lia).
  cbn [mbind outcome_bind]. rewrite Z.add_0_l.
  fold dataConcat. rewrite H5. cbn [mbind outcome_bind]. done.
Qed.

(** ** [extractData] on an encrypted envelope *)

Lemma reassoc2 (a b c : list Z) : a ++ b ++ c = (a ++ b) ++ c.
Proof. by rewrite app_assoc. Qed.

Lemma decryptEnvelope_envelope `{Crypto} (salt iv tag enc password : list Z) :
  buf_length salt = 16 -> buf_length iv = 12 -> buf_length tag = 16 ->
  buf_length enc < 2 ^ 32 ->
  decryptEnvelope (envelope salt iv tag enc) password
  = if bool_decide (password = []) then Throw PasswordRequired
    else match gcm_decrypt (scryptSync password salt 32) iv tag enc with
         | Some dec => Ret dec
         | None => Throw AuthFailed
         end.
Proof.
  intros Hsalt Hiv Htag Henc. pose proof (buf_length_nonneg enc) as Hpos.
  unfold decryptEnvelope, envelope.
  rewrite slice_app_head by done. rewrite bool_decide_eq_true_2 by done. cbn [negb].
  change (5 + 16) with 21. change (21 + 12) with 33. change (33 + 16) with 49.
  change (49 + 4) with 53.
  set (E := u32 (buf_length enc)).
  rewrite (slice_app_middle (str "ENCv1") salt)
    by (change (buf_length (str "ENCv1")) with 5; lia).
  rewrite (reassoc2 (str "ENCv1") salt).
  rewrite (slice_app_middle (str "ENCv1" ++ salt) iv)
    by (rewrite ?buf_length_app; change (buf_length (str "ENCv1")) with 5; lia).
  rewrite (reassoc2 (str "ENCv1" ++ salt) iv).
  rewrite (slice_app_middle ((str "ENCv1" ++ salt) ++ iv) tag)
    by (rewrite ?buf_length_app; change (buf_length (str "ENCv1")) with 5; lia).
  rewrite (reassoc2 ((str "ENCv1" ++ salt) ++ iv) tag).
  rewrite (slice_app_middle (((str "ENCv1" ++ salt) ++ iv) ++ tag) E enc)
    by (rewrite ?buf_length_app; change (buf_length (str "ENCv1")) with 5; subst E;
        rewrite ?length_u32; lia).
  subst E. rewrite readU32BE_u32_small by lia. cbn [mbind outcome_bind].
  rewrite (reassoc2 (((str "ENCv1" ++ salt) ++ iv) ++ tag) (u32 (buf_length enc))).
  rewrite <- (app_nil_r enc) at 2.
  rewrite (slice_app_middle ((((str "ENCv1" ++ salt) ++ iv) ++ tag) ++ u32 (buf_length enc)) enc [])
    by (rewrite ?buf_length_app; change (buf_length (str "ENCv1")) with 5;
        rewrite ?length_u32; lia).
  done.
Qed.

Lemma extractData_envelope `{Crypto} (rd : reader) (salt iv tag enc password : list Z) :
  buf_length salt = 16 -> buf_length iv = 12 -> buf_length tag = 16 ->
  buf_length enc < 2 ^ 32 ->
  reads_stream rd (envelope salt iv tag enc) ->
  extractData rd password = decryptEnvelope (envelope salt iv tag enc) password.
Proof.
  intros Hsalt Hiv Htag Henc Hrd. pose proof (buf_length_nonneg enc) as Hpos.
  assert (Hlen : buf_length (envelope salt iv tag enc) = 53 + buf_length enc).
  { unfold envelope. rewrite !buf_length_app, length_u32.
    change (buf_length (str "ENCv1")) with 5. lia. }
  set (headerRest := salt ++ iv ++ tag ++ u32 (buf_length enc)).
  assert (Hrest : buf_length headerRest = 48).
  { subst headerRest. rewrite !buf_length_app, length_u32. lia. }
  assert (Hshape : envelope salt iv tag enc = str "ENCv1" ++ headerRest ++ enc).
  { unfold envelope. subst headerRest. by rewrite <- !app_assoc. }
  assert (H1 : rd 5 0 = Ret (str "ENCv1", 40)).
  { rewrite (reads_stream_at rd _ 5 0 0 40 Hrd) by lia. rewrite Hshape.
    by rewrite slice_app_head. }
  assert (H2 : rd 48 40 = Ret (headerRest, 424)).
  { rewrite (reads_stream_at rd _ 48 5 40 424 Hrd) by lia. rewrite Hshape.
    by rewrite (slice_app_middle (str "ENCv1") headerRest enc)
      by (change (buf_length (str "ENCv1")) with 5; lia). }
  assert (H3 : rd (buf_length enc) 424 = Ret (enc, 8 * (53 + buf_length enc))).
  { rewrite (reads_stream_at rd _ (buf_length enc) 53 424 (8 * (53 + buf_length enc)) Hrd) by lia.
    rewrite Hshape, (reassoc2 (str "ENCv1") headerRest). rewrite <- (app_nil_r enc) at 1.
    by rewrite (slice_app_middle (str "ENCv1" ++ headerRest) enc [])
      by (rewrite ?buf_length_app; change (buf_length (str "ENCv1")) with 5; lia). }
  unfold extractData. rewrite H1. cbn [mbind outcome_bind].
  rewrite bool_decide_eq_true_2 by done. rewrite H2. cbn [mbind outcome_bind].
  assert (H4 : readU32BE (slice headerRest 44 48) = Ret (buf_length enc)).
  { subst headerRest. rewrite (reassoc2 salt iv), (reassoc2 (salt ++ iv) tag).
    rewrite <- (app_nil_r (u32 (buf_length enc))).
    rewrite (slice_app_middle ((salt ++ iv) ++ tag) (u32 (buf_length enc)) [])
      by (rewrite ?buf_length_app, ?length_u32; lia).
    by rewrite readU32BE_u32_small by lia. }
  rewrite H4. cbn [mbind outcome_bind]. rewrite H3. cbn [mbind outcome_bind].
  by rewrite Hshape.
Qed.

(** What the extraction returns for an envelope made by [encryptIfNeeded]:
    the packed container under the password of the embedding, and the
    failure of the cipher whenever the cipher refuses the key, the tag or
    the ciphertext it is given. *)
Lemma decryptEnvelope_encryptIfNeeded `{Crypto} (packed password : list Z) (g : entropy) :
  crypto_laws -> password <> [] -> Forall is_byte packed ->
  buf_length (gcm_encrypt (scryptSync password (randomBytes 16 g).1 32)
                          (randomBytes 12 (randomBytes 16 g).2).1 packed).1 < 2 ^ 32 ->
  decryptEnvelope (encryptIfNeeded packed password g).1 password = Ret packed.
Proof.
  intros Hlaws Hpw Hbytes Henc. rewrite encryptIfNeeded_password by done. cbn [fst].
  set (salt := (randomBytes 16 g).1) in *.
  set (iv := (randomBytes 12 (randomBytes 16 g).2).1) in *.
  set (key := scryptSync password salt 32) in *.
  assert (Hsalt : buf_length salt = 16) by (apply randomBytes_length; [done|lia]).
  assert (Hiv : buf_length iv = 12) by (apply randomBytes_length; [done|lia]).
  assert (Hkey : buf_length key = 32) by (apply scryptSync_length; [done|lia]).
  change (str "ENCv1" ++ salt ++ iv ++ (gcm_encrypt key iv packed).2
          ++ u32 (buf_length (gcm_encrypt key iv packed).1) ++ (gcm_encrypt key iv packed).1)
    with (envelope salt iv (gcm_encrypt key iv packed).2 (gcm_encrypt key iv packed).1).
  rewrite decryptEnvelope_envelope; [|done|done|by apply gcm_tag_length|done].
  rewrite bool_decide_eq_false_2 by done. fold key.
  by rewrite gcm_decrypt_encrypt.
Qed.

(** ** The readers over an embedded payload *)

Lemma carrier_bytes_app (buf : list Z) (addr : Z -> Z) (i : Z) (a b : nat) :
  carrier_bytes buf addr i (a + b)
  = carrier_bytes buf addr i a ++ carrier_bytes buf addr (i + 8 * Z.of_nat a) b.
Proof.
  revert i. induction a as [|a IH]; intros i.
  - cbn [Nat.add]. change (Z.of_nat 0) with 0. by rewrite Z.mul_0_r, Z.add_0_r.
  - cbn [Nat.add]. rewrite !carrier_bytes_S, IH. cbn [app]. do 3 f_equal. lia.
Qed.

Lemma carrier_bytes_slice (buf : list Z) (addr : Z -> Z) (payload : list Z) (k n : Z) :
  carrier_bytes buf addr 0 (length payload) = payload ->
  0 <= n -> 0 <= k -> k + n <= buf_length payload ->
  carrier_bytes buf addr (8 * k) (Z.to_nat n) = slice payload k (k + n).
Proof.
  intros Hall Hn Hk Hlen. unfold buf_length in Hlen.
  rewrite slice_inside by (unfold buf_length; lia).
  replace (Z.to_nat (k + n - k)) with (Z.to_nat n) by lia.
  replace (length payload)
    with (Z.to_nat k + (Z.to_nat n + (length payload - Z.to_nat k - Z.to_nat n)))%nat in Hall
    by lia.
  rewrite !carrier_bytes_app in Hall. rewrite <- Hall at 1.
  rewrite drop_app_length' by (rewrite length_carrier_bytes; lia).
  rewrite take_app_length' by (rewrite length_carrier_bytes; lia).
  f_equal. lia.
Qed.

Lemma read_loop_reads_stream (buf : list Z) (addr : Z -> Z) (cap : Z) (err : error)
    (payload : list Z) :
  carrier_bytes buf addr 0 (length payload) = payload ->
  8 * buf_length payload <= cap ->
  reads_stream (fun n i => if n <? 0 then Throw RangeError
                           else read_loop buf addr cap err (Z.to_nat n) i) payload.
Proof.
  intros Hall Hcap n k Hn Hk Hlen. destruct (Z.ltb_spec n 0); [lia|].
  rewrite read_loop_ok by lia. rewrite (carrier_bytes_slice _ _ payload) by done.
  do 2 f_equal. lia.
Qed.

Lemma imageReader_reads_stream `{Platform} (rgbabuf : list Z) (width height : Z)
    (payload : list Z) :
  buf_length rgbabuf = width * height * 4 ->
  bitsNeeded (buf_length payload) <= width * height * 3 ->
  Forall is_byte payload ->
  reads_stream
    (imageReader (write_bits rgba_offset (payload_bits payload) (rgbabuf, 0)).1 width height)
    payload.
Proof.
  intros Hlen Hcap Hbytes.
  pose proof (read_loop_reads_stream
                (write_bits rgba_offset (payload_bits payload) (rgbabuf, 0)).1
                rgba_offset (width * height * 3) OutOfCapacity payload) as Hrd.
  assert (Hstream : carrier_bytes (write_bits rgba_offset (payload_bits payload) (rgbabuf, 0)).1
                                  rgba_offset 0 (length payload) = payload).
  { apply carrier_bytes_after_write; [apply rgba_offset_mono| |done].
    intros i Hi. eapply rgba_offsets_in_range; [done|exact Hcap|unfold bitsNeeded; lia]. }
  unfold bitsNeeded in Hcap. specialize (Hrd Hstream ltac:(lia)).
  intros n k Hn Hk Hnk. specialize (Hrd n k Hn Hk Hnk). cbv beta in Hrd.
  unfold imageReader. rewrite Buffer_alloc_fails_false by (try right; lia).
  rewrite image_read_loop_eq. by destruct (Z.ltb_spec n 0); [lia|].
Qed.

Lemma audioReader_reads_stream `{Platform} (wav : list Z) (dataOffset dataLength bps : Z)
    (payload : list Z) :
  0 <= dataOffset -> 0 < bps -> dataOffset + dataLength <= buf_length wav ->
  bitsNeeded (buf_length payload) <= dataLength / bps ->
  Forall is_byte payload ->
  reads_stream
    (audioReader (write_bits (wav_offset dataOffset bps) (payload_bits payload) (wav, 0)).1
                 dataOffset (dataLength / bps) bps)
    payload.
Proof.
  intros Hoff Hbps Hend Hcap Hbytes.
  pose proof (read_loop_reads_stream
                (write_bits (wav_offset dataOffset bps) (payload_bits payload) (wav, 0)).1
                (wav_offset dataOffset bps) (dataLength / bps) OutOfAudioCapacity payload) as Hrd.
  assert (Hstream : carrier_bytes
                      (write_bits (wav_offset dataOffset bps) (payload_bits payload) (wav, 0)).1
                      (wav_offset dataOffset bps) 0 (length payload) = payload).
  { apply carrier_bytes_after_write; [intros a b Hab; apply wav_offset_mono; lia| |done].
    intros i Hi. eapply wav_offsets_in_range; [exact Hoff|exact Hbps|exact Hend|exact Hcap|].
    unfold bitsNeeded. lia. }
  unfold bitsNeeded in Hcap. specialize (Hrd Hstream ltac:(lia)).
  intros n k Hn Hk Hnk. specialize (Hrd n k Hn Hk Hnk). cbv beta in Hrd.
  unfold audioReader. rewrite Buffer_alloc_fails_false by (try right; nia).
  rewrite audio_read_loop_eq. by destruct (Z.ltb_spec n 0); [lia|].
Qed.

(** ** [parseWavHeader] after the embedding *)

Lemma readUInt32LE_agree (buf buf' : list Z) (o : Z) :
  agree_on buf buf' o (o + 4) -> readUInt32LE buf' o = readUInt32LE buf o.
Proof.
  intros H. unfold readUInt32LE.
  by rewrite (H o), (H (o + 1)), (H (o + 2)), (H (o + 3)) by lia.
Qed.

Lemma readUInt16LE_agree (buf buf' : list Z) (o : Z) :
  agree_on buf buf' o (o + 2) -> readUInt16LE buf' o = readUInt16LE buf o.
Proof. intros H. unfold readUInt16LE. by rewrite (H o), (H (o + 1)) by lia. Qed.

Lemma read_fmt_agree (buf buf' : list Z) (start : Z) :
  agree_on buf buf' start (start + 16) -> read_fmt buf' start = read_fmt buf start.
Proof.
  intros H. unfold read_fmt.
  rewrite !(readUInt16LE_agree buf buf'), !(readUInt32LE_agree buf buf');
    [done|intros i Hi; apply H; lia..].
Qed.

Lemma take_drop_agree (buf buf' : list Z) (a n : nat) :
  length buf' = length buf ->
  agree_on buf buf' (Z.of_nat a) (Z.of_nat a + Z.of_nat n) ->
  take n (drop a buf') = take n (drop a buf).
Proof.
  intros Hlen H. apply list_eq. intros i.
  destruct (decide (i < n)%nat) as [Hi|Hi].
  - rewrite !lookup_take_lt, !lookup_drop by done.
    specialize (H (Z.of_nat (a + i))). unfold at_index in H.
    destruct (Z.ltb_spec (Z.of_nat (a + i)) 0); [lia|].
    rewrite Nat2Z.id in H. apply H. lia.
  - by rewrite !lookup_take_ge by lia.
Qed.

Lemma toString_ascii_agree (buf buf' : list Z) (a b : Z) :
  length buf' = length buf -> 0 <= a -> agree_on buf buf' a b ->
  toString_ascii buf' a b = toString_ascii buf a b.
Proof.
  intros Hlen Ha H. unfold toString_ascii, buf_length. rewrite Hlen. f_equal.
  apply take_drop_agree; [done|]. intros i Hi. apply H. lia.
Qed.

(** The data chunk found is the one known at the start or lies further
    on. *)
Lemma wav_chunks_data_ahead (fuel : nat) (buf : list Z) (offset : Z) (st st' : wav_scan) :
  Forall is_byte buf ->
  wav_chunks fuel buf offset st = Ret st' ->
  (scan_dataOffset st' = scan_dataOffset st /\ scan_dataLength st' = scan_dataLength st) \/
  offset + 8 <= scan_dataOffset st'.
Proof.
  intros Hbuf. revert offset st. induction fuel as [|fuel IH]; intros offset st.
  - cbn [wav_chunks]. destruct (offset + 8 <=? buf_length buf); [done|].
    intros [= <-]. by left.
  - cbn [wav_chunks]. destruct (Z.leb_spec (offset + 8) (buf_length buf)); [|intros [= <-]; by left].
    destruct (readUInt32LE buf (offset + 4)) as [size| |] eqn:Hsize; [|done..].
    cbn [mbind outcome_bind].
    pose proof (readUInt32LE_range _ _ _ Hbuf Hsize) as Hrange.
    destruct (Z.gtb_spec (offset + 8 + size) (buf_length buf)); [intros [= <-]; by left|].
    destruct (str_eqb _ (str "fmt ")).
    + destruct (read_fmt buf (offset + 8)) as [f| |]; [|done..]. cbn [mbind outcome_bind].
      intros Hrec. apply IH in Hrec as [Hsame|Hahead]; [by left|right; lia].
    + destruct (str_eqb _ (str "data")); cbn [mbind outcome_bind]; intros Hrec;
        apply IH in Hrec as [Hsame|Hahead]; cbn in *; (by left) || (right; lia).
Qed.

(** The chunk loop gives the same result on a buffer that differs only
    inside the data chunk it returns, when the [fmt ] chunks are complete. *)
Lemma wav_chunks_frame (fuel : nat) (buf buf' : list Z) (offset : Z) (st st' : wav_scan) :
  Forall is_byte buf -> length buf' = length buf -> 12 <= offset ->
  scan_dataOffset st + scan_dataLength st <= offset ->
  wav_chunks fuel buf offset st = Ret st' ->
  fmt_chunks_complete fuel buf offset = true ->
  (forall i, ~ (scan_dataOffset st' <= i < scan_dataOffset st' + scan_dataLength st') ->
             at_index buf' i = at_index buf i) ->
  wav_chunks fuel buf' offset st = Ret st'.
Proof.
  intros Hbuf Hlen. revert offset st.
  induction fuel as [|fuel IH]; intros offset st Hoff Hbehind Hrun Hfmt Hagree.
  - cbn [wav_chunks] in *. unfold buf_length in *. rewrite Hlen.
    by destruct (offset + 8 <=? Z.of_nat (length buf)).
  - pose proof (wav_chunks_data_ahead _ _ _ _ _ Hbuf Hrun) as Hahead.
    cbn [wav_chunks fmt_chunks_complete] in *. unfold buf_length in *. rewrite Hlen.
    destruct (Z.leb_spec (offset + 8) (Z.of_nat (length buf))); [|done].
    assert (Hheader : agree_on buf buf' offset (offset + 8)).
    { intros i Hi. apply Hagree. lia. }
    rewrite (toString_ascii_agree buf buf') by (done || lia || intros i Hi; apply Hheader; lia).
    rewrite (readUInt32LE_agree buf buf') by (intros i Hi; apply Hheader; lia).
    destruct (readUInt32LE buf (offset + 4)) as [size| |] eqn:Hsize; [|done..].
    cbn [mbind outcome_bind] in *.
    pose proof (readUInt32LE_range _ _ _ Hbuf Hsize) as Hrange.
    destruct (Z.gtb_spec (offset + 8 + size) (Z.of_nat (length buf))); [done|].
    apply andb_prop in Hfmt as [Hsize16 Hfmt].
    destruct (str_eqb _ (str "fmt ")).
    + destruct (read_fmt buf (offset + 8)) as [f| |] eqn:Hf; [|done..].
      cbn [mbind outcome_bind] in *.
      pose proof (wav_chunks_data_ahead _ _ _ _ _ Hbuf Hrun) as Hahead2. cbn in Hahead2.
      rewrite (read_fmt_agree buf buf'), Hf.
      * cbn [mbind outcome_bind]. apply IH; [lia|cbn; lia|done..].
      * intros i Hi. apply Hagree. apply Z.leb_le in Hsize16. lia.
    + destruct (str_eqb _ (str "data")); cbn [mbind outcome_bind] in *;
        (apply IH; [lia|cbn; lia|done..]).
Qed.

Lemma parseWavHeader_frame (buf buf' : list Z) (h : wav_header) :
  Forall is_byte buf -> length buf' = length buf -> complete_fmt_chunks buf ->
  parseWavHeader buf = Ret h ->
  (forall i, ~ (hdr_dataOffset h <= i < hdr_dataOffset h + hdr_dataLength h) ->
             at_index buf' i = at_index buf i) ->
  parseWavHeader buf' = Ret h.
Proof.
  intros Hbuf Hlen Hcomplete Hparse Hagree.
  pose proof (parseWavHeader_Ret buf h Hbuf Hparse) as (_ & _ & _ & Hoff & _).
  unfold parseWavHeader in *.
  assert (Hriff : is_riff_wave buf' = is_riff_wave buf).
  { unfold is_riff_wave.
    by rewrite !(toString_ascii_agree buf buf') by (done || intros i Hi; apply Hagree; lia). }
  rewrite Hriff. destruct (is_riff_wave buf); [|done]. cbn [negb] in *.
  destruct (scan_chunks buf) as [st| |] eqn:Hscan; [|done..]. cbn [mbind outcome_bind] in Hparse.
  assert (Hh : hdr_dataOffset h = scan_dataOffset st /\ hdr_dataLength h = scan_dataLength st).
  { destruct (scan_fmt st); [|done]. destruct (negb _); [done|]. destruct (negb _); [done|].
    destruct (_ || _); [done|]. by injection Hparse as <-. }
  destruct Hh as [Hh1 Hh2]. rewrite Hh1, Hh2 in Hagree.
  assert (Hscan' : scan_chunks buf' = Ret st).
  { unfold scan_chunks in *. rewrite Hlen.
    eapply wav_chunks_frame; [done|done|lia|cbn; lia|exact Hscan|exact Hcomplete|exact Hagree]. }
  rewrite Hscan'. exact Hparse.
Qed.

(** ** Embedding followed by extraction *)

Lemma ascii_units (l : list Z) : Forall is_ascii l -> Forall is_unit l.
Proof.
  intros H. eapply Forall_impl; [exact H|]. unfold is_ascii, is_unit. intros; lia.
Qed.

Lemma or_default_units (s : list Z) (fallback : string) :
  Forall is_unit s -> Forall is_ascii (str fallback) ->
  Forall is_unit (or_default s (str fallback)).
Proof.
  intros Hs Hf. unfold or_default. destruct (bool_decide (s = [])); [by apply ascii_units|done].
Qed.

Lemma item_data_length (items : list item) (it : item) :
  it ∈ items -> buf_length (item_data it) <= buf_length (concat (map item_data items)).
Proof.
  induction 1 as [it items|it it' items _ IH]; cbn [map concat]; rewrite buf_length_app.
  - pose proof (buf_length_nonneg (concat (map item_data items))). lia.
  - pose proof (buf_length_nonneg (item_data it')). lia.
Qed.

(** The items [packPayload] builds from valid secrets are well formed. *)
Lemma packPayload_items_ok (secretText : list Z) (secretFile : option upload) :
  secrets_ok secretText secretFile ->
  buf_length (container_of (packPayload_items secretText secretFile)) < 2 ^ 32 ->
  Forall item_ok (packPayload_items secretText secretFile) /\
  meta_fits (packPayload_items secretText secretFile).
Proof.
  intros [Htext Hfile] Hlen. rewrite container_of_length in Hlen.
  set (items := packPayload_items secretText secretFile) in *.
  pose proof (buf_length_nonneg (utf8_encode (stringify_meta items))) as Hmeta.
  pose proof (buf_length_nonneg (concat (map item_data items))) as Hdata.
  split; [|unfold meta_fits; lia].
  assert (Hshape : Forall (fun it => Forall is_unit (item_t it) /\ Forall is_unit (item_name it) /\
                                     Forall is_unit (item_mime it) /\ Forall is_byte (item_data it) /\
                                     item_len it = buf_length (item_data it)) items).
  { subst items. unfold packPayload_items. apply Forall_app. split.
    - destruct (_ && _); [|apply Forall_nil_2]. apply Forall_cons. split; [|apply Forall_nil_2].
      cbn [item_t item_name item_mime item_data item_len].
      repeat split; try (apply ascii_units, ascii_sample; reflexivity).
      by apply utf8_encode_bytes, well_formed_units.
    - destruct secretFile as [f|]; [|apply Forall_nil_2].
      destruct Hfile as (Hbuf & Hname & Hmime).
      apply Forall_cons. split; [|apply Forall_nil_2].
      cbn [item_t item_name item_mime item_data item_len].
      repeat split; try done.
      + apply ascii_units, ascii_sample; reflexivity.
      + apply or_default_units; [done|]. apply ascii_sample; reflexivity.
      + apply or_default_units; [done|]. apply ascii_sample; reflexivity. }
  apply Forall_forall. intros it Hit.
  pose proof (proj1 (Forall_forall _ _) Hshape it Hit) as (Ht & Hn & Hm & Hd & Hl).
  pose proof (item_data_length items it Hit).
  unfold item_ok. repeat split; try done. lia.
Qed.

(** What [parseContainer] makes of the packed items of valid secrets. *)
Lemma out_of_packed_items (secretText : list Z) (secretFile : option upload) :
  well_formed secretText ->
  map out_of_item (packPayload_items secretText secretFile)
  = extracted_items secretText secretFile.
Proof.
  intros Htext. unfold packPayload_items, extracted_items. rewrite map_app. f_equal.
  - destruct (_ && _); [|done]. cbn [map]. unfold out_of_item.
    cbn [item_t item_name item_mime item_data].
    change (str_eqb (str "text") (str "text")) with true. cbn [orb].
    by rewrite utf8_decode_encode.
  - destruct secretFile as [f|]; [|done]. cbn [map]. unfold out_of_item.
    cbn [item_t item_name item_mime item_data].
    change (str_eqb (str "file") (str "text")) with false. by cbn [orb].
Qed.

(** The payload is a list of bytes. *)
Lemma container_of_bytes (items : list item) :
  Forall item_ok items -> Forall is_byte (container_of items).
Proof.
  intros Hok. unfold container_of.
  apply Forall_app; split; [|apply Forall_app; split; [|apply Forall_app; split]].
  - apply is_byte_sample. reflexivity.
  - apply u32_bytes.
  - by apply metadata_bytes.
  - apply Forall_concat, Forall_map. eapply Forall_impl; [exact Hok|].
    by intros it (_ & _ & _ & Hd & _).
Qed.

Lemma encryptIfNeeded_bytes `{Crypto} (buf password : list Z) (g : entropy) :
  crypto_laws -> Forall is_byte buf -> Forall is_byte (encryptIfNeeded buf password g).1.
Proof.
  intros Hlaws Hbuf. destruct (decide (password = [])) as [->|Hpw].
  - by rewrite encryptIfNeeded_empty.
  - rewrite encryptIfNeeded_password by done. cbn [fst].
    pose proof (gcm_encrypt_bytes Hlaws
                  (scryptSync password (randomBytes 16 g).1 32)
                  (randomBytes 12 (randomBytes 16 g).2).1 buf Hbuf) as [Henc Htag].
    apply Forall_app; split; [|apply Forall_app; split; [|apply Forall_app; split;
      [|apply Forall_app; split; [|apply Forall_app; split]]]]; try done.
    + apply is_byte_sample. reflexivity.
    + apply (randomBytes_bytes Hlaws).
    + apply (randomBytes_bytes Hlaws).
    + apply u32_bytes.
Qed.

(** [extractData] over a reader that holds the payload of an embedding
    gives the container back. *)
Lemma extractData_payload `{Crypto} (rd : reader) (items : list item) (password : list Z)
    (g : entropy) :
  crypto_laws -> Forall item_ok items -> buf_length (container_of items) < 2 ^ 32 ->
  reads_stream rd (encryptIfNeeded (container_of items) password g).1 ->
  extractData rd password = Ret (container_of items).
Proof.
  intros Hlaws Hok Hlen Hrd.
  assert (Hfits : meta_fits items).
  { rewrite container_of_length in Hlen. unfold meta_fits.
    pose proof (buf_length_nonneg (concat (map item_data items))). lia. }
  destruct (decide (password = [])) as [->|Hpw].
  - rewrite encryptIfNeeded_empty in Hrd. apply extractData_plain; [done|done|lia|done].
  - pose proof (container_of_bytes items Hok) as Hbytes.
    assert (Henc : buf_length (gcm_encrypt (scryptSync password (randomBytes 16 g).1 32)
                                 (randomBytes 12 (randomBytes 16 g).2).1 (container_of items)).1
                   < 2 ^ 32) by (rewrite (gcm_encrypt_length Hlaws); lia).
    rewrite <- (decryptEnvelope_encryptIfNeeded (container_of items) password g) by done.
    rewrite encryptIfNeeded_password in * by done. cbn [fst] in *.
    apply extractData_envelope; try done.
    + by apply (randomBytes_length Hlaws).
    + by apply (randomBytes_length Hlaws).
    + apply (gcm_tag_length Hlaws).
Qed.

(** The embedding writes inside the data chunk only. *)
Lemma write_bits_wav_frame (wav payload : list Z) (dataOffset dataLength bps i : Z) :
  0 < bps -> bitsNeeded (buf_length payload) <= dataLength / bps ->
  ~ (dataOffset <= i < dataOffset + dataLength) ->
  at_index (write_bits (wav_offset dataOffset bps) (payload_bits payload) (wav, 0)).1 i
  = at_index wav i.
Proof.
  intros Hbps Hcap Hi. apply write_bits_untouched. intros k Hk.
  rewrite length_payload_bits in Hk. unfold bitsNeeded, buf_length in Hcap.
  unfold wav_offset. intros Heq.
  assert (k + 1 <= dataLength / bps) by lia.
  assert ((k + 1) * bps <= dataLength) by (transitivity (dataLength / bps * bps); nia).
  nia.
Qed.

Lemma handleEmbed_packed `{Crypto} (cover : carrier) (secretText : list Z)
    (secretFile : option upload) (password : list Z) (g : entropy) :
  packPayload_items secretText secretFile <> [] ->
  handleEmbed cover secretText secretFile password g
  = let payload :=
      (encryptIfNeeded (container_of (packPayload_items secretText secretFile)) password g).1 in
    match cover with
    | ImageCarrier data width height =>
        stego ← (embedImage data width height payload).1;
        Ret (ImageCarrier stego width height)
    | AudioCarrier buf =>
        stego ← (embedAudio buf payload).1;
        Ret (AudioCarrier stego)
    end.
Proof.
  intros Hitems. unfold handleEmbed.
  assert (Hguard : bool_decide (secretText = []) && bool_decide (secretFile = None) = false).
  { destruct (bool_decide (secretText = [])) eqn:Ht; [|done].
    destruct (bool_decide (secretFile = None)) eqn:Hf; [|done].
    apply bool_decide_eq_true_1 in Ht, Hf. by subst. }
  rewrite Hguard. unfold packPayload. rewrite bool_decide_eq_false_2 by done.
  cbn [mbind outcome_bind].
  by destruct (encryptIfNeeded _ password g).
Qed.

Lemma roundtrip_image `{Crypto} `{Platform} (data : list Z) (width height : Z) (items : list item)
    (password : list Z) (g : entropy) :
  crypto_laws -> Forall item_ok items -> buf_length (container_of items) < 2 ^ 32 ->
  buf_length data = width * height * 4 ->
  bitsNeeded (buf_length (encryptIfNeeded (container_of items) password g).1)
  <= width * height * 3 ->
  exists stego,
    (embedImage data width height (encryptIfNeeded (container_of items) password g).1).1
    = Ret stego /\
    extractData (imageReader stego width height) password = Ret (container_of items).
Proof.
  intros Hlaws Hok Hlen Hdata Hcap.
  set (payload := (encryptIfNeeded (container_of items) password g).1) in *.
  unfold embedImage. rewrite embedLSB_RGBA_ok by done. cbn [fst].
  eexists. split; [reflexivity|].
  apply (extractData_payload _ items password g); try done.
  apply imageReader_reads_stream; try done.
  by apply encryptIfNeeded_bytes, container_of_bytes.
Qed.

Lemma roundtrip_audio `{Crypto} `{Platform} (wav : list Z) (h : wav_header) (items : list item)
    (password : list Z) (g : entropy) :
  crypto_laws -> Forall item_ok items -> buf_length (container_of items) < 2 ^ 32 ->
  Forall is_byte wav -> complete_fmt_chunks wav -> parseWavHeader wav = Ret h ->
  bitsNeeded (buf_length (encryptIfNeeded (container_of items) password g).1)
  <= hdr_dataLength h / (bitsPerSample (hdr_fmt h) / 8) ->
  exists stego,
    (embedAudio wav (encryptIfNeeded (container_of items) password g).1).1 = Ret stego /\
    parseWavHeader stego = Ret h /\
    extractData (audioReader stego (hdr_dataOffset h)
                             (hdr_dataLength h / (bitsPerSample (hdr_fmt h) / 8))
                             (bitsPerSample (hdr_fmt h) / 8)) password
    = Ret (container_of items).
Proof.
  intros Hlaws Hok Hlen Hwav Hcomplete Hparse Hcap.
  set (payload := (encryptIfNeeded (container_of items) password g).1) in *.
  pose proof (parseWavHeader_Ret wav h Hwav Hparse) as (_ & _ & Hbits & Hoff & Hdl & Hend).
  assert (Hbps : 0 < bitsPerSample (hdr_fmt h) / 8) by (destruct Hbits as [-> | ->]; done).
  unfold embedAudio, processAudioSimple. rewrite Hparse. cbn [mbind outcome_bind].
  rewrite Hparse. rewrite embedLSB_WavPCM_ok by done. cbn [fst].
  eexists. split; [reflexivity|]. split.
  - apply (parseWavHeader_frame wav); try done.
    + apply write_bits_length.
    + intros i Hi. by apply (write_bits_wav_frame wav payload _ (hdr_dataLength h)).
  - apply (extractData_payload _ items password g); try done.
    apply audioReader_reads_stream; try done; [lia|].
    by apply encryptIfNeeded_bytes, container_of_bytes.
Qed.

(** C1 (round-trip identity), as the code has it.  For valid secrets (a
    well-formed text, a file of bytes), at least one item to embed, a
    container below 2^32 bytes, and a cover that can hold the payload (a
    picture, or a PCM WAV file whose [fmt ] chunks are complete), the
    embed handler succeeds and the extract handler, given the stego carrier
    and the same password (empty for none), returns the items in order:
    the text as typed, and the file with its name and type, as the base64
    of its bytes when its type is not [text/plain], and as text, the UTF-8
    decoding of its bytes, when its type is [text/plain]. *)
Theorem embed_extract_roundtrip `{Crypto} `{Platform} (cover : carrier) (secretText : list Z)
    (secretFile : option upload) (password : list Z) (g : entropy) (bits : Z) :
  crypto_laws ->
  secrets_ok secretText secretFile ->
  packPayload_items secretText secretFile <> [] ->
  buf_length (container_of (packPayload_items secretText secretFile)) < 2 ^ 32 ->
  cover_ok cover ->
  capacityBits cover = Ret bits ->
  bitsNeeded (buf_length (encryptIfNeeded
                            (container_of (packPayload_items secretText secretFile))
                            password g).1) <= bits ->
  exists stego,
    handleEmbed cover secretText secretFile password g = Ret stego /\
    handleExtract stego password = Ret (extracted_items secretText secretFile).
Proof.
  intros Hlaws Hsecrets Hitems Hlen Hcover Hbits Hcap.
  destruct (packPayload_items_ok secretText secretFile Hsecrets Hlen) as [Hok Hfits].
  rewrite handleEmbed_packed by done. cbv zeta.
  rewrite <- (out_of_packed_items secretText secretFile) by apply Hsecrets.
  destruct cover as [data width height|wav]; cbn [cover_ok capacityBits] in *.
  - injection Hbits as <-.
    destruct (roundtrip_image data width height _ password g Hlaws Hok Hlen Hcover Hcap)
      as (stego & Hembed & Hextract).
    exists (ImageCarrier stego width height). rewrite Hembed. split; [done|].
    cbn [handleExtract]. rewrite Hextract. cbn [mbind outcome_bind].
    apply parseContainer_container_of; [done|done|lia].
  - destruct Hcover as (Hwav & Hcomplete & h & Hparse).
    rewrite Hparse in Hbits. cbn [mbind outcome_bind] in Hbits. injection Hbits as <-.
    destruct (roundtrip_audio wav h _ password g Hlaws Hok Hlen Hwav Hcomplete Hparse Hcap)
      as (stego & Hembed & Hheader & Hextract).
    exists (AudioCarrier stego). rewrite Hembed. split; [done|].
    cbn [handleExtract]. rewrite Hheader. cbn [mbind outcome_bind].
    rewrite Hextract. cbn [mbind outcome_bind].
    apply parseContainer_container_of; [done|done|lia].
Qed.

(** ** The stand-in primitives *)

Lemma toy_laws : @crypto_laws toy_crypto.
Proof.
  split; cbn [randomBytes scryptSync gcm_encrypt gcm_decrypt toy_crypto fst snd].
  - intros n g Hn. unfold Fixtures.toy_randomBytes, buf_length. cbn [fst].
    rewrite length_map, length_seq. lia.
  - intros n g. unfold Fixtures.toy_randomBytes. cbn [fst].
    apply Forall_forall. intros b Hb. apply list_elem_of_fmap in Hb as (k & -> & _).
    unfold is_byte. lia.
  - intros password salt n Hn. unfold Fixtures.toy_scrypt, buf_length.
    rewrite length_take, !length_app, repeat_length. lia.
  - intros key iv plain. unfold Fixtures.toy_encrypt, Fixtures.toy_tag, buf_length. cbn [snd].
    rewrite length_map, length_take, length_app, repeat_length. lia.
  - intros key iv plain Hplain. unfold Fixtures.toy_encrypt, Fixtures.toy_tag. cbn [fst snd].
    split; apply Forall_forall; intros b Hb; apply list_elem_of_fmap in Hb as (k & -> & _);
      unfold is_byte; lia.
  - intros key iv plain _ _ Hplain. unfold Fixtures.toy_encrypt, Fixtures.toy_decrypt.
    cbn [fst snd]. rewrite bool_decide_eq_true_2 by done. f_equal.
    induction Hplain as [|b plain Hb _ IH]; [done|]. cbn [map]. rewrite IH. f_equal.
    unfold is_byte in Hb. lia.
  - intros key iv plain. unfold Fixtures.toy_encrypt, buf_length. cbn [fst].
    by rewrite length_map.
Qed.

(** ** Where the round trip is not the identity *)

(** Runs the embedding of the goal and takes its result as the stego
    carrier. *)
Ltac exists_result :=
  match goal with
  | |- exists stego, ?run = Ret stego /\ _ =>
      let r := eval vm_compute in run in
      match r with Ret ?s => exists s end
  end.

(** C1, the departure: a secret file whose type is [text/plain] comes back
    as a text item, and its bytes as their UTF-8 decoding; the byte 255,
    which is not UTF-8, comes back as U+FFFD, whose encoding is three
    other bytes. *)
Lemma roundtrip_text_plain_file :
  exists stego,
    @handleEmbed toy_crypto (ImageCarrier (repeat 0 1024) 16 16) []
                 (Some {| buffer := [1; 2; 255]; originalname := str "a.bin";
                          mimetype := str "text/plain" |}) [] 0
    = Ret stego /\
    @handleExtract toy_crypto toy_platform stego []
    = Ret [OutText (Some (JStr (str "a.bin"))) (Some (JStr (str "text/plain"))) [1; 2; 65533]] /\
    utf8_encode [1; 2; 65533] = [1; 2; 239; 191; 189].
Proof. exists_result. split; [vm_compute; reflexivity|]. split; vm_compute; reflexivity. Qed.

(** A WAV cover whose [fmt ] chunk has four bytes: [parseWavHeader] reads
    the sixteen format bytes across the [data] chunk header and the first
    samples, the embedding changes a sample it has read the bit depth
    from, and the extraction rejects the stego file. *)
Lemma roundtrip_short_fmt_chunk :
  let cover := Fixtures.wav_file 4 1 16 ([2; 0; 16; 0] ++ repeat 77 (Z.to_nat 6000)) in
  ~ complete_fmt_chunks cover /\
  exists stego,
    @handleEmbed toy_crypto (AudioCarrier cover) (str "hi") None [] 0 = Ret stego /\
    @handleExtract toy_crypto toy_platform stego [] = Throw (UnsupportedBitDepth 17).
Proof.
  split; [vm_compute; discriminate|].
  exists_result. split; vm_compute; reflexivity.
Qed.

(** * Further properties of the server *)

(** ** What [parseWavHeader] returns *)

(** Chunks start at even offsets: the data chunk found is the one known at
    the start or starts at an even offset, and its length was read from a
    32-bit field. *)
Lemma wav_chunks_data_aligned (fuel : nat) (buf : list Z) (offset : Z) (st st' : wav_scan) :
  Forall is_byte buf -> offset mod 2 = 0 ->
  wav_chunks fuel buf offset st = Ret st' ->
  (scan_dataOffset st' = scan_dataOffset st /\ scan_dataLength st' = scan_dataLength st) \/
  (scan_dataOffset st' mod 2 = 0 /\ scan_dataLength st' < 2 ^ 32).
Proof.
  intros Hbuf. revert offset st. induction fuel as [|fuel IH]; intros offset st Heven.
  - cbn [wav_chunks]. destruct (offset + 8 <=? buf_length buf); [done|].
    intros [= <-]. by left.
  - cbn [wav_chunks]. destruct (Z.leb_spec (offset + 8) (buf_length buf)); [|intros [= <-]; by left].
    destruct (readUInt32LE buf (offset + 4)) as [size| |] eqn:Hsize; [|done..].
    cbn [mbind outcome_bind].
    pose proof (readUInt32LE_range _ _ _ Hbuf Hsize) as Hrange.
    destruct (Z.gtb_spec (offset + 8 + size) (buf_length buf)); [intros [= <-]; by left|].
    assert (Hnext : (offset + 8 + size + size mod 2) mod 2 = 0) by lia.
    destruct (str_eqb _ (str "fmt ")).
    + destruct (read_fmt buf (offset + 8)) as [f| |]; [|done..]. cbn [mbind outcome_bind].
      intros Hrec. by apply IH in Hrec.
    + destruct (str_eqb _ (str "data")); cbn [mbind outcome_bind]; intros Hrec;
        apply IH in Hrec as [[Ho Hl]|Haligned]; cbn in *; try done; auto.
      right. rewrite Ho, Hl. lia.
Qed.

(** The format fields read from a byte buffer are 16- and 32-bit
    numbers. *)
Lemma readUInt16LE_range (buf : list Z) (offset v : Z) :
  Forall is_byte buf -> readUInt16LE buf offset = Ret v -> 0 <= v < 2 ^ 16.
Proof.
  intros Hbuf. unfold readUInt16LE.
  destruct (at_index buf offset) as [b0|] eqn:H0; [|done].
  destruct (at_index buf (offset + 1)) as [b1|] eqn:H1; [|done].
  intros [= <-].
  apply (at_index_byte _ _ _ Hbuf) in H0, H1. unfold is_byte in *. lia.
Qed.

(** The data chunk of a returned header is the one the chunk loop found. *)
Lemma parseWavHeader_scan (buf : list Z) (h : wav_header) :
  parseWavHeader buf = Ret h ->
  exists st, scan_chunks buf = Ret st /\
             hdr_dataOffset h = scan_dataOffset st /\ hdr_dataLength h = scan_dataLength st.
Proof.
  unfold parseWavHeader. destruct (is_riff_wave buf); [|done]. cbn [negb].
  destruct (scan_chunks buf) as [st| |]; [|done..]. cbn [mbind outcome_bind].
  destruct (scan_fmt st); [|done]. destruct (negb _); [done|]. destruct (negb _); [done|].
  destruct (_ || _); [done|]. intros [= <-]. by exists st.
Qed.

(** X1. On every buffer of bytes [parseWavHeader] ends (the chunk loop
    moves forward at every turn): it throws one of its five errors or the
    [RangeError] of a read past the end, or it returns a header of 8- or
    16-bit PCM whose data chunk is not empty, starts at an even offset of
    at least 20, has a length below 2^32 and lies inside the buffer. *)
Theorem parseWavHeader_outcomes (buf : list Z) :
  Forall is_byte buf ->
  match parseWavHeader buf with
  | Ret h =>
      audioFormat (hdr_fmt h) = 1 /\
      (bitsPerSample (hdr_fmt h) = 8 \/ bitsPerSample (hdr_fmt h) = 16) /\
      20 <= hdr_dataOffset h /\ hdr_dataOffset h mod 2 = 0 /\
      0 < hdr_dataLength h < 2 ^ 32 /\
      hdr_dataOffset h + hdr_dataLength h <= buf_length buf
  | Throw e => wav_header_error e
  | Unmodelled => False
  end.
Proof.
  intros Hbuf.
  destruct (parseWavHeader buf) as [h|e|] eqn:Hparse.
  - destruct (parseWavHeader_Ret buf h Hbuf Hparse) as (_ & Hfmt & Hbits & Hoff & Hlen & Hend).
    destruct (parseWavHeader_scan buf h Hparse) as (st & Hscan & Ho & Hl).
    unfold scan_chunks in Hscan.
    destruct (wav_chunks_data_aligned (length buf) buf 12 _ st Hbuf eq_refl Hscan)
      as [[Ho' Hl']|[Heven Hlt]]; cbn in *; repeat split; try done; lia.
  - unfold parseWavHeader in Hparse. unfold wav_header_error.
    destruct (is_riff_wave buf); cbn [negb] in Hparse; [|injection Hparse as <-; auto].
    destruct (scan_chunks buf) as [st|e'|] eqn:Hscan; [| |done]; cbn [mbind outcome_bind] in Hparse.
    + destruct (scan_fmt st) as [f|]; [|injection Hparse as <-; auto].
      destruct (negb _); [injection Hparse as <-; auto|].
      destruct (negb _); [injection Hparse as <-; eauto 10|].
      destruct (_ || _); [injection Hparse as <-; auto 10|done].
    + injection Hparse as <-. do 5 right.
      clear -Hscan. unfold scan_chunks in Hscan.
      revert Hscan. generalize 12.
      generalize {| scan_fmt := None; scan_dataOffset := -1; scan_dataLength := -1 |}.
      induction (length buf) as [|fuel IH]; intros st offset.
      * cbn [wav_chunks]. by destruct (offset + 8 <=? buf_length buf).
      * cbn [wav_chunks]. destruct (offset + 8 <=? buf_length buf); [|done].
        assert (H32 : forall o e, readUInt32LE buf o = Throw e -> e = RangeError).
        { intros o e. unfold readUInt32LE.
          repeat (match goal with |- context [at_index ?b ?i] => destruct (at_index b i) end;
                  try done); by intros [= <-]. }
        assert (H16 : forall o e, readUInt16LE buf o = Throw e -> e = RangeError).
        { intros o e. unfold readUInt16LE.
          repeat (match goal with |- context [at_index ?b ?i] => destruct (at_index b i) end;
                  try done); by intros [= <-]. }
        destruct (readUInt32LE buf (offset + 4)) as [size|e|] eqn:Hsize; cbn [mbind outcome_bind];
          [|intros [= <-]; by apply (H32 _ _ Hsize)|done].
        destruct (offset + 8 + size >? buf_length buf); [done|].
        destruct (str_eqb _ (str "fmt ")).
        -- destruct (read_fmt buf (offset + 8)) as [f|e|] eqn:Hf; cbn [mbind outcome_bind];
             [apply IH| |done].
           intros [= <-]. unfold read_fmt in Hf.
           repeat (match type of Hf with
                   | context [readUInt16LE ?b ?o] =>
                       let E := fresh in
                       destruct (readUInt16LE b o) eqn:E; cbn [mbind outcome_bind] in Hf;
                       [|injection Hf as <-; by apply (H16 _ _ E)|done]
                   | context [readUInt32LE ?b ?o] =>
                       let E := fresh in
                       destruct (readUInt32LE b o) eqn:E; cbn [mbind outcome_bind] in Hf;
                       [|injection Hf as <-; by apply (H32 _ _ E)|done]
                   end). done.
        -- destruct (str_eqb _ (str "data")); cbn [mbind outcome_bind]; apply IH.
  - unfold parseWavHeader in Hparse.
    destruct (is_riff_wave buf); cbn [negb] in Hparse; [|done].
    destruct (scan_chunks buf) as [st|e'|] eqn:Hscan; cbn [mbind outcome_bind] in Hparse.
    + destruct (scan_fmt st) as [f|]; [|done].
      destruct (negb _); [done|]. destruct (negb _); [done|]. by destruct (_ || _).
    + done.
    + unfold scan_chunks in Hscan. revert Hscan. apply wav_chunks_fuel; [done|lia|].
      unfold buf_length. lia.
Qed.

(** ** The embedding and the WAV header *)

(** X2. Embedding into a WAV cover whose [fmt ] chunks are complete leaves
    the file a WAV file with the same header: the stego file has the length
    of the cover, differs from it only inside the data chunk, and
    [parseWavHeader] returns for it what it returned for the cover. *)
Theorem embedAudio_keeps_header (cover payload stego : list Z) (h : wav_header) :
  Forall is_byte cover -> complete_fmt_chunks cover ->
  parseWavHeader cover = Ret h ->
  (embedAudio cover payload).1 = Ret stego ->
  length stego = length cover /\
  (forall i, ~ (hdr_dataOffset h <= i < hdr_dataOffset h + hdr_dataLength h) ->
             at_index stego i = at_index cover i) /\
  parseWavHeader stego = Ret h.
Proof.
  intros Hcover Hcomplete Hparse Hembed.
  pose proof (parseWavHeader_Ret cover h Hcover Hparse) as (_ & _ & Hbits & _).
  assert (Hbps : 0 < bitsPerSample (hdr_fmt h) / 8) by (destruct Hbits as [-> | ->]; done).
  unfold embedAudio, processAudioSimple in Hembed. rewrite Hparse in Hembed.
  cbn [mbind outcome_bind] in Hembed. rewrite Hparse in Hembed.
  destruct (Z.le_gt_cases (bitsNeeded (buf_length payload))
              (hdr_dataLength h / (bitsPerSample (hdr_fmt h) / 8))) as [Hfits|Hfull].
  - rewrite embedLSB_WavPCM_ok in Hembed by done. cbn [fst] in Hembed.
    injection Hembed as <-.
    assert (Hframe : forall i,
               ~ (hdr_dataOffset h <= i < hdr_dataOffset h + hdr_dataLength h) ->
               at_index (write_bits (wav_offset (hdr_dataOffset h) (bitsPerSample (hdr_fmt h) / 8))
                                    (payload_bits payload) (cover, 0)).1 i
               = at_index cover i).
    { intros i Hi. by apply (write_bits_wav_frame cover payload _ (hdr_dataLength h)). }
    split; [apply write_bits_length|]. split; [exact Hframe|].
    apply (parseWavHeader_frame cover); try done. apply write_bits_length.
  - rewrite embedLSB_WavPCM_full in Hembed by lia. done.
Qed.

(** ** The audio branch of the older server *)

(** X3. The audio branch of the older server and that of the WAV-only
    server: on a cover that [parseWavHeader] accepts the older server does
    not convert and answers as the WAV-only server does; on any other cover
    it converts, and answers for the converted file as the WAV-only server
    would. *)
Theorem embedAudio_transcoding_agrees (transcodeToPcmWav : list Z -> outcome (list Z))
    (cover payload : list Z) :
  embedAudio_transcoding transcodeToPcmWav cover payload
  = match parseWavHeader cover with
    | Ret _ => (embedAudio cover payload).1
    | _ => wavBuf ← transcodeToPcmWav cover; (embedAudio wavBuf payload).1
    end.
Proof.
  assert (Hembed : forall wavBuf,
             (h ← parseWavHeader wavBuf;
              let '(r, wavBuf') :=
                embedLSB_WavPCM wavBuf payload (hdr_dataOffset h) (hdr_dataLength h)
                                (bitsPerSample (hdr_fmt h)) in
              match r with
              | EmbedError e => Throw e
              | EmbedOk _ => Ret wavBuf'
              end)
             = (embedAudio wavBuf payload).1).
  { intros wavBuf. unfold embedAudio, processAudioSimple.
    destruct (parseWavHeader wavBuf) as [h| |] eqn:Hparse; cbn [mbind outcome_bind]; [|done..].
    rewrite Hparse. destruct (embedLSB_WavPCM _ _ _ _ _) as [[?|?] ?]; done. }
  unfold embedAudio_transcoding.
  destruct (parseWavHeader cover) as [h|e|] eqn:Hparse.
  - assert (Hriff : is_riff_wave cover = true).
    { unfold parseWavHeader in Hparse. by destruct (is_riff_wave cover). }
    assert (Hpcm : (audioFormat (hdr_fmt h) =? 1)
                   && ((bitsPerSample (hdr_fmt h) =? 8) || (bitsPerSample (hdr_fmt h) =? 16))
                   = true).
    { unfold parseWavHeader in Hparse. rewrite Hriff in Hparse. cbn [negb] in Hparse.
      destruct (scan_chunks cover) as [st| |]; [|done..]. cbn [mbind outcome_bind] in Hparse.
      destruct (scan_fmt st) as [f|]; [|done].
      destruct (audioFormat f =? 1) eqn:Hf; [|done]. cbn [negb] in Hparse.
      destruct ((bitsPerSample f =? 8) || (bitsPerSample f =? 16)) eqn:Hb; [|done].
      cbn [negb] in Hparse. destruct ((scan_dataOffset st <? 0) || _); [done|].
      injection Hparse as <-.
      cbn. by rewrite Hf, Hb. }
    rewrite Hriff, Hpcm. cbn [negb orb mbind outcome_bind].
    rewrite <- Hembed. by rewrite Hparse.
  - destruct (is_riff_wave cover); cbn [negb orb];
      destruct (transcodeToPcmWav cover) as [wavBuf| |]; cbn [mbind outcome_bind];
      try done; apply Hembed.
  - destruct (is_riff_wave cover); cbn [negb orb];
      destruct (transcodeToPcmWav cover) as [wavBuf| |]; cbn [mbind outcome_bind];
      try done; apply Hembed.
Qed.

(** ** Extraction of an encrypted payload *)

(** X4. What [extractData] makes of a carrier that holds an encryption
    envelope: without a password it throws "Password required to decrypt
    payload."; with one it returns the plaintext when the tag verifies
    under the key derived from the password and the salt, and throws the
    error of [decipher.final()] when it does not.  The reader is asked for
    exactly the 53 + [encLen] bytes of the envelope. *)
Theorem extractData_envelope_outcome `{Crypto} (rd : reader)
    (salt iv tag enc password : list Z) :
  buf_length salt = 16 -> buf_length iv = 12 -> buf_length tag = 16 ->
  buf_length enc < 2 ^ 32 ->
  reads_stream rd (envelope salt iv tag enc) ->
  extractData rd password
  = if bool_decide (password = []) then Throw PasswordRequired
    else match gcm_decrypt (scryptSync password salt 32) iv tag enc with
         | Some dec => Ret dec
         | None => Throw AuthFailed
         end.
Proof.
  intros Hsalt Hiv Htag Henc Hrd.
  rewrite (extractData_envelope rd salt iv tag enc) by done.
  by apply decryptEnvelope_envelope.
Qed.

(** ** The 32-bit length fields *)

(** X5. [u32] and [readU32BE]: the four bytes of [u32 n] read back as [n]
    reduced modulo 2^32, so a length below 2^32 comes back as it is and
    a larger one is cut without an error. *)
Theorem u32_readU32BE (n : Z) :
  buf_length (u32 n) = 4 /\ Forall is_byte (u32 n) /\
  readU32BE (u32 n) = Ret (n mod 2 ^ 32) /\
  (0 <= n < 2 ^ 32 -> readU32BE (u32 n) = Ret n) /\
  u32 (n + 2 ^ 32) = u32 n.
Proof.
  split; [apply length_u32|]. split; [apply u32_bytes|]. split; [apply readU32BE_u32|].
  split; [apply readU32BE_u32_small|].
  unfold u32. replace ((n + 2 ^ 32) mod 2 ^ 32) with (n mod 2 ^ 32); [done|].
  rewrite <- (Z.mul_1_l (2 ^ 32)) at 2. by rewrite Z.mod_add.
Qed.

(** ** How far the embedding moves a sample *)

Lemma with_lsb_half (old bit : Z) :
  is_byte old -> is_bit bit -> with_lsb old bit / 2 = old / 2.
Proof.
  intros Hold Hbit.
  pose proof (with_lsb_replaced old bit Hbit) as (Hrange & _ & Hhigh).
  apply Z.bits_inj'. intros t Ht. rewrite !Z.div2_bits by lia.
  destruct (decide (Z.succ t < 8)) as [Hlt|Hge]; [apply Hhigh; lia|].
  unfold is_byte in *.
  assert (Hhi : forall x, 0 <= x < 256 -> Z.testbit x (Z.succ t) = false).
  { intros x Hx. destruct (decide (x = 0)) as [->|?]; [apply Z.bits_0|].
    apply Z.bits_above_log2; [lia|].
    assert (Z.log2 x < 8) by (apply Z.log2_lt_pow2; lia). lia. }
  by rewrite !Hhi.
Qed.

Lemma write_bits_halves (addr : Z -> Z) (bits buf : list Z) (i : Z) :
  Forall is_bit bits -> Forall is_byte buf ->
  Forall is_byte (write_bits addr bits (buf, i)).1 /\
  forall o old new,
    at_index buf o = Some old -> at_index (write_bits addr bits (buf, i)).1 o = Some new ->
    new / 2 = old / 2.
Proof.
  intros Hbits. revert buf i. induction Hbits as [|bit bits Hbit _ IH]; intros buf i Hbuf.
  - split; [done|]. cbn. intros o old new -> [= ->]. done.
  - unfold write_bits. cbn [fold_left]. unfold write_bit at 2. cbn [fst snd].
    change (fold_left (write_bit addr) bits ?s) with (write_bits addr bits s).
    set (v := Z.lor (Z.land (ToInt32 (at_index buf (addr i))) 254) bit).
    assert (Hstore : Forall is_byte (store buf (addr i) v)).
    { unfold store. destruct (addr i <? 0); [done|].
      apply Forall_insert; [done|]. unfold is_byte. lia. }
    destruct (IH (store buf (addr i) v) (i + 1) Hstore) as [Hres Hhalf].
    split; [exact Hres|].
    intros o old new Hold Hnew.
    destruct (decide (o = addr i)) as [->|Ho].
    + pose proof (at_index_store_same buf (addr i) v) as Hsame.
      rewrite Hold in Hsame. cbn [fmap option_fmap option_map] in Hsame.
      rewrite (Hhalf _ _ _ Hsame Hnew). subst v. rewrite Hold.
      pose proof (at_index_byte _ _ _ Hbuf Hold) as Hb.
      change (Z.lor (Z.land (ToInt32 (Some old)) 254) bit mod 256) with (with_lsb old bit).
      by apply with_lsb_half.
    + apply (Hhalf o old new); [|done]. by rewrite at_index_store_other.
Qed.

(** X6. The embedding moves no byte of a carrier by more than one: in the
    picture and in the WAV file alike, whatever the payload and whether or
    not it fits, every byte of the buffer after [embedLSB_RGBA] or
    [embedLSB_WavPCM] has the upper seven bits it had before. *)
Theorem embed_moves_bytes_by_one (payload : list Z) (o old new : Z) :
  (forall (rgbabuf : list Z) (width height : Z),
      Forall is_byte rgbabuf -> at_index rgbabuf o = Some old ->
      at_index (embedLSB_RGBA rgbabuf width height payload).2 o = Some new ->
      new / 2 = old / 2 /\ Z.abs (new - old) <= 1) /\
  (forall (buf : list Z) (dataOffset dataLength bitsPerSample : Z),
      Forall is_byte buf -> at_index buf o = Some old ->
      at_index (embedLSB_WavPCM buf payload dataOffset dataLength bitsPerSample).2 o = Some new ->
      new / 2 = old / 2 /\ Z.abs (new - old) <= 1).
Proof.
  assert (Hclose : forall a b : Z, a / 2 = b / 2 -> a / 2 = b / 2 /\ Z.abs (a - b) <= 1)
    by (intros a b Hab; split; [done|lia]).
  split.
  - intros rgbabuf width height Hbuf Hold Hnew. apply Hclose.
    unfold embedLSB_RGBA in Hnew.
    destruct (bitsNeeded (buf_length payload) >? width * height * 3); cbn [snd fst] in Hnew.
    + rewrite Hold in Hnew. by injection Hnew as <-.
    + rewrite embedLSB_RGBA_loop in Hnew.
      by apply (proj2 (write_bits_halves rgba_offset (payload_bits payload) rgbabuf 0
                         (payload_bits_01 payload) Hbuf) o).
  - intros buf dataOffset dataLength bits Hbuf Hold Hnew. apply Hclose.
    unfold embedLSB_WavPCM in Hnew.
    destruct (bitsNeeded (buf_length payload) >? dataLength / (bits / 8)); cbn [snd fst] in Hnew.
    + rewrite Hold in Hnew. by injection Hnew as <-.
    + rewrite embedLSB_WavPCM_loop in Hnew.
      by apply (proj2 (write_bits_halves (wav_offset dataOffset (bits / 8))
                         (payload_bits payload) buf 0 (payload_bits_01 payload) Hbuf) o).
Qed.

(** ** [safeFilename] *)

Lemma replace_unsafe_runs_safe (s : list Z) (in_run : bool) :
  Forall (fun c => is_safe_char c = true) (replace_unsafe_runs s in_run).
Proof.
  revert in_run. induction s as [|c s IH]; intros in_run; cbn [replace_unsafe_runs].
  - apply Forall_nil_2.
  - destruct (is_safe_char c) eqn:Hc; [by apply Forall_cons|].
    destruct in_run; [apply IH|]. by apply Forall_cons.
Qed.

Lemma replace_unsafe_runs_nil (s : list Z) :
  replace_unsafe_runs s false = [] -> s = [].
Proof. destruct s as [|c s]; [done|]. cbn. by destruct (is_safe_char c). Qed.

Lemma replace_unsafe_runs_id (s : list Z) (in_run : bool) :
  Forall (fun c => is_safe_char c = true) s -> replace_unsafe_runs s in_run = s.
Proof.
  intros Hs. revert in_run. induction Hs as [|c s Hc _ IH]; intros in_run; [done|].
  cbn [replace_unsafe_runs]. rewrite Hc. by rewrite IH.
Qed.

Lemma or_default_nil (s fallback : list Z) : or_default s fallback = [] -> s = [] /\ fallback = [].
Proof.
  unfold or_default. destruct (bool_decide (s = [])) eqn:Hs; [|intros ->; by apply bool_decide_eq_false_1 in Hs].
  apply bool_decide_eq_true_1 in Hs. by intros ->.
Qed.

Lemma safeFilename_kept (s fallback : list Z) :
  s <> [] -> (length s <= 100)%nat -> Forall (fun c => is_safe_char c = true) s ->
  safeFilename s fallback = s.
Proof.
  intros Hne Hlen Hsafe. unfold safeFilename.
  assert (Hs : or_default s fallback = s) by (unfold or_default; by rewrite bool_decide_eq_false_2).
  rewrite Hs, replace_unsafe_runs_id by done. rewrite take_ge by lia.
  unfold or_default. by rewrite bool_decide_eq_false_2.
Qed.

Lemma safeFilename_chars (s fallback : list Z) :
  Forall (fun c => is_safe_char c = true) (safeFilename s fallback) /\
  (length (safeFilename s fallback) <= 100)%nat /\
  (safeFilename s fallback = [] -> s = [] /\ fallback = []).
Proof.
  set (r := take 100 (replace_unsafe_runs (or_default s fallback) false)).
  assert (Hsafe : Forall (fun c => is_safe_char c = true) r)
    by apply Forall_take, replace_unsafe_runs_safe.
  assert (Hlen : (length r <= 100)%nat) by (subst r; rewrite length_take; lia).
  assert (Hnil : r = [] -> s = [] /\ fallback = []).
  { subst r. intros Hr. apply or_default_nil.
    destruct (replace_unsafe_runs (or_default s fallback) false) as [|c l] eqn:Hrep;
      [by apply replace_unsafe_runs_nil|done]. }
  assert (Hres : safeFilename s fallback = r).
  { unfold safeFilename. fold r. unfold or_default.
    destruct (bool_decide (r = [])) eqn:Hr; [|done].
    apply bool_decide_eq_true_1 in Hr. destruct (Hnil Hr) as [_ ->]. by rewrite Hr. }
  by rewrite Hres.
Qed.

(** X7. [safeFilename]: the name returned is made of ASCII letters,
    digits, underscores, dots and hyphens, has at most 100 characters, and
    is empty only when both the name and the fallback are.  A name that
    is not empty and already has the first two properties is returned as
    it is; a name made of fewer than 100 such characters followed by
    others comes back with one underscore in their place; and applying
    the function twice is applying it once. *)
Theorem safeFilename_sanitizes (s fallback : list Z) :
  Forall (fun c => is_safe_char c = true) (safeFilename s fallback) /\
  (length (safeFilename s fallback) <= 100)%nat /\
  (safeFilename s fallback = [] -> s = [] /\ fallback = []) /\
  (s <> [] -> (length s <= 100)%nat -> Forall (fun c => is_safe_char c = true) s ->
   safeFilename s fallback = s) /\
  (forall kept unsafe,
      s = kept ++ unsafe -> kept <> [] -> (length kept < 100)%nat ->
      Forall (fun c => is_safe_char c = true) kept ->
      unsafe <> [] -> Forall (fun c => is_safe_char c = false) unsafe ->
      safeFilename s fallback = kept ++ [95]) /\
  safeFilename (safeFilename s fallback) fallback = safeFilename s fallback.
Proof.
  destruct (safeFilename_chars s fallback) as (Hsafe & Hlen & Hnil).
  split; [done|]. split; [done|]. split; [done|].
  split; [intros; by apply safeFilename_kept|]. split.
  - intros kept unsafe -> Hkept Hklen Hksafe Hunsafe Hbad. unfold safeFilename.
    assert (Hs : or_default (kept ++ unsafe) fallback = kept ++ unsafe).
    { unfold or_default. rewrite bool_decide_eq_false_2; [done|]. by destruct kept. }
    rewrite Hs.
    assert (Hrun : forall l, Forall (fun c => is_safe_char c = false) l ->
                             replace_unsafe_runs l true = []).
    { induction 1 as [|c l Hc _ IH]; [done|]. cbn [replace_unsafe_runs]. by rewrite Hc. }
    assert (Hpre : forall l rest in_run,
               Forall (fun c => is_safe_char c = true) l ->
               replace_unsafe_runs (l ++ rest) in_run =
               l ++ replace_unsafe_runs rest (match l with [] => in_run | _ => false end)).
    { intros l rest in_run Hl. revert in_run.
      induction Hl as [|c l Hc Hl IH]; [done|]. intros in_run.
      cbn [app replace_unsafe_runs]. rewrite Hc, IH. by destruct l. }
    assert (Hrep : replace_unsafe_runs (kept ++ unsafe) false = kept ++ [95]).
    { rewrite Hpre by done. f_equal. destruct kept; [done|].
      destruct Hbad as [|u unsafe Hu Hrest]; [done|].
      cbn [replace_unsafe_runs]. rewrite Hu. by rewrite Hrun. }
    rewrite Hrep. rewrite take_ge by (rewrite length_app; cbn [length]; lia).
    unfold or_default. rewrite bool_decide_eq_false_2; [done|]. by destruct kept.
  - destruct (decide (safeFilename s fallback = [])) as [Hr|Hr].
    + destruct (Hnil Hr) as [_ ->]. by rewrite Hr.
    + by apply safeFilename_kept.
Qed.

(** ** The download name of a stego WAV file *)

Lemma strip_extension_match (ext : list Z) :
  ext <> [] -> Forall (fun d => d <> 46) ext -> strip_extension (46 :: ext) = [].
Proof.
  intros Hne Hext. cbn [strip_extension]. rewrite bool_decide_eq_false_2 by done.
  replace (forallb (fun d => negb (d =? 46)) ext) with true; [done|].
  symmetry. apply forallb_forall. intros d Hd. rewrite Forall_forall in Hext.
  specialize (Hext d (proj2 (list_elem_of_In _ _) Hd)). by destruct (Z.eqb_spec d 46).
Qed.

Lemma strip_extension_app (stem ext : list Z) :
  ext <> [] -> Forall (fun d => d <> 46) ext -> strip_extension (stem ++ 46 :: ext) = stem.
Proof.
  intros Hne Hext. induction stem as [|c stem IH].
  - by apply strip_extension_match.
  - cbn [app strip_extension]. rewrite IH.
    replace (forallb (fun d => negb (d =? 46)) (stem ++ 46 :: ext)) with false;
      [by rewrite andb_false_r|].
    symmetry. apply not_true_is_false. intros Hall. rewrite forallb_forall in Hall.
    specialize (Hall 46). rewrite in_app_iff in Hall. cbn in Hall.
    by specialize (Hall (or_intror (or_introl eq_refl))).
Qed.

(** X8. [replace(/\.[^.]+$/, "")] on the name of the cover removes the last
    extension and nothing else: a name [stem.ext] whose [ext] is not empty
    and has no dot becomes [stem]; a name that ends in a dot or has no dot
    is unchanged; in every case the result is the name or the part of it
    before its last dot. *)
Theorem strip_extension_spec (s : list Z) :
  (forall stem ext, s = stem ++ 46 :: ext -> ext <> [] -> Forall (fun d => d <> 46) ext ->
                    strip_extension s = stem) /\
  ((forall stem ext, s = stem ++ 46 :: ext -> ext = [] \/ 46 ∈ ext) -> strip_extension s = s) /\
  (strip_extension s = s \/
   exists ext, s = strip_extension s ++ 46 :: ext /\ ext <> [] /\ Forall (fun d => d <> 46) ext).
Proof.
  split; [|split].
  - intros stem ext -> Hne Hext. by apply strip_extension_app.
  - induction s as [|c s IH]; intros Hno; [done|]. cbn [strip_extension].
    destruct ((c =? 46) && negb (bool_decide (s = []))
              && forallb (fun d => negb (d =? 46)) s) eqn:Hm.
    + apply andb_prop in Hm as [Hm Hall]. apply andb_prop in Hm as [Hc Hs].
      apply Z.eqb_eq in Hc. subst c.
      destruct (Hno [] s eq_refl) as [->|Hdot]; [by rewrite bool_decide_eq_true_2 in Hs|].
      rewrite forallb_forall in Hall. apply list_elem_of_In, Hall in Hdot. done.
    + f_equal. apply IH. intros stem ext ->. apply (Hno (c :: stem) ext eq_refl).
  - induction s as [|c s IH]; [by left|]. cbn [strip_extension].
    destruct ((c =? 46) && negb (bool_decide (s = []))
              && forallb (fun d => negb (d =? 46)) s) eqn:Hm.
    + right. apply andb_prop in Hm as [Hm Hall]. apply andb_prop in Hm as [Hc Hs].
      apply Z.eqb_eq in Hc. subst c. exists s. split; [done|]. split.
      * intros ->. by rewrite bool_decide_eq_true_2 in Hs.
      * apply Forall_forall. intros d Hd. rewrite forallb_forall in Hall.
        apply list_elem_of_In, Hall in Hd. by destruct (Z.eqb_spec d 46).
    + destruct IH as [IH|(ext & IH & Hne & Hext)]; [left; by rewrite IH|].
      right. exists ext. split; [|done]. cbn [app]. by rewrite <- IH.
Qed.

(** X9. The [Content-Disposition] header of a stego WAV file sent by the
    WAV-only server: the file name between the two quotes is a base name
    followed by [_stego.wav], and the base name is not empty, has at most
    100 characters and holds only ASCII letters, digits, underscores, dots
    and hyphens, whatever the name of the uploaded cover; a cover named
    [stem.ext] with such a [stem] gives the base name [stem].  The older
    server puts the [stem] of a cover named [stem.ext] between the quotes
    as it is, whatever its characters. *)
Theorem stego_wav_disposition_safe (originalname : list Z) :
  (exists baseName,
      stego_wav_disposition originalname
      = str "attachment; filename=" ++ [34] ++ baseName ++ str "_stego.wav" ++ [34] /\
      baseName <> [] /\ (length baseName <= 100)%nat /\
      Forall (fun c => is_safe_char c = true) baseName) /\
  (forall stem ext,
      originalname = stem ++ 46 :: ext -> ext <> [] -> Forall (fun d => d <> 46) ext ->
      stem <> [] -> (length stem <= 100)%nat -> Forall (fun c => is_safe_char c = true) stem ->
      stego_wav_disposition originalname
      = str "attachment; filename=" ++ [34] ++ stem ++ str "_stego.wav" ++ [34]) /\
  (forall stem ext,
      originalname = stem ++ 46 :: ext -> ext <> [] -> Forall (fun d => d <> 46) ext ->
      stego_wav_disposition_esm originalname
      = str "attachment; filename=" ++ [34] ++ stem ++ str "_stego.wav" ++ [34]).
Proof.
  assert (Hname : forall stem ext,
             or_default (stem ++ 46 :: ext) (str "audio") = stem ++ 46 :: ext).
  { intros stem ext. unfold or_default. rewrite bool_decide_eq_false_2; [done|].
    by destruct stem. }
  split; [|split].
  - eexists. split; [reflexivity|].
    destruct (safeFilename_chars (strip_extension (or_default originalname (str "audio")))
                (str "file")) as (Hsafe & Hlen & Hnil).
    split; [|done]. intros Hempty. by destruct (Hnil Hempty).
  - intros stem ext -> Hne Hext Hstem Hlen Hsafe. unfold stego_wav_disposition.
    rewrite Hname, strip_extension_app by done. by rewrite safeFilename_kept.
  - intros stem ext -> Hne Hext. unfold stego_wav_disposition_esm.
    by rewrite Hname, strip_extension_app.
Qed.

(** ** The upload filter and the dispatch of the handlers *)

Lemma startsWith_app (p rest : list Z) : startsWith (p ++ rest) p = true.
Proof. unfold startsWith. apply bool_decide_eq_true_2. by rewrite take_app_length. Qed.

Lemma startsWith_spec (s p : list Z) : startsWith s p = true <-> exists rest, s = p ++ rest.
Proof.
  split.
  - unfold startsWith. intros H. apply bool_decide_eq_true_1 in H.
    exists (drop (length p) s). rewrite <- H at 1. by rewrite take_drop.
  - intros [rest ->]. apply startsWith_app.
Qed.

(** X10. The upload filter and the handlers' dispatch on the file type.
    In the WAV-only server every file the filter lets through is taken by
    the image or by the audio branch of a handler, so that the final
    "Unsupported ... file type" answer is never given to it; the filter is
    narrower than the dispatch (an [audio/] type other than the three WAV
    types is refused).  In the older server the filter lets through
    exactly the types the handlers dispatch. *)
Theorem fileFilter_dispatch (mimetype : list Z) :
  (fileFilter mimetype = true -> branch_of mimetype <> NoBranch) /\
  (fileFilter mimetype = true -> fileFilter_esm mimetype = true) /\
  (fileFilter_esm mimetype = true <-> branch_of mimetype <> NoBranch) /\
  (branch_of mimetype = AudioBranch ->
   fileFilter mimetype = true ->
   mimetype = str "audio/wav" \/ mimetype = str "audio/x-wav" \/ mimetype = str "audio/wave").
Proof.
  assert (Hesm : fileFilter_esm mimetype = true <-> branch_of mimetype <> NoBranch).
  { unfold fileFilter_esm, branch_of.
    destruct (startsWith mimetype (str "image/")); [done|].
    by destruct (startsWith mimetype (str "audio/")). }
  assert (Hnarrow : fileFilter mimetype = true -> fileFilter_esm mimetype = true).
  { unfold fileFilter, fileFilter_esm, str_eqb.
    destruct (startsWith mimetype (str "image/")); [done|]. cbn [orb].
    intros H. apply orb_prop in H as [H|H]; [apply orb_prop in H as [H|H]|];
      apply bool_decide_eq_true_1 in H; subst mimetype; reflexivity. }
  split; [intros H; by apply Hesm, Hnarrow|]. split; [done|]. split; [done|].
  unfold branch_of, fileFilter, str_eqb.
  destruct (startsWith mimetype (str "image/")); [done|]. cbn [orb]. intros _ H.
  apply orb_prop in H as [H|H]; [apply orb_prop in H as [H|H]|];
    apply bool_decide_eq_true_1 in H; auto.
Qed.

(** ** [parseContainer] after [packPayload], for the files the filter lets through *)

Lemma fileFilter_mimetype (mimetype : list Z) :
  fileFilter mimetype = true -> mimetype <> [] /\ mimetype <> str "text/plain".
Proof.
  unfold fileFilter, str_eqb. intros H.
  apply orb_prop in H as [H|H]; [apply orb_prop in H as [H|H]; [apply orb_prop in H as [H|H]|]|].
  - apply startsWith_spec in H as [rest ->]. by split.
  - apply bool_decide_eq_true_1 in H. by subst.
  - apply bool_decide_eq_true_1 in H. by subst.
  - apply bool_decide_eq_true_1 in H. by subst.
Qed.

(** X11. Packing and parsing the container.  For valid secrets with at
    least one item and a container below 2^32 bytes, [parseContainer]
    returns, for what [packPayload] has built, the text as typed (when it
    is not only white space) and then the file.  A file that the upload
    filter lets through comes back as a file, with its own type and the
    base64 of its bytes: its type is then never empty and never
    [text/plain], the two cases in which the server changes it. *)
Theorem parseContainer_packPayload (secretText : list Z) (secretFile : option upload) :
  secrets_ok secretText secretFile ->
  packPayload_items secretText secretFile <> [] ->
  buf_length (container_of (packPayload_items secretText secretFile)) < 2 ^ 32 ->
  (exists containerBuf,
      packPayload secretText secretFile = Ret containerBuf /\
      parseContainer containerBuf = Ret (extracted_items secretText secretFile)) /\
  (forall f,
      secretFile = Some f -> fileFilter (mimetype f) = true ->
      exists text,
        extracted_items secretText secretFile
        = text ++ [OutFile (Some (JStr (or_default (originalname f) (str "secret"))))
                           (Some (JStr (mimetype f))) (base64_encode (buffer f))] /\
        extracted_items secretText None = text).
Proof.
  intros Hsecrets Hitems Hlen. split.
  - destruct (packPayload_items_ok secretText secretFile Hsecrets Hlen) as [Hok Hfits].
    exists (container_of (packPayload_items secretText secretFile)). split.
    + unfold packPayload. by rewrite bool_decide_eq_false_2.
    + rewrite <- (out_of_packed_items secretText secretFile) by apply Hsecrets.
      apply parseContainer_container_of; [done|done|lia].
  - intros f -> Hfilter. destruct (fileFilter_mimetype _ Hfilter) as [Hne Hplain].
    unfold extracted_items. eexists. split; [|by rewrite app_nil_r].
    f_equal. cbv zeta.
    assert (Hmime : or_default (mimetype f) (str "application/octet-stream") = mimetype f).
    { unfold or_default. by rewrite bool_decide_eq_false_2. }
    rewrite Hmime. unfold str_eqb. by rewrite bool_decide_eq_false_2.
Qed.

(** ** The final error handler *)




Lemma strip_prefix_i_app (pattern rest : list Z) :
  strip_prefix_i pattern (pattern ++ rest) = Some rest.
Proof.
  induction pattern as [|p pattern IH]; [done|]. cbn [app strip_prefix_i].
  by rewrite Z.eqb_refl.
Qed.



(** ** The list of allowed origins *)

Lemma trim_start_head (s : list Z) :
  match trim_start s with
  | [] => True
  | c :: _ => is_js_whitespace c = false
  end.
Proof.
  induction s as [|c s IH]; [done|]. cbn [trim_start].
  destruct (is_js_whitespace c) eqn:Hc; [done|]. by rewrite Hc.
Qed.

Lemma trim_start_id (s : list Z) :
  match s with [] => True | c :: _ => is_js_whitespace c = false end -> trim_start s = s.
Proof. destruct s as [|c s]; [done|]. cbn [trim_start]. by intros ->. Qed.

(** What [trim_start] leaves of a string that ends with [c], which is not
    white space, still ends with [c]. *)
Lemma trim_start_snoc (s : list Z) (c : Z) :
  is_js_whitespace c = false -> exists p, trim_start (s ++ [c]) = p ++ [c].
Proof.
  intros Hc. induction s as [|d s IH]; cbn [app trim_start].
  - rewrite Hc. by exists [].
  - destruct (is_js_whitespace d); [done|]. by exists (d :: s).
Qed.

Lemma trim_idempotent (s : list Z) : trim (trim s) = trim s.
Proof.
  unfold trim. pose proof (trim_start_head (rev (trim_start s))) as Hlast.
  destruct (trim_start (rev (trim_start s))) as [|c t] eqn:Ht; [done|].
  (* [c] is the last character of the result; the first one is that of [trim_start s] *)
  pose proof (trim_start_suffix (rev (trim_start s))) as (p & Hp & _). rewrite Ht in Hp.
  assert (Hs : trim_start s = rev t ++ c :: rev p).
  { rewrite <- (rev_involutive (trim_start s)), Hp, rev_app_distr. cbn [rev].
    by rewrite <- app_assoc. }
  assert (Hfirst : trim_start (rev (c :: t)) = rev (c :: t)).
  { apply trim_start_id. cbn [rev]. pose proof (trim_start_head s) as Hh. rewrite Hs in Hh.
    destruct (rev t) as [|d u]; cbn [app] in *; done. }
  rewrite Hfirst, rev_involutive. rewrite (trim_start_id (c :: t)) by done. done.
Qed.

Lemma split_on_comma_free (sep : Z) (s piece : list Z) :
  piece ∈ split_on sep s -> sep ∉ piece.
Proof.
  revert piece. induction s as [|c s IH]; intros piece; cbn [split_on].
  - intros Hp. apply list_elem_of_singleton in Hp. subst. apply not_elem_of_nil.
  - destruct (Z.eqb_spec c sep) as [->|Hc].
    + intros Hp. apply elem_of_cons in Hp as [->|Hp]; [apply not_elem_of_nil|by apply IH].
    + destruct (split_on sep s) as [|first pieces] eqn:Hsplit.
      * intros Hp. apply list_elem_of_singleton in Hp. subst.
        intros Hin. apply list_elem_of_singleton in Hin. done.
      * intros Hp. apply elem_of_cons in Hp as [->|Hp].
        -- intros Hin. apply elem_of_cons in Hin as [->|Hin]; [done|].
           apply (IH first); [apply list_elem_of_here|done].
        -- apply IH. by apply list_elem_of_further.
Qed.

Lemma trim_sublist (s : list Z) (c : Z) : c ∈ trim s -> c ∈ s.
Proof.
  unfold trim. intros Hc. apply list_elem_of_In, in_rev, list_elem_of_In in Hc.
  pose proof (trim_start_suffix (rev (trim_start s))) as (p & Hp & _).
  assert (H1 : c ∈ rev (trim_start s)) by (rewrite Hp; apply elem_of_app; by right).
  apply list_elem_of_In, in_rev, list_elem_of_In in H1.
  pose proof (trim_start_suffix s) as (q & Hq & _). rewrite Hq. apply elem_of_app. by right.
Qed.

Lemma split_on_pieces (sep : Z) (s : list Z) :
  match split_on sep s with
  | [] => False
  | first :: pieces =>
      (exists after, s = first ++ after /\ (after = [] \/ exists a, after = sep :: a)) /\
      forall piece,
        piece ∈ pieces ->
        exists b after,
          s = (b ++ [sep]) ++ piece ++ after /\ (after = [] \/ exists a, after = sep :: a)
  end.
Proof.
  induction s as [|c s IH]; cbn [split_on].
  - split; [exists []; by split; [|left]|]. intros piece Hp. by apply elem_of_nil in Hp.
  - destruct (split_on sep s) as [|first pieces]; [done|]. destruct IH as [Hfirst Hrest].
    destruct (Z.eqb_spec c sep) as [->|Hc].
    + split; [exists (sep :: s); split; [done|right; by exists s]|].
      intros piece Hp. apply elem_of_cons in Hp as [->|Hp].
      * destruct Hfirst as (after & -> & Hafter). by exists [], after.
      * destruct (Hrest piece Hp) as (b & after & -> & Hafter). by exists (sep :: b), after.
    + split.
      * destruct Hfirst as (after & -> & Hafter). by exists after.
      * intros piece Hp. destruct (Hrest piece Hp) as (b & after & -> & Hafter).
        by exists (c :: b), after.
Qed.

Lemma split_on_free (sep : Z) (s : list Z) : sep ∉ s -> split_on sep s = [s].
Proof.
  induction s as [|c s IH]; [done|]. intros Hs. apply not_elem_of_cons in Hs as [Hc Hs].
  cbn [split_on]. destruct (Z.eqb_spec c sep) as [|_]; [done|]. by rewrite IH.
Qed.

Lemma split_on_app (sep : Z) (x y : list Z) :
  split_on sep (x ++ sep :: y) = split_on sep x ++ split_on sep y.
Proof.
  induction x as [|c x IH]; cbn [app split_on].
  - by rewrite Z.eqb_refl.
  - rewrite IH. destruct (Z.eqb_spec c sep); [done|].
    pose proof (split_on_pieces sep x) as Hne. by destruct (split_on sep x).
Qed.

(** A piece of the string: what lies between two separators, or between
    an end of the string and a separator. *)
Lemma split_on_spec (sep : Z) (s piece : list Z) :
  piece ∈ split_on sep s <->
  (sep ∉ piece) /\
  exists before after,
    s = before ++ piece ++ after /\
    (before = [] \/ exists b, before = b ++ [sep]) /\
    (after = [] \/ exists a, after = sep :: a).
Proof.
  split.
  - intros Hp. split; [by apply (split_on_comma_free sep s)|].
    pose proof (split_on_pieces sep s) as Hs.
    destruct (split_on sep s) as [|first pieces]; [done|]. destruct Hs as [Hfirst Hrest].
    apply elem_of_cons in Hp as [->|Hp].
    + destruct Hfirst as (after & -> & Hafter). exists [], after. split; [done|]. by split; [left|].
    + destruct (Hrest piece Hp) as (b & after & -> & Hafter). exists (b ++ [sep]), after.
      split; [done|]. split; [right; by exists b|done].
  - intros (Hfree & before & after & -> & Hbefore & Hafter).
    assert (Htail : piece ∈ split_on sep (piece ++ after)).
    { destruct Hafter as [->|[a ->]].
      - rewrite app_nil_r, split_on_free by done. apply list_elem_of_here.
      - rewrite split_on_app, split_on_free by done. apply list_elem_of_here. }
    destruct Hbefore as [->|[b ->]]; [done|].
    rewrite <- app_assoc. cbn [app]. rewrite split_on_app. apply elem_of_app. by right.
Qed.

Lemma trim_start_skip (l s : list Z) : all_whitespace l -> trim_start (l ++ s) = trim_start s.
Proof. induction 1 as [|c l Hc _ IH]; [done|]. cbn [app trim_start]. by rewrite Hc. Qed.

(** [trim] takes white space off the two ends, up to a character that is
    not white space. *)
Lemma trim_around (s : list Z) :
  exists l r, s = l ++ trim s ++ r /\ all_whitespace l /\ all_whitespace r.
Proof.
  destruct (trim_start_suffix s) as (p & Hp & Hpws).
  destruct (trim_start_suffix (rev (trim_start s))) as (q & Hq & Hqws).
  exists p, (rev q). split; [|split; [done|by apply Forall_rev]].
  rewrite Hp at 1. f_equal. unfold trim.
  rewrite <- (rev_involutive (trim_start s)) at 1. rewrite Hq at 1. by rewrite rev_app_distr.
Qed.

Lemma trim_ends (s : list Z) :
  (forall c rest, trim s = c :: rest -> is_js_whitespace c = false) /\
  (forall init c, trim s = init ++ [c] -> is_js_whitespace c = false).
Proof.
  split.
  - intros c rest Hs. destruct (trim_start_suffix (rev (trim_start s))) as (q & Hq & _).
    assert (Hstart : trim_start s = trim s ++ rev q).
    { unfold trim. rewrite <- (rev_involutive (trim_start s)) at 1. rewrite Hq at 1.
      by rewrite rev_app_distr. }
    pose proof (trim_start_head s) as Hh. rewrite Hstart, Hs in Hh. exact Hh.
  - intros init c Hs. unfold trim in Hs.
    pose proof (trim_start_head (rev (trim_start s))) as Hh.
    apply (f_equal (@rev Z)) in Hs. rewrite rev_involutive, rev_app_distr in Hs.
    cbn [rev app] in Hs. by rewrite Hs in Hh.
Qed.

Lemma trim_of_padded (l o r : list Z) :
  all_whitespace l -> all_whitespace r ->
  (forall c rest, o = c :: rest -> is_js_whitespace c = false) ->
  (forall init c, o = init ++ [c] -> is_js_whitespace c = false) ->
  trim (l ++ o ++ r) = o.
Proof.
  intros Hl Hr Hfirst Hlast. unfold trim. rewrite trim_start_skip by done.
  destruct o as [|c o].
  - cbn [app]. rewrite (trim_start_whitespace r Hr). done.
  - rewrite (trim_start_id ((c :: o) ++ r)) by (cbn [app]; by eapply Hfirst).
    rewrite rev_app_distr, trim_start_skip by by apply Forall_rev.
    destruct (exists_last (l := c :: o) ltac:(done)) as (init & d & Ho).
    rewrite Ho, rev_app_distr. cbn [rev app].
    rewrite trim_start_id by by eapply Hlast.
    change (d :: rev init) with (rev [d] ++ rev init). by rewrite <- rev_app_distr, rev_involutive.
Qed.

(** X13. The list of allowed origins read from the environment.  An
    origin is in the list exactly when it is not empty, holds no comma,
    neither starts nor ends with white space, and the variable holds it,
    with or without white space around it, between two commas, between an
    end of the variable and a comma, or alone.  With neither variable set
    the list is the two origins of the default. *)
Theorem ALLOWED_ORIGINS_entries (origins_env origin : list Z) :
  (origin ∈ ALLOWED_ORIGINS origins_env <->
   origin <> [] /\ (44 ∉ origin) /\
   (forall c rest, origin = c :: rest -> is_js_whitespace c = false) /\
   (forall init c, origin = init ++ [c] -> is_js_whitespace c = false) /\
   exists before l r after,
     origins_env = before ++ l ++ origin ++ r ++ after /\
     (before = [] \/ exists b, before = b ++ [44]) /\
     (after = [] \/ exists a, after = 44 :: a) /\
     all_whitespace l /\ all_whitespace r) /\
  ALLOWED_ORIGINS (ORIGINS_ENV [] [])
  = [str "http://localhost:5173"; str "https://stegnography-seven.vercel.app"].
Proof.
  split; [|reflexivity]. unfold ALLOWED_ORIGINS. split.
  - intros Hin. apply list_elem_of_filter in Hin as [Hne Hin].
    apply list_elem_of_fmap in Hin as (piece & -> & Hpiece).
    apply split_on_spec in Hpiece as (Hfree & before & after & -> & Hbefore & Hafter).
    split; [done|]. split; [intros Hc; by apply trim_sublist in Hc|].
    destruct (trim_ends piece) as [Hfirst Hlast]. split; [done|]. split; [done|].
    destruct (trim_around piece) as (l & r & Hpiece & Hl & Hr).
    exists before, l, r, after. split; [|done].
    rewrite Hpiece at 1. by rewrite <- !app_assoc.
  - intros (Hne & Hfree & Hfirst & Hlast & before & l & r & after & -> & Hbefore & Hafter
            & Hl & Hr).
    apply list_elem_of_filter. split; [done|]. apply list_elem_of_fmap.
    exists (l ++ origin ++ r). split; [symmetry; by apply trim_of_padded|].
    apply split_on_spec. split.
    + assert (Hws : forall w, all_whitespace w -> 44 ∉ w).
      { intros w Hw Hin. unfold all_whitespace in Hw. rewrite Forall_forall in Hw. by specialize (Hw 44 Hin). }
      intros Hin. apply elem_of_app in Hin as [Hin|Hin]; [by apply (Hws l)|].
      apply elem_of_app in Hin as [Hin|Hin]; [done|by apply (Hws r)].
    + exists before, after. split; [by rewrite <- !app_assoc|done].
Qed.

(** ** The failures of the embed handler *)

Lemma packPayload_blank (secretText : list Z) :
  all_whitespace secretText -> packPayload secretText None = Throw NoSecretData.
Proof.
  intros Hws. unfold packPayload. rewrite (packPayload_items_whitespace _ None Hws). done.
Qed.

Lemma handleEmbed_response_packed `{Crypto} `{Sharp} (cover : upload)
    (secretFile : option upload) (secretText password : list Z) (g : entropy) :
  packPayload_items secretText secretFile <> [] ->
  startsWith (mimetype cover) (str "image/") = false ->
  startsWith (mimetype cover) (str "audio/") = true ->
  handleEmbed_response (Some cover) secretFile secretText password g
  = let payload :=
      (encryptIfNeeded (container_of (packPayload_items secretText secretFile)) password g).1 in
    match processAudioSimple (buffer cover) with
    | Throw e => Ret (JsonError 400 (error_message e))
    | Unmodelled => Unmodelled
    | Ret wavBuf =>
        h ← parseWavHeader wavBuf;
        let '(r, wavBuf') :=
          embedLSB_WavPCM wavBuf payload (hdr_dataOffset h) (hdr_dataLength h)
                          (bitsPerSample (hdr_fmt h)) in
        match r with
        | EmbedError e => Ret (JsonError 400 (error_message e))
        | EmbedOk _ =>
            Ret (SendFile (str "audio/wav") (stego_wav_disposition (originalname cover)) wavBuf')
        end
    end.
Proof.
  intros Hitems Himage Haudio. unfold handleEmbed_response.
  assert (Hguard : bool_decide (secretText = []) && bool_decide (secretFile = None) = false).
  { destruct (bool_decide (secretText = [])) eqn:Ht; [|done].
    destruct (bool_decide (secretFile = None)) eqn:Hf; [|done].
    apply bool_decide_eq_true_1 in Ht, Hf. by subst. }
  rewrite Hguard. unfold packPayload. rewrite bool_decide_eq_false_2 by done.
  cbn [mbind outcome_bind]. rewrite Himage, Haudio.
  by destruct (encryptIfNeeded _ password g).
Qed.

(** X14. Which failures the embed handler of the WAV-only server answers
    itself, with status 400, and which it passes on.  With a cover: no
    text and no file is answered 400 "At least one secret is required (text
    or file)", while a text of white space only, without a file, passes
    that test, makes [packPayload] throw, and is answered by the last
    error handler, with status 500 and "No secret data provided".  With an
    audio cover and something to embed, a cover that [parseWavHeader]
    rejects is answered 400 with the parser's message, and a payload
    larger than the capacity is answered 400 with the sizes in KB. *)
Theorem handleEmbed_response_failures `{Crypto} `{Sharp} (cover : upload)
    (secretFile : option upload) (secretText password : list Z) (g : entropy) :
  handleEmbed_response (Some cover) None [] password g
  = Ret (JsonError 400 (Some (str "At least one secret is required (text or file)"))) /\
  (secretText <> [] -> all_whitespace secretText ->
   handleEmbed_response (Some cover) None secretText password g = Throw NoSecretData /\
   error_message NoSecretData = Some (str "No secret data provided") /\
   errorHandler (str "No secret data provided") = (500, str "No secret data provided")) /\
  (packPayload_items secretText secretFile <> [] ->
   branch_of (mimetype cover) = AudioBranch ->
   (forall e,
       parseWavHeader (buffer cover) = Throw e ->
       handleEmbed_response (Some cover) secretFile secretText password g
       = Ret (JsonError 400 (error_message e))) /\
   (forall h,
       parseWavHeader (buffer cover) = Ret h ->
       let payload :=
         (encryptIfNeeded (container_of (packPayload_items secretText secretFile))
                          password g).1 in
       let numSamples := hdr_dataLength h / (bitsPerSample (hdr_fmt h) / 8) in
       numSamples < bitsNeeded (buf_length payload) ->
       handleEmbed_response (Some cover) secretFile secretText password g
       = Ret (JsonError 400
                (Some (str "Not enough WAV capacity. Need "
                       ++ Number_toString (ceilKB (bitsNeeded (buf_length payload)))
                       ++ str "KB, have ~" ++ Number_toString (ceilKB numSamples)
                       ++ str "KB (1 bit/sample)."))))).
Proof.
  split; [|split].
  - unfold handleEmbed_response. by rewrite !bool_decide_eq_true_2.
  - intros Hne Hws. split; [|split; [done|vm_compute; reflexivity]].
    unfold handleEmbed_response. rewrite (bool_decide_eq_false_2 (secretText = [])) by done.
    cbn [andb]. by rewrite packPayload_blank.
  - intros Hitems Hbranch.
    assert (Himage : startsWith (mimetype cover) (str "image/") = false).
    { unfold branch_of in Hbranch. by destruct (startsWith (mimetype cover) (str "image/")). }
    assert (Haudio : startsWith (mimetype cover) (str "audio/") = true).
    { unfold branch_of in Hbranch. rewrite Himage in Hbranch.
      by destruct (startsWith (mimetype cover) (str "audio/")). }
    split.
    + intros e Hparse. rewrite handleEmbed_response_packed by done. cbv zeta.
      unfold processAudioSimple. by rewrite Hparse.
    + intros h Hparse payload numSamples Hfull.
      rewrite handleEmbed_response_packed by done. cbv zeta.
      unfold processAudioSimple. rewrite Hparse. cbn [mbind outcome_bind]. rewrite Hparse.
      cbn [mbind outcome_bind]. fold payload.
      by rewrite embedLSB_WavPCM_full by done.
Qed.

(** ** Extraction from a carrier without a payload *)

Section no_payload.
Context `{Crypto}.
Variables (rd : reader) (buf : list Z) (addr : Z -> Z) (cap : Z) (err : error).
Hypothesis rd_loop :
  forall n i, 0 <= n <= 48 -> rd n i = read_loop buf addr cap err (Z.to_nat n) i.

Lemma extractData_short (password : list Z) :
  cap < 48 -> extractData rd password = Throw err.
Proof using rd_loop.
  intros Hcap. unfold extractData. rewrite (rd_loop 5 0) by lia.
  destruct (Z.lt_ge_cases cap 40) as [Hlt|Hge].
  - rewrite read_loop_fail by lia. done.
  - rewrite read_loop_ok by lia. cbn [mbind outcome_bind].
    destruct (bool_decide (carrier_bytes buf addr 0 (Z.to_nat 5) = str "ENCv1")).
    + rewrite (rd_loop 48) by lia.
      rewrite read_loop_fail by lia. done.
    + rewrite (rd_loop 1) by lia.
      rewrite read_loop_fail by lia. done.
Qed.

Lemma extractData_no_magic (password : list Z) :
  48 <= cap ->
  carrier_bytes buf addr 0 5 <> str "ENCv1" ->
  carrier_bytes buf addr 0 6 <> str "STEGv1" ->
  extractData rd password = Throw NoValidPayload.
Proof using rd_loop.
  intros Hcap Henc Hmagic. unfold extractData. rewrite (rd_loop 5 0) by lia.
  rewrite read_loop_ok by lia. cbn [mbind outcome_bind].
  change (Z.to_nat 5) with 5%nat. rewrite bool_decide_eq_false_2 by done.
  rewrite (rd_loop 1) by lia.
  rewrite read_loop_ok by lia. cbn [mbind outcome_bind].
  change (Z.to_nat 1) with 1%nat.
  rewrite <- (carrier_bytes_app buf addr 0 5 1). change (5 + 1)%nat with 6%nat.
  unfold MAGIC. by rewrite bool_decide_eq_false_2.
Qed.
End no_payload.

(** X15. Extraction from a carrier that holds no payload.  A carrier of
    fewer than 48 bits (16 pixels, or 48 samples) is answered with the
    out-of-capacity error of its reader, whatever it holds; a larger one
    whose first five bytes are not [ENCv1] and whose first six bytes are
    not [STEGv1] is answered "No valid payload found in the file.". *)
Theorem handleExtract_no_payload `{Crypto} `{Platform} (password : list Z) :
  (forall (data : list Z) (width height : Z),
      (width * height * 3 < 48 ->
       handleExtract (ImageCarrier data width height) password = Throw OutOfCapacity) /\
      (48 <= width * height * 3 ->
       carrier_bytes data rgba_offset 0 5 <> str "ENCv1" ->
       carrier_bytes data rgba_offset 0 6 <> str "STEGv1" ->
       handleExtract (ImageCarrier data width height) password = Throw NoValidPayload)) /\
  (forall (wav : list Z) (h : wav_header),
      parseWavHeader wav = Ret h ->
      let bytesPerSample := bitsPerSample (hdr_fmt h) / 8 in
      let numSamples := hdr_dataLength h / bytesPerSample in
      (numSamples < 48 -> handleExtract (AudioCarrier wav) password = Throw OutOfAudioCapacity) /\
      (48 <= numSamples ->
       carrier_bytes wav (wav_offset (hdr_dataOffset h) bytesPerSample) 0 5 <> str "ENCv1" ->
       carrier_bytes wav (wav_offset (hdr_dataOffset h) bytesPerSample) 0 6 <> str "STEGv1" ->
       handleExtract (AudioCarrier wav) password = Throw NoValidPayload)).
Proof.
  split.
  - intros data width height.
    assert (Hrd : forall n i,
               0 <= n <= 48 ->
               imageReader data width height n i
               = read_loop data rgba_offset (width * height * 3) OutOfCapacity (Z.to_nat n) i).
    { intros n i Hn. unfold imageReader. rewrite Buffer_alloc_fails_small by done.
      by rewrite image_read_loop_eq. }
    split.
    + intros Hcap. cbn [handleExtract].
      by rewrite (extractData_short _ _ _ _ _ Hrd password Hcap).
    + intros Hcap Henc Hmagic. cbn [handleExtract].
      by rewrite (extractData_no_magic _ _ _ _ _ Hrd password Hcap Henc Hmagic).
  - intros wav h Hparse bytesPerSample numSamples.
    assert (Hrd : forall n i,
               0 <= n <= 48 ->
               audioReader wav (hdr_dataOffset h) numSamples bytesPerSample n i
               = read_loop wav (wav_offset (hdr_dataOffset h) bytesPerSample) numSamples
                           OutOfAudioCapacity (Z.to_nat n) i).
    { intros n i Hn. unfold audioReader. rewrite Buffer_alloc_fails_small by done.
      by rewrite audio_read_loop_eq. }
    split.
    + intros Hcap. cbn [handleExtract]. rewrite Hparse. cbn [mbind outcome_bind].
      fold bytesPerSample. fold numSamples.
      by rewrite (extractData_short _ _ _ _ _ Hrd password Hcap).
    + intros Hcap Henc Hmagic. cbn [handleExtract]. rewrite Hparse. cbn [mbind outcome_bind].
      fold bytesPerSample. fold numSamples.
      by rewrite (extractData_no_magic _ _ _ _ _ Hrd password Hcap Henc Hmagic).
Qed.

(** ** The client's decoding of what the server encodes *)

Lemma list_ind3 (P : list Z -> Prop) :
  P [] -> (forall a, P [a]) -> (forall a b, P [a; b]) ->
  (forall a b c rest, P rest -> P (a :: b :: c :: rest)) ->
  forall l, P l.
Proof.
  intros H0 H1 H2 H3 l.
  assert (Hall : P l /\ (forall a, P (a :: l)) /\ (forall a b, P (a :: b :: l))).
  { induction l as [|c l (IH0 & IH1 & IH2)]; [auto|]. split; [apply IH1|].
    split; [intros a; apply IH2|]. intros a b. by apply H3. }
  apply Hall.
Qed.

(** A character of the alphabet is decoded to its value, and is none of
    [=], [:] and white space. *)
Lemma base64_char_spec (v : Z) :
  0 <= v < 64 ->
  base64_value (base64_char v) = Some v /\ base64_char v <> 61 /\ base64_char v <> 58 /\
  is_ascii_whitespace (base64_char v) = false.
Proof.
  intros Hv. unfold base64_char, base64_value, is_ascii_whitespace.
  destruct (Z.ltb_spec v 26);
    [zbool; cbn; repeat split; try done; try lia; f_equal; lia|].
  destruct (Z.ltb_spec v 52);
    [zbool; cbn; repeat split; try done; try lia; f_equal; lia|].
  destruct (Z.ltb_spec v 62);
    [zbool; cbn; repeat split; try done; try lia; f_equal; lia|].
  destruct (Z.eqb_spec v 62) as [->|]; [done|]. assert (v = 63) as -> by lia. done.
Qed.

Lemma endsWith_app (q er suffix : list Z) :
  (length suffix <= length er)%nat -> endsWith (q ++ er) suffix = endsWith er suffix.
Proof.
  intros Hlen. unfold endsWith. rewrite length_app.
  replace (length q + length er - length suffix)%nat
    with (length q + (length er - length suffix))%nat by lia.
  by rewrite drop_app_add.
Qed.

Lemma remove_padding_app (q er : list Z) :
  length q = 4%nat -> Forall (fun c => c <> 61) q -> er = [] \/ (2 <= length er)%nat ->
  remove_padding (q ++ er) = q ++ remove_padding er.
Proof.
  intros Hq Hpad [->|Her].
  - rewrite app_nil_r. unfold remove_padding. rewrite Hq. cbn [length]. cbn.
    destruct q as [|c1 [|c2 [|c3 [|c4 [|? ?]]]]]; try done.
    apply Forall_cons in Hpad as [_ Hpad]. apply Forall_cons in Hpad as [_ Hpad].
    apply Forall_cons in Hpad as [H3 Hpad]. apply Forall_cons in Hpad as [H4 _].
    unfold endsWith. cbn.
    rewrite bool_decide_eq_false_2 by congruence. rewrite bool_decide_eq_false_2 by congruence.
    done.
  - unfold remove_padding. rewrite length_app, Hq.
    replace (Z.of_nat (4 + length er) mod 4) with (Z.of_nat (length er) mod 4) by lia.
    destruct (Z.of_nat (length er) mod 4 =? 0); [|done].
    rewrite !endsWith_app by (cbn; lia).
    replace (4 + length er - 2)%nat with (length q + (length er - 2))%nat by lia.
    replace (4 + length er - 1)%nat with (length q + (length er - 1))%nat by lia.
    rewrite !take_app_add.
    destruct (endsWith er [61; 61]); [done|]. by destruct (endsWith er [61]).
Qed.

Lemma base64_values_app (q er vq ver : list Z) :
  base64_values q = Some vq -> base64_values er = Some ver ->
  base64_values (q ++ er) = Some (vq ++ ver).
Proof.
  revert vq. induction q as [|c q IH]; intros vq; cbn [base64_values app].
  - by intros [= <-].
  - destruct (base64_value c) as [v|]; [|done].
    destruct (base64_values q) as [vs|]; [|done]. intros [= <-] Her.
    by rewrite (IH vs eq_refl Her).
Qed.

(** The sextets of three bytes. *)
Lemma sextets_range (a b c : Z) :
  is_byte a -> is_byte b -> is_byte c ->
  0 <= a / 4 < 64 /\ 0 <= a mod 4 * 16 + b / 16 < 64 /\
  0 <= b mod 16 * 4 + c / 64 < 64 /\ 0 <= c mod 64 < 64 /\
  0 <= a mod 4 * 16 < 64 /\ 0 <= b mod 16 * 4 < 64.
Proof. unfold is_byte. lia. Qed.

(** What the encoding of a list of bytes looks like, and what the steps of
    [atob] make of it. *)
Lemma base64_encode_shape (data : list Z) :
  Forall is_byte data ->
  let enc := base64_encode data in
  List.filter (fun c => negb (is_ascii_whitespace c)) enc = enc /\
  Forall (fun c => c <> 58) enc /\
  buf_length enc = 4 * ((buf_length data + 2) / 3) /\
  endsWith enc [61; 61] = bool_decide (buf_length data mod 3 = 1) /\
  endsWith enc [61] = negb (bool_decide (buf_length data mod 3 = 0)) /\
  Z.of_nat (length (remove_padding enc)) mod 4 <> 1 /\
  exists vs, base64_values (remove_padding enc) = Some vs /\ decode_sextets vs = data.
Proof.
  induction data as [|a|a b|a b c rest IH] using list_ind3; intros Hdata.
  - cbn. repeat split; try done. by exists [].
  - apply Forall_cons in Hdata as [Ha _].
    destruct (sextets_range a 0 0 Ha) as (H1 & _ & _ & _ & H2 & _); [unfold is_byte; lia..|].
    destruct (base64_char_spec _ H1) as (V1 & P1 & C1 & W1).
    destruct (base64_char_spec _ H2) as (V2 & P2 & C2 & W2).
    cbn [base64_encode]. cbv zeta.
    set (c1 := base64_char (a / 4)) in *. set (c2 := base64_char (a mod 4 * 16)) in *.
    clearbody c1 c2.
    cbn [List.filter]. rewrite W1, W2. cbn [negb].
    split; [done|]. split; [repeat (apply Forall_cons; split; [done|]); apply Forall_nil_2|].
    split; [done|]. split; [done|]. split; [done|].
    assert (Hrm : remove_padding [c1; c2; 61; 61] = [c1; c2]) by done.
    rewrite Hrm. split; [done|].
    exists [a / 4; a mod 4 * 16]. cbn [base64_values]. rewrite V1, V2. split; [done|].
    cbn [decode_sextets]. f_equal. unfold is_byte in Ha. lia.
  - apply Forall_cons in Hdata as [Ha Hdata]. apply Forall_cons in Hdata as [Hb _].
    destruct (sextets_range a b 0 Ha Hb) as (H1 & H2 & _ & _ & _ & H3); [unfold is_byte; lia|].
    destruct (base64_char_spec _ H1) as (V1 & P1 & C1 & W1).
    destruct (base64_char_spec _ H2) as (V2 & P2 & C2 & W2).
    destruct (base64_char_spec _ H3) as (V3 & P3 & C3 & W3).
    cbn [base64_encode]. cbv zeta.
    set (c1 := base64_char (a / 4)) in *.
    set (c2 := base64_char (a mod 4 * 16 + b / 16)) in *.
    set (c3 := base64_char (b mod 16 * 4)) in *. clearbody c1 c2 c3.
    cbn [List.filter]. rewrite W1, W2, W3. cbn [negb].
    split; [done|]. split; [repeat (apply Forall_cons; split; [done|]); apply Forall_nil_2|].
    split; [done|].
    assert (Hpad : endsWith [c1; c2; c3; 61] [61; 61] = false).
    { unfold endsWith. cbn. apply bool_decide_eq_false_2. congruence. }
    split; [by rewrite Hpad|]. split; [done|].
    assert (Hrm : remove_padding [c1; c2; c3; 61] = [c1; c2; c3]).
    { unfold remove_padding. rewrite Hpad. done. }
    rewrite Hrm. split; [done|].
    exists [a / 4; a mod 4 * 16 + b / 16; b mod 16 * 4]. cbn [base64_values].
    rewrite V1, V2, V3. split; [done|].
    cbn [decode_sextets]. unfold is_byte in Ha, Hb. f_equal; [lia|]. f_equal. lia.
  - apply Forall_cons in Hdata as [Ha Hdata]. apply Forall_cons in Hdata as [Hb Hdata].
    apply Forall_cons in Hdata as [Hc Hdata].
    destruct (IH Hdata) as (Hws & Hcolon & Hlen & Hpad2 & Hpad1 & Hmod & vs & Hvs & Hdec).
    clear IH.
    destruct (sextets_range a b c Ha Hb Hc) as (H1 & H2 & H3 & H4 & _).
    destruct (base64_char_spec _ H1) as (V1 & P1 & C1 & W1).
    destruct (base64_char_spec _ H2) as (V2 & P2 & C2 & W2).
    destruct (base64_char_spec _ H3) as (V3 & P3 & C3 & W3).
    destruct (base64_char_spec _ H4) as (V4 & P4 & C4 & W4).
    cbn [base64_encode]. cbv zeta.
    set (q := [base64_char (a / 4); base64_char (a mod 4 * 16 + b / 16);
               base64_char (b mod 16 * 4 + c / 64); base64_char (c mod 64)]).
    set (er := base64_encode rest) in *.
    assert (Hq : length q = 4%nat) by done.
    assert (Hqpad : Forall (fun c => c <> 61) q)
      by (repeat (apply Forall_cons; split; [done|]); apply Forall_nil_2).
    assert (Her : er = [] \/ (4 <= length er)%nat).
    { unfold buf_length in Hlen. destruct er; [by left|right]. cbn [length] in *. lia. }
    assert (Hrest : rest = [] -> er = []) by (intros ->; done).
    assert (Hrest' : er = [] -> rest = []).
    { intros Hnil. rewrite Hnil in Hlen. unfold buf_length in Hlen. cbn in Hlen.
      destruct rest; [done|]. cbn [length] in Hlen. lia. }
    split; [|split; [|split; [|split; [|split; [|split]]]]].
    + rewrite List.filter_app. rewrite Hws. subst q. cbn [List.filter]. rewrite W1, W2, W3, W4. done.
    + apply Forall_app. split; [|done].
      subst q. repeat (apply Forall_cons; split; [done|]). apply Forall_nil_2.
    + rewrite buf_length_app. rewrite Hlen. unfold buf_length. cbn [length]. lia.
    + destruct Her as [Hnil|Hge].
      * rewrite Hnil, app_nil_r. rewrite (Hrest' Hnil). unfold endsWith. cbn.
        apply bool_decide_eq_false_2. congruence.
      * rewrite endsWith_app by (cbn; lia). rewrite Hpad2. unfold buf_length. cbn [length].
        apply bool_decide_ext. lia.
    + destruct Her as [Hnil|Hge].
      * rewrite Hnil, app_nil_r. rewrite (Hrest' Hnil). unfold endsWith. cbn.
        apply bool_decide_eq_false_2. congruence.
      * rewrite endsWith_app by (cbn; lia). rewrite Hpad1. unfold buf_length. cbn [length].
        f_equal. apply bool_decide_ext. lia.
    + rewrite (remove_padding_app q er Hq Hqpad) by (destruct Her; [by left|right; lia]).
      rewrite length_app, Hq. lia.
    + rewrite (remove_padding_app q er Hq Hqpad) by (destruct Her; [by left|right; lia]).
      exists ([a / 4; a mod 4 * 16 + b / 16; b mod 16 * 4 + c / 64; c mod 64] ++ vs). split.
      * apply base64_values_app; [|done]. subst q. cbn [base64_values].
        by rewrite V1, V2, V3, V4.
      * cbn [app decode_sextets]. rewrite Hdec. unfold is_byte in Ha, Hb, Hc.
        f_equal; [lia|]. f_equal; [lia|]. f_equal. lia.
Qed.

Lemma strip_prefix_Some (p s rest : list Z) : strip_prefix p s = Some rest -> s = p ++ rest.
Proof.
  revert s. induction p as [|a p IH]; intros s; cbn [strip_prefix].
  - destruct s; by intros [= <-].
  - destruct s as [|b s]; [done|]. destruct (Z.eqb_spec a b) as [->|]; [|done].
    intros Hs. by rewrite (IH s Hs).
Qed.

(** A string without a colon has no data URL prefix. *)
Lemma strip_data_url_plain (s : list Z) : Forall (fun c => c <> 58) s -> strip_data_url s = s.
Proof.
  intros Hs. unfold strip_data_url.
  destruct (strip_prefix (str "data:") s) as [rest|] eqn:Hp; [|done].
  apply strip_prefix_Some in Hp. subst s. exfalso.
  rewrite Forall_forall in Hs. apply (Hs 58); [|done].
  by apply (list_elem_of_lookup_2 _ 4%nat).
Qed.

Lemma concat_byte_arrays (fuel : nat) (s : list Z) :
  (length s <= fuel)%nat -> concat (byte_arrays fuel s) = map (fun c => c mod 256) s.
Proof.
  revert s. induction fuel as [|fuel IH]; intros s Hlen.
  - destruct s; [done|]. cbn [length] in Hlen. lia.
  - cbn [byte_arrays]. destruct s as [|c s]; [done|]. cbn [concat].
    rewrite IH by (rewrite length_drop; cbn [length] in *; lia).
    rewrite <- map_app. by rewrite take_drop.
Qed.

(** X16. The client decodes a file item into the bytes the server
    encoded: for every list of bytes, [base64ToBlob] applied to their
    [toString("base64")] gives a [Blob] of exactly these bytes (the encoding
    is never mistaken for a data URL, and [atob] accepts it). *)
Theorem base64ToBlob_base64_encode (data : list Z) :
  Forall is_byte data ->
  atob (base64_encode data) = Some data /\
  base64ToBlob (base64_encode data) = Some data.
Proof.
  intros Hdata.
  destruct (base64_encode_shape data Hdata)
    as (Hws & Hcolon & _ & _ & _ & Hmod & vs & Hvs & Hdec).
  assert (Hatob : atob (base64_encode data) = Some data).
  { unfold atob. rewrite Hws. cbv zeta.
    destruct (Z.eqb_spec (Z.of_nat (length (remove_padding (base64_encode data))) mod 4) 1);
      [done|].
    by rewrite Hvs, Hdec. }
  split; [done|].
  unfold base64ToBlob. rewrite strip_data_url_plain by done. rewrite Hatob.
  rewrite concat_byte_arrays by done. f_equal.
  clear -Hdata. induction Hdata as [|b data Hb _ IH]; [done|]. cbn [map]. rewrite IH.
  f_equal. unfold is_byte in Hb. lia.
Qed.

(** X17. The size the client shows for a file item is the number of bytes
    of the file: [sizeFromBase64] applied to the [toString("base64")] of a
    list of bytes gives its length. *)
Theorem sizeFromBase64_base64_encode (data : list Z) :
  Forall is_byte data -> sizeFromBase64 (base64_encode data) = buf_length data.
Proof.
  intros Hdata.
  destruct (base64_encode_shape data Hdata) as (_ & Hcolon & Hlen & Hpad2 & Hpad1 & _).
  unfold sizeFromBase64.
  destruct (bool_decide (base64_encode data = [])) eqn:Hnil.
  - apply bool_decide_eq_true_1 in Hnil. rewrite Hnil in Hlen. unfold buf_length in *.
    cbn [length] in Hlen. lia.
  - rewrite strip_data_url_plain by done. cbv zeta. rewrite Hpad2, Hpad1, Hlen.
    destruct (bool_decide (buf_length data mod 3 = 1)) eqn:H1.
    + apply bool_decide_eq_true_1 in H1. lia.
    + apply bool_decide_eq_false_1 in H1.
      destruct (bool_decide (buf_length data mod 3 = 0)) eqn:H0; cbn [negb].
      * apply bool_decide_eq_true_1 in H0. lia.
      * apply bool_decide_eq_false_1 in H0. pose proof (buf_length_nonneg data). lia.
Qed.

(** ** The extract route of the older server *)

Lemma esm_of_bind {A B : Type} (o : outcome A) (k : A -> outcome B) :
  esm_of (o ≫= k) = esm_of o ≫= (fun a => esm_of (k a)).
Proof. destruct o as [a|e|]; [done| |done]. by destruct e. Qed.

Lemma esm_call_of {A : Type} (o : outcome A) :
  o <> Throw CorruptedMetadata -> esm_call o = esm_of o.
Proof. destruct o as [a|e|]; [done| |done]. by destruct e. Qed.

Lemma esm_bind_ext {A B : Type} (m : esm_outcome A) (k k' : A -> esm_outcome B) :
  (forall a, k a = k' a) -> m ≫= k = m ≫= k'.
Proof. intros Hk. destruct m; [apply Hk|done..]. Qed.

(** Only [JSON.parse] gives "Corrupted container metadata.". *)
Lemma clean_bind {A B : Type} (m : outcome A) (k : A -> outcome B) :
  m <> Throw CorruptedMetadata -> (forall a, k a <> Throw CorruptedMetadata) ->
  m ≫= k <> Throw CorruptedMetadata.
Proof. intros Hm Hk. destruct m as [a|e|]; [apply Hk|cbn; intros [= ->]; by apply Hm|done]. Qed.

Lemma readU32BE_clean (buf : list Z) : readU32BE buf <> Throw CorruptedMetadata.
Proof.
  unfold readU32BE, readUInt32BE.
  repeat (match goal with |- context [at_index ?b ?i] => destruct (at_index b i) end; try done).
Qed.

Lemma decryptEnvelope_clean `{Crypto} (combined password : list Z) :
  decryptEnvelope combined password <> Throw CorruptedMetadata.
Proof.
  unfold decryptEnvelope. destruct (negb _); [done|].
  apply clean_bind; [apply readU32BE_clean|]. intros len.
  destruct (bool_decide (password = [])); [done|]. by destruct (gcm_decrypt _ _ _ _).
Qed.

Lemma get_prop_clean (v : json) (key : string) : get_prop v key <> Throw CorruptedMetadata.
Proof. by destruct v. Qed.

Lemma items_reduce_clean (v : option json) : items_reduce v <> Throw CorruptedMetadata.
Proof. destruct v as [[| [|] | [[| |]|] | [|] | |]|]; done. Qed.

Lemma items_for_of_clean (v : option json) : items_for_of v <> Throw CorruptedMetadata.
Proof. destruct v as [[| [|] | [[| |]|] | [|] | |]|]; done. Qed.

Lemma number_add_clean (a b : Z) : number_add a b <> Throw CorruptedMetadata.
Proof. unfold number_add. by destruct (_ <? _). Qed.

Lemma sum_lens_clean (its : list json) (s : Z) : sum_lens its s <> Throw CorruptedMetadata.
Proof.
  revert s. induction its as [|it its IH]; intros s; [done|]. cbn [sum_lens].
  apply clean_bind.
  - unfold len_or_0. apply clean_bind; [apply get_prop_clean|].
    intros [[| [|] | [[| |]|] | [|] | |]|]; done.
  - intros n. apply clean_bind; [apply number_add_clean|]. intros s'. apply IH.
Qed.

Lemma parseContainer_items_clean (containerBuf : list Z) (ms : list json) (off : Z) :
  parseContainer_items containerBuf ms off <> Throw CorruptedMetadata.
Proof.
  revert off. induction ms as [|m ms IH]; intros off; [done|]. cbn [parseContainer_items].
  apply clean_bind; [apply get_prop_clean|]. intros [[| | [len|] | | |]|]; try done.
  apply clean_bind; [apply number_add_clean|]. intros stop.
  apply clean_bind; [apply get_prop_clean|]. intros t.
  apply clean_bind; [apply get_prop_clean|]. intros name.
  apply clean_bind; [apply get_prop_clean|]. intros mime.
  apply clean_bind; [apply IH|]. done.
Qed.

Lemma parseWavHeader_clean (buf : list Z) : parseWavHeader buf <> Throw CorruptedMetadata.
Proof.
  unfold parseWavHeader. destruct (negb (is_riff_wave buf)); [done|].
  apply clean_bind.
  - unfold scan_chunks. generalize 12.
    generalize {| scan_fmt := None; scan_dataOffset := -1; scan_dataLength := -1 |}.
    induction (length buf) as [|fuel IH]; intros st offset; cbn [wav_chunks].
    + by destruct (offset + 8 <=? buf_length buf).
    + destruct (offset + 8 <=? buf_length buf); [|done].
      assert (H32 : forall o, readUInt32LE buf o <> Throw CorruptedMetadata).
      { intros o. unfold readUInt32LE.
        repeat (match goal with |- context [at_index ?b ?i] => destruct (at_index b i) end;
                try done). }
      assert (H16 : forall o, readUInt16LE buf o <> Throw CorruptedMetadata).
      { intros o. unfold readUInt16LE.
        repeat (match goal with |- context [at_index ?b ?i] => destruct (at_index b i) end;
                try done). }
      apply clean_bind; [apply H32|]. intros size.
      destruct (offset + 8 + size >? buf_length buf); [done|].
      apply clean_bind; [|intros st'; apply IH].
      destruct (str_eqb _ (str "fmt ")); [|by destruct (str_eqb _ (str "data"))].
      apply clean_bind; [|done]. unfold read_fmt.
      repeat (apply clean_bind; [apply H16 || apply H32|intros ?]). done.
  - intros st. destruct (scan_fmt st); [|done]. destruct (negb _); [done|].
    destruct (negb _); [done|]. by destruct (_ || _).
Qed.

Ltac esm_next tac :=
  rewrite esm_of_bind; rewrite <- esm_call_of by tac; apply esm_bind_ext.

Lemma readContainer_esm_eq `{Crypto} (rd : reader) (password : list Z) :
  (forall n i, rd n i <> Throw CorruptedMetadata) ->
  readContainer_esm rd password = esm_of (extractData rd password).
Proof.
  intros Hrd. unfold readContainer_esm, extractData.
  esm_next ltac:(apply Hrd). intros [first5 i].
  destruct (bool_decide (first5 = str "ENCv1")).
  - esm_next ltac:(apply Hrd). intros [headerRest i1].
    esm_next ltac:(apply readU32BE_clean). intros encLen.
    esm_next ltac:(apply Hrd). intros [enc i2].
    apply esm_call_of, decryptEnvelope_clean.
  - esm_next ltac:(apply Hrd). intros [sixth i1].
    destruct (negb _); [done|].
    esm_next ltac:(apply Hrd). intros [metaLenBuf i2].
    esm_next ltac:(apply readU32BE_clean). intros metaLen.
    esm_next ltac:(apply Hrd). intros [metaBuf i3].
    destruct (JSON_parse (utf8_decode metaBuf)) as [meta|]; [|done].
    esm_next ltac:(apply get_prop_clean). intros items.
    esm_next ltac:(apply items_reduce_clean). intros its.
    esm_next ltac:(apply sum_lens_clean). intros dataTotal.
    esm_next ltac:(apply Hrd). by intros [dataBuf i4].
Qed.

Lemma parseContainer_esm_eq (containerBuf : list Z) :
  parseContainer_esm containerBuf = esm_of (parseContainer containerBuf).
Proof.
  unfold parseContainer_esm, parseContainer. destruct (negb _); [done|]. cbv zeta.
  esm_next ltac:(apply readU32BE_clean). intros metaLen.
  destruct (JSON_parse _) as [meta|]; [|done].
  esm_next ltac:(apply get_prop_clean). intros items.
  esm_next ltac:(apply items_for_of_clean). intros ms.
  apply esm_call_of, parseContainer_items_clean.
Qed.

Lemma read_loop_throws (buf : list Z) (addr : Z -> Z) (cap : Z) (err e : error) (n : nat) (i : Z) :
  read_loop buf addr cap err n i = Throw e -> e = err.
Proof.
  assert (Hbyte : forall bs byte j, read_byte buf addr cap err bs byte j = Throw e -> e = err).
  { induction bs as [|b bs IH]; intros byte j; cbn [read_byte]; [done|].
    destruct (j >=? cap); [by intros [= <-]|apply IH]. }
  revert i. induction n as [|n IH]; intros i; cbn [read_loop]; [done|].
  destruct (read_byte buf addr cap err msb_first 0 i) as [[byte i1]|e'|] eqn:Hb;
    cbn [mbind outcome_bind]; [|intros [= <-]; by apply (Hbyte _ _ _ Hb)|done].
  destruct (read_loop buf addr cap err n i1) as [[out i2]|e'|] eqn:Hl;
    cbn [mbind outcome_bind]; [done|intros [= <-]; by apply (IH _ Hl)|done].
Qed.

(** X18. The extract route of the older server and the extract handler of
    the WAV-only server give the same answer for every stego file and
    password, but for one case: where the metadata text is not JSON, the
    WAV-only server answers "Corrupted container metadata." and the older
    route ends with the [SyntaxError] of [JSON.parse]. *)
Theorem handleExtract_esm_agrees `{Crypto} `{Platform} (stego : carrier) (password : list Z) :
  handleExtract_esm stego password = esm_of (handleExtract stego password).
Proof.
  destruct stego as [data width height|wav]; cbn [handleExtract_esm handleExtract].
  - rewrite esm_of_bind. rewrite <- readContainer_esm_eq.
    + apply esm_bind_ext. intros containerBuf. apply parseContainer_esm_eq.
    + intros n i. unfold imageReader. destruct (Buffer_alloc_fails _ n); [done|].
      rewrite image_read_loop_eq. intros Hthrow. by apply read_loop_throws in Hthrow.
  - rewrite esm_of_bind. rewrite <- esm_call_of.
    + apply esm_bind_ext. intros h. cbv zeta.
      rewrite esm_of_bind. rewrite <- readContainer_esm_eq.
      * apply esm_bind_ext. intros containerBuf. apply parseContainer_esm_eq.
      * intros n i. unfold audioReader. destruct (Buffer_alloc_fails _ n); [done|].
        rewrite audio_read_loop_eq. intros Hthrow. by apply read_loop_throws in Hthrow.
    + intros Hparse. pose proof (parseWavHeader_clean wav) as Hclean. done.
Qed.

(** ** What the extraction depends on *)

Lemma read_byte_agree (buf buf' : list Z) (addr : Z -> Z) (cap : Z) (err : error)
    (bs : list Z) (byte i : Z) :
  (forall j, 0 <= j < cap -> carrier_bit buf addr j = carrier_bit buf' addr j) -> 0 <= i ->
  read_byte buf addr cap err bs byte i = read_byte buf' addr cap err bs byte i.
Proof.
  intros Hbits. revert byte i. induction bs as [|b bs IH]; intros byte i Hi; cbn [read_byte]; [done|].
  destruct (Z.geb_spec i cap); [done|]. rewrite (Hbits i) by lia. apply IH. lia.
Qed.

Lemma read_byte_cursor (buf : list Z) (addr : Z -> Z) (cap : Z) (err : error)
    (bs : list Z) (byte i byte' i' : Z) :
  read_byte buf addr cap err bs byte i = Ret (byte', i') -> i <= i'.
Proof.
  revert byte i. induction bs as [|b bs IH]; intros byte i; cbn [read_byte].
  - intros [= _ <-]. lia.
  - destruct (i >=? cap); [done|]. intros Hrec. apply IH in Hrec. lia.
Qed.

Lemma read_loop_agree (buf buf' : list Z) (addr : Z -> Z) (cap : Z) (err : error)
    (n : nat) (i : Z) :
  (forall j, 0 <= j < cap -> carrier_bit buf addr j = carrier_bit buf' addr j) -> 0 <= i ->
  read_loop buf addr cap err n i = read_loop buf' addr cap err n i.
Proof.
  intros Hbits. revert i. induction n as [|n IH]; intros i Hi; cbn [read_loop]; [done|].
  rewrite (read_byte_agree buf buf') by done.
  destruct (read_byte buf' addr cap err msb_first 0 i) as [[byte i1]|e|] eqn:Hb; [|done..].
  cbn [mbind outcome_bind]. rewrite IH; [done|]. apply read_byte_cursor in Hb. lia.
Qed.

Lemma read_loop_cursor (buf : list Z) (addr : Z -> Z) (cap : Z) (err : error)
    (n : nat) (i : Z) (out : list Z) (i' : Z) :
  read_loop buf addr cap err n i = Ret (out, i') -> i <= i'.
Proof.
  revert i out i'. induction n as [|n IH]; intros i out i'; cbn [read_loop].
  - intros [= _ <-]. lia.
  - destruct (read_byte buf addr cap err msb_first 0 i) as [[byte i1]|e|] eqn:Hb; [|done..].
    cbn [mbind outcome_bind].
    destruct (read_loop buf addr cap err n i1) as [[out1 i2]|e|] eqn:Hl; [|done..].
    cbn [mbind outcome_bind]. intros [= _ <-].
    apply read_byte_cursor in Hb. apply IH in Hl. lia.
Qed.

(** Two readers that agree from every cursor that is not negative, and
    never move the cursor back, give the same extraction. *)
Lemma extractData_agree `{Crypto} (rd rd' : reader) (password : list Z) :
  (forall n i, 0 <= i -> rd n i = rd' n i) ->
  (forall n i out i', rd' n i = Ret (out, i') -> i <= i') ->
  extractData rd password = extractData rd' password.
Proof.
  intros Hrd Hmono. unfold extractData.
  rewrite (Hrd 5 0) by lia.
  destruct (rd' 5 0) as [[first5 i]|e|] eqn:H5; [|done..]. cbn [mbind outcome_bind].
  pose proof (Hmono _ _ _ _ H5) as Hi.
  destruct (bool_decide (first5 = str "ENCv1")).
  - rewrite (Hrd 48 i) by lia.
    destruct (rd' 48 i) as [[headerRest i1]|e|] eqn:H48; [|done..]. cbn [mbind outcome_bind].
    pose proof (Hmono _ _ _ _ H48) as Hi1.
    destruct (readU32BE (slice headerRest 44 48)) as [encLen|e|]; [|done..].
    cbn [mbind outcome_bind]. by rewrite (Hrd encLen i1) by lia.
  - rewrite (Hrd 1 i) by lia.
    destruct (rd' 1 i) as [[sixth i1]|e|] eqn:H1; [|done..]. cbn [mbind outcome_bind].
    pose proof (Hmono _ _ _ _ H1) as Hi1.
    destruct (negb _); [done|].
    rewrite (Hrd 4 i1) by lia.
    destruct (rd' 4 i1) as [[metaLenBuf i2]|e|] eqn:H4; [|done..]. cbn [mbind outcome_bind].
    pose proof (Hmono _ _ _ _ H4) as Hi2.
    destruct (readU32BE metaLenBuf) as [metaLen|e|]; [|done..]. cbn [mbind outcome_bind].
    rewrite (Hrd metaLen i2) by lia.
    destruct (rd' metaLen i2) as [[metaBuf i3]|e|] eqn:Hm; [|done..]. cbn [mbind outcome_bind].
    pose proof (Hmono _ _ _ _ Hm) as Hi3.
    destruct (JSON_parse (utf8_decode metaBuf)) as [meta|]; [|done].
    destruct (get_prop meta "items") as [items|e|]; [|done..]. cbn [mbind outcome_bind].
    destruct (items_reduce items) as [its|e|]; [|done..]. cbn [mbind outcome_bind].
    destruct (sum_lens its 0) as [dataTotal|e|]; [|done..]. cbn [mbind outcome_bind].
    by rewrite (Hrd dataTotal i3) by lia.
Qed.

(** X19. What the extraction reads.  The answer of the extract handler
    for a picture depends only on its size and on the lowest bit of the
    red, green and blue samples: two pictures of the same size that agree
    on these bits get the same answer, whatever their alpha samples and the
    upper seven bits of the others.  For two WAV files with the same header
    it depends only on the lowest bit of the first byte of each sample. *)
Theorem handleExtract_reads_lsb `{Crypto} `{Platform} (password : list Z) :
  (forall (data data' : list Z) (width height : Z),
      (forall i, 0 <= i < width * height * 3 ->
                 carrier_bit data rgba_offset i = carrier_bit data' rgba_offset i) ->
      handleExtract (ImageCarrier data width height) password
      = handleExtract (ImageCarrier data' width height) password) /\
  (forall (wav wav' : list Z) (h : wav_header),
      parseWavHeader wav = Ret h -> parseWavHeader wav' = Ret h ->
      let bytesPerSample := bitsPerSample (hdr_fmt h) / 8 in
      (forall i, 0 <= i < hdr_dataLength h / bytesPerSample ->
                 carrier_bit wav (wav_offset (hdr_dataOffset h) bytesPerSample) i
                 = carrier_bit wav' (wav_offset (hdr_dataOffset h) bytesPerSample) i) ->
      handleExtract (AudioCarrier wav) password = handleExtract (AudioCarrier wav') password).
Proof.
  split.
  - intros data data' width height Hbits. cbn [handleExtract].
    rewrite (extractData_agree (imageReader data width height)
                               (imageReader data' width height)); [done| |].
    + intros n i Hi. unfold imageReader. destruct (Buffer_alloc_fails _ n); [done|].
      rewrite !image_read_loop_eq. by apply read_loop_agree.
    + intros n i out i'. unfold imageReader. destruct (Buffer_alloc_fails _ n); [done|].
      rewrite image_read_loop_eq. apply read_loop_cursor.
  - intros wav wav' h Hparse Hparse' bytesPerSample Hbits. cbn [handleExtract].
    rewrite Hparse, Hparse'. cbn [mbind outcome_bind]. fold bytesPerSample.
    rewrite (extractData_agree
               (audioReader wav (hdr_dataOffset h) (hdr_dataLength h / bytesPerSample)
                            bytesPerSample)
               (audioReader wav' (hdr_dataOffset h) (hdr_dataLength h / bytesPerSample)
                            bytesPerSample)); [done| |].
    + intros n i Hi. unfold audioReader. destruct (Buffer_alloc_fails _ n); [done|].
      rewrite !audio_read_loop_eq. by apply read_loop_agree.
    + intros n i out i'. unfold audioReader. destruct (Buffer_alloc_fails _ n); [done|].
      rewrite audio_read_loop_eq. apply read_loop_cursor.
Qed.

(** ** The size of the payload *)

(** X20. The size of what is embedded: the container has 10 bytes more
    than its metadata and the data of its items, and the encryption adds
    exactly 53 bytes to it (the header, the salt, the nonce, the tag and
    the length field), so that a secret needs 8 carrier bits for each of
    these bytes. *)
Theorem payload_size `{Crypto} (items : list item) (password : list Z) (g : entropy) :
  crypto_laws ->
  let packed := container_of items in
  let payload := (encryptIfNeeded packed password g).1 in
  buf_length packed
  = 10 + buf_length (utf8_encode (stringify_meta items))
    + buf_length (concat (map item_data items)) /\
  buf_length payload = (if bool_decide (password = []) then 0 else 53) + buf_length packed /\
  bitsNeeded (buf_length payload) = 8 * buf_length payload.
Proof.
  intros Hlaws packed payload. split; [apply container_of_length|]. split; [|unfold bitsNeeded; lia].
  subst payload. destruct (decide (password = [])) as [->|Hpw].
  - by rewrite encryptIfNeeded_empty.
  - rewrite bool_decide_eq_false_2 by done.
    rewrite encryptIfNeeded_password by done. cbn [fst].
    rewrite !buf_length_app, length_u32.
    rewrite !(randomBytes_length Hlaws) by lia.
    rewrite (gcm_tag_length Hlaws), (gcm_encrypt_length Hlaws).
    change (buf_length (str "ENCv1")) with 5. lia.
Qed.

(** ** Which origins are let in *)

Lemma strip_prefix_i_spec (pattern s rest : list Z) :
  strip_prefix_i pattern s = Some rest <->
  exists matched, s = matched ++ rest /\ map canonicalize matched = map canonicalize pattern.
Proof.
  revert s. induction pattern as [|p pattern IH]; intros s.
  - cbn [strip_prefix_i]. split.
    + intros [= ->]. by exists [].
    + intros (matched & -> & Hm). by destruct matched.
  - destruct s as [|c s]; cbn [strip_prefix_i].
    + split; [done|]. intros (matched & Hs & Hm). by destruct matched.
    + destruct (Z.eqb_spec (canonicalize c) (canonicalize p)) as [Hc|Hc].
      * rewrite IH. split.
        -- intros (matched & -> & Hm). exists (c :: matched). cbn. by rewrite Hc, Hm.
        -- intros (matched & Hs & Hm). destruct matched as [|c' matched]; [done|].
           cbn in Hs, Hm. injection Hs as <- ->. injection Hm as _ Hm. by exists matched.
      * split; [done|]. intros (matched & Hs & Hm). destruct matched as [|c' matched]; [done|].
        cbn in Hs, Hm. injection Hs as <- ->. by injection Hm as Hm _.
Qed.

Lemma isLocal_spec (origin : list Z) : isLocal origin = true <-> local_origin origin.
Proof.
  unfold isLocal, local_origin. split.
  - intros [_ Hm]%andb_prop.
    destruct (strip_prefix_i (str "http://localhost:") origin) as [port|] eqn:Hp; [|done].
    apply strip_prefix_i_spec in Hp as (matched & -> & Hmatched).
    apply andb_prop in Hm as [Hne Hdigits].
    exists matched, port. split; [done|]. split; [done|]. split.
    + by apply negb_true_iff, bool_decide_eq_false in Hne.
    + rewrite forallb_forall in Hdigits. apply Forall_forall. intros c Hc.
      apply list_elem_of_In, Hdigits in Hc. unfold is_digit in Hc. unfold is_digit_char. lia.
  - intros (matched & port & -> & Hmatched & Hne & Hdigits).
    apply andb_true_intro. split.
    + apply negb_true_iff, bool_decide_eq_false. intros Happ.
      apply app_eq_nil in Happ as [_ ->]. done.
    + assert (Hp : strip_prefix_i (str "http://localhost:") (matched ++ port) = Some port)
        by (apply strip_prefix_i_spec; by exists matched).
      rewrite Hp. apply andb_true_intro. split.
      * by apply negb_true_iff, bool_decide_eq_false.
      * apply forallb_forall. intros c Hc. apply list_elem_of_In in Hc.
        rewrite Forall_forall in Hdigits. specialize (Hdigits c Hc).
        unfold is_digit_char in Hdigits. unfold is_digit. lia.
Qed.

(** X21. Which origins the two servers let in, whatever the two environment
    variables hold.  The WAV-only server lets in a request without an
    [Origin] header, an origin that is one of the entries of the list, and
    every origin [http://localhost:<digits>] (in letters of either case),
    and no other; the older server lets in the first two only.  An origin
    that is refused is refused with the message that names it. *)
Theorem corsOrigin_allowed (CLIENT_ORIGIN CLIENT_ORIGINS origin : list Z) :
  let allowed := ALLOWED_ORIGINS (ORIGINS_ENV CLIENT_ORIGIN CLIENT_ORIGINS) in
  (corsOrigin allowed origin = CorsAllowed <->
   origin = [] \/ origin ∈ allowed \/ local_origin origin) /\
  (corsOrigin_esm allowed origin = CorsAllowed <-> origin = [] \/ origin ∈ allowed) /\
  (corsOrigin allowed origin <> CorsAllowed ->
   corsOrigin allowed origin = CorsRejected (str "Not allowed by CORS: " ++ origin)) /\
  (corsOrigin_esm allowed origin <> CorsAllowed ->
   corsOrigin_esm allowed origin = CorsRejected (str "Not allowed by CORS: " ++ origin)).
Proof.
  intros allowed. unfold corsOrigin, corsOrigin_esm.
  destruct (decide (origin = [])) as [->|Hne].
  { rewrite !bool_decide_eq_true_2 by done. repeat split; try done; by left. }
  rewrite !(bool_decide_eq_false_2 (origin = [])) by done.
  destruct (decide (origin ∈ allowed)) as [Hin|Hin].
  { rewrite !bool_decide_eq_true_2 by done. cbn [orb].
    repeat split; try done; intros _; right; by try left. }
  rewrite !bool_decide_eq_false_2 by done. cbn [orb].
  destruct (isLocal origin) eqn:Hlocal.
  - apply isLocal_spec in Hlocal. repeat split; try done.
    + intros _. by right; right.
    + by intros [|].
  - assert (Hnl : ~ local_origin origin).
    { intros Hl. apply isLocal_spec in Hl. congruence. }
    repeat split; try done.
    + by intros [|[|]].
    + by intros [|].
Qed.

(** ** The last error handler *)






(** ** The two handlers behind the upload filter, for a WAV cover *)

Lemma fileFilter_cb_wav (m : list Z) : wav_type m -> fileFilter_cb m = Ret tt.
Proof. by intros [->|[->| ->]]. Qed.

Lemma fileFilter_cb_image (m : list Z) : image_type m -> fileFilter_cb m = Ret tt.
Proof.
  intros [rest ->]. unfold fileFilter_cb, fileFilter.
  by rewrite (proj2 (startsWith_spec _ _) (ex_intro _ rest eq_refl)).
Qed.

(** X22. The embed handler followed by the extract handler, for a WAV
    cover and for uploads that the upload filter lets through; the limits
    of the upload middleware on sizes and counts are outside the embedding.
    Take valid secrets with at least one item, a container below 2^32
    bytes, a cover uploaded under one of the three WAV types that is a PCM
    WAV file with complete [fmt ] chunks and samples enough for the
    payload, and a secret file, if there is one, that is a picture or has
    one of the three WAV types.  Then the filter lets the cover and the
    secret file through, and the embed handler sends a file of type
    [audio/wav]; the filter lets that file through when it is uploaded
    under one of the three WAV types, and the extract handler, given the
    same password, answers with the text as typed, unless it is only white
    space, and then the secret file as a file, with its name, its own type
    and the base64 of its bytes. *)
Theorem handlers_roundtrip_wav `{Crypto} `{Platform} `{Sharp} (cover : upload) (h : wav_header)
    (secretText : list Z) (secretFile : option upload) (password : list Z) (g : entropy) :
  crypto_laws ->
  secrets_ok secretText secretFile ->
  packPayload_items secretText secretFile <> [] ->
  buf_length (container_of (packPayload_items secretText secretFile)) < 2 ^ 32 ->
  wav_type (mimetype cover) ->
  (forall f, secretFile = Some f -> image_type (mimetype f) \/ wav_type (mimetype f)) ->
  Forall is_byte (buffer cover) -> complete_fmt_chunks (buffer cover) ->
  parseWavHeader (buffer cover) = Ret h ->
  bitsNeeded (buf_length (encryptIfNeeded
                            (container_of (packPayload_items secretText secretFile))
                            password g).1)
  <= hdr_dataLength h / (bitsPerSample (hdr_fmt h) / 8) ->
  fileFilter_cb (mimetype cover) = Ret tt /\
  (forall f, secretFile = Some f -> fileFilter_cb (mimetype f) = Ret tt) /\
  exists body text,
    handleEmbed_response (Some cover) secretFile secretText password g
    = Ret (SendFile (str "audio/wav") (stego_wav_disposition (originalname cover)) body) /\
    (all_whitespace secretText -> text = []) /\
    (~ all_whitespace secretText ->
     text = [OutText (Some (JStr (str "message.txt"))) (Some (JStr (str "text/plain")))
                     secretText]) /\
    forall stego,
      buffer stego = body -> wav_type (mimetype stego) ->
      fileFilter_cb (mimetype stego) = Ret tt /\
      handleExtract_response (Some stego) password
      = Ret (JsonItems
               (text ++ match secretFile with
                        | Some f =>
                            [OutFile (Some (JStr (if bool_decide (originalname f = [])
                                                  then str "secret" else originalname f)))
                                     (Some (JStr (mimetype f))) (base64_encode (buffer f))]
                        | None => []
                        end)).
Proof.
  intros Hlaws Hsecrets Hitems Hlen Hcover Hfile Hwav Hcomplete Hparse Hcap.
  assert (Haudio : forall m, wav_type m -> startsWith m (str "audio/") = true
                                           /\ startsWith m (str "image/") = false).
  { by intros m [->|[->| ->]]. }
  assert (Hfilter : forall f, secretFile = Some f -> fileFilter_cb (mimetype f) = Ret tt).
  { intros f Hf. destruct (Hfile f Hf); [by apply fileFilter_cb_image|by apply fileFilter_cb_wav]. }
  split; [by apply fileFilter_cb_wav|]. split; [done|].
  destruct (packPayload_items_ok secretText secretFile Hsecrets Hlen) as [Hok Hfits].
  destruct (roundtrip_audio (buffer cover) h _ password g Hlaws Hok Hlen Hwav Hcomplete
              Hparse Hcap) as (body & Hembed & Hheader & Hextract).
  exists body, (extracted_items secretText None). split; [|split; [|split]].
  - rewrite handleEmbed_response_packed by (done || by apply Haudio). cbv zeta.
    unfold embedAudio in Hembed. unfold processAudioSimple in *.
    rewrite Hparse in *. cbn [mbind outcome_bind] in *. rewrite Hparse in *.
    cbn [mbind outcome_bind].
    rewrite embedLSB_WavPCM_ok in * by done. cbn [fst] in Hembed.
    by injection Hembed as ->.
  - intros Hws. unfold extracted_items. rewrite (trim_whitespace _ Hws).
    rewrite (bool_decide_eq_true_2 (@nil Z = [])) by done. by rewrite andb_false_r.
  - intros Hws. unfold extracted_items.
    rewrite (bool_decide_eq_false_2 (secretText = []))
      by (intros ->; apply Hws, Forall_nil_2).
    rewrite (bool_decide_eq_false_2 (trim secretText = []))
      by (intros Ht; by apply Hws, trim_nil).
    by rewrite app_nil_r.
  - intros stego <- Hstego. split; [by apply fileFilter_cb_wav|].
    destruct (Haudio _ Hstego) as [Hsa Hsi].
    unfold handleExtract_response. rewrite Hsi, Hsa. cbn [handleExtract].
    rewrite Hheader. cbn [mbind outcome_bind]. rewrite Hextract. cbn [mbind outcome_bind].
    rewrite parseContainer_container_of by (done || lia). cbn [mbind outcome_bind].
    rewrite out_of_packed_items by apply Hsecrets. do 2 f_equal.
    unfold extracted_items. rewrite app_nil_r. f_equal.
    destruct secretFile as [f|]; [|done]. cbv zeta.
    pose proof (Hfilter f eq_refl) as Hf. unfold fileFilter_cb in Hf.
    destruct (fileFilter (mimetype f)) eqn:Hff; [|done].
    destruct (fileFilter_mimetype _ Hff) as [Hne Hplain].
    assert (Hmime : or_default (mimetype f) (str "application/octet-stream") = mimetype f).
    { unfold or_default. by rewrite bool_decide_eq_false_2. }
    rewrite Hmime. unfold str_eqb. rewrite (bool_decide_eq_false_2 _ Hplain).
    unfold or_default. by destruct (bool_decide (originalname f = [])).
Qed.

(** * Properties of the analyzer *)

(** ** The analyzer's bit plane 0 of a picture *)

Lemma plane_bit_0 (v : option Z) : plane_bit v 0 = Z.land (ToInt32 v) 1.
Proof. unfold plane_bit. change (Z.land 0 31) with 0. by rewrite Z.shiftr_0_r. Qed.

Lemma image_plane_bits_carrier (data : list Z) :
  image_plane_bits data 0
  = carrier_bits data rgba_offset 0 (3 * Z.to_nat ((buf_length data + 3) / 4)).
Proof.
  unfold image_plane_bits. generalize (Z.to_nat ((buf_length data + 3) / 4)) as n.
  induction n as [|n IH]; [done|].
  rewrite seq_S, flat_map_app, IH. cbn [flat_map Nat.add]. rewrite app_nil_r.
  replace (3 * S n)%nat with (3 * n + 3)%nat by lia. rewrite carrier_bits_app. f_equal.
  unfold pixel_plane_bits, carrier_bits, carrier_bit. cbn [seq map]. rewrite !plane_bit_0.
  replace (rgba_offset (0 + Z.of_nat (3 * n) + Z.of_nat 0)) with (4 * Z.of_nat n)
    by (unfold rgba_offset; lia).
  replace (rgba_offset (0 + Z.of_nat (3 * n) + Z.of_nat 1)) with (4 * Z.of_nat n + 1)
    by (unfold rgba_offset; lia).
  replace (rgba_offset (0 + Z.of_nat (3 * n) + Z.of_nat 2)) with (4 * Z.of_nat n + 2)
    by (unfold rgba_offset; lia).
  done.
Qed.

Lemma at_index_carrier_bits (buf : list Z) (addr : Z -> Z) (n : nat) (j : Z) :
  0 <= j < Z.of_nat n ->
  at_index (carrier_bits buf addr 0 n) j = Some (carrier_bit buf addr j).
Proof.
  intros Hj. unfold at_index, carrier_bits. destruct (Z.ltb_spec j 0); [lia|].
  change (map ?f ?l) with (f <$> l). rewrite list_lookup_fmap, lookup_seq_lt by lia.
  cbn. do 2 f_equal. lia.
Qed.

Lemma pack_byte_carrier (buf : list Z) (addr : Z -> Z) (n : nat) (k : Z) :
  0 <= k -> 8 * k + 8 <= Z.of_nat n ->
  pack_byte (carrier_bits buf addr 0 n) k = carrier_byte buf addr (8 * k).
Proof.
  intros Hk Hn. rewrite carrier_byte_weights. unfold pack_byte. cbn [fold_left].
  rewrite !at_index_carrier_bits by lia. cbn [ToInt32 default].
  replace (k * 8 + 0) with (8 * k) by lia. replace (k * 8 + 1) with (8 * k + 1) by lia.
  replace (k * 8 + 2) with (8 * k + 2) by lia. replace (k * 8 + 3) with (8 * k + 3) by lia.
  replace (k * 8 + 4) with (8 * k + 4) by lia. replace (k * 8 + 5) with (8 * k + 5) by lia.
  replace (k * 8 + 6) with (8 * k + 6) by lia. replace (k * 8 + 7) with (8 * k + 7) by lia.
  destruct (carrier_bit_01 buf addr (8 * k)) as [-> | ->];
    destruct (carrier_bit_01 buf addr (8 * k + 1)) as [-> | ->];
    destruct (carrier_bit_01 buf addr (8 * k + 2)) as [-> | ->];
    destruct (carrier_bit_01 buf addr (8 * k + 3)) as [-> | ->];
    destruct (carrier_bit_01 buf addr (8 * k + 4)) as [-> | ->];
    destruct (carrier_bit_01 buf addr (8 * k + 5)) as [-> | ->];
    destruct (carrier_bit_01 buf addr (8 * k + 6)) as [-> | ->];
    destruct (carrier_bit_01 buf addr (8 * k + 7)) as [-> | ->]; reflexivity.
Qed.

Lemma extractImageBitPlaneBytes_carrier (data : list Z) :
  extractImageBitPlaneBytes data 0
  = carrier_bytes data rgba_offset 0 (Z.to_nat (3 * ((buf_length data + 3) / 4) / 8)).
Proof.
  unfold extractImageBitPlaneBytes. cbv zeta. rewrite image_plane_bits_carrier.
  set (n := Z.to_nat ((buf_length data + 3) / 4)).
  assert (Hn : Z.of_nat n = (buf_length data + 3) / 4).
  { subst n. pose proof (buf_length_nonneg data). lia. }
  unfold buf_length at 1. rewrite length_carrier_bits.
  replace (Z.of_nat (3 * n) / 8) with (3 * ((buf_length data + 3) / 4) / 8) by (f_equal; lia).
  unfold carrier_bytes. apply map_ext_in. intros k Hk. apply in_seq in Hk.
  rewrite pack_byte_carrier by lia.
  rewrite Z.mod_small by apply carrier_byte_range. f_equal; lia.
Qed.

Lemma take_carrier_bytes (buf : list Z) (addr : Z -> Z) (i : Z) (n m : nat) :
  (n <= m)%nat -> take n (carrier_bytes buf addr i m) = carrier_bytes buf addr i n.
Proof.
  intros Hnm. unfold carrier_bytes. rewrite firstn_map, take_seq. by rewrite Nat.min_l.
Qed.

(** X23. The analyzer and the server read a picture alike.  The bytes the
    analyzer extracts from bit plane 0 of a picture are the bytes the
    image reader of the extract route reads from it, from the first bit to
    the last whole byte of the capacity.  Hence the plane 0 bytes of a
    stego picture begin with the payload the embed route wrote. *)
Theorem extractImageBitPlaneBytes_reads_payload `{Platform} (width height : Z) :
  (forall data,
      buf_length data = width * height * 4 ->
      imageReader data width height (width * height * 3 / 8) 0
      = Ret (extractImageBitPlaneBytes data 0, 8 * (width * height * 3 / 8))) /\
  (forall data payload usedBits stego,
      buf_length data = width * height * 4 -> Forall is_byte payload ->
      embedLSB_RGBA data width height payload = (EmbedOk usedBits, stego) ->
      take (length payload) (extractImageBitPlaneBytes stego 0) = payload).
Proof.
  split.
  - intros data Hlen. pose proof (buf_length_nonneg data) as Hnn.
    unfold imageReader. rewrite Buffer_alloc_fails_false by (try right; lia).
    rewrite image_read_loop_eq, read_loop_ok by lia.
    rewrite extractImageBitPlaneBytes_carrier, Hlen. do 3 f_equal; lia.
  - intros data payload usedBits stego Hlen Hbytes Hembed.
    pose proof (buf_length_nonneg data) as Hnn.
    destruct (Z.le_gt_cases (bitsNeeded (buf_length payload)) (width * height * 3))
      as [Hcap|Hcap]; [|by rewrite embedLSB_RGBA_full in Hembed by lia].
    rewrite embedLSB_RGBA_ok in Hembed by done. injection Hembed as _ <-.
    rewrite extractImageBitPlaneBytes_carrier. unfold buf_length at 1.
    rewrite write_bits_length. fold (buf_length data). rewrite Hlen.
    rewrite take_carrier_bytes by (unfold bitsNeeded, buf_length in Hcap; lia).
    apply carrier_bytes_after_write; [apply rgba_offset_mono| |done].
    intros i Hi. eapply rgba_offsets_in_range; [done|exact Hcap|unfold bitsNeeded; lia].
Qed.

(** ** The signature scan *)

Lemma arrayEq_occurs (bytes sig : list Z) (i : nat) :
  (i < length bytes)%nat ->
  (Z.of_nat i + buf_length sig <=? buf_length bytes) && arrayEq bytes sig (Z.of_nat i) = true
  <-> take (length sig) (drop i bytes) = sig.
Proof.
  intros Hi.
  assert (Hat : forall k : nat,
             at_index bytes (Z.of_nat i + Z.of_nat k) = bytes !! (i + k)%nat).
  { intros k. unfold at_index. destruct (Z.ltb_spec (Z.of_nat i + Z.of_nat k) 0); [lia|].
    f_equal. lia. }
  rewrite andb_true_iff, Z.leb_le. unfold arrayEq, buf_length. rewrite forallb_forall. split.
  - intros [Hlen Hall]. apply list_eq. intros k.
    destruct (decide (k < length sig)%nat) as [Hk|Hk].
    + rewrite lookup_take_lt, lookup_drop by done. rewrite <- Hat.
      assert (Hin : In k (seq 0 (length sig))) by (apply in_seq; lia).
      apply Hall in Hin. by apply bool_decide_eq_true_1 in Hin.
    + rewrite lookup_take_ge by lia. symmetry. apply lookup_ge_None. lia.
  - intros Heq. assert (Hlen : (i + length sig <= length bytes)%nat).
    { apply (f_equal length) in Heq. rewrite length_take, length_drop in Heq. lia. }
    split; [lia|]. intros k Hk%in_seq. apply bool_decide_eq_true_2.
    rewrite Hat, <- lookup_drop. rewrite <- Heq at 1. by rewrite lookup_take_lt by lia.
Qed.

Lemma scan_signature_returned (bytes : list Z) (limitHits i : Z)
    (sigs : list (list Z * list Z)) (hits : list (list Z * Z)) :
  fold_left (scan_signature bytes limitHits i) sigs (hits, true) = (hits, true).
Proof. induction sigs as [|m sigs IH]; [done|]. cbn [fold_left scan_signature]. apply IH. Qed.

Lemma scan_signature_fold (bytes : list Z) (limitHits : Z) (i : nat)
    (sigs : list (list Z * list Z)) (hits : list (list Z * Z)) :
  (i < length bytes)%nat ->
  let found :=
    map (fun m : list Z * list Z => (m.1, Z.of_nat i))
        (filter (fun m : list Z * list Z => take (length m.2) (drop i bytes) = m.2) sigs) in
  let room := Z.to_nat (Z.max 1 (limitHits - Z.of_nat (length hits))) in
  fold_left (scan_signature bytes limitHits (Z.of_nat i)) sigs (hits, false)
  = (hits ++ take room found, bool_decide (room <= length found)%nat).
Proof.
  intros Hi. cbv zeta. revert hits. induction sigs as [|m sigs IH]; intros hits.
  - cbn. rewrite take_nil, app_nil_r. by rewrite bool_decide_eq_false_2 by lia.
  - cbn [fold_left]. unfold scan_signature at 2.
    destruct ((Z.of_nat i + buf_length m.2 <=? buf_length bytes)
              && arrayEq bytes m.2 (Z.of_nat i)) eqn:Hm.
    + apply arrayEq_occurs in Hm; [|done]. rewrite filter_cons_True by done. cbn [map length].
      rewrite length_app. cbn [length].
      destruct (Z.geb_spec (Z.of_nat (length hits + 1)) limitHits) as [Hfull|Hroom].
      * rewrite scan_signature_returned.
        replace (Z.to_nat (Z.max 1 (limitHits - Z.of_nat (length hits)))) with 1%nat by lia.
        cbn [take]. by rewrite bool_decide_eq_true_2 by lia.
      * rewrite IH, length_app. cbn [length].
        replace (Z.to_nat (Z.max 1 (limitHits - Z.of_nat (length hits))))
          with (S (Z.to_nat (Z.max 1 (limitHits - Z.of_nat (length hits + 1))))) by lia.
        cbn [take]. rewrite <- app_assoc. cbn [app]. f_equal.
        apply bool_decide_ext. lia.
    + assert (Hno : ~ take (length m.2) (drop i bytes) = m.2).
      { intros Heq. apply arrayEq_occurs in Heq; [congruence|done]. }
      rewrite filter_cons_False by done. apply IH.
Qed.

Lemma scan_offsets_returned (bytes : list Z) (limitHits : Z) (offsets : list nat)
    (hits : list (list Z * Z)) :
  fold_left
    (fun st i => fold_left (scan_signature bytes limitHits (Z.of_nat i)) MAGIC_SIGNATURES st)
    offsets (hits, true)
  = (hits, true).
Proof.
  induction offsets as [|i offsets IH]; [done|]. cbn [fold_left].
  by rewrite scan_signature_returned.
Qed.

Lemma scan_offsets_fold (bytes : list Z) (limitHits : Z) (offsets : list nat)
    (hits : list (list Z * Z)) :
  Forall (fun i => (i < length bytes)%nat) offsets ->
  let found :=
    flat_map
      (fun i =>
         map (fun m : list Z * list Z => (m.1, Z.of_nat i))
             (filter (fun m : list Z * list Z => take (length m.2) (drop i bytes) = m.2)
                     MAGIC_SIGNATURES))
      offsets in
  let room := Z.to_nat (Z.max 1 (limitHits - Z.of_nat (length hits))) in
  fold_left
    (fun st i => fold_left (scan_signature bytes limitHits (Z.of_nat i)) MAGIC_SIGNATURES st)
    offsets (hits, false)
  = (hits ++ take room found, bool_decide (room <= length found)%nat).
Proof.
  intros Hoffsets. cbv zeta. revert hits.
  induction Hoffsets as [|i offsets Hi _ IH]; intros hits.
  - cbn. rewrite take_nil, app_nil_r. by rewrite bool_decide_eq_false_2 by lia.
  - cbn [fold_left flat_map]. rewrite scan_signature_fold by done. cbv zeta.
    set (here := map _ (filter _ MAGIC_SIGNATURES)).
    set (room := Z.to_nat (Z.max 1 (limitHits - Z.of_nat (length hits)))).
    destruct (decide (room <= length here)%nat) as [Hfull|Hroom].
    + rewrite bool_decide_eq_true_2 by done. rewrite scan_offsets_returned.
      rewrite take_app_le by done. rewrite length_app.
      by rewrite bool_decide_eq_true_2 by lia.
    + rewrite bool_decide_eq_false_2 by done. rewrite (take_ge here) by lia.
      rewrite IH, !length_app. rewrite take_app_ge by lia. rewrite <- app_assoc.
      replace (Z.to_nat (Z.max 1 (limitHits - Z.of_nat (length hits + length here))))
        with (room - length here)%nat by lia.
      do 2 f_equal. apply bool_decide_ext. lia.
Qed.

(** X24. [scanForSignatures] returns the occurrences of the signatures in
    the bytes, in the order of their offsets and, at one offset, of the
    table, cut after the first [limitHits] of them, and after the first
    when [limitHits] is below 1. *)
Theorem scanForSignatures_occurrences (bytes : list Z) (limitHits : Z) :
  scanForSignatures bytes limitHits
  = take (Z.to_nat (Z.max 1 limitHits)) (signature_occurrences bytes).
Proof.
  unfold scanForSignatures, signature_occurrences. rewrite scan_offsets_fold.
  - cbv zeta. cbn [fst length app]. by rewrite Z.sub_0_r.
  - apply Forall_forall. intros i Hi%list_elem_of_In%in_seq. lia.
Qed.

(** ** [packBitsToBytes] *)

Lemma packBitsToBytes_loop_fills (bits : list Z) (msbFirst : bool) (stride start : Z)
    (M : nat) :
  1 <= stride -> 0 <= start ->
  8 * Z.of_nat M <= (buf_length bits - start) / stride ->
  forall (fuel k : nat),
    (k < M)%nat -> (M - k <= fuel)%nat ->
    packBitsToBytes_loop fuel bits msbFirst stride (start + 8 * stride * Z.of_nat k)
      (Z.of_nat k)
      (map (fun j => pack_strided bits msbFirst stride (start + 8 * stride * Z.of_nat j)
                     mod 256) (seq 0 k)
       ++ repeat 0 (M - k))
    = Ret (map (fun j => pack_strided bits msbFirst stride (start + 8 * stride * Z.of_nat j)
                         mod 256) (seq 0 M)).
Proof.
  intros Hstride Hstart HM.
  set (g := fun j => pack_strided bits msbFirst stride (start + 8 * stride * Z.of_nat j)
                     mod 256).
  assert (Hdiv : (buf_length bits - start) / stride * stride <= buf_length bits - start).
  { rewrite Z.mul_comm. apply Z.mul_div_le. lia. }
  induction fuel as [|fuel IH]; intros k Hk Hfuel; [lia|].
  cbn [packBitsToBytes_loop].
  assert (Hin : (8 * Z.of_nat k + 7) * stride
                <= ((buf_length bits - start) / stride - 1) * stride)
    by (apply Z.mul_le_mono_nonneg_r; lia).
  destruct (Z.ltb_spec (start + 8 * stride * Z.of_nat k + 7 * stride) (buf_length bits));
    [|lia].
  assert (Hstore : store (map g (seq 0 k) ++ repeat 0 (M - k)) (Z.of_nat k)
                         (pack_strided bits msbFirst stride (start + 8 * stride * Z.of_nat k))
                   = map g (seq 0 (S k)) ++ repeat 0 (M - S k)).
  { unfold store. destruct (Z.ltb_spec (Z.of_nat k) 0); [lia|]. rewrite Nat2Z.id.
    rewrite insert_app_r_alt by (rewrite length_map, length_seq; lia).
    rewrite length_map, length_seq, Nat.sub_diag.
    replace (M - k)%nat with (S (M - S k)) by lia. cbn [repeat].
    rewrite seq_S, map_app, <- app_assoc. done. }
  rewrite Hstore.
  assert (Hlen : buf_length (map g (seq 0 (S k)) ++ repeat 0 (M - S k)) = Z.of_nat M).
  { unfold buf_length. rewrite length_app, length_map, length_seq, repeat_length. lia. }
  rewrite Hlen. destruct (Z.geb_spec (Z.of_nat k + 1) (Z.of_nat M)) as [Hlast|Hmore].
  - replace (S k) with M by lia. by rewrite Nat.sub_diag, app_nil_r.
  - replace (start + 8 * stride * Z.of_nat k + 8 * stride)
      with (start + 8 * stride * Z.of_nat (S k)) by lia.
    replace (Z.of_nat k + 1) with (Z.of_nat (S k)) by lia.
    apply IH; lia.
Qed.

Lemma packBitsToBytes_fits (bits : list Z) (msbFirst : bool) (stride start : Z) :
  1 <= stride -> 0 <= start -> start <= buf_length bits ->
  packBitsToBytes bits msbFirst stride start
  = Ret (map (fun j => pack_strided bits msbFirst stride (start + 8 * stride * Z.of_nat j)
                       mod 256)
             (seq 0 (Z.to_nat ((buf_length bits - start) / stride / 8)))).
Proof.
  intros Hstride Hstart Hfits. unfold packBitsToBytes.
  destruct (Z.ltb_spec stride 1); [lia|]. destruct (Z.ltb_spec start 0); [lia|].
  cbn [orb]. cbv zeta.
  assert (HN : 0 <= (buf_length bits - start) / stride) by (apply Z.div_pos; lia).
  assert (HNle : (buf_length bits - start) / stride <= buf_length bits - start)
    by (apply Z.div_le_upper_bound; nia).
  destruct (Z.ltb_spec ((buf_length bits - start) / stride / 8) 0); [lia|].
  set (M := Z.to_nat ((buf_length bits - start) / stride / 8)).
  destruct M as [|M'] eqn:HM.
  - cbn [repeat seq map]. destruct (length bits) as [|fuel] eqn:Hlen.
    + cbn [packBitsToBytes_loop]. unfold buf_length. rewrite Hlen.
      by destruct (Z.ltb_spec (start + 7 * stride) (Z.of_nat 0)); [lia|].
    + cbn [packBitsToBytes_loop]. by destruct (_ <? _).
  - rewrite <- HM.
    pose proof (packBitsToBytes_loop_fills bits msbFirst stride start M Hstride Hstart)
      as Hfill.
    specialize (Hfill ltac:(lia) (length bits) 0%nat ltac:(lia)).
    replace (start + 8 * stride * Z.of_nat 0) with start in Hfill by lia.
    rewrite Nat.sub_0_r in Hfill. apply Hfill. unfold buf_length in *. lia.
Qed.

Lemma packBitsToBytes_short (bits : list Z) (msbFirst : bool) (stride start : Z) :
  1 <= stride -> 0 <= start -> buf_length bits < start ->
  packBitsToBytes bits msbFirst stride start = Throw RangeError.
Proof.
  intros Hstride Hstart Hshort. unfold packBitsToBytes.
  destruct (Z.ltb_spec stride 1); [lia|]. destruct (Z.ltb_spec start 0); [lia|].
  cbn [orb]. cbv zeta.
  assert (HN : (buf_length bits - start) / stride < 0) by (apply Z.div_lt_upper_bound; lia).
  by destruct (Z.ltb_spec ((buf_length bits - start) / stride / 8) 0); [|lia].
Qed.

(** X25. [packBitsToBytes], for a positive stride and a start that is not
    negative.  A start beyond the end of the bits makes the function fail
    with the [RangeError] of a negative array length.  Otherwise the
    function returns [(bits.length - start) / stride / 8] bytes, rounded
    down, and has written every one of them: byte [k] packs the eight bits
    at [start + (8 k + b) * stride]. *)
Theorem packBitsToBytes_bytes (bits : list Z) (msbFirst : bool) (stride start : Z) :
  1 <= stride -> 0 <= start ->
  packBitsToBytes bits msbFirst stride start
  = if buf_length bits <? start then Throw RangeError
    else
      Ret (map (fun k => pack_strided bits msbFirst stride (start + 8 * stride * Z.of_nat k)
                         mod 256)
               (seq 0 (Z.to_nat ((buf_length bits - start) / stride / 8)))).
Proof.
  intros Hstride Hstart. destruct (Z.ltb_spec (buf_length bits) start) as [Hshort|Hfits].
  - by apply packBitsToBytes_short.
  - by apply packBitsToBytes_fits.
Qed.

(** ** The analyzer's bit plane 0 of a 16-bit WAV file *)

Lemma int16_lsb (lo hi : Z) : Z.land (int16 lo hi) 1 = Z.land lo 1.
Proof.
  change 1 with (Z.ones 1). rewrite !Z.land_ones by lia. change (2 ^ 1) with 2.
  unfold int16. cbv zeta. destruct (lo + 256 * hi <? 32768); lia.
Qed.

Lemma extractAudioBitPlane_carrier (wav samples : list Z) (dataOffset n : Z) :
  Int16Array_view wav dataOffset n = Ret samples ->
  0 <= dataOffset /\ 0 <= n /\ dataOffset + 2 * n <= buf_length wav /\
  extractAudioBitPlane samples 0 = carrier_bits wav (wav_offset dataOffset 2) 0 (Z.to_nat n).
Proof.
  unfold Int16Array_view.
  destruct (Z.ltb_spec dataOffset 0); [done|]. destruct (negb (dataOffset mod 2 =? 0)); [done|].
  destruct (Z.ltb_spec n 0); [done|].
  destruct (Z.ltb_spec (buf_length wav) (dataOffset + 2 * n)); [done|].
  cbn [orb]. intros [= <-]. split; [done|]. split; [done|]. split; [done|].
  unfold extractAudioBitPlane, carrier_bits. rewrite map_map. apply map_ext. intros k.
  rewrite plane_bit_0. change (ToInt32 (Some ?x)) with x. rewrite int16_lsb. unfold carrier_bit, wav_offset.
  do 3 f_equal. lia.
Qed.

Lemma pack_strided_carrier (buf : list Z) (addr : Z -> Z) (n : nat) (k : Z) :
  0 <= k -> 8 * k + 8 <= Z.of_nat n ->
  pack_strided (carrier_bits buf addr 0 n) true 1 (0 + 8 * 1 * k) = carrier_byte buf addr (8 * k).
Proof.
  intros Hk Hn. rewrite <- (pack_byte_carrier buf addr n k) by done.
  unfold pack_strided, pack_byte. cbn [fold_left].
  replace (0 + 8 * 1 * k + 0 * 1) with (k * 8 + 0) by lia.
  replace (0 + 8 * 1 * k + 1 * 1) with (k * 8 + 1) by lia.
  replace (0 + 8 * 1 * k + 2 * 1) with (k * 8 + 2) by lia.
  replace (0 + 8 * 1 * k + 3 * 1) with (k * 8 + 3) by lia.
  replace (0 + 8 * 1 * k + 4 * 1) with (k * 8 + 4) by lia.
  replace (0 + 8 * 1 * k + 5 * 1) with (k * 8 + 5) by lia.
  replace (0 + 8 * 1 * k + 6 * 1) with (k * 8 + 6) by lia.
  replace (0 + 8 * 1 * k + 7 * 1) with (k * 8 + 7) by lia.
  done.
Qed.

Lemma packBitsToBytes_carrier (buf : list Z) (addr : Z -> Z) (n : nat) :
  packBitsToBytes (carrier_bits buf addr 0 n) true 1 0
  = Ret (carrier_bytes buf addr 0 (Z.to_nat (Z.of_nat n / 8))).
Proof.
  rewrite packBitsToBytes_fits by (unfold buf_length; lia).
  unfold buf_length. rewrite length_carrier_bits, Z.sub_0_r, Z.div_1_r.
  f_equal. unfold carrier_bytes. apply map_ext_in. intros k Hk%in_seq.
  rewrite pack_strided_carrier by lia.
  rewrite Z.mod_small by apply carrier_byte_range. f_equal; lia.
Qed.

(** X26. The analyzer and the server read a 16-bit WAV file alike.  For
    samples that are the 16-bit view of the data chunk, the bytes that the
    analyzer packs from bit plane 0 (stride 1, most significant bit first,
    from the first bit) are the bytes the audio reader of the extract route
    reads, from the first sample to the last whole byte.  Hence these bytes
    of a stego file begin with the payload the embed route wrote. *)
Theorem extractAudioBitPlane_reads_payload `{Platform} (dataOffset dataLength : Z) :
  (forall wav samples,
      Int16Array_view wav dataOffset (dataLength / 2) = Ret samples ->
      exists bytes,
        packBitsToBytes (extractAudioBitPlane samples 0) true 1 0 = Ret bytes /\
        audioReader wav dataOffset (dataLength / 2) 2 (dataLength / 2 / 8) 0
        = Ret (bytes, 8 * (dataLength / 2 / 8))) /\
  (forall wav payload usedBits stego samples,
      Forall is_byte payload ->
      embedLSB_WavPCM wav payload dataOffset dataLength 16 = (EmbedOk usedBits, stego) ->
      Int16Array_view stego dataOffset (dataLength / 2) = Ret samples ->
      exists bytes,
        packBitsToBytes (extractAudioBitPlane samples 0) true 1 0 = Ret bytes /\
        take (length payload) bytes = payload).
Proof.
  split.
  - intros wav samples Hview.
    apply extractAudioBitPlane_carrier in Hview as (Hoff & Hn & Hend & ->).
    eexists. split; [apply packBitsToBytes_carrier|].
    unfold audioReader. rewrite Buffer_alloc_fails_false by (try right; lia).
    rewrite (Z2Nat.id (dataLength / 2)) by done.
    rewrite audio_read_loop_eq, read_loop_ok by lia. do 2 f_equal. lia.
  - intros wav payload usedBits stego samples Hbytes Hembed Hview.
    apply extractAudioBitPlane_carrier in Hview as (Hoff & Hn & Hend & ->).
    eexists. split; [apply packBitsToBytes_carrier|].
    rewrite (Z2Nat.id (dataLength / 2)) by done.
    change 16 with (2 * 8) in Hembed.
    destruct (Z.le_gt_cases (bitsNeeded (buf_length payload)) (dataLength / 2))
      as [Hcap|Hcap].
    + rewrite embedLSB_WavPCM_ok in Hembed by (change (2 * 8 / 8) with 2; done).
      change (2 * 8 / 8) with 2 in Hembed. injection Hembed as _ <-.
      rewrite take_carrier_bytes by (unfold bitsNeeded, buf_length in Hcap; lia).
      unfold buf_length in Hend. rewrite write_bits_length in Hend. fold (buf_length wav) in Hend.
      apply carrier_bytes_after_write; [intros a b Hab; apply wav_offset_mono; lia| |done].
      intros i Hi. unfold wav_offset. unfold bitsNeeded in Hcap. lia.
    + unfold embedLSB_WavPCM in Hembed. change (2 * 8 / 8) with 2 in Hembed. cbv zeta in Hembed.
      by destruct (Z.gtb_spec (bitsNeeded (buf_length payload)) (dataLength / 2)); [|lia].
Qed.

(** ** [tryHeaderRecoveryFromBits] *)

Lemma pack_attempts_fit (bits : list Z) (todo : list (Z * bool * Z)) :
  Forall (fun t : Z * bool * Z => 1 <= t.1.1 /\ 0 <= t.2 <= buf_length bits) todo ->
  exists attempts, pack_attempts bits todo = Ret attempts /\ length attempts = length todo.
Proof.
  induction 1 as [|[[stride msbFirst] start] todo [Hstride Hstart] _ (attempts & IH & Hlen)].
  - by exists [].
  - cbn [pack_attempts fst snd] in *. rewrite packBitsToBytes_fits by lia.
    cbn [mbind outcome_bind]. rewrite IH. cbn [mbind outcome_bind].
    eexists. split; [reflexivity|]. cbn [length]. by rewrite Hlen.
Qed.

(** X27. [tryHeaderRecoveryFromBits] on few bits.  On fewer than two bits
    the function fails with a [RangeError], raised by the attempts that
    start at the second and the third bit.  On two bits or more it returns
    at most 24 entries, one for each attempt that has hits. *)
Theorem tryHeaderRecoveryFromBits_outcome (bits : list Z) :
  (buf_length bits < 2 -> tryHeaderRecoveryFromBits bits = Throw RangeError) /\
  (2 <= buf_length bits ->
   exists allHits,
     tryHeaderRecoveryFromBits bits = Ret allHits /\
     (length allHits <= 24)%nat /\
     Forall (fun a : Z * bool * list (list Z * Z) => a.2 <> []) allHits).
Proof.
  split.
  - intros Hshort. pose proof (buf_length_nonneg bits) as Hnn.
    unfold tryHeaderRecoveryFromBits, header_attempts. cbn [flat_map app pack_attempts].
    rewrite (packBitsToBytes_fits bits true 1 0) by lia. cbn [mbind outcome_bind].
    destruct (decide (buf_length bits = 0)) as [Hempty|Hone].
    + by rewrite (packBitsToBytes_short bits true 1 1) by lia.
    + rewrite (packBitsToBytes_fits bits true 1 1) by lia. cbn [mbind outcome_bind].
      by rewrite (packBitsToBytes_short bits true 1 2) by lia.
  - intros Hlong. unfold tryHeaderRecoveryFromBits.
    destruct (pack_attempts_fit bits header_attempts) as (attempts & -> & Hlen).
    { unfold header_attempts. cbn [flat_map app].
      repeat (apply Forall_cons; split; [cbn [fst snd]; lia|]). apply Forall_nil_2. }
    cbn [mbind outcome_bind]. eexists. split; [reflexivity|].
    change (length header_attempts) with 24%nat in Hlen. rewrite <- Hlen. clear Hlen. split.
    + induction attempts as [|a attempts IH]; [done|]. cbn [flat_map length].
      rewrite length_app. destruct (bool_decide _); cbn [length]; lia.
    + induction attempts as [|a attempts IH]; [apply Forall_nil_2|]. cbn [flat_map].
      apply Forall_app. split; [|done].
      destruct (bool_decide _) eqn:Hhits; [apply Forall_nil_2|].
      apply Forall_cons. split; [|apply Forall_nil_2]. cbn [snd].
      by apply bool_decide_eq_false_1 in Hhits.
Qed.

(** * The theorems at sample inputs *)



(** A 4 x 2 picture holds 24 bits: a payload of three bytes fills it. *)
Lemma embedLSB_RGBA_addressing_witness :
  bitsNeeded (buf_length [0; 85; 255]) <= 4 * 2 * 3 /\
  exists buf',
    embedLSB_RGBA (repeat 254 32) 4 2 [0; 85; 255] = (EmbedOk 24, buf') /\
    length buf' = 32%nat /\
    at_index buf' 3 = Some 254.
Proof.
  assert (Hcap : bitsNeeded (buf_length [0; 85; 255]) <= 4 * 2 * 3) by (vm_compute; discriminate).
  split; [exact Hcap|].
  destruct (embedLSB_RGBA_addressing (repeat 254 32) 4 2 [0; 85; 255] Hcap)
    as (buf' & Hrun & Hlen & _ & _ & Halpha & _).
  exists buf'. split; [exact Hrun|]. split; [exact Hlen|]. exact (Halpha 0).
Defined.


Lemma embed_capacity_boundary_witness :
  Forall is_byte [0; 85; 255] /\
  (exists buf', embedLSB_RGBA (repeat 254 32) 4 2 [0; 85; 255] = (EmbedOk 24, buf') /\
                carrier_bytes buf' rgba_offset 0 3 = [0; 85; 255]) /\
  (exists needKB haveKB,
      embedLSB_RGBA (repeat 254 28) 1 7 [0; 85; 255]
      = (EmbedError (NotEnoughCapacity needKB haveKB), repeat 254 28)) /\
  (exists buf', embedLSB_WavPCM (Fixtures.wav_file 16 1 8 (repeat 128 24)) [0; 85; 255] 44 24 8
                = (EmbedOk 24, buf')) /\
  (exists needKB haveKB,
      embedLSB_WavPCM (Fixtures.wav_file 16 1 16 (repeat 128 46)) [0; 85; 255] 44 46 16
      = (EmbedError (NotEnoughWavCapacity needKB haveKB),
         Fixtures.wav_file 16 1 16 (repeat 128 46))).
Proof.
  assert (Hbytes : Forall is_byte [0; 85; 255]) by (apply is_byte_sample; reflexivity).
  split; [exact Hbytes|].
  destruct (embed_capacity_boundary [0; 85; 255] Hbytes) as [Himage Haudio].
  split; [|split; [|split]].
  - destruct (Himage (repeat 254 32) 4 2 eq_refl) as [Hok _].
    destruct (Hok ltac:(vm_compute; discriminate)) as (buf' & Hrun & Hback).
    exists buf'. split; [exact Hrun|exact Hback].
  - destruct (Himage (repeat 254 28) 1 7 eq_refl) as [_ Hfull].
    destruct (Hfull eq_refl) as (needKB & haveKB & Hrun & _).
    exists needKB, haveKB. exact Hrun.
  - destruct (Haudio (Fixtures.wav_file 16 1 8 (repeat 128 24))
                {| hdr_dataOffset := 44; hdr_dataLength := 24;
                   hdr_fmt := {| audioFormat := 1; numChannels := 1; sampleRate := 8000;
                                 byteRate := 8000; blockAlign := 1; bitsPerSample := 8 |} |}
                ltac:(apply is_byte_sample; reflexivity) eq_refl) as [Hok _].
    destruct (Hok ltac:(vm_compute; discriminate)) as (buf' & Hrun & _).
    exists buf'. exact Hrun.
  - destruct (Haudio (Fixtures.wav_file 16 1 16 (repeat 128 46))
                {| hdr_dataOffset := 44; hdr_dataLength := 46;
                   hdr_fmt := {| audioFormat := 1; numChannels := 1; sampleRate := 8000;
                                 byteRate := 16000; blockAlign := 2; bitsPerSample := 16 |} |}
                ltac:(apply is_byte_sample; reflexivity) eq_refl) as [_ Hfull].
    destruct (Hfull eq_refl) as (needKB & haveKB & Hrun & _).
    exists needKB, haveKB. exact Hrun.
Defined.

Lemma wav_capacity_addressing_witness :
  Forall is_byte (Fixtures.wav_file 16 1 16 (repeat 128 48)) /\
  (exists h, parseWavHeader (Fixtures.wav_file 16 1 16 (repeat 128 48)) = Ret h /\
             bitsPerSample (hdr_fmt h) / 8 = 2 /\
             exists buf',
               embedLSB_WavPCM (Fixtures.wav_file 16 1 16 (repeat 128 48)) [0; 85; 255]
                               (hdr_dataOffset h) (hdr_dataLength h) (bitsPerSample (hdr_fmt h))
               = (EmbedOk 24, buf')).
Proof.
  assert (Hwav : Forall is_byte (Fixtures.wav_file 16 1 16 (repeat 128 48)))
    by (apply is_byte_sample; reflexivity).
  split; [exact Hwav|].
  eexists. split; [reflexivity|].
  destruct (@wav_capacity_addressing toy_platform
              (Fixtures.wav_file 16 1 16 (repeat 128 48)) [0; 85; 255]
              _ Hwav eq_refl) as (Hbps & Hok & _).
  split; [reflexivity|].
  destruct (Hok ltac:(vm_compute; discriminate)) as (buf' & Hrun & _).
  exists buf'. exact Hrun.
Defined.

Lemma packPayload_whitespace_text_witness :
  all_whitespace [32; 9; 160] /\ ~ all_whitespace [32; 104; 105; 32] /\
  packPayload [32; 9; 160] None = Throw NoSecretData /\
  packPayload [32; 104; 105; 32] None
  = Ret (MAGIC ++ [0; 0; 0; 79] ++ text_item_meta ++ str "4}]}" ++ [32; 104; 105; 32]).
Proof.
  assert (Hws : all_whitespace [32; 9; 160]).
  { repeat (apply Forall_cons; split; [reflexivity|]). apply Forall_nil_2. }
  assert (Hnws : ~ all_whitespace [32; 104; 105; 32]).
  { intros H. apply Forall_cons in H as [_ H]. apply Forall_cons in H as [H _]. discriminate H. }
  split; [exact Hws|]. split; [exact Hnws|]. split.
  - destruct (packPayload_whitespace_text [32; 9; 160] None) as [Hblank _].
    exact (proj2 (Hblank Hws)).
  - destruct (packPayload_whitespace_text [32; 104; 105; 32] None) as [_ Htext].
    destruct (Htext Hnws) as (rest & digits & tail & Hall). cbv zeta in Hall.
    destruct Hall as (_ & Hrest & Hpack & _). subst rest. rewrite Hpack. vm_compute. reflexivity.
Defined.


(** The envelope of three bytes under the password [pw]. *)
Lemma encrypt_envelope_gating_witness :
  @crypto_laws toy_crypto /\
  @encryptIfNeeded toy_crypto [1; 2; 3] [] 0 = ([1; 2; 3], 0) /\
  buf_length (@encryptIfNeeded toy_crypto [1; 2; 3] (str "pw") 0).1 = 5 + 16 + 12 + 16 + 4 + 3 /\
  @decryptEnvelope toy_crypto (@encryptIfNeeded toy_crypto [1; 2; 3] (str "pw") 0).1 []
  = Throw PasswordRequired.
Proof.
  split; [exact toy_laws|].
  destruct (@encrypt_envelope_gating toy_crypto [1; 2; 3] (str "pw") 0 toy_laws)
    as (Hplain & Hsealed & _).
  split; [exact Hplain|].
  destruct (Hsealed ltac:(discriminate)) as (Henv & _ & _ & _ & _ & _ & _ & Hpw).
  split; [|exact Hpw].
  rewrite Henv. vm_compute. reflexivity.
Defined.

(** A text and a file, under a password, in an 8-bit WAV cover of 2400
    samples. *)
Lemma embed_extract_roundtrip_witness :
  @crypto_laws toy_crypto /\
  cover_ok (AudioCarrier (Fixtures.wav_file 16 1 8 (repeat 128 (Z.to_nat 2400)))) /\
  exists stego,
    @handleEmbed toy_crypto
      (AudioCarrier (Fixtures.wav_file 16 1 8 (repeat 128 (Z.to_nat 2400)))) (str "hi")
      (Some {| buffer := [1; 2; 255]; originalname := str "a.bin"; mimetype := [] |})
      (str "pw") 0
    = Ret stego /\
    @handleExtract toy_crypto toy_platform stego (str "pw")
    = Ret [OutText (Some (JStr (str "message.txt"))) (Some (JStr (str "text/plain"))) (str "hi");
           OutFile (Some (JStr (str "a.bin"))) (Some (JStr (str "application/octet-stream")))
                   (base64_encode [1; 2; 255])].
Proof.
  assert (Hcover : cover_ok (AudioCarrier (Fixtures.wav_file 16 1 8 (repeat 128 (Z.to_nat 2400))))).
  { split; [apply is_byte_sample; vm_compute; reflexivity|].
    split; [vm_compute; reflexivity|]. eexists; vm_compute; reflexivity. }
  split; [exact toy_laws|]. split; [exact Hcover|].
  assert (Hsecrets : secrets_ok (str "hi")
                       (Some {| buffer := [1; 2; 255]; originalname := str "a.bin";
                                mimetype := [] |})).
  { split.
    + apply well_formed_ascii, ascii_sample. reflexivity.
    + split; [apply is_byte_sample; reflexivity|].
      split; [apply ascii_units, ascii_sample; reflexivity|apply Forall_nil_2]. }
  pose proof (@embed_extract_roundtrip toy_crypto toy_platform
            (AudioCarrier (Fixtures.wav_file 16 1 8 (repeat 128 (Z.to_nat 2400)))) (str "hi")
            (Some {| buffer := [1; 2; 255]; originalname := str "a.bin"; mimetype := [] |})
            (str "pw") 0 2400 toy_laws Hsecrets) as Hroundtrip.
  apply Hroundtrip.
  - vm_compute; discriminate.
  - vm_compute; reflexivity.
  - exact Hcover.
  - vm_compute; reflexivity.
  - vm_compute; discriminate.
Defined.

(** The 8-bit WAV file of 24 samples. *)
Lemma parseWavHeader_outcomes_witness :
  Forall is_byte (Fixtures.wav_file 16 1 8 (repeat 128 24)) /\
  exists h, parseWavHeader (Fixtures.wav_file 16 1 8 (repeat 128 24)) = Ret h /\
            hdr_dataOffset h = 44 /\ hdr_dataLength h = 24 /\ hdr_dataOffset h mod 2 = 0.
Proof.
  assert (Hwav : Forall is_byte (Fixtures.wav_file 16 1 8 (repeat 128 24)))
    by (apply is_byte_sample; reflexivity).
  split; [exact Hwav|].
  pose proof (parseWavHeader_outcomes _ Hwav) as Hout.
  destruct (parseWavHeader (Fixtures.wav_file 16 1 8 (repeat 128 24))) as [h| |] eqn:Hparse;
    [|discriminate Hparse..].
  exists h. split; [reflexivity|].
  injection Hparse as <-. destruct Hout as (_ & _ & _ & Heven & _).
  split; [reflexivity|]. split; [reflexivity|]. exact Heven.
Defined.

(** Three bytes embedded in the 8-bit WAV file of 24 samples. *)
Lemma embedAudio_keeps_header_witness :
  exists h stego,
    parseWavHeader (Fixtures.wav_file 16 1 8 (repeat 128 24)) = Ret h /\
    (embedAudio (Fixtures.wav_file 16 1 8 (repeat 128 24)) [0; 85; 255]).1 = Ret stego /\
    parseWavHeader stego = Ret h.
Proof.
  eexists. eexists. split; [reflexivity|]. split; [reflexivity|].
  refine (proj2 (proj2 (embedAudio_keeps_header
                          (Fixtures.wav_file 16 1 8 (repeat 128 24)) [0; 85; 255] _ _
                          _ _ eq_refl eq_refl))).
  - apply is_byte_sample. reflexivity.
  - reflexivity.
Defined.

(** An envelope of two ciphertext bytes in a picture of 20 x 20 pixels,
    read with a password under which the tag does not verify, and with
    none. *)
Lemma extractData_envelope_outcome_witness :
  let payload := envelope (repeat 1 16) (repeat 2 12) (repeat 3 16) [9; 9] in
  let stego := (write_bits rgba_offset (payload_bits payload) (repeat 0 (Z.to_nat 1600), 0)).1 in
  @extractData toy_crypto (@imageReader toy_platform stego 20 20) (str "pw") = Throw AuthFailed /\
  @extractData toy_crypto (@imageReader toy_platform stego 20 20) [] = Throw PasswordRequired.
Proof.
  intros payload stego.
  assert (Hrd : reads_stream (@imageReader toy_platform stego 20 20) payload).
  { apply imageReader_reads_stream; [reflexivity|vm_compute; discriminate|].
    apply is_byte_sample. reflexivity. }
  split.
  - rewrite (@extractData_envelope_outcome toy_crypto (@imageReader toy_platform stego 20 20)
               (repeat 1 16) (repeat 2 12) (repeat 3 16) [9; 9] (str "pw")
               eq_refl eq_refl eq_refl eq_refl Hrd).
    reflexivity.
  - rewrite (@extractData_envelope_outcome toy_crypto (@imageReader toy_platform stego 20 20)
               (repeat 1 16) (repeat 2 12) (repeat 3 16) [9; 9] []
               eq_refl eq_refl eq_refl eq_refl Hrd).
    reflexivity.
Defined.

(** A text and a PNG file. *)
Lemma parseContainer_packPayload_witness :
  exists containerBuf,
    packPayload (str "hi")
      (Some {| buffer := [137; 80; 78; 71]; originalname := str "a.png";
               mimetype := str "image/png" |})
    = Ret containerBuf /\
    parseContainer containerBuf
    = Ret [OutText (Some (JStr (str "message.txt"))) (Some (JStr (str "text/plain"))) (str "hi");
           OutFile (Some (JStr (str "a.png"))) (Some (JStr (str "image/png")))
                   (base64_encode [137; 80; 78; 71])].
Proof.
  refine (proj1 (parseContainer_packPayload (str "hi")
                   (Some {| buffer := [137; 80; 78; 71]; originalname := str "a.png";
                            mimetype := str "image/png" |}) _ _ _)).
  - split.
    + apply well_formed_ascii, ascii_sample. reflexivity.
    + split; [apply is_byte_sample; reflexivity|].
      split; apply ascii_units, ascii_sample; reflexivity.
  - vm_compute. discriminate.
  - vm_compute. reflexivity.
Defined.

(** Four bytes, which take one padding character. *)
Lemma base64ToBlob_base64_encode_witness :
  Forall is_byte [137; 80; 78; 71] /\
  base64_encode [137; 80; 78; 71] = str "iVBORw==" /\
  base64ToBlob (base64_encode [137; 80; 78; 71]) = Some [137; 80; 78; 71].
Proof.
  assert (Hbytes : Forall is_byte [137; 80; 78; 71]) by (apply is_byte_sample; reflexivity).
  split; [exact Hbytes|]. split; [reflexivity|].
  exact (proj2 (base64ToBlob_base64_encode [137; 80; 78; 71] Hbytes)).
Defined.

Lemma sizeFromBase64_base64_encode_witness :
  Forall is_byte [137; 80; 78; 71; 13] /\
  sizeFromBase64 (base64_encode [137; 80; 78; 71; 13]) = 5.
Proof.
  assert (Hbytes : Forall is_byte [137; 80; 78; 71; 13]) by (apply is_byte_sample; reflexivity).
  split; [exact Hbytes|]. exact (sizeFromBase64_base64_encode [137; 80; 78; 71; 13] Hbytes).
Defined.

(** One text item, with and without a password. *)
Lemma payload_size_witness :
  @crypto_laws toy_crypto /\
  let items := packPayload_items (str "hi") None in
  buf_length (@encryptIfNeeded toy_crypto (container_of items) (str "pw") 0).1
  = 53 + buf_length (container_of items) /\
  buf_length (@encryptIfNeeded toy_crypto (container_of items) [] 0).1
  = buf_length (container_of items).
Proof.
  split; [exact toy_laws|]. intros items. split.
  - exact (proj1 (proj2 (@payload_size toy_crypto items (str "pw") 0 toy_laws))).
  - exact (proj1 (proj2 (@payload_size toy_crypto items [] 0 toy_laws))).
Defined.

(** A text and a picture embedded with a password in the 8-bit WAV file of
    2400 samples, uploaded as [audio/wave] and read back as [audio/x-wav]. *)
Lemma handlers_roundtrip_wav_witness :
  exists body,
    @handleEmbed_response toy_crypto toy_sharp
      (Some {| buffer := Fixtures.wav_file 16 1 8 (repeat 128 (Z.to_nat 2400));
               originalname := str "my song.wav"; mimetype := str "audio/wave" |})
      (Some {| buffer := [1; 2; 255]; originalname := str "a.png"; mimetype := str "image/png" |})
      (str "hi") (str "pw") 0
    = Ret (SendFile (str "audio/wav") (stego_wav_disposition (str "my song.wav")) body) /\
    fileFilter_cb (str "audio/wave") = Ret tt /\
    fileFilter_cb (str "image/png") = Ret tt /\
    fileFilter_cb (str "audio/x-wav") = Ret tt /\
    @handleExtract_response toy_crypto toy_platform toy_sharp
      (Some {| buffer := body; originalname := str "my_song_stego.wav";
               mimetype := str "audio/x-wav" |})
      (str "pw")
    = Ret (JsonItems
             [OutText (Some (JStr (str "message.txt"))) (Some (JStr (str "text/plain")))
                      (str "hi");
              OutFile (Some (JStr (str "a.png"))) (Some (JStr (str "image/png")))
                      (base64_encode [1; 2; 255])]).
Proof.
  pose (secret := {| buffer := [1; 2; 255]; originalname := str "a.png";
                     mimetype := str "image/png" |}).
  pose (cover := {| buffer := Fixtures.wav_file 16 1 8 (repeat 128 (Z.to_nat 2400));
                    originalname := str "my song.wav"; mimetype := str "audio/wave" |}).
  assert (Hsecrets : secrets_ok (str "hi") (Some secret)).
  { split.
    + apply well_formed_ascii, ascii_sample. reflexivity.
    + split; [apply is_byte_sample; reflexivity|].
      split; apply ascii_units, ascii_sample; reflexivity. }
  assert (Hfile : forall f, Some secret = Some f ->
                            image_type (mimetype f) \/ wav_type (mimetype f)).
  { intros f [= <-]. left. by exists (str "png"). }
  assert (Hnot_ws : ~ all_whitespace (str "hi")).
  { intros Hws. apply Forall_cons in Hws as [Hc _]. discriminate Hc. }
  assert (Hroundtrip :
    @fileFilter_cb (mimetype cover) = Ret tt /\
    (forall f, Some secret = Some f -> fileFilter_cb (mimetype f) = Ret tt) /\
    exists body text,
      @handleEmbed_response toy_crypto toy_sharp (Some cover) (Some secret)
        (str "hi") (str "pw") 0
      = Ret (SendFile (str "audio/wav") (stego_wav_disposition (originalname cover)) body) /\
      (all_whitespace (str "hi") -> text = []) /\
      (~ all_whitespace (str "hi") ->
       text = [OutText (Some (JStr (str "message.txt"))) (Some (JStr (str "text/plain")))
                       (str "hi")]) /\
      forall stego,
        buffer stego = body -> wav_type (mimetype stego) ->
        fileFilter_cb (mimetype stego) = Ret tt /\
        @handleExtract_response toy_crypto toy_platform toy_sharp (Some stego) (str "pw")
        = Ret (JsonItems
                 (text ++ [OutFile (Some (JStr (if bool_decide (originalname secret = [])
                                                then str "secret" else originalname secret)))
                                   (Some (JStr (mimetype secret)))
                                   (base64_encode (buffer secret))]))).
  { let r := eval vm_compute in (parseWavHeader (buffer cover)) in
    match r with
    | Ret ?h =>
        apply (@handlers_roundtrip_wav toy_crypto toy_platform toy_sharp cover h (str "hi")
                 (Some secret) (str "pw") 0 toy_laws Hsecrets)
    end.
    - vm_compute; discriminate.
    - vm_compute; reflexivity.
    - right; right; reflexivity.
    - exact Hfile.
    - apply is_byte_sample; vm_compute; reflexivity.
    - vm_compute; reflexivity.
    - vm_compute; reflexivity.
    - vm_compute; discriminate. }
  destruct Hroundtrip as (Hcover & Hsecret & body & text & Hembed & _ & Htext & Hextract).
  destruct (Hextract {| buffer := body; originalname := str "my_song_stego.wav";
                        mimetype := str "audio/x-wav" |} eq_refl
              ltac:(right; left; reflexivity)) as [Hstego Hitems].
  exists body. split; [exact Hembed|]. split; [exact Hcover|].
  split; [exact (Hsecret secret eq_refl)|]. split; [exact Hstego|].
  rewrite Hitems, (Htext Hnot_ws). reflexivity.
Defined.

(** Seventeen bits packed from the second on, every other one, least
    significant bit first; and one bit packed from the third on. *)
Lemma packBitsToBytes_bytes_witness :
  packBitsToBytes [0; 1; 0; 0; 0; 0; 0; 1; 0; 1; 0; 0; 0; 0; 0; 0; 0] false 2 1 = Ret [25] /\
  packBitsToBytes [1] true 1 2 = Throw RangeError.
Proof.
  split.
  - rewrite (packBitsToBytes_bytes
               [0; 1; 0; 0; 0; 0; 0; 1; 0; 1; 0; 0; 0; 0; 0; 0; 0] false 2 1) by lia.
    reflexivity.
  - rewrite (packBitsToBytes_bytes [1] true 1 2) by lia. reflexivity.
Defined.
